(** * Mesh and block-tree core of the solver (mesh.cpp)

    A shallow embedding of the functions of [src/mesh.cpp] that decide the
    block distribution, the time step, the neighbour search and the tree
    manipulation of the adaptive mesh refinement step, with the properties
    proved about them.

    Conventions of the embedding.
    - C++ [int] and [long int] values are integers of [Z]; the index
      arithmetic modelled here stays far below the machine range, and the bit
      operations [x&1L] and [x>>1] are [Z.land x 1] and [Z.shiftr x 1].
    - [Real] is modelled by the exact rationals [Q]: comparisons and
      [std::min]/[std::max] are exact, rounding is outside the model.
    - An array is a list; reading past its end is [None] (the C++ program has
      no defined behaviour there), writing is stdpp's in-place insert.
    - A function that throws returns [Fatal]. *)

From Stdlib Require Import ZArith QArith Qminmax Qabs Lia Lqa Bool Sorted.
From stdpp Require Import base list.

Local Open Scope Z_scope.

(** ** Results of functions that may throw *)

Inductive result (A : Type) : Type :=
| Ok (a : A)
| Fatal.
Arguments Ok {A} a.
Arguments Fatal {A}.

Definition is_ok {A} (r : result A) : bool :=
  match r with Ok _ => true | Fatal => false end.

(** ** Real numbers *)

Abbreviation Real := Q.

(** [FLT_MAX] of <cfloat>: (2 - 2^-23) * 2^127. *)
Definition FLT_MAX : Real := inject_Z (2 ^ 128 - 2 ^ 104).

(** [std::min(a,b)] is [(b < a) ? b : a], [std::max(a,b)] is [(a < b) ? b : a]. *)
Definition Qlt_bool (a b : Q) : bool := negb (Qle_bool b a).
Definition std_min (a b : Real) : Real := if Qlt_bool b a then b else a.
Definition std_max (a b : Real) : Real := if Qlt_bool a b then b else a.

(** Sum of a list of reals, in index order. *)
Definition Qsum (l : list Q) : Q := fold_left Qplus l 0%Q.

(** Read of an [int] or [Real] array that the program only makes in range. *)
Definition zread (l : list Z) (i : nat) : Z := default 0 (l !! i).
Definition qread (l : list Q) (i : nat) : Q := default 0%Q (l !! i).

(** ** Mesh::LoadBalancing *)

Module LoadBalancing.

(** The locals of the assignment loop. *)
Record loop_state : Type := mkLoop {
  ls_j : Z;
  ls_totalcost : Real;
  ls_mycost : Real;
  ls_targetcost : Real;
  ls_rlist : list Z
}.

(** One pass of [for(int i=nb-1;i>=0;i--)] at index [i]. *)
Definition assign_step (clist : list Real) (i : nat) (st : loop_state)
  : result loop_state :=
  if Qeq_bool (ls_targetcost st) 0 then Fatal
  else
    let mycost := (ls_mycost st + qread clist i)%Q in
    let rlist := <[i := ls_j st]> (ls_rlist st) in
    if Qle_bool (ls_targetcost st) mycost && (0 <? ls_j st) then
      let j := ls_j st - 1 in
      let totalcost := (ls_totalcost st - mycost)%Q in
      Ok (mkLoop j totalcost 0%Q (totalcost / inject_Z (j + 1))%Q rlist)
    else
      Ok (mkLoop (ls_j st) (ls_totalcost st) mycost (ls_targetcost st) rlist).

(** The loop from index [n-1] down to [0]. *)
Fixpoint assign_loop (clist : list Real) (n : nat) (st : loop_state)
  : result loop_state :=
  match n with
  | O => Ok st
  | S i =>
      match assign_step clist i st with
      | Ok st' => assign_loop clist i st'
      | Fatal => Fatal
      end
  end.

(** The second loop, [for(int i=1;i<nb;i++)], over the locals
    [(j, slist, nlist)].  The source reads the member [nslist] where the
    parameter [slist] is meant; every call passes [nslist] as [slist]. *)
Definition count_step (rlist : list Z) (st : nat * list Z * list Z) (i : nat)
  : nat * list Z * list Z :=
  let '(j, slist, nlist) := st in
  if Z.eqb (zread rlist i) (zread rlist (i - 1)) then st
  else
    let nlist := <[j := Z.of_nat i - zread slist j]> nlist in
    let slist := <[S j := Z.of_nat i]> slist in
    (S j, slist, nlist).

Record balance : Type := mkBalance {
  rlist : list Z;
  slist : list Z;
  nlist : list Z
}.

(** [LoadBalancing(clist, rlist, slist, nlist, nb)] with [Globals::nranks];
    the three output arrays come in with their previous contents. *)
Definition LoadBalancing (nranks : Z) (clist : list Real)
    (rlist0 slist0 nlist0 : list Z) : result balance :=
  let nb := length clist in
  let totalcost := Qsum clist in
  let j := nranks - 1 in
  let targetcost := (totalcost / inject_Z nranks)%Q in
  match assign_loop clist nb (mkLoop j totalcost 0%Q targetcost rlist0) with
  | Fatal => Fatal
  | Ok st =>
      let rl := ls_rlist st in
      let slist1 := <[O := 0]> slist0 in
      let '(j, sl, nl) :=
        fold_left (count_step rl) (seq 1 (nb - 1)) (O, slist1, nlist0) in
      Ok (mkBalance rl sl (<[j := Z.of_nat nb - zread sl j]> nl))
  end.

(** Number of gids that [rlist] gives to rank [r]. *)
Definition blocks_of_rank (rl : list Z) (r : Z) : nat :=
  length (filter (fun x => x = r) rl).

End LoadBalancing.

(** ** LogicalLocation *)

Record LogicalLocation : Type := mkLoc {
  lx1 : Z;
  lx2 : Z;
  lx3 : Z;
  level : Z
}.

(** The inclusive range [lo..hi] of a [for] loop with step one. *)
Definition zrange (lo hi : Z) : list Z :=
  map (fun k => lo + Z.of_nat k) (seq 0 (Z.to_nat (hi - lo + 1))).

(** ** Mesh::MeshTest, the cost statistics *)

Module MeshTest.

(** [(mincost, maxcost, totalcost)]. *)
Definition stats : Type := (Real * Real * Real)%type.

Definition init : stats := (FLT_MAX, 0%Q, 0%Q).

Definition add_cost (s : stats) (c : Real) : stats :=
  let '(mincost, maxcost, totalcost) := s in
  (std_min mincost c, std_max maxcost c, (totalcost + c)%Q).

(** Body of [for(j=0;j<nbtotal;j++)] inside the pass for level [i]: a block
    of level [i] adds [costlist[i]]. *)
Definition block_step (costlist : list Real) (i : Z) (acc : option stats)
    (l : LogicalLocation) : option stats :=
  if level l =? i then
    s ← acc;
    c ← (if i <? 0 then None else costlist !! Z.to_nat i);
    Some (add_cost s c)
  else acc.

Definition level_step (loclist : list LogicalLocation) (costlist : list Real)
    (acc : option stats) (i : Z) : option stats :=
  fold_left (block_step costlist i) loclist acc.

(** The statistics that [MeshTest] prints; [None] when [costlist] is read
    out of range. *)
Definition MeshTest (root_level max_level : Z)
    (loclist : list LogicalLocation) (costlist : list Real) : option stats :=
  fold_left (level_step loclist costlist) (zrange root_level max_level)
            (Some init).

(** Minimum, maximum and sum of the costs over the block index. *)
Definition stats_by_block (costlist : list Real) : stats :=
  fold_left add_cost costlist init.

End MeshTest.

(** ** Mesh::NewTimeStep *)

Module NewTimeStep.

(** The members of [Mesh] that the function reads or writes. *)
Record Mesh : Type := mkMesh {
  time : Real;
  tlim : Real;
  dt : Real;
  cfl_number : Real
}.

(** The loop over the block list of one rank: [new_block_dt] of the first
    block, then [std::min] with each following one.  [None] when the list is
    empty ([pblock] is NULL and is dereferenced). *)
Definition local_min_dt (blocks : list Real) : option Real :=
  match blocks with
  | [] => None
  | b :: rest => Some (fold_left std_min rest b)
  end.

(** [MPI_Allreduce] with [MPI_MIN] over the local minima of the ranks; a
    build without MPI has this rank only. *)
Definition Allreduce_MIN (mine : Real) (others : list Real) : Real :=
  fold_left std_min others mine.

Definition set_dt (m : Mesh) (d : Real) : Mesh :=
  mkMesh (time m) (tlim m) d (cfl_number m).

(** [NewTimeStep] on this rank, whose blocks have the [new_block_dt] values
    [mine]; [others] are the block lists of the other ranks. *)
Definition NewTimeStep (m : Mesh) (mine : list Real)
    (others : list (list Real)) : option Mesh :=
  min_dt ← local_min_dt mine;
  others_min ← mapM local_min_dt others;
  let min_dt := Allreduce_MIN min_dt others_min in
  let dt1 := std_min (min_dt * cfl_number m)%Q (2 * dt m)%Q in
  if Qlt_bool (time m) (tlim m) && Qlt_bool (tlim m - time m)%Q dt1
  then Some (set_dt m (tlim m - time m)%Q)
  else Some (set_dt m dt1).

End NewTimeStep.

(** ** Memory reads that may leave the array *)

Inductive access (A : Type) : Type :=
| Done (a : A)
| OutOfBounds (index : nat) (size : nat).
Arguments Done {A} a.
Arguments OutOfBounds {A} index size.

(** ** Mesh::AdaptiveMeshRefinement: the list of the derefined blocks *)

Module AMR.

(** [nlbl] and [dim] from [mesh_size.nx2] and [mesh_size.nx3]. *)
Definition nlbl (nx2 nx3 : Z) : Z :=
  let n := 2 in
  let n := if 1 <? nx2 then 4 else n in
  if 1 <? nx3 then 8 else n.

Definition dim (nx2 nx3 : Z) : Z :=
  let d := 1 in
  let d := if 1 <? nx2 then 2 else d in
  if 1 <? nx3 then 3 else d.

Definition lj (nx2 : Z) : Z := if 1 <? nx2 then 1 else 0.
Definition lk (nx3 : Z) : Z := if 1 <? nx3 then 1 else 0.

(** A block of the mesh with its [refine_flag_]; the blocks of all ranks are
    listed in the order of their gid, the order in which the gathered lists
    hold them. *)
Record flagged : Type := mkFlagged {
  fl_loc : LogicalLocation;
  refine_flag_ : Z
}.

(** [tnderef]: the number of blocks flagged -1 on all ranks. *)
Definition tnderef (blocks : list flagged) : Z :=
  Z.of_nat (length (filter (fun b => refine_flag_ b = -1) blocks)).

(** The gathered array [lderef]; it is filled only when [tnderef>nlbl]. *)
Definition lderef (blocks : list flagged) : list LogicalLocation :=
  map fl_loc (filter (fun b => refine_flag_ b = -1) blocks).

(** The offsets [(i,j,k)] in the order of the three nested loops. *)
Definition offsets (lk lj : Z) : list (Z * Z * Z) :=
  k ← zrange 0 lk; j ← zrange 0 lj; i ← zrange 0 1; [(i, j, k)].

(** The three nested loops for the entry [ln = lderef[n]]: at each offset
    the entry [lderef[r]] is read and compared, then [r++]. *)
Fixpoint family_scan (ld : list LogicalLocation) (ln : LogicalLocation)
    (offs : list (Z * Z * Z)) (r : nat) (rr : Z) : access Z :=
  match offs with
  | [] => Done rr
  | (i, j, k) :: offs' =>
      match ld !! r with
      | None => OutOfBounds r (length ld)
      | Some lr =>
          let rr' :=
            if (lx1 ln + i =? lx1 lr) && (lx2 ln + j =? lx2 lr)
               && (lx3 ln + k =? lx3 lr) && (level ln =? level lr)
            then rr + 1 else rr in
          family_scan ld ln offs' (S r) rr'
      end
  end.

Definition parent_of (ln : LogicalLocation) : LogicalLocation :=
  mkLoc (Z.shiftr (lx1 ln) 1) (Z.shiftr (lx2 ln) 1) (Z.shiftr (lx3 ln) 1)
        (level ln - 1).

Definition all_even (ln : LogicalLocation) : bool :=
  (Z.land (lx1 ln) 1 =? 0) && (Z.land (lx2 ln) 1 =? 0)
  && (Z.land (lx3 ln) 1 =? 0).

(** [for(int n=0; n<tnderef; n++)]: the entries [n .. ] still to visit, with
    the parents found so far in [clderef]. *)
Fixpoint deref_loop (nx2 nx3 : Z) (ld : list LogicalLocation) (todo : nat)
    (n : nat) (clderef : list LogicalLocation)
  : access (list LogicalLocation) :=
  match todo with
  | O => Done clderef
  | S todo' =>
      match ld !! n with
      | None => OutOfBounds n (length ld)
      | Some ln =>
          if all_even ln then
            match family_scan ld ln (offsets (lk nx3) (lj nx2)) n 0 with
            | OutOfBounds i s => OutOfBounds i s
            | Done rr =>
                deref_loop nx2 nx3 ld todo' (S n)
                  (if rr =? nlbl nx2 nx3 then clderef ++ [parent_of ln]
                   else clderef)
            end
          else deref_loop nx2 nx3 ld todo' (S n) clderef
      end
  end.

(** The array [clderef] of the parents to derefine, with [ctnd] its length,
    before the sort. *)
Definition derefine_parents (nx2 nx3 : Z) (blocks : list flagged)
  : access (list LogicalLocation) :=
  if nlbl nx2 nx3 <? tnderef blocks then
    let ld := lderef blocks in
    deref_loop nx2 nx3 ld (length ld) 0 []
  else Done [].

(** [std::sort(first, last, comp)], as an insertion sort: [comp a b] puts
    [a] before [b].  The standard leaves the order of elements that compare
    equal open; they keep the order of the array here, as the insertion
    sort of a short range does. *)
Fixpoint sort_insert {A} (comp : A -> A -> bool) (x : A) (l : list A)
  : list A :=
  match l with
  | [] => [x]
  | y :: l' => if comp y x then y :: sort_insert comp x l' else x :: l
  end.

Definition std_sort {A} (comp : A -> A -> bool) (l : list A) : list A :=
  foldr (sort_insert comp) [] l.

(** [if(ctnd>1) std::sort(clderef, &(clderef[ctnd-1]), Greater)]: the range
    given to the sort ends before the element of index [ctnd-1]. *)
Definition sort_parents (Greater : LogicalLocation -> LogicalLocation -> bool)
    (clderef : list LogicalLocation) : list LogicalLocation :=
  let ctnd := length clderef in
  if (1 <? ctnd)%nat then
    std_sort Greater (take (ctnd - 1) clderef) ++ drop (ctnd - 1) clderef
  else clderef.

(** The locations passed to [Derefine], in the order of the loop of step 2. *)
Definition derefine_order
    (Greater : LogicalLocation -> LogicalLocation -> bool)
    (nx2 nx3 : Z) (blocks : list flagged) : access (list LogicalLocation) :=
  match derefine_parents nx2 nx3 blocks with
  | Done cl => Done (sort_parents Greater cl)
  | OutOfBounds i s => OutOfBounds i s
  end.

(** *** Cost of the new blocks *)

(** The body of [for(int n=0; n<ntot; n++)]: the value stored in
    [newcost[n]]. *)
Definition newcost_at (nx2 nx3 : Z) (newloc loclist : list LogicalLocation)
    (costlist : list Real) (newtoold : list Z) (n : nat) : option Real :=
  pg ← newtoold !! n;
  nl ← newloc !! n;
  ol ← (if pg <? 0 then None else loclist !! Z.to_nat pg);
  if level ol <=? level nl then
    (if pg <? 0 then None else costlist !! Z.to_nat pg)
  else
    acost ← foldl (fun acc l => a ← acc; c ← costlist !! Z.to_nat (pg + l);
                                Some (a + c)%Q)
                  (Some 0%Q) (zrange 0 (nlbl nx2 nx3 - 1));
    Some (acost / inject_Z (nlbl nx2 nx3))%Q.

Definition newcost (nx2 nx3 : Z) (ntot : nat)
    (newloc loclist : list LogicalLocation) (costlist : list Real)
    (newtoold : list Z) : option (list Real) :=
  mapM (newcost_at nx2 nx3 newloc loclist costlist newtoold) (seq 0 ntot).

End AMR.

(** ** Mesh::AdaptiveMeshRefinement: buffers of a block that changes rank
       and keeps its level *)

Module Migration.

Record RegionSize : Type := mkRegionSize {
  nx1 : Z;
  nx2 : Z;
  nx3 : Z
}.

(** The cell indices of a block ([is_] is the member [is]). *)
Record MeshBlock : Type := mkMeshBlock {
  block_size : RegionSize;
  is_ : Z; ie : Z;
  js : Z; je : Z;
  ks : Z; ke : Z
}.

(** The arrays of a block that travel. *)
Inductive array : Type := u | x1f | x2f | x3f.

Global Instance array_eq_dec : EqDecision array.
Proof. solve_decision. Defined.

(** One real of a buffer: the array and the indices [(n,k,j,i)] of the cell
    it holds ([n] is 0 for the face arrays). *)
Definition cell : Type := (array * Z * Z * Z * Z)%type.

Definition cell_array (c : cell) : array :=
  let '(a, _, _, _, _) := c in a.

(** Modelled from the spec: [BufferUtility::Pack4DData], [Pack3DData] and
    their [Unpack] twins live in utils/buffer_utils, which is not among the
    sources.  The sender "packs u + three face arrays": a call copies the
    cells of the inclusive index box it is given, one real a cell, in the
    order n, k, j, i, and advances the offset by their number.  The list is
    that sequence of cells. *)
Definition Pack4DData (a : array) (sn en si ei sj ej sk ek : Z) : list cell :=
  n ← zrange sn en; k ← zrange sk ek; j ← zrange sj ej; i ← zrange si ei;
  [(a, n, k, j, i)].

Definition Pack3DData (a : array) (si ei sj ej sk ek : Z) : list cell :=
  k ← zrange sk ek; j ← zrange sj ej; i ← zrange si ei; [(a, 0, k, j, i)].

Section Config.

(** The macros of the configuration. *)
Variables (NGHOST NHYDRO : Z) (MAGNETIC_FIELDS_ENABLED : bool).

(** The index part of the [MeshBlock] constructor. *)
Definition new_MeshBlock (input_block : RegionSize) : MeshBlock :=
  let is_ := NGHOST in
  let ie := is_ + nx1 input_block - 1 in
  let '(js, je) :=
    if 1 <? nx2 input_block then (NGHOST, NGHOST + nx2 input_block - 1)
    else (0, 0) in
  let '(ks, ke) :=
    if 1 <? nx3 input_block then (NGHOST, NGHOST + nx3 input_block - 1)
    else (0, 0) in
  mkMeshBlock input_block is_ ie js je ks ke.

Definition f2 (mesh_size : RegionSize) : Z :=
  if 1 <? nx2 mesh_size then 1 else 0.
Definition f3 (mesh_size : RegionSize) : Z :=
  if 1 <? nx3 mesh_size then 1 else 0.

(** Step 4: the size of the buffer of a block that keeps its level. *)
Definition bssame (mesh_size : RegionSize) (pblock : MeshBlock) : Z :=
  let bnx1 := nx1 (block_size pblock) in
  let bnx2 := nx2 (block_size pblock) in
  let bnx3 := nx3 (block_size pblock) in
  let bs := bnx1 * bnx2 * bnx3 * NHYDRO in
  if MAGNETIC_FIELDS_ENABLED then
    bs + ((bnx1 + 1) * bnx2 * bnx3
          + bnx1 * (bnx2 + f2 mesh_size) * bnx3
          + bnx1 * bnx2 * (bnx3 + f3 mesh_size))
  else bs.

(** Step 6, branch [nloc.level==oloc.level]: the cells written to
    [sendbuf[k]], in order. *)
Definition pack_same (pb : MeshBlock) : list cell :=
  Pack4DData u 0 (NHYDRO - 1) (is_ pb) (ie pb) (js pb) (je pb) (ks pb) (ke pb)
  ++ (if MAGNETIC_FIELDS_ENABLED then
        Pack3DData x1f (is_ pb) (ie pb + 1) (js pb) (je pb) (ks pb) (ke pb)
        ++ Pack3DData x2f (is_ pb) (ie pb + 1) (js pb) (je pb) (ks pb) (ke pb)
        ++ Pack3DData x3f (is_ pb) (ie pb + 1) (js pb) (je pb) (ks pb) (ke pb)
      else []).

(** Step 8, branch [oloc.level==nloc.level]: the cells of the new block
    read from [recvbuf[k]], in order. *)
Definition unpack_same (pb : MeshBlock) : list cell :=
  Pack4DData u 0 (NHYDRO - 1) (is_ pb) (ie pb) (js pb) (je pb) (ks pb) (ke pb)
  ++ (if MAGNETIC_FIELDS_ENABLED then
        Pack3DData x1f (is_ pb) (ie pb + 1) (js pb) (je pb) (ks pb) (ke pb)
        ++ Pack3DData x2f (is_ pb) (ie pb + 1) (js pb) (je pb) (ks pb) (ke pb)
        ++ Pack3DData x3f (is_ pb) (ie pb + 1) (js pb) (je pb) (ks pb) (ke pb)
      else []).

(** The layout that the buffer size stands for: the interior of [u], then
    each face array over its own extent. *)
Definition proper_same_layout (mesh_size : RegionSize) (pb : MeshBlock)
  : list cell :=
  Pack4DData u 0 (NHYDRO - 1) (is_ pb) (ie pb) (js pb) (je pb) (ks pb) (ke pb)
  ++ (if MAGNETIC_FIELDS_ENABLED then
        Pack3DData x1f (is_ pb) (ie pb + 1) (js pb) (je pb) (ks pb) (ke pb)
        ++ Pack3DData x2f (is_ pb) (ie pb) (js pb) (je pb + f2 mesh_size)
                      (ks pb) (ke pb)
        ++ Pack3DData x3f (is_ pb) (ie pb) (js pb) (je pb) (ks pb)
                      (ke pb + f3 mesh_size)
      else []).

Definition cells_of (a : array) (l : list cell) : list cell :=
  filter (fun c => cell_array c = a) l.

End Config.

End Migration.

(** ** NeighborBlock::SetNeighbor and MeshBlock::SearchAndSetNeighbors *)

Inductive neighbor_type : Type :=
| neighbor_face
| neighbor_edge
| neighbor_corner.

Inductive BoundaryFace : Type :=
| inner_x1 | outer_x1 | inner_x2 | outer_x2 | inner_x3 | outer_x3.

Module NeighborBlock.

(** The members that [SetNeighbor] assigns.  [fid] and [eid] are assigned
    for one type of neighbour only; [None] stands for a member that the
    call leaves as it was. *)
Record t : Type := mk {
  rank : Z; level : Z; gid : Z; lid : Z;
  ox1 : Z; ox2 : Z; ox3 : Z;
  type : neighbor_type;
  bufid : Z; targetid : Z;
  fi1 : Z; fi2 : Z;
  fid : option BoundaryFace;
  eid : option Z
}.

Definition SetNeighbor (irank ilevel igid ilid iox1 iox2 iox3 : Z)
    (itype : neighbor_type) (ibid itargetid ifi1 ifi2 : Z) : t :=
  let fid :=
    match itype with
    | neighbor_face =>
        if iox1 =? -1 then Some inner_x1
        else if iox1 =? 1 then Some outer_x1
        else if iox2 =? -1 then Some inner_x2
        else if iox2 =? 1 then Some outer_x2
        else if iox3 =? -1 then Some inner_x3
        else if iox3 =? 1 then Some outer_x3
        else None
    | _ => None
    end in
  let eid :=
    match itype with
    | neighbor_edge =>
        if iox3 =? 0 then
          Some (Z.lor (Z.shiftr (iox1 + 1) 1) (Z.land (iox2 + 1) 2))
        else if iox2 =? 0 then
          Some (4 + Z.lor (Z.shiftr (iox1 + 1) 1) (Z.land (iox3 + 1) 2))
        else if iox1 =? 0 then
          Some (8 + Z.lor (Z.shiftr (iox2 + 1) 1) (Z.land (iox3 + 1) 2))
        else None
    | _ => None
    end in
  mk irank ilevel igid ilid iox1 iox2 iox3 itype ibid itargetid ifi1 ifi2
     fid eid.

(** The offsets of a record. *)
Definition offsets (r : t) : Z * Z * Z := (ox1 r, ox2 r, ox3 r).

End NeighborBlock.

Module Neighbors.

(** The members of [Mesh] that the search reads. *)
Record Mesh : Type := mkMesh {
  multilevel : bool;
  face_only : bool;
  maxneighbor_ : Z
}.

(** The members of [MeshBlock] that the search reads: the location, the
    cell counts [block_size.nx2] and [block_size.nx3], the boundary codes. *)
Record MeshBlock : Type := mkMeshBlock {
  loc : LogicalLocation;
  nx2 : Z;
  nx3 : Z;
  block_bcs : list Z
}.

(** The values of [for(int n=-1; n<=1; n+=2)]. *)
Definition pm : list Z := [-1; 1].

(** The scan state: [bufid] and the records [neighbor[0..nneighbor)]. *)
Definition state : Type := (Z * list NeighborBlock.t)%type.

Section Search.

(** The tree, as the search sees it.  meshblocktree.hpp and bvals are not
    among the sources: a tree node is a value with the members [flag],
    [loc] and [gid] and the method [GetLeaf]; [FindNeighbor] is the method
    of the tree that is searched (with the root grid sizes and the root
    level of the mesh); [FindBufferID] is the function of the boundary
    module. *)
Variable MeshBlockTree : Type.
Variable flag : MeshBlockTree -> bool.
Variable tloc : MeshBlockTree -> LogicalLocation.
Variable tgid : MeshBlockTree -> Z.
Variable GetLeaf : MeshBlockTree -> Z -> Z -> Z -> MeshBlockTree.
Variable FindNeighbor :
  LogicalLocation -> Z -> Z -> Z -> list Z -> option MeshBlockTree.
Variable FindBufferID : Z -> Z -> Z -> Z -> Z -> Z -> Z.

Variable pmy_mesh : Mesh.
Variables ranklist nslist : list Z.
Variable pmb : MeshBlock.

Definition myfx1 : Z := Z.land (lx1 (loc pmb)) 1.
Definition myfx2 : Z := Z.land (lx2 (loc pmb)) 1.
Definition myfx3 : Z := Z.land (lx3 (loc pmb)) 1.
Definition myox1 : Z := Z.land (lx1 (loc pmb)) 1 * 2 - 1.
Definition myox2 : Z :=
  if 1 <? nx2 pmb then Z.land (lx2 (loc pmb)) 1 * 2 - 1 else 0.
Definition myox3 : Z :=
  if 1 <? nx3 pmb then Z.land (lx3 (loc pmb)) 1 * 2 - 1 else 0.

Definition nf1 : Z :=
  if multilevel pmy_mesh then (if 1 <? nx2 pmb then 2 else 1) else 1.
Definition nf2 : Z :=
  if multilevel pmy_mesh then (if 1 <? nx3 pmb then 2 else 1) else 1.

(** [neighbor[nneighbor].SetNeighbor(ranklist[id], nlevel, id,
    id-nslist[ranklist[id]], ...)] with the current [bufid]. *)
Definition set (st : state) (id nlevel : Z) (o : Z * Z * Z)
    (ty : neighbor_type) (tbid f1 f2 : Z) : list NeighborBlock.t :=
  let '(o1, o2, o3) := o in
  let rk := zread ranklist (Z.to_nat id) in
  st.2 ++ [NeighborBlock.SetNeighbor rk nlevel id (id - zread nslist (Z.to_nat rk))
                       o1 o2 o3 ty st.1 tbid f1 f2].

Definition tbid_of (t : Z * Z * Z) (f1 f2 : Z) : Z :=
  let '(t1, t2, t3) := t in
  FindBufferID t1 t2 t3 f1 f2 (maxneighbor_ pmy_mesh).

(** One pass of a face loop.  [dir n] are the offsets of the face and
    [tdir n] the offsets given to [FindBufferID]; [leaf fface f1 f2] are
    the arguments of [GetLeaf]; [(c1, c2)] are the fine indices used for a
    coarser neighbour. *)
Definition face_step (dir tdir : Z -> Z * Z * Z)
    (leaf : Z -> Z -> Z -> Z * Z * Z) (c1 c2 : Z) (st : state) (n : Z)
  : state :=
  let '(o1, o2, o3) := dir n in
  match FindNeighbor (loc pmb) o1 o2 o3 (block_bcs pmb) with
  | None => (st.1 + nf1 * nf2, st.2)
  | Some neibt =>
      if negb (flag neibt) then
        let fface := 1 - (n + 1) `quot` 2 in
        foldl (fun st f2 =>
          foldl (fun st f1 =>
            let '(a, b, c) := leaf fface f1 f2 in
            let nf := GetLeaf neibt a b c in
            let fid := tgid nf in
            let nlevel := level (tloc nf) in
            let tbid := tbid_of (tdir n) 0 0 in
            (st.1 + 1,
             set st fid nlevel (dir n) neighbor_face tbid f1 f2))
          st (zrange 0 (nf1 - 1)))
        st (zrange 0 (nf2 - 1))
      else
        let nlevel := level (tloc neibt) in
        let nid := tgid neibt in
        let tbid :=
          if nlevel =? level (loc pmb)
          then tbid_of (tdir n) 0 0 else tbid_of (tdir n) c1 c2 in
        (st.1 + nf1 * nf2,
         set st nid nlevel (dir n) neighbor_face tbid 0 0)
  end.

(** One pass of an edge loop.  [nf] is the number of slots of the edge,
    [c] the fine index used for a coarser neighbour, [mya] and [myb] the
    two of [myox1], [myox2], [myox3] compared with [n] and [m]. *)
Definition edge_step (dir tdir : Z -> Z -> Z * Z * Z)
    (leaf : Z -> Z -> Z -> Z * Z * Z) (nf c mya myb : Z)
    (st : state) (m n : Z) : state :=
  let '(o1, o2, o3) := dir n m in
  match FindNeighbor (loc pmb) o1 o2 o3 (block_bcs pmb) with
  | None => (st.1 + nf, st.2)
  | Some neibt =>
      if negb (flag neibt) then
        let ff1 := 1 - (n + 1) `quot` 2 in
        let ff2 := 1 - (m + 1) `quot` 2 in
        foldl (fun st f1 =>
          let '(a, b, c) := leaf ff1 ff2 f1 in
          let nf := GetLeaf neibt a b c in
          let fid := tgid nf in
          let nlevel := level (tloc nf) in
          let tbid := tbid_of (tdir n m) 0 0 in
          (st.1 + 1, set st fid nlevel (dir n m) neighbor_edge tbid f1 0))
        st (zrange 0 (nf - 1))
      else
        let nlevel := level (tloc neibt) in
        let nid := tgid neibt in
        let tbid :=
          if nlevel =? level (loc pmb)
          then tbid_of (tdir n m) 0 0 else tbid_of (tdir n m) c 0 in
        (st.1 + nf,
         if (level (loc pmb) <=? nlevel)
            || ((mya =? n) && (myb =? m))
         then set st nid nlevel (dir n m) neighbor_edge tbid 0 0
         else st.2)
  end.

(** One pass of the corner loop. *)
Definition corner_step (st : state) (l m n : Z) : state :=
  match FindNeighbor (loc pmb) n m l (block_bcs pmb) with
  | None => (st.1 + 1, st.2)
  | Some neibt =>
      let neibt :=
        if negb (flag neibt) then
          let ff1 := 1 - (n + 1) `quot` 2 in
          let ff2 := 1 - (m + 1) `quot` 2 in
          let ff3 := 1 - (l + 1) `quot` 2 in
          GetLeaf neibt ff1 ff2 ff3
        else neibt in
      let nlevel := level (tloc neibt) in
      (st.1 + 1,
       if (level (loc pmb) <=? nlevel)
          || ((myox1 =? n) && (myox2 =? m) && (myox3 =? l))
       then
         let nid := tgid neibt in
         let tbid := tbid_of (- n, - m, - l) 0 0 in
         set st nid nlevel (n, m, l) neighbor_corner tbid 0 0
       else st.2)
  end.

Definition x1_face : state -> Z -> state :=
  face_step (fun n => (n, 0, 0)) (fun n => (- n, 0, 0))
            (fun fface f1 f2 => (fface, f1, f2)) myfx2 myfx3.
Definition x2_face : state -> Z -> state :=
  face_step (fun n => (0, n, 0)) (fun n => (0, - n, 0))
            (fun fface f1 f2 => (f1, fface, f2)) myfx1 myfx3.
Definition x3_face : state -> Z -> state :=
  face_step (fun n => (0, 0, n)) (fun n => (0, 0, - n))
            (fun fface f1 f2 => (f1, f2, fface)) myfx1 myfx2.

Definition x1x2_edge : state -> Z -> Z -> state :=
  edge_step (fun n m => (n, m, 0)) (fun n m => (- n, - m, 0))
            (fun ff1 ff2 f1 => (ff1, ff2, f1)) nf2 myfx3 myox1 myox2.
Definition x1x3_edge : state -> Z -> Z -> state :=
  edge_step (fun n m => (n, 0, m)) (fun n m => (- n, 0, - m))
            (fun ff1 ff2 f1 => (ff1, f1, ff2)) nf1 myfx2 myox1 myox3.
Definition x2x3_edge : state -> Z -> Z -> state :=
  edge_step (fun n m => (0, n, m)) (fun n m => (0, - n, - m))
            (fun ff1 ff2 f1 => (f1, ff1, ff2)) nf1 myfx1 myox2 myox3.

(** Two nested loops, [m] outside and [n] inside. *)
Definition loop2 (body : state -> Z -> Z -> state) (st : state) : state :=
  foldl (fun st m => foldl (fun st n => body st m n) st pm) st pm.

Definition loop3 (body : state -> Z -> Z -> Z -> state) (st : state)
  : state :=
  foldl (fun st l =>
    foldl (fun st m => foldl (fun st n => body st l m n) st pm) st pm)
    st pm.

(** The whole search, with its four early returns; the result is the
    final [bufid] and the records [neighbor[0..nneighbor)].  The table
    [nblevel], on which no record depends, is left out. *)
Definition search : state :=
  let st : state := (0, []) in
  let st := foldl x1_face st pm in
  if nx2 pmb =? 1 then st else
  let st := foldl x2_face st pm in
  let st := if 1 <? nx3 pmb then foldl x3_face st pm else st in
  if face_only pmy_mesh then st else
  let st := loop2 x1x2_edge st in
  if nx3 pmb =? 1 then st else
  let st := loop2 x1x3_edge st in
  let st := loop2 x2x3_edge st in
  loop3 corner_step st.

Definition SearchAndSetNeighbors : list NeighborBlock.t := search.2.

(** *** The canonical scan

    The directions in the order of the scan, each with the number of buffer
    slots it takes, and the records of one direction as a function of the
    direction alone. *)

Definition scan_list : list ((Z * Z * Z) * Z) :=
  [((-1, 0, 0), nf1 * nf2); ((1, 0, 0), nf1 * nf2)] ++
  (if nx2 pmb =? 1 then [] else
   [((0, -1, 0), nf1 * nf2); ((0, 1, 0), nf1 * nf2)] ++
   (if 1 <? nx3 pmb
    then [((0, 0, -1), nf1 * nf2); ((0, 0, 1), nf1 * nf2)] else []) ++
   (if face_only pmy_mesh then [] else
    [((-1, -1, 0), nf2); ((1, -1, 0), nf2);
     ((-1, 1, 0), nf2); ((1, 1, 0), nf2)] ++
    (if nx3 pmb =? 1 then [] else
     [((-1, 0, -1), nf1); ((1, 0, -1), nf1);
      ((-1, 0, 1), nf1); ((1, 0, 1), nf1);
      ((0, -1, -1), nf1); ((0, 1, -1), nf1);
      ((0, -1, 1), nf1); ((0, 1, 1), nf1);
      ((-1, -1, -1), 1); ((1, -1, -1), 1); ((-1, 1, -1), 1); ((1, 1, -1), 1);
      ((-1, -1, 1), 1); ((1, -1, 1), 1); ((-1, 1, 1), 1); ((1, 1, 1), 1)]))).

(** The first slot of each direction of a list scanned from slot [b]. *)
Fixpoint layout (b : Z) (l : list ((Z * Z * Z) * Z)) : list (Z * (Z * Z * Z)) :=
  match l with
  | [] => []
  | (d, w) :: l' => (b, d) :: layout (b + w) l'
  end.

Inductive dkind : Type :=
| Face1 | Face2 | Face3 | Edge12 | Edge13 | Edge23 | Corner | Center.

Definition kind_of (d : Z * Z * Z) : dkind :=
  let '(o1, o2, o3) := d in
  match o1 =? 0, o2 =? 0, o3 =? 0 with
  | false, true, true => Face1
  | true, false, true => Face2
  | true, true, false => Face3
  | false, false, true => Edge12
  | false, true, false => Edge13
  | true, false, false => Edge23
  | false, false, false => Corner
  | true, true, true => Center
  end.

Definition type_of (k : dkind) : neighbor_type :=
  match k with
  | Face1 | Face2 | Face3 => neighbor_face
  | Edge12 | Edge13 | Edge23 => neighbor_edge
  | _ => neighbor_corner
  end.

(** 0 on the inner side and 1 on the outer side. *)
Definition hp (o : Z) : Z := (o + 1) `quot` 2.
(** The child index that touches a neighbour lying at offset [o]. *)
Definition ff (o : Z) : Z := 1 - (o + 1) `quot` 2.

(** The arguments of [GetLeaf] for the fine indices [(f1, f2)]. *)
Definition leafpos (d : Z * Z * Z) (f1 f2 : Z) : Z * Z * Z :=
  let '(o1, o2, o3) := d in
  match kind_of d with
  | Face1 => (ff o1, f1, f2)
  | Face2 => (f1, ff o2, f2)
  | Face3 => (f1, f2, ff o3)
  | Edge12 => (ff o1, ff o2, f1)
  | Edge13 => (ff o1, f1, ff o3)
  | Edge23 => (f1, ff o2, ff o3)
  | _ => (ff o1, ff o2, ff o3)
  end.

(** The fine indices that the block gives for a coarser neighbour. *)
Definition coarse_fi (k : dkind) : Z * Z :=
  match k with
  | Face1 => (myfx2, myfx3)
  | Face2 => (myfx1, myfx3)
  | Face3 => (myfx1, myfx2)
  | Edge12 => (myfx3, 0)
  | Edge13 => (myfx2, 0)
  | Edge23 => (myfx1, 0)
  | _ => (0, 0)
  end.

(** The ranges of the fine indices. *)
Definition fine_counts (k : dkind) : Z * Z :=
  match k with
  | Face1 | Face2 | Face3 => (nf1, nf2)
  | Edge12 => (nf2, 1)
  | Edge13 | Edge23 => (nf1, 1)
  | _ => (1, 1)
  end.

(** The test that lets a block record a coarser neighbour across an edge or
    a corner. *)
Definition outward (d : Z * Z * Z) : bool :=
  let '(o1, o2, o3) := d in
  match kind_of d with
  | Edge12 => (myox1 =? o1) && (myox2 =? o2)
  | Edge13 => (myox1 =? o1) && (myox3 =? o3)
  | Edge23 => (myox2 =? o2) && (myox3 =? o3)
  | Corner => (myox1 =? o1) && (myox2 =? o2) && (myox3 =? o3)
  | _ => true
  end.

Definition record_of (t : MeshBlockTree) (d : Z * Z * Z) (bid tbid f1 f2 : Z)
  : NeighborBlock.t :=
  let '(o1, o2, o3) := d in
  let id := tgid t in
  let rk := zread ranklist (Z.to_nat id) in
  NeighborBlock.SetNeighbor rk (level (tloc t)) id
    (id - zread nslist (Z.to_nat rk)) o1 o2 o3 (type_of (kind_of d))
    bid tbid f1 f2.

(** The records of direction [d] when its first slot is [b]. *)
Definition dir_recs_at (b : Z) (d : Z * Z * Z) : list NeighborBlock.t :=
  let '(o1, o2, o3) := d in
  let k := kind_of d in
  let back := (- o1, - o2, - o3) in
  match FindNeighbor (loc pmb) o1 o2 o3 (block_bcs pmb) with
  | None => []
  | Some neibt =>
      match k with
      | Corner | Center =>
          let t :=
            if negb (flag neibt)
            then GetLeaf neibt (ff o1) (ff o2) (ff o3) else neibt in
          if outward d || (level (loc pmb) <=? level (tloc t))
          then [record_of t d b (tbid_of back 0 0) 0 0] else []
      | _ =>
          if negb (flag neibt) then
            f2 ← zrange 0 ((fine_counts k).2 - 1);
            f1 ← zrange 0 ((fine_counts k).1 - 1);
            let '(a1, a2, a3) := leafpos d f1 f2 in
            [record_of (GetLeaf neibt a1 a2 a3) d
                       (b + f2 * (fine_counts k).1 + f1)
                       (tbid_of back 0 0) f1 f2]
          else if outward d || (level (loc pmb) <=? level (tloc neibt)) then
            [record_of neibt d b
               (if level (tloc neibt) =? level (loc pmb)
                then tbid_of back 0 0
                else tbid_of back (coarse_fi k).1 (coarse_fi k).2) 0 0]
          else []
      end
  end.

Definition dir_step (st : state) (dw : (Z * Z * Z) * Z) : state :=
  (st.1 + dw.2, st.2 ++ dir_recs_at st.1 dw.1).

(** The first slot of a direction in closed form. *)
Definition slot_base (d : Z * Z * Z) : Z :=
  let '(o1, o2, o3) := d in
  let wf := nf1 * nf2 in
  let be := 4 * wf + (if 1 <? nx3 pmb then 2 * wf else 0) in
  match kind_of d with
  | Face1 => hp o1 * wf
  | Face2 => 2 * wf + hp o2 * wf
  | Face3 => 4 * wf + hp o3 * wf
  | Edge12 => be + (2 * hp o2 + hp o1) * nf2
  | Edge13 => be + 4 * nf2 + (2 * hp o3 + hp o1) * nf1
  | Edge23 => be + 4 * nf2 + 4 * nf1 + (2 * hp o3 + hp o2) * nf1
  | _ => be + 4 * nf2 + 8 * nf1 + (4 * hp o3 + 2 * hp o2 + hp o1)
  end.

(** The slot of a direction and a pair of fine indices. *)
Definition slot (d : Z * Z * Z) (f1 f2 : Z) : Z :=
  slot_base d + f2 * (fine_counts (kind_of d)).1 + f1.

End Search.

End Neighbors.

(** ** The block tree and the buffer ids, as the neighbour search uses them *)

Module Tree.

(** Modelled from the spec: the class MeshBlockTree (meshblocktree.cpp) is
    not among the sources.  "A node is either a leaf or an internal node
    owning 2^dim children covering its spatial range in equal halves": a node
    has its location, the flag [flag] ([true] for a leaf) and its [gid]; the
    tree is the list of its nodes from the root grid down, and the children
    of the node at [(lx1, lx2, lx3, level)] are the nodes at
    [(2*lx1+ox, 2*lx2+oy, 2*lx3+oz, level+1)]. *)
Record node : Type := mkNode {
  loc : LogicalLocation;
  flag : bool;
  gid : Z
}.

#[global] Instance LogicalLocation_eq_dec : EqDecision LogicalLocation.
Proof. solve_decision. Defined.

#[global] Instance node_eq_dec : EqDecision node.
Proof. solve_decision. Defined.

(** The node of the tree at a location. *)
Fixpoint find (t : list node) (l : LogicalLocation) : option node :=
  match t with
  | [] => None
  | n :: t' => if decide (loc n = l) then Some n else find t' l
  end.

Definition child (l : LogicalLocation) (ox oy oz : Z) : LogicalLocation :=
  mkLoc (2 * lx1 l + ox) (2 * lx2 l + oy) (2 * lx3 l + oz) (level l + 1).

Definition parent (l : LogicalLocation) : LogicalLocation :=
  mkLoc (Z.shiftr (lx1 l) 1) (Z.shiftr (lx2 l) 1) (Z.shiftr (lx3 l) 1)
        (level l - 1).

(** Stands for the NULL pointer that [GetLeaf] returns where there is no
    child. *)
Definition null : node := mkNode (mkLoc 0 0 0 (-1)) true (-1).

(** Modelled from the spec: [GetLeaf(ox, oy, oz)] is the child of a node at
    the given position. *)
Definition GetLeaf (t : list node) (n : node) (ox oy oz : Z) : node :=
  default null (find t (child (loc n) ox oy oz)).

(** The root grid: [nrbx1], [nrbx2], [nrbx3] and [root_level] of [Mesh]. *)
Record RootGrid : Type := mkRootGrid {
  nrbx1 : Z;
  nrbx2 : Z;
  nrbx3 : Z;
  root_level : Z
}.

(** The number of blocks of a level along one axis, [nrbx<<(ll-root_level)]. *)
Definition extent (nrbx root_level ll : Z) : Z :=
  Z.shiftl nrbx (ll - root_level).

(** The code of a periodic boundary.  The codes 1 to 3 are those of the
    boundary functions that step 7 of the refinement enrols and -1 is the
    code of a boundary between blocks. *)
Definition periodic (bc : Z) : bool := bc =? 4.

(** Modelled from the spec: "periodic wraps indices; reflecting/outflow
    returns null". *)
Definition wrap (bc_inner bc_outer size x : Z) : option Z :=
  if x <? 0 then (if periodic bc_inner then Some (size - 1) else None)
  else if size <=? x then (if periodic bc_outer then Some 0 else None)
  else Some x.

(** Modelled from the spec: [FindNeighbor] "locates the leaf adjacent to loc
    in octant-direction dir" and "respects mesh-wide boundary codes".  The
    result is the node at the neighbouring location of the level of the
    block, a leaf or an internal node whose region holds finer leaves, or
    else the leaf one level up that covers that location, or NULL. *)
Definition FindNeighbor (t : list node) (g : RootGrid)
    (myloc : LogicalLocation) (ox1 ox2 ox3 : Z) (bcs : list Z) : option node :=
  let ll := level myloc in
  x ← wrap (zread bcs 0) (zread bcs 1)
           (extent (nrbx1 g) (root_level g) ll) (lx1 myloc + ox1);
  y ← wrap (zread bcs 2) (zread bcs 3)
           (extent (nrbx2 g) (root_level g) ll) (lx2 myloc + ox2);
  z ← wrap (zread bcs 4) (zread bcs 5)
           (extent (nrbx3 g) (root_level g) ll) (lx3 myloc + ox3);
  match find t (mkLoc x y z ll) with
  | Some n => Some n
  | None =>
      find t (mkLoc (Z.shiftr x 1) (Z.shiftr y 1) (Z.shiftr z 1) (ll - 1))
  end.

(** Modelled from the spec: [FindBufferID] (bvals) is not among the sources.
    "Each neighbor record's bufid is derived by FindBufferID(dx, dy, dz, fi1,
    fi2, maxneighbor)", "a canonical slot number identifying the direction
    (and fine sub-index)", "independent of block identity": the function
    gives the slot of the direction and the fine indices. *)
Definition FindBufferID (multilevel : bool) (nx2 nx3 : Z)
    (ox1 ox2 ox3 fi1 fi2 bmax : Z) : Z :=
  Neighbors.slot (Neighbors.mkMesh multilevel false bmax)
                 (Neighbors.mkMeshBlock (mkLoc 0 0 0 0) nx2 nx3 [])
                 (ox1, ox2, ox3) fi1 fi2.

(** [wrap] when both sides of the axis have the same kind of boundary,
    periodic ([p]) or not. *)
Definition wrapp (p : bool) (size x : Z) : option Z :=
  if x <? 0 then (if p then Some (size - 1) else None)
  else if size <=? x then (if p then Some 0 else None)
  else Some x.

(** The offsets of a direction along one axis. *)
Definition in_pm (o : Z) : Prop := o = -1 \/ o = 0 \/ o = 1.

(** The sides of the parent that a block touches, as the search tests
    them. *)
Definition touches (X : node) (o1 o2 o3 : Z) : Prop :=
  (o1 = 0 \/ lx1 (loc X) `mod` 2 = Neighbors.hp o1) /\
  (o2 = 0 \/ lx2 (loc X) `mod` 2 = Neighbors.hp o2) /\
  (o3 = 0 \/ lx3 (loc X) `mod` 2 = Neighbors.hp o3).

Section Mesh.

Variable t : list node.
Variable g : RootGrid.
(** [mesh_size.nx2], [mesh_size.nx3] and [mesh_bcs]. *)
Variables mesh_nx2 mesh_nx3 : Z.
Variable mesh_bcs : list Z.
(** [block_size.nx2] and [block_size.nx3], the same for all blocks. *)
Variables nx2 nx3 : Z.
Variable pmy_mesh : Neighbors.Mesh.
Variables ranklist nslist : list Z.

(** [Mesh::SetBlockSizeAndBoundaries], the boundary codes of a block. *)
Definition SetBlockSizeAndBoundaries (l : LogicalLocation) : list Z :=
  let ll := level l in
  let side (lx nrbx i : Z) : Z * Z :=
    ((if lx =? 0 then zread mesh_bcs (Z.to_nat i) else -1),
     (if lx =? extent nrbx (root_level g) ll - 1
      then zread mesh_bcs (Z.to_nat (i + 1)) else -1)) in
  let b1 := side (lx1 l) (nrbx1 g) 0 in
  let b2 := if mesh_nx2 =? 1 then (zread mesh_bcs 2, zread mesh_bcs 3)
            else side (lx2 l) (nrbx2 g) 2 in
  let b3 := if mesh_nx3 =? 1 then (zread mesh_bcs 4, zread mesh_bcs 5)
            else side (lx3 l) (nrbx3 g) 4 in
  [b1.1; b1.2; b2.1; b2.2; b3.1; b3.2].

(** The block of a leaf. *)
Definition block (n : node) : Neighbors.MeshBlock :=
  Neighbors.mkMeshBlock (loc n) nx2 nx3 (SetBlockSizeAndBoundaries (loc n)).

(** [SearchAndSetNeighbors] of the block of a leaf. *)
Definition neighbors (n : node) : list NeighborBlock.t :=
  Neighbors.SearchAndSetNeighbors node flag loc gid (GetLeaf t)
    (FindNeighbor t g)
    (FindBufferID (Neighbors.multilevel pmy_mesh) nx2 nx3)
    pmy_mesh ranklist nslist (block n).

(** *** The invariants of the tree, as tests *)

(** The child positions of a tree of the dimension of the mesh. *)
Definition positions : list (Z * Z * Z) :=
  i ← [0; 1];
  j ← (if 1 <? nx2 then [0; 1] else [0]);
  k ← (if 1 <? nx3 then [0; 1] else [0]);
  [(i, j, k)].

(** The directions to the neighbours of a block of that dimension. *)
Definition directions : list (Z * Z * Z) :=
  o3 ← (if 1 <? nx3 then [-1; 0; 1] else [0]);
  o2 ← (if 1 <? nx2 then [-1; 0; 1] else [0]);
  o1 ← [-1; 0; 1];
  if (o1 =? 0) && (o2 =? 0) && (o3 =? 0) then [] else [(o1, o2, o3)].

(** The location lies in the grid of its level. *)
Definition in_grid (l : LogicalLocation) : bool :=
  (root_level g <=? level l)
  && (0 <=? lx1 l) && (lx1 l <? extent (nrbx1 g) (root_level g) (level l))
  && (0 <=? lx2 l) && (lx2 l <? extent (nrbx2 g) (root_level g) (level l))
  && (0 <=? lx3 l) && (lx3 l <? extent (nrbx3 g) (root_level g) (level l))
  && ((1 <? nx2) || (lx2 l =? 0))
  && ((1 <? nx3) || (lx3 l =? 0)).

Definition is_internal (o : option node) : bool :=
  match o with Some p => negb (flag p) | None => false end.

Definition is_leaf (o : option node) : bool :=
  match o with Some p => flag p | None => false end.

(** I1, the tree is well formed: no location and no gid of a leaf occurs
    twice, every node lies in the grid, every node above the root grid has
    an internal parent, and every internal node has its [2^dim] children. *)
Definition well_formed : bool :=
  bool_decide (NoDup (map loc t))
  && bool_decide (NoDup (map gid (filter (fun n => flag n = true) t)))
  && forallb (fun n => in_grid (loc n)) t
  && forallb (fun n => (level (loc n) <=? root_level g)
                       || is_internal (find t (parent (loc n)))) t
  && forallb (fun p => flag p
                       || forallb (fun '(i, j, k) =>
                                     bool_decide
                                       (is_Some (find t (child (loc p) i j k))))
                                  positions) t.

(** The child positions of a neighbour at offset [d] that touch the block. *)
Definition facing (d : Z * Z * Z) : list (Z * Z * Z) :=
  let '(o1, o2, o3) := d in
  filter (fun '(i, j, k) =>
            (o1 = 0 \/ i = Neighbors.ff o1) /\
            (o2 = 0 \/ j = Neighbors.ff o2) /\
            (o3 = 0 \/ k = Neighbors.ff o3)) positions.

(** I2, the 2:1 constraint: where the neighbour of a leaf is an internal
    node, the children of that node that touch the leaf are leaves. *)
Definition balanced : bool :=
  forallb (fun a =>
    negb (flag a)
    || forallb (fun '(o1, o2, o3) =>
         match FindNeighbor t g (loc a) o1 o2 o3
                 (SetBlockSizeAndBoundaries (loc a)) with
         | Some p =>
             flag p
             || forallb (fun '(i, j, k) =>
                           is_leaf (find t (child (loc p) i j k)))
                        (facing (o1, o2, o3))
         | None => true
         end) directions) t.

(** The configuration of the mesh fits the tree: the root grid is not
    empty, a boundary is periodic on both sides or on none, and [multilevel]
    is set when the tree is refined. *)
Definition configured : bool :=
  (1 <=? nx2) && (1 <=? nx3)
  && (1 <=? nrbx1 g) && (1 <=? nrbx2 g) && (1 <=? nrbx3 g)
  && bool_decide (periodic (zread mesh_bcs 0) = periodic (zread mesh_bcs 1))
  && bool_decide (periodic (zread mesh_bcs 2) = periodic (zread mesh_bcs 3))
  && bool_decide (periodic (zread mesh_bcs 4) = periodic (zread mesh_bcs 5))
  && (Neighbors.multilevel pmy_mesh || forallb flag t).

(** [FindNeighbor] for a block of the tree, with the boundary codes of the
    mesh in place of those of the block. *)
Definition find_at (l : LogicalLocation) (o1 o2 o3 : Z) : option node :=
  x ← wrapp (periodic (zread mesh_bcs 0))
            (extent (nrbx1 g) (root_level g) (level l)) (lx1 l + o1);
  y ← wrapp (periodic (zread mesh_bcs 2))
            (extent (nrbx2 g) (root_level g) (level l)) (lx2 l + o2);
  z ← wrapp (periodic (zread mesh_bcs 4))
            (extent (nrbx3 g) (root_level g) (level l)) (lx3 l + o3);
  match find t (mkLoc x y z (level l)) with
  | Some n => Some n
  | None =>
      find t (mkLoc (x `div` 2) (y `div` 2) (z `div` 2) (level l - 1))
  end.

(** The directions of a mesh of lower dimension stay in its plane. *)
Definition in_dim (o2 o3 : Z) : Prop :=
  (o2 = 0 \/ 1 < nx2) /\ (o3 = 0 \/ 1 < nx3).

End Mesh.

End Tree.

(** ** Sample meshes *)

Module Sample.

(** A mesh in one dimension whose root block is refined twice: four blocks of
    level 2, in the order of their gid. *)
Definition line4 (f0 f1 f2 f3 : Z) : list AMR.flagged :=
  [AMR.mkFlagged (mkLoc 0 0 0 2) f0; AMR.mkFlagged (mkLoc 1 0 0 2) f1;
   AMR.mkFlagged (mkLoc 2 0 0 2) f2; AMR.mkFlagged (mkLoc 3 0 0 2) f3].


(** A mesh in one dimension with leaves of level 2, 2, 3, 3, 2 in the order of
    their gid; the first four are flagged -1. *)
Definition line5 : list AMR.flagged :=
  [AMR.mkFlagged (mkLoc 0 0 0 2) (-1); AMR.mkFlagged (mkLoc 1 0 0 2) (-1);
   AMR.mkFlagged (mkLoc 4 0 0 3) (-1); AMR.mkFlagged (mkLoc 5 0 0 3) (-1);
   AMR.mkFlagged (mkLoc 3 0 0 2) 0].


(** A mesh in two dimensions, periodic along x1, with a root grid of two by
    two blocks of level 1 whose first block is refined: four leaves of
    level 2 and three of level 1. *)
Definition grid : Tree.RootGrid := Tree.mkRootGrid 2 2 1 1.

Definition leaf (x y l id : Z) : Tree.node :=
  Tree.mkNode (mkLoc x y 0 l) true id.

Definition tree : list Tree.node :=
  [Tree.mkNode (mkLoc 0 0 0 1) false (-1);
   leaf 0 0 2 0; leaf 1 0 2 1; leaf 0 1 2 2; leaf 1 1 2 3;
   leaf 1 0 1 4; leaf 0 1 1 5; leaf 1 1 1 6].

Definition mesh : Neighbors.Mesh := Neighbors.mkMesh true false 16.

Definition bcs : list Z := [4; 4; 1; 1; 1; 1].

Definition ranklist : list Z := [0; 0; 0; 0; 1; 1; 1].

Definition nslist : list Z := [0; 4].

(** The records of a leaf of that mesh, of blocks of 4 by 4 cells. *)
Definition neighbors : Tree.node -> list NeighborBlock.t :=
  Tree.neighbors tree grid 8 1 bcs 4 1 mesh ranklist nslist.

End Sample.

(** A mesh in one dimension of two root blocks [A] and [B] whose inner x1
    boundary is periodic ([ix1_bc = 4]) and whose outer x1 boundary is not
    ([ox1_bc = 2]); the constructor reads the six codes without comparing
    them. *)
Module SampleMixed.

Definition grid : Tree.RootGrid := Tree.mkRootGrid 2 1 1 1.

Definition A : Tree.node := Tree.mkNode (mkLoc 0 0 0 1) true 0.

Definition B : Tree.node := Tree.mkNode (mkLoc 1 0 0 1) true 1.

Definition tree : list Tree.node := [A; B].

Definition mesh : Neighbors.Mesh := Neighbors.mkMesh false false 16.

Definition bcs : list Z := [4; 2; 1; 1; 1; 1].

(** The records of a leaf of that mesh, both blocks on rank 0. *)
Definition neighbors : Tree.node -> list NeighborBlock.t :=
  Tree.neighbors tree grid 1 1 bcs 1 1 mesh [0; 0] [0].

End SampleMixed.

(** ** Mesh::Mesh, from the input parameters to the root grid *)

Module MeshInit.

(** The values that the constructor reads from the input file, in the
    order of its calls of [pin->Get...].  A parameter read with
    [GetOrAdd...] that has a default depending on the mesh is [None] when
    the file does not give it. *)
Record Input : Type := mkInput {
  start_time : Real;
  tlim : Real;
  cfl_number : Real;
  nlim : Z;
  num_threads : Z;
  mesh_nx1 : Z; mesh_nx2 : Z; mesh_nx3 : Z;
  x1min : Real; x2min : Real; x3min : Real;
  x1max : Real; x2max : Real; x3max : Real;
  x1rat : Real; x2rat : Real; x3rat : Real;
  mesh_bcs : list Z;
  meshblock_nx1 : option Z;
  meshblock_nx2 : option Z;
  meshblock_nx3 : option Z;
  (** [refinement == "adaptive"] *)
  refinement_adaptive : bool;
  numlevel : Z
}.

(** The members of [Mesh] set up to the creation of the root grid. *)
Record Mesh : Type := mkMesh {
  time : Real;
  dt : Real;
  ncycle : Z;
  dim : Z;
  block_nx1 : Z; block_nx2 : Z; block_nx3 : Z;
  nrbx1 : Z; nrbx2 : Z; nrbx3 : Z;
  root_level : Z;
  current_level : Z;
  multilevel : bool;
  adaptive : bool;
  max_level : Z
}.

(** [a%b != 0] on [int]: no result when [b] is 0. *)
Definition rem_nonzero (a b : Z) : option bool :=
  if b =? 0 then None else Some (negb (Z.rem a b =? 0)).

(** [x || y] where [y] is evaluated only when [x] is false. *)
Definition or_else (x : option bool) (y : option bool) : option bool :=
  match x with
  | Some true => Some true
  | Some false => y
  | None => None
  end.

(** [for(root_level=0;(1<<root_level)<nbmax;root_level++);] on [int]: the
    shift has no result from 31 on. *)
Fixpoint root_level_loop (fuel : nat) (rl nbmax : Z) : option Z :=
  match fuel with
  | O => None
  | S fuel' =>
      if Z.shiftl 1 rl <? nbmax then root_level_loop fuel' (rl + 1) nbmax
      else Some rl
  end.

Definition find_root_level (nbmax : Z) : option Z :=
  root_level_loop 31 0 nbmax.

(** [a+b] and [a-b] on [int]: no result when the value does not fit. *)
Definition int_fits (x : Z) : option Z :=
  if (- 2 ^ 31 <=? x) && (x <? 2 ^ 31) then Some x else None.

Definition int_add (a b : Z) : option Z := int_fits (a + b).

Definition int_sub (a b : Z) : option Z := int_fits (a - b).

(** The constructor up to [max_level]: [None] where the program has no
    defined behaviour, [Some Fatal] where it throws. *)
Definition setup (p : Input) : option (result Mesh) :=
  if num_threads p <? 1 then Some Fatal
  else if mesh_nx1 p <? 4 then Some Fatal
  else if mesh_nx2 p <? 1 then Some Fatal
  else if mesh_nx3 p <? 1 then Some Fatal
  else if (mesh_nx2 p =? 1) && (1 <? mesh_nx3 p) then Some Fatal
  else if Qlt_bool 1 (cfl_number p) && (mesh_nx2 p =? 1) then Some Fatal
  else if Qlt_bool (1 # 2) (cfl_number p) && (1 <? mesh_nx2 p) then Some Fatal
  else
  let dim := 1 in
  let dim := if 1 <? mesh_nx2 p then 2 else dim in
  let dim := if 1 <? mesh_nx3 p then 3 else dim in
  if Qle_bool (x1max p) (x1min p) then Some Fatal
  else if Qle_bool (x2max p) (x2min p) then Some Fatal
  else if Qle_bool (x3max p) (x3min p) then Some Fatal
  else if Qlt_bool (1 # 10) (Qabs (x1rat p - 1)) then Some Fatal
  else if Qlt_bool (1 # 10) (Qabs (x2rat p - 1)) then Some Fatal
  else if Qlt_bool (1 # 10) (Qabs (x3rat p - 1)) then Some Fatal
  else
  let bnx1 := default (mesh_nx1 p) (meshblock_nx1 p) in
  let bnx2 :=
    if 2 <=? dim then default (mesh_nx2 p) (meshblock_nx2 p)
    else mesh_nx2 p in
  let bnx3 :=
    if dim =? 3 then default (mesh_nx3 p) (meshblock_nx3 p)
    else mesh_nx3 p in
  match or_else (rem_nonzero (mesh_nx1 p) bnx1)
          (or_else (rem_nonzero (mesh_nx2 p) bnx2)
                   (rem_nonzero (mesh_nx3 p) bnx3)) with
  | None => None
  | Some true => Some Fatal
  | Some false =>
      if (bnx1 <? 4) || ((bnx2 <? 4) && (2 <=? dim))
         || ((bnx3 <? 4) && (dim =? 3)) then Some Fatal
      else
      let nrbx1 := Z.quot (mesh_nx1 p) bnx1 in
      let nrbx2 := Z.quot (mesh_nx2 p) bnx2 in
      let nrbx3 := Z.quot (mesh_nx3 p) bnx3 in
      let nbmax := if nrbx2 <? nrbx1 then nrbx1 else nrbx2 in
      let nbmax := if nrbx3 <? nbmax then nbmax else nrbx3 in
      match find_root_level nbmax with
      | None => None
      | Some root_level =>
          let adaptive := refinement_adaptive p in
          match (if adaptive
                 then s ← int_add (numlevel p) root_level; int_sub s 1
                 else Some 63) with
          | None => None
          | Some max_level =>
              if adaptive && (63 <? max_level) then Some Fatal
              else
                Some (Ok (mkMesh (start_time p) (FLT_MAX * (4 # 10))%Q 0 dim
                            bnx1 bnx2 bnx3 nrbx1 nrbx2 nrbx3
                            root_level root_level adaptive adaptive
                            max_level))
          end
      end
  end.

End MeshInit.

(** ** Mesh::SetBlockSizeAndBoundaries *)

Module BlockBounds.

(** The structure [RegionSize] with all its members. *)
Record RegionSize : Type := mkRegionSize {
  x1min : Real; x2min : Real; x3min : Real;
  x1max : Real; x2max : Real; x3max : Real;
  x1rat : Real; x2rat : Real; x3rat : Real;
  nx1 : Z; nx2 : Z; nx3 : Z
}.

(** The members of [Mesh] that the function reads. *)
Record Mesh : Type := mkMesh {
  mesh_size : RegionSize;
  mesh_bcs : list Z;
  nrbx1 : Z; nrbx2 : Z; nrbx3 : Z;
  root_level : Z
}.

(** The index of a face in [mesh_bcs] and [block_bcs]. *)
Definition face (f : BoundaryFace) : nat :=
  match f with
  | inner_x1 => 0 | outer_x1 => 1
  | inner_x2 => 2 | outer_x2 => 3
  | inner_x3 => 4 | outer_x3 => 5
  end.

Section Generators.

(** The functions [MeshGeneratorX1], [MeshGeneratorX2], [MeshGeneratorX3]
    are defined outside mesh.cpp: any functions of the logical coordinate
    and the mesh size. *)
Variables MeshGeneratorX1 MeshGeneratorX2 MeshGeneratorX3
  : Real -> RegionSize -> Real.

(** [(Real)lx/(Real)(nrbx<<(ll-root_level))]. *)
Definition rx (lx nrbx ll root_level : Z) : Real :=
  (inject_Z lx / inject_Z (Z.shiftl nrbx (ll - root_level)))%Q.

Definition SetBlockSizeAndBoundaries (pm : Mesh) (loc : LogicalLocation)
    (block_size : RegionSize) (block_bcs : list Z) : RegionSize * list Z :=
  let ms := mesh_size pm in
  let ll := level loc in
  let rl := root_level pm in
  (* x1 *)
  let '(b1min, block_bcs) :=
    if lx1 loc =? 0 then
      (x1min ms, <[face inner_x1 := zread (mesh_bcs pm) (face inner_x1)]>
                   block_bcs)
    else
      (MeshGeneratorX1 (rx (lx1 loc) (nrbx1 pm) ll rl) ms,
       <[face inner_x1 := -1]> block_bcs) in
  let '(b1max, block_bcs) :=
    if lx1 loc =? Z.shiftl (nrbx1 pm) (ll - rl) - 1 then
      (x1max ms, <[face outer_x1 := zread (mesh_bcs pm) (face outer_x1)]>
                   block_bcs)
    else
      (MeshGeneratorX1 (rx (lx1 loc + 1) (nrbx1 pm) ll rl) ms,
       <[face outer_x1 := -1]> block_bcs) in
  (* x2 *)
  let '(b2min, b2max, block_bcs) :=
    if nx2 ms =? 1 then
      (x2min ms, x2max ms,
       <[face outer_x2 := zread (mesh_bcs pm) (face outer_x2)]>
         (<[face inner_x2 := zread (mesh_bcs pm) (face inner_x2)]> block_bcs))
    else
      let '(lo, block_bcs) :=
        if lx2 loc =? 0 then
          (x2min ms, <[face inner_x2 := zread (mesh_bcs pm) (face inner_x2)]>
                       block_bcs)
        else
          (MeshGeneratorX2 (rx (lx2 loc) (nrbx2 pm) ll rl) ms,
           <[face inner_x2 := -1]> block_bcs) in
      let '(hi, block_bcs) :=
        if lx2 loc =? Z.shiftl (nrbx2 pm) (ll - rl) - 1 then
          (x2max ms, <[face outer_x2 := zread (mesh_bcs pm) (face outer_x2)]>
                       block_bcs)
        else
          (MeshGeneratorX2 (rx (lx2 loc + 1) (nrbx2 pm) ll rl) ms,
           <[face outer_x2 := -1]> block_bcs) in
      (lo, hi, block_bcs) in
  (* x3 *)
  let '(b3min, b3max, block_bcs) :=
    if nx3 ms =? 1 then
      (x3min ms, x3max ms,
       <[face outer_x3 := zread (mesh_bcs pm) (face outer_x3)]>
         (<[face inner_x3 := zread (mesh_bcs pm) (face inner_x3)]> block_bcs))
    else
      let '(lo, block_bcs) :=
        if lx3 loc =? 0 then
          (x3min ms, <[face inner_x3 := zread (mesh_bcs pm) (face inner_x3)]>
                       block_bcs)
        else
          (MeshGeneratorX3 (rx (lx3 loc) (nrbx3 pm) ll rl) ms,
           <[face inner_x3 := -1]> block_bcs) in
      let '(hi, block_bcs) :=
        if lx3 loc =? Z.shiftl (nrbx3 pm) (ll - rl) - 1 then
          (x3max ms, <[face outer_x3 := zread (mesh_bcs pm) (face outer_x3)]>
                       block_bcs)
        else
          (MeshGeneratorX3 (rx (lx3 loc + 1) (nrbx3 pm) ll rl) ms,
           <[face outer_x3 := -1]> block_bcs) in
      (lo, hi, block_bcs) in
  (mkRegionSize b1min b2min b3min b1max b2max b3max
     (x1rat block_size) (x2rat block_size) (x3rat block_size)
     (nx1 block_size) (nx2 block_size) (nx3 block_size),
   block_bcs).

End Generators.

End BlockBounds.

(** ** Mesh::AdaptiveMeshRefinement: the block exchange *)

Module Exchange.

(** Step 1, the list from the previous gid to the current one.  The state
    of the loop is the index [k] and the array [oldtonew]. *)
Definition oldtonew_step (nlbl : Z) (newtoold : list Z)
    (st : nat * list Z) (n : nat) : nat * list Z :=
  if zread newtoold n =? zread newtoold (n - 1) + 1 then
    (S st.1, <[st.1 := Z.of_nat n]> st.2)
  else if zread newtoold n =? zread newtoold (n - 1) + nlbl then
    foldl (fun st' (_ : Z) => (S st'.1, <[st'.1 := Z.of_nat n]> st'.2))
          st (zrange 0 (nlbl - 2))
  else st.

(** [oldtonew[0]=0; int k=1; for(int n=1; n<ntot; n++) ...]: the final [k]
    and the array, which comes in with its previous contents. *)
Definition oldtonew (nlbl : Z) (ntot : nat) (newtoold oldtonew0 : list Z)
  : nat * list Z :=
  foldl (oldtonew_step nlbl newtoold) (1%nat, <[O := 0]> oldtonew0)
        (seq 1 (ntot - 1)).

End Exchange.

(** ** Mesh::AdaptiveMeshRefinement: buffers of a block that changes level *)

Module Transfer.

Import Migration.

(** The coarse indices that the [MeshBlock] constructor sets when
    [pm->multilevel] is true. *)
Record CoarseIndices : Type := mkCoarse {
  cnghost : Z;
  cis : Z; cie : Z;
  cjs : Z; cje : Z;
  cks : Z; cke : Z
}.

(** An index box [is..ie, js..je, ks..ke]. *)
Definition box : Type := (Z * Z * Z * Z * Z * Z)%type.

(** A cell moved by [(d1, d2, d3)] in [(i, j, k)]. *)
Definition shift_cell (d1 d2 d3 : Z) (c : cell) : cell :=
  let '(a, n, k, j, i) := c in (a, n, k + d3, j + d2, i + d1).

Section Config.

Variables (NGHOST NHYDRO : Z) (MAGNETIC_FIELDS_ENABLED : bool).

Definition coarse_indices (block_size : RegionSize) : CoarseIndices :=
  let cnghost := Z.quot (NGHOST + 1) 2 + 1 in
  let cis := cnghost in
  let cie := cis + Z.quot (nx1 block_size) 2 - 1 in
  let '(cjs, cje) :=
    if 1 <? nx2 block_size
    then (cnghost, cnghost + Z.quot (nx2 block_size) 2 - 1)
    else (0, 0) in
  let '(cks, cke) :=
    if 1 <? nx3 block_size
    then (cnghost, cnghost + Z.quot (nx3 block_size) 2 - 1)
    else (0, 0) in
  mkCoarse cnghost cis cie cjs cje cks cke.

(** Step 4: the sizes of the buffers of a block that gets coarser and of a
    block that gets finer. *)
Definition bsf2c (mesh_size : RegionSize) (pblock : MeshBlock) : Z :=
  let bnx1 := nx1 (block_size pblock) in
  let bnx2 := nx2 (block_size pblock) in
  let bnx3 := nx3 (block_size pblock) in
  let f2 := f2 mesh_size in
  let f3 := f3 mesh_size in
  let bs := Z.quot bnx1 2 * Z.quot (bnx2 + 1) 2 * Z.quot (bnx3 + 1) 2
            * NHYDRO in
  if MAGNETIC_FIELDS_ENABLED then
    bs + ((Z.quot bnx1 2 + 1) * Z.quot (bnx2 + 1) 2 * Z.quot (bnx3 + 1) 2
          + Z.quot bnx1 2 * (Z.quot (bnx2 + 1) 2 + f2) * Z.quot (bnx3 + 1) 2
          + Z.quot bnx1 2 * Z.quot (bnx2 + 1) 2 * (Z.quot (bnx3 + 1) 2 + f3))
  else bs.

Definition bsc2f (mesh_size : RegionSize) (pblock : MeshBlock) : Z :=
  let bnx1 := nx1 (block_size pblock) in
  let bnx2 := nx2 (block_size pblock) in
  let bnx3 := nx3 (block_size pblock) in
  let f2 := f2 mesh_size in
  let f3 := f3 mesh_size in
  let bs := (Z.quot bnx1 2 + 2) * (Z.quot (bnx2 + 1) 2 + 2 * f2)
            * (Z.quot (bnx3 + 1) 2 + 2 * f3) * NHYDRO in
  if MAGNETIC_FIELDS_ENABLED then
    bs + ((Z.quot bnx1 2 + 1 + 2) * (Z.quot (bnx2 + 1) 2 + 2 * f2)
            * (Z.quot (bnx3 + 1) 2 + 2 * f3)
          + (Z.quot bnx1 2 + 2) * (Z.quot (bnx2 + 1) 2 + f2 + 2 * f2)
            * (Z.quot (bnx3 + 1) 2 + 2 * f3)
          + (Z.quot bnx1 2 + 2) * (Z.quot (bnx2 + 1) 2 + 2 * f2)
            * (Z.quot (bnx3 + 1) 2 + f3 + 2 * f3))
  else bs.

(** [u] over a box, then the three face arrays, each with one more face
    along its own axis: the calls of the branches that pack or unpack with
    [ie+1], [je+f2] and [ke+f3]. *)
Definition pack_faces (mesh_size : RegionSize) (b : box) : list cell :=
  let '(is_, ie, js, je, ks, ke) := b in
  Pack4DData u 0 (NHYDRO - 1) is_ ie js je ks ke
  ++ (if MAGNETIC_FIELDS_ENABLED then
        Pack3DData x1f is_ (ie + 1) js je ks ke
        ++ Pack3DData x2f is_ ie js (je + f2 mesh_size) ks ke
        ++ Pack3DData x3f is_ ie js je ks (ke + f3 mesh_size)
      else []).

(** Step 6, branch c2f: the part of the block [pb] sent to the child at
    [lloc], with one layer of cells around it. *)
Definition c2f_box (mesh_size : RegionSize) (pb : MeshBlock)
    (lloc : LogicalLocation) : box :=
  let ox1 := Z.land (lx1 lloc) 1 in
  let ox2 := Z.land (lx2 lloc) 1 in
  let ox3 := Z.land (lx3 lloc) 1 in
  let f2 := f2 mesh_size in
  let f3 := f3 mesh_size in
  let '(is', ie') :=
    if ox1 =? 0
    then (is_ pb - 1, is_ pb + Z.quot (nx1 (block_size pb)) 2)
    else (is_ pb + Z.quot (nx1 (block_size pb)) 2 - 1, ie pb + 1) in
  let '(js', je') :=
    if ox2 =? 0
    then (js pb - f2, js pb + Z.quot (nx2 (block_size pb)) 2)
    else (js pb + Z.quot (nx2 (block_size pb)) 2 - f2, je pb + f2) in
  let '(ks', ke') :=
    if ox3 =? 0
    then (ks pb - f3, ks pb + Z.quot (nx3 (block_size pb)) 2)
    else (ks pb + Z.quot (nx3 (block_size pb)) 2 - f3, ke pb + f3) in
  (is', ie', js', je', ks', ke').

Definition pack_c2f (mesh_size : RegionSize) (pb : MeshBlock)
    (lloc : LogicalLocation) : list cell :=
  pack_faces mesh_size (c2f_box mesh_size pb lloc).

(** Step 8, branch c2f: the cells of the coarse arrays of the new block
    read from the buffer. *)
Definition unpack_c2f (mesh_size : RegionSize) (c : CoarseIndices)
  : list cell :=
  pack_faces mesh_size
    (cis c - 1, cie c + 1, cjs c - f2 mesh_size, cje c + f2 mesh_size,
     cks c - f3 mesh_size, cke c + f3 mesh_size).

(** Step 6, branch f2c: the cells of the restricted arrays sent to the
    parent. *)
Definition pack_f2c (mesh_size : RegionSize) (c : CoarseIndices)
  : list cell :=
  pack_faces mesh_size (cis c, cie c, cjs c, cje c, cks c, cke c).

(** Step 8, branch f2c: the part of the new block filled from the buffer
    of the child at [lloc]. *)
Definition f2c_box (mesh_size : RegionSize) (pb : MeshBlock)
    (lloc : LogicalLocation) : box :=
  let ox1 := Z.land (lx1 lloc) 1 in
  let ox2 := Z.land (lx2 lloc) 1 in
  let ox3 := Z.land (lx3 lloc) 1 in
  let f2 := f2 mesh_size in
  let f3 := f3 mesh_size in
  let '(is', ie') :=
    if ox1 =? 0
    then (is_ pb, is_ pb + Z.quot (nx1 (block_size pb)) 2 - 1)
    else (is_ pb + Z.quot (nx1 (block_size pb)) 2, ie pb) in
  let '(js', je') :=
    if ox2 =? 0
    then (js pb, js pb + Z.quot (nx2 (block_size pb)) 2 - f2)
    else (js pb + Z.quot (nx2 (block_size pb)) 2, je pb) in
  let '(ks', ke') :=
    if ox3 =? 0
    then (ks pb, ks pb + Z.quot (nx3 (block_size pb)) 2 - f3)
    else (ks pb + Z.quot (nx3 (block_size pb)) 2, ke pb) in
  (is', ie', js', je', ks', ke').

Definition unpack_f2c (mesh_size : RegionSize) (pb : MeshBlock)
    (lloc : LogicalLocation) : list cell :=
  let '(is_, ie, js, je, ks, ke) := f2c_box mesh_size pb lloc in
  Pack4DData u 0 (NHYDRO - 1) is_ ie js je ks ke
  ++ (if MAGNETIC_FIELDS_ENABLED then
        Pack3DData x1f is_ (ie + 1) js je ks ke
        ++ Pack3DData x2f is_ (ie + 1) js je ks ke
        ++ Pack3DData x3f is_ (ie + 1) js je ks ke
      else []).

(** Step 7, a derefined block whose child at [lloc] is on the same rank:
    the part of the new block [pmb] that the restricted cells of the child
    are copied to. *)
Definition local_f2c_box (mesh_size : RegionSize) (pmb : MeshBlock)
    (lloc : LogicalLocation) : box :=
  let f2 := f2 mesh_size in
  let f3 := f3 mesh_size in
  let is' := is_ pmb
             + Z.quot (Z.land (lx1 lloc) 1 * nx1 (block_size pmb)) 2 in
  let ie' := is' + Z.quot (nx1 (block_size pmb)) 2 - 1 in
  let js' := js pmb
             + Z.quot (Z.land (lx2 lloc) 1 * nx2 (block_size pmb)) 2 in
  let je' := js' + Z.quot (nx2 (block_size pmb)) 2 - f2 in
  let ks' := ks pmb
             + Z.quot (Z.land (lx3 lloc) 1 * nx3 (block_size pmb)) 2 in
  let ke' := ks' + Z.quot (nx3 (block_size pmb)) 2 - f3 in
  (is', ie', js', je', ks', ke').

(** A cell of a box. *)
Definition inside (b : box) (i j k : Z) : Prop :=
  let '(is_, ie, js, je, ks, ke) := b in
  is_ <= i <= ie /\ js <= j <= je /\ ks <= k <= ke.

End Config.

End Transfer.

(** ** Mesh::AdaptiveMeshRefinement: the messages of the block exchange *)

Module Plan.

(** What happens to a block that moves: it keeps its level, it is merged
    into its parent, or it is a child of a refined block. *)
Inductive transfer : Type := same | f2c | c2f.

(** A message as [MPI_Irecv] or [MPI_Isend] gets it: the other rank, the
    arguments of [CreateAMRMPITag] and the number of reals. *)
Record message : Type := mkMessage {
  peer : Z;
  tag : Z * Z * Z * Z;
  size : Z
}.

(** [a[i]] for an [int] index; no value outside the array. *)
Definition get {A} (a : list A) (i : Z) : option A :=
  if i <? 0 then None else a !! Z.to_nat i.

(** A [for] loop over the values [l] whose body may leave the arrays. *)
Fixpoint loopM {S} (body : S -> Z -> option S) (s : S) (l : list Z)
  : option S :=
  match l with
  | [] => Some s
  | n :: l' => s' ← body s n; loopM body s' l'
  end.

(** [lloc.lx1&1L], [lloc.lx2&1L], [lloc.lx3&1L]. *)
Definition octant (lloc : LogicalLocation) : Z * Z * Z :=
  (Z.land (lx1 lloc) 1, Z.land (lx2 lloc) 1, Z.land (lx3 lloc) 1).

Section Messages.

(** [Globals::my_rank], [nlbl], the lists before and after the tree
    manipulation, [nslist] after the new load balance, and the three
    buffer sizes of step 4. *)
Variables my_rank nlbl : Z.
Variables loclist newloc : list LogicalLocation.
Variables ranklist newrank newtoold oldtonew nslist : list Z.
Variables bssame bsf2c bsc2f : Z.

(** Step 3, the body of the first loop: the new block [n] of this rank. *)
Definition count_recv (nrecv n : Z) : option Z :=
  on ← get newtoold n;
  oloc ← get loclist on;
  nloc ← get newloc n;
  if level nloc <? level oloc then
    loopM (fun nrecv k =>
             r ← get ranklist (on + k);
             Some (if negb (r =? my_rank) then nrecv + 1 else nrecv))
          nrecv (zrange 0 (nlbl - 1))
  else
    r ← get ranklist on;
    Some (if negb (r =? my_rank) then nrecv + 1 else nrecv).

(** Step 3, the body of the second loop: the old block [n] of this rank. *)
Definition count_send (nsend n : Z) : option Z :=
  nn ← get oldtonew n;
  oloc ← get loclist n;
  nloc ← get newloc nn;
  if level oloc <? level nloc then
    loopM (fun nsend k =>
             r ← get newrank (nn + k);
             Some (if negb (r =? my_rank) then nsend + 1 else nsend))
          nsend (zrange 0 (nlbl - 1))
  else
    r ← get newrank nn;
    Some (if negb (r =? my_rank) then nsend + 1 else nsend).

Definition nrecv (nbs nbe : Z) : option Z :=
  loopM count_recv 0 (zrange nbs nbe).

Definition nsend (onbs onbe : Z) : option Z :=
  loopM count_send 0 (zrange onbs onbe).

(** Step 5, the body of the loop: the receives posted for the new block
    [n], appended to [recvbuf[0..k)]. *)
Definition post_recv (nbs : Z) (posted : list message) (n : Z)
  : option (list message) :=
  on ← get newtoold n;
  oloc ← get loclist on;
  nloc ← get newloc n;
  if level nloc <? level oloc then
    loopM (fun posted l =>
             r ← get ranklist (on + l);
             if r =? my_rank then Some posted
             else
               lloc ← get loclist (on + l);
               let '(ox1, ox2, ox3) := octant lloc in
               Some (posted ++ [mkMessage r (n - nbs, ox1, ox2, ox3) bsf2c]))
          posted (zrange 0 (nlbl - 1))
  else
    r ← get ranklist on;
    if r =? my_rank then Some posted
    else
      let size := if level oloc =? level nloc then bssame else bsc2f in
      Some (posted ++ [mkMessage r (n - nbs, 0, 0, 0) size]).

Definition receives (nbs nbe : Z) : option (list message) :=
  c ← nrecv nbs nbe;
  if negb (c =? 0) then loopM (post_recv nbs) [] (zrange nbs nbe)
  else Some [].

(** Step 6, the body of the loop: the messages sent for the old block
    [n], appended to [sendbuf[0..k)]. *)
Definition send_block (sent : list message) (n : Z)
  : option (list message) :=
  nn ← get oldtonew n;
  oloc ← get loclist n;
  nloc ← get newloc nn;
  if level nloc =? level oloc then
    r ← get newrank nn;
    if r =? my_rank then Some sent
    else
      s ← get nslist r;
      Some (sent ++ [mkMessage r (nn - s, 0, 0, 0) bssame])
  else if level oloc <? level nloc then
    loopM (fun sent l =>
             r ← get newrank (nn + l);
             if r =? my_rank then Some sent
             else
               lloc ← get newloc (nn + l);
               s ← get nslist r;
               Some (sent ++ [mkMessage r (nn + l - s, 0, 0, 0) bsc2f]))
          sent (zrange 0 (nlbl - 1))
  else
    r ← get newrank nn;
    if r =? my_rank then Some sent
    else
      let '(ox1, ox2, ox3) := octant oloc in
      s ← get nslist r;
      Some (sent ++ [mkMessage r (nn - s, ox1, ox2, ox3) bsf2c]).

Definition sends (onbs onbe : Z) : option (list message) :=
  c ← nsend onbs onbe;
  if negb (c =? 0) then loopM send_block [] (zrange onbs onbe)
  else Some [].

(** Step 8, the body of the loop: the buffers unpacked for the new block
    [n], each with the branch that unpacks it and the position of the
    child among its siblings. *)
Definition unpack_block (done : list (transfer * Z * (Z * Z * Z))) (n : Z)
  : option (list (transfer * Z * (Z * Z * Z))) :=
  on ← get newtoold n;
  oloc ← get loclist on;
  nloc ← get newloc n;
  if level oloc =? level nloc then
    r ← get ranklist on;
    if r =? my_rank then Some done
    else Some (done ++ [(same, n, (0, 0, 0))])
  else if level nloc <? level oloc then
    loopM (fun done l =>
             r ← get ranklist (on + l);
             if r =? my_rank then Some done
             else
               lloc ← get loclist (on + l);
               Some (done ++ [(f2c, n, octant lloc)]))
          done (zrange 0 (nlbl - 1))
  else
    r ← get ranklist on;
    if r =? my_rank then Some done
    else Some (done ++ [(c2f, n, (0, 0, 0))]).

Definition unpacks (nbs nbe : Z)
  : option (list (transfer * Z * (Z * Z * Z))) :=
  c ← nrecv nbs nbe;
  if negb (c =? 0) then loopM unpack_block [] (zrange nbs nbe)
  else Some [].

(** The size that step 4 computes for the buffers of a branch. *)
Definition size_of (t : transfer) : Z :=
  match t with same => bssame | f2c => bsf2c | c2f => bsc2f end.

(** A receive and the branch of step 8 that unpacks its buffer: the
    receive has the size of that branch and the tag of the new block and
    of the position of the child. *)
Definition unpacked_as (nbs : Z) (p : message)
    (u : transfer * Z * (Z * Z * Z)) : Prop :=
  let '(t, n, (o1, o2, o3)) := u in
  size p = size_of t /\ tag p = (n - nbs, o1, o2, o3).

End Messages.

End Plan.

(** ** Mesh::MeshTest, the report of the load balance *)

Module Report.

(** A line [Rank j: nbt MeshBlocks, cost = mycost]. *)
Definition line : Type := (Z * Z * Real)%type.

(** The locals [j], [nbt] and [mycost] and the lines printed so far. *)
Definition state : Type := (Z * Z * Real * list line)%type.

(** The body of [for(i=0;i<nbtotal;i++)]. *)
Definition step (ranklist : list Z) (costlist : list Real) (st : state)
    (i : nat) : state :=
  let '(j, nbt, mycost, out) := st in
  if zread ranklist i =? j then
    (j, nbt + 1, (mycost + qread costlist i)%Q, out)
  else if negb (zread ranklist i =? j) then
    (j + 1, 1, qread costlist i, out ++ [(j, nbt, mycost)])
  else st.

(** The lines that the end of [MeshTest] prints. *)
Definition report (nbtotal : nat) (ranklist : list Z) (costlist : list Real)
  : list line :=
  let '(j, nbt, mycost, out) :=
    fold_left (step ranklist costlist) (seq 0 nbtotal) (0, 0, 0%Q, []) in
  out ++ [(j, nbt, mycost)].

(** The sum of the costs of the blocks of rank [r]. *)
Definition rank_cost (ranklist : list Z) (costlist : list Real) (r : Z)
  : Real :=
  Qsum (map snd (filter (fun p => p.1 = r) (zip ranklist costlist))).

(** A line that tells the truth about rank [r]. *)
Definition line_of (ranklist : list Z) (costlist : list Real) (l : line)
    (r : Z) : Prop :=
  let '(j, nbt, mycost) := l in
  j = r /\ nbt = Z.of_nat (LoadBalancing.blocks_of_rank ranklist r) /\
  (mycost == rank_cost ranklist costlist r)%Q.

End Report.

(** ** Mesh::AdaptiveMeshRefinement: the lists of the flagged blocks *)

Module Gather.

(** Modelled from MPI: [MPI_Allgatherv] with [MPI_IN_PLACE] leaves in the
    receive buffer of every rank, at the displacement [displs[r]], the
    [recvcounts[r]] elements that the buffer of rank [r] holds at that
    displacement.  Counts and displacements are in elements here; the
    program gives them in bytes, [sizeof(LogicalLocation)] times as
    much. *)
Definition place {A} (buf src : list A) (d n : Z) : list A :=
  take (Z.to_nat d) buf ++ take (Z.to_nat n) (drop (Z.to_nat d) src)
  ++ drop (Z.to_nat (d + n)) buf.

Definition Allgatherv {A} (bufs : list (list A)) (recvcounts displs : list Z)
    (my_rank : nat) : list A :=
  foldl (fun buf r =>
           place buf (default [] (bufs !! r)) (zread displs r)
                 (zread recvcounts r))
        (default [] (bufs !! my_rank)) (seq 0 (length bufs)).

Section Flag.

(** The flag that is collected: 1 for [lref], -1 for [lderef]. *)
Variable flag : Z.

(** [nref[my_rank]] or [nderef[my_rank]] after the first loop over the
    blocks of a rank. *)
Definition count (blocks : list AMR.flagged) : Z :=
  fold_left (fun c b => if AMR.refine_flag_ b =? flag then c + 1 else c)
            blocks 0.

(** The array [nref] or [nderef] after [MPI_Allgather], for the blocks of
    every rank. *)
Definition counts (ranks : list (list AMR.flagged)) : list Z :=
  map count ranks.

(** [tnref] or [tnderef]. *)
Definition total (ns : list Z) : Z := fold_left Z.add ns 0.

(** [rdisp] or [ddisp]: [rdisp[n] = rd; rd += nref[n]]. *)
Definition displacements (ns : list Z) : list Z :=
  (fold_left (fun st n => (st.1 + n, st.2 ++ [st.1])) ns (0, [])).2.

(** The second loop over the blocks of a rank: [lref[iref++]=pmb->loc],
    from [iref = rdisp[my_rank]] on, in the newly allocated array [buf]. *)
Definition collect (blocks : list AMR.flagged) (start : Z)
    (buf : list LogicalLocation) : list LogicalLocation :=
  (fold_left (fun st b =>
                if AMR.refine_flag_ b =? flag
                then (st.1 + 1, <[Z.to_nat st.1 := AMR.fl_loc b]> st.2)
                else st)
             blocks (start, buf)).2.

(** The array [lref] or [lderef] of rank [my_rank] after the gather;
    [ranks] holds the blocks of every rank and [fresh] the contents of
    the array that each rank has allocated. *)
Definition gathered (ranks : list (list AMR.flagged))
    (fresh : list (list LogicalLocation)) (my_rank : nat)
  : list LogicalLocation :=
  let ns := counts ranks in
  let ds := displacements ns in
  let bufs :=
    imap (fun r blocks =>
            collect blocks (zread ds r) (default [] (fresh !! r))) ranks in
  Allgatherv bufs ns ds my_rank.

End Flag.

End Gather.

(** ** Sample input *)

Module SampleRun.

(** A mesh of 16x8 cells in blocks of 4x4 cells, adaptive with three
    levels. *)
Definition input : MeshInit.Input :=
  MeshInit.mkInput 0 (10#1) (3#10) (-1) 1 16 8 1
    0 0 0 (1#1) (1#1) (1#1) (1#1) (1#1) (1#1)
    [4; 4; 1; 1; 1; 1] (Some 4) (Some 4) None true 3.

(** The mesh above as [SetBlockSizeAndBoundaries] reads it, with a linear
    map for the three mesh generators. *)
Definition generator (x : Real) (rs : BlockBounds.RegionSize) : Real :=
  (BlockBounds.x1min rs + x * (BlockBounds.x1max rs - BlockBounds.x1min rs))%Q.

Definition bounds : BlockBounds.Mesh :=
  BlockBounds.mkMesh
    (BlockBounds.mkRegionSize 0 0 0 (1#1) (1#1) (1#1) (1#1) (1#1) (1#1)
       16 8 1)
    [4; 4; 1; 1; 1; 1] 4 2 1 2.

End SampleRun.

(** ** Sample exchange *)

Module SampleExchange.

(** Three blocks of level 2 in one dimension, the first two on rank 0 and
    the third on rank 1; the second block is refined and the four new
    blocks are shared two and two. *)
Definition nlbl : Z := 2.
Definition loclist : list LogicalLocation :=
  [mkLoc 0 0 0 2; mkLoc 1 0 0 2; mkLoc 2 0 0 2].
Definition ranklist : list Z := [0; 0; 1].
Definition newloc : list LogicalLocation :=
  [mkLoc 0 0 0 2; mkLoc 2 0 0 3; mkLoc 3 0 0 3; mkLoc 2 0 0 2].
Definition newrank : list Z := [0; 0; 1; 1].
Definition newtoold : list Z := [0; 1; 1; 2].
Definition oldtonew : list Z := [0; 1; 3].
Definition nslist : list Z := [0; 2].

(** The messages that rank [r] sends for its old blocks [onbs..onbe] and
    the receives that it posts for its new blocks [nbs..nbe], with buffers
    of 40, 20 and 30 reals. *)
Definition sends (r onbs onbe : Z) : option (list Plan.message) :=
  Plan.sends r nlbl loclist newloc newrank oldtonew nslist 40 20 30
    onbs onbe.
Definition receives (r nbs nbe : Z) : option (list Plan.message) :=
  Plan.receives r nlbl loclist newloc ranklist newtoold 40 20 30 nbs nbe.

End SampleExchange.

(** ** Predicates of the proofs *)

(** The state of the assignment loop when every block costs one: [T] blocks
    were left when the rank [j] got its first block and [m] of them are
    assigned to it. *)
Definition uniform_inv (n : nat) (st : LoadBalancing.loop_state) : Prop :=
  0 <= LoadBalancing.ls_j st /\
  (0 < LoadBalancing.ls_targetcost st)%Q /\
  (LoadBalancing.ls_j st = 0 \/
   exists T m : Z,
     0 <= m /\ Z.of_nat n = T - m /\
     (LoadBalancing.ls_totalcost st == inject_Z T)%Q /\
     (LoadBalancing.ls_mycost st == inject_Z m)%Q /\
     (LoadBalancing.ls_targetcost st
      == inject_Z T / inject_Z (LoadBalancing.ls_j st + 1))%Q /\
     m * (LoadBalancing.ls_j st + 1) < T /\
     LoadBalancing.ls_j st + 1 <= T).

(** One axis of a block: one cell ([f = 0]) or an even number of cells
    ([f = 1]) from [s] to [e], with the coarse indices [cs] to [ce]. *)
Definition even_axis (NGHOST n f s e cs ce : Z) : Prop :=
  (n = 1 /\ f = 0 /\ s = 0 /\ e = 0 /\ cs = 0 /\ ce = 0) \/
  (0 < n /\ Z.rem n 2 = 0 /\ f = 1 /\ s = NGHOST /\ e = NGHOST + n - 1 /\
   ce = cs + Z.quot n 2 - 1).


(** * Properties *)

(** ** Real numbers *)

Lemma Qlt_bool_iff (a b : Q) : Qlt_bool a b = true <-> (a < b)%Q.
Proof.
  unfold Qlt_bool. rewrite negb_true_iff.
  destruct (Qle_bool b a) eqn:E.
  - apply Qle_bool_iff in E. split; [discriminate | intros H; lra].
  - split; [intros _ | reflexivity].
    apply Qnot_le_lt. intros H. apply Qle_bool_iff in H. congruence.
Qed.

Lemma std_min_Qmin (a b : Q) : std_min a b = Qmin a b.
Proof.
  unfold std_min, Qmin, GenericMinMax.gmin.
  destruct (Qlt_bool b a) eqn:E.
  - apply Qlt_bool_iff in E. apply Qgt_alt in E. now rewrite E.
  - destruct (Qcompare_spec a b) as [H|H|H]; try reflexivity.
    apply Qlt_bool_iff in H. congruence.
Qed.

Lemma std_min_le_l (a b : Q) : (std_min a b <= a)%Q.
Proof. rewrite std_min_Qmin. apply Q.le_min_l. Qed.

Lemma std_min_le_r (a b : Q) : (std_min a b <= b)%Q.
Proof. rewrite std_min_Qmin. apply Q.le_min_r. Qed.

Lemma std_min_cases (a b : Q) : std_min a b = a \/ std_min a b = b.
Proof. unfold std_min. destruct (Qlt_bool b a); auto. Qed.

(** The loop [min_dt=std::min(min_dt, x)] yields an element of the list that
    is below every element. *)
Lemma fold_std_min_spec (l : list Q) (b : Q) :
  fold_left std_min l b ∈ b :: l /\
  forall x, x ∈ b :: l -> (fold_left std_min l b <= x)%Q.
Proof.
  revert b. induction l as [|a l IH]; intros b; simpl.
  - split; [left | intros x Hx]. apply list_elem_of_singleton in Hx.
    subst. apply Qle_refl.
  - destruct (IH (std_min b a)) as [Hin Hle]. split.
    + apply elem_of_cons in Hin as [Hin|Hin].
      * rewrite Hin. destruct (std_min_cases b a) as [->| ->].
        -- left.
        -- right; left.
      * right; right; exact Hin.
    + intros x Hx.
      assert (H0 : (fold_left std_min l (std_min b a) <= std_min b a)%Q)
        by (apply Hle; left).
      apply elem_of_cons in Hx as [->|Hx].
      * eapply Qle_trans; [exact H0 | apply std_min_le_l].
      * apply elem_of_cons in Hx as [->|Hx].
        -- eapply Qle_trans; [exact H0 | apply std_min_le_r].
        -- apply Hle. right; exact Hx.
Qed.

(** ** LoadBalancing *)

(** The outcome of the assignment loop for costs 10, 1, 1 on three ranks:
    the run of the loop and of the counting loop, with no error. *)
Lemma LoadBalancing_10_1_1 (r0 r1 r2 s0 s1 s2 n0 n1 n2 : Z) :
  LoadBalancing.LoadBalancing 3 [10#1; 1#1; 1#1]%Q
    [r0; r1; r2] [s0; s1; s2] [n0; n1; n2]
  = Ok (LoadBalancing.mkBalance [2; 2; 2] [0; s1; s2] [3; n1; n2]).
Proof. vm_compute. reflexivity. Qed.

(** C1 (the code differs): [LoadBalancing] on the costs 10, 1, 1 and three
    ranks returns normally, every block is given to rank 2, ranks 0 and 1
    own no block, and the counts [nlist[1]], [nlist[2]] are not written. *)
Theorem LoadBalancing_returns_with_empty_ranks (r0 r1 r2 s0 s1 s2 n0 n1 n2 : Z) :
  exists b,
    LoadBalancing.LoadBalancing 3 [10#1; 1#1; 1#1]%Q
      [r0; r1; r2] [s0; s1; s2] [n0; n1; n2] = Ok b /\
    LoadBalancing.rlist b = [2; 2; 2] /\
    LoadBalancing.blocks_of_rank (LoadBalancing.rlist b) 0 = 0%nat /\
    LoadBalancing.blocks_of_rank (LoadBalancing.rlist b) 1 = 0%nat /\
    LoadBalancing.nlist b = [3; n1; n2].
Proof.
  eexists. split; [apply LoadBalancing_10_1_1 |].
  repeat split; reflexivity.
Qed.

(** The same with equal costs, in the mesh test with more ranks than blocks:
    one block, two ranks. *)
Lemma LoadBalancing_one_block_two_ranks (r0 s0 s1 n0 n1 : Z) :
  LoadBalancing.LoadBalancing 2 [1#1]%Q [r0] [s0; s1] [n0; n1]
  = Ok (LoadBalancing.mkBalance [1] [0; s1] [1; n1]).
Proof. vm_compute. reflexivity. Qed.

(** ** MeshTest *)

(** C9 (the code differs): for two blocks of level 1 with the costs 1 and 3,
    [MeshTest] reports minimum 3, maximum 3 and total 6, the statistics of
    [costlist[1]] taken twice, where the costs of the blocks have minimum 1,
    maximum 3 and total 4. *)
Theorem MeshTest_reads_cost_at_level :
  let loclist := [mkLoc 0 0 0 1; mkLoc 1 0 0 1] in
  let costlist := [1#1; 3#1]%Q in
  MeshTest.MeshTest 1 1 loclist costlist = Some (3#1, 3#1, 6#1)%Q /\
  MeshTest.stats_by_block costlist = (1#1, 3#1, 4#1)%Q.
Proof. split; vm_compute; reflexivity. Qed.

(** ** NewTimeStep *)

Lemma local_min_dt_spec (blocks : list Real) :
  blocks <> [] ->
  exists m, NewTimeStep.local_min_dt blocks = Some m /\ m ∈ blocks /\
            forall x, x ∈ blocks -> (m <= x)%Q.
Proof.
  destruct blocks as [|b rest]; [congruence | intros _].
  eexists; split; [reflexivity |]. apply fold_std_min_spec.
Qed.

Lemma mapM_local_min_dt (others : list (list Real)) :
  Forall (fun r => r <> []) others ->
  exists mins, mapM NewTimeStep.local_min_dt others = Some mins /\
    (forall y, y ∈ mins -> y ∈ concat others) /\
    (forall x, x ∈ concat others -> exists y, y ∈ mins /\ (y <= x)%Q).
Proof.
  induction 1 as [|r others Hr _ IH].
  - exists []. split; [reflexivity|]. split; intros x Hx; inversion Hx.
  - destruct IH as (mins & Hm & Hin & Hle).
    destruct (local_min_dt_spec r Hr) as (m & Hl & Hmin & Hmle).
    exists (m :: mins). split.
    + cbn. rewrite Hl. cbn. rewrite Hm. reflexivity.
    + split.
      * intros y Hy. cbn. apply elem_of_app.
        apply elem_of_cons in Hy as [->|Hy]; [left; exact Hmin | right; auto].
      * intros x Hx. cbn in Hx. apply elem_of_app in Hx as [Hx|Hx].
        -- exists m. split; [left | auto].
        -- destruct (Hle x Hx) as (y & Hy & Hyx). exists y. split; [right|]; auto.
Qed.

(** C3: with at least one block on every rank, [NewTimeStep] returns; the new
    [dt] is [min(min_dt*cfl_number, 2*dt)], where [min_dt] is a value of
    [new_block_dt] below that of every block of every rank, replaced by
    [tlim-time] exactly when [time < tlim] and [tlim-time] is below that
    minimum; the other members are unchanged. *)
Theorem NewTimeStep_dt (m : NewTimeStep.Mesh) (mine : list Real)
    (others : list (list Real)) :
  mine <> [] ->
  Forall (fun r => r <> []) others ->
  exists min_dt m',
    NewTimeStep.NewTimeStep m mine others = Some m' /\
    min_dt ∈ concat (mine :: others) /\
    (forall x, x ∈ concat (mine :: others) -> (min_dt <= x)%Q) /\
    NewTimeStep.time m' = NewTimeStep.time m /\
    NewTimeStep.tlim m' = NewTimeStep.tlim m /\
    NewTimeStep.cfl_number m' = NewTimeStep.cfl_number m /\
    let dt1 := Qmin (min_dt * NewTimeStep.cfl_number m)
                    (2 * NewTimeStep.dt m) in
    let clamp := (NewTimeStep.time m < NewTimeStep.tlim m /\
                  NewTimeStep.tlim m - NewTimeStep.time m < dt1)%Q in
    (clamp -> NewTimeStep.dt m' = (NewTimeStep.tlim m - NewTimeStep.time m)%Q) /\
    (~ clamp -> NewTimeStep.dt m' = dt1).
Proof.
  intros Hmine Hothers.
  destruct (local_min_dt_spec mine Hmine) as (m0 & Hl & Hin0 & Hle0).
  destruct (mapM_local_min_dt others Hothers) as (mins & Hm & Hin & Hle).
  destruct (fold_std_min_spec mins m0) as [Hfin Hfle].
  set (g := NewTimeStep.Allreduce_MIN m0 mins).
  set (dt1 := Qmin (g * NewTimeStep.cfl_number m) (2 * NewTimeStep.dt m)).
  set (c := Qlt_bool (NewTimeStep.time m) (NewTimeStep.tlim m)
            && Qlt_bool (NewTimeStep.tlim m - NewTimeStep.time m) dt1).
  exists g, (NewTimeStep.set_dt m
               (if c then (NewTimeStep.tlim m - NewTimeStep.time m)%Q else dt1)).
  split.
  { unfold NewTimeStep.NewTimeStep. rewrite Hl. cbn. rewrite Hm. cbn.
    rewrite std_min_Qmin. fold g. fold dt1. fold c. destruct c; reflexivity. }
  split.
  { cbn. apply elem_of_app. fold (NewTimeStep.Allreduce_MIN m0 mins) in Hfin.
    fold g in Hfin. apply elem_of_cons in Hfin as [->|Hfin]; auto. }
  split.
  { intros x Hx. cbn in Hx. apply elem_of_app in Hx as [Hx|Hx].
    - eapply Qle_trans; [apply Hfle; left | auto].
    - destruct (Hle x Hx) as (y & Hy & Hyx).
      eapply Qle_trans; [apply Hfle; right; exact Hy | exact Hyx]. }
  repeat (split; [reflexivity|]).
  cbn zeta. cbn [NewTimeStep.dt NewTimeStep.set_dt]. fold dt1.
  split.
  - intros [H1 H2]. apply Qlt_bool_iff in H1, H2. subst c.
    rewrite H1, H2. reflexivity.
  - intros Hn. destruct c eqn:Ec; [|reflexivity]. exfalso. apply Hn.
    subst c. apply andb_true_iff in Ec as [H1 H2].
    split; apply Qlt_bool_iff; assumption.
Qed.

(** C3 at work: two ranks, blocks with time steps 2 and 1 on this rank and 3
    on the other, CFL number 3/10, previous step 1, far from the limit. *)
Lemma NewTimeStep_dt_witness :
  let m := (NewTimeStep.mkMesh 0 (10#1) (1#1) (3#10))%Q in
  exists min_dt m',
    NewTimeStep.NewTimeStep m [2#1; 1#1]%Q [[3#1]%Q] = Some m' /\
    min_dt ∈ concat ([2#1; 1#1]%Q :: [[3#1]%Q]) /\
    (forall x, x ∈ concat ([2#1; 1#1]%Q :: [[3#1]%Q]) -> (min_dt <= x)%Q) /\
    NewTimeStep.time m' = NewTimeStep.time m /\
    NewTimeStep.tlim m' = NewTimeStep.tlim m /\
    NewTimeStep.cfl_number m' = NewTimeStep.cfl_number m /\
    let dt1 := Qmin (min_dt * NewTimeStep.cfl_number m)
                    (2 * NewTimeStep.dt m) in
    let clamp := (NewTimeStep.time m < NewTimeStep.tlim m /\
                  NewTimeStep.tlim m - NewTimeStep.time m < dt1)%Q in
    (clamp -> NewTimeStep.dt m' = (NewTimeStep.tlim m - NewTimeStep.time m)%Q) /\
    (~ clamp -> NewTimeStep.dt m' = dt1).
Proof.
  intros m.
  apply (NewTimeStep_dt m [2#1; 1#1]%Q [[3#1]%Q]).
  - discriminate.
  - repeat constructor; discriminate.
Defined.

(** ** Adaptive mesh refinement: the blocks to derefine *)

(** The number of blocks of a family is two to the dimension. *)
Lemma nlbl_pow_dim (nx2 nx3 : Z) : AMR.nlbl nx2 nx3 = 2 ^ AMR.dim nx2 nx3.
Proof.
  unfold AMR.nlbl, AMR.dim.
  destruct (1 <? nx3); [reflexivity|]. destruct (1 <? nx2); reflexivity.
Qed.

(** C2 (the code differs): in one dimension, when the two children of the
    block [(0, level 1)] are the only blocks flagged -1, no parent reaches
    [Derefine]; when a third block is flagged too, the same family is
    derefined. *)
Theorem derefine_single_family_dropped
    (Greater : LogicalLocation -> LogicalLocation -> bool) :
  AMR.tnderef (Sample.line4 (-1) (-1) 0 0) = AMR.nlbl 1 1 /\
  AMR.lderef (Sample.line4 (-1) (-1) 0 0) = [mkLoc 0 0 0 2; mkLoc 1 0 0 2] /\
  AMR.derefine_order Greater 1 1 (Sample.line4 (-1) (-1) 0 0) = Done [] /\
  AMR.derefine_order Greater 1 1 (Sample.line4 (-1) (-1) 0 (-1))
    = Done [mkLoc 0 0 0 1].
Proof. repeat split; vm_compute; reflexivity. Qed.

(** C10 (the code differs): in one dimension with the blocks 0, 1 and 2 of
    level 2 flagged -1, the scan started at the last entry, whose coordinates
    are even, reads [lderef[3]] in a list of three entries. *)
Theorem family_scan_reads_past_end :
  AMR.tnderef (Sample.line4 (-1) (-1) (-1) 0) = 3 /\
  AMR.nlbl 1 1 = 2 /\
  AMR.derefine_parents 1 1 (Sample.line4 (-1) (-1) (-1) 0) = OutOfBounds 3 3.
Proof. repeat split; vm_compute; reflexivity. Qed.

(** C6 (the code differs): with two parents to derefine, of level 1 and of
    level 2 in the order of the gathered list, the sort covers the first
    parent only, whatever the comparison is, and [Derefine] is given the
    parent of level 1 before the parent of level 2. *)
Theorem derefine_order_not_sorted
    (Greater : LogicalLocation -> LogicalLocation -> bool) :
  AMR.derefine_parents 1 1 Sample.line5 = Done [mkLoc 0 0 0 1; mkLoc 2 0 0 2] /\
  AMR.derefine_order Greater 1 1 Sample.line5 = Done [mkLoc 0 0 0 1; mkLoc 2 0 0 2].
Proof. split; vm_compute; reflexivity. Qed.

(** The sort of the parents leaves the last one in its place. *)
Lemma sort_parents_last (Greater : LogicalLocation -> LogicalLocation -> bool)
    (cl : list LogicalLocation) (x : LogicalLocation) :
  last (AMR.sort_parents Greater (cl ++ [x])) = Some x.
Proof.
  unfold AMR.sort_parents. rewrite length_app. cbn [length].
  replace (length cl + 1 - 1)%nat with (length cl) by lia.
  rewrite take_app_length, drop_app_length.
  destruct (1 <? length cl + 1)%nat; apply last_snoc.
Qed.

(** ** Adaptive mesh refinement: the cost of the new blocks *)

Lemma fold_cost_sum (costlist : list Real) (pg : Z) (ks : list Z)
    (cs : list Real) (a0 : Real) :
  Forall2 (fun l c => costlist !! Z.to_nat (pg + l) = Some c) ks cs ->
  foldl (fun acc l => a ← acc; c ← costlist !! Z.to_nat (pg + l);
                      Some (a + c)%Q) (Some a0) ks
  = Some (fold_left Qplus cs a0).
Proof.
  intros H. revert a0. induction H as [|l c ks cs Hl _ IH]; intros a0.
  - reflexivity.
  - cbn. rewrite Hl. cbn. apply IH.
Qed.

Lemma zrange_lookup_slice (costlist : list Real) (pg : nat) (n : nat) :
  (pg + n <= length costlist)%nat ->
  Forall2 (fun l c => costlist !! Z.to_nat (Z.of_nat pg + l) = Some c)
          (zrange 0 (Z.of_nat n - 1)) (take n (drop pg costlist)).
Proof.
  intros Hlen. unfold zrange.
  replace (Z.to_nat (Z.of_nat n - 1 - 0 + 1)) with n by lia.
  apply Forall2_same_length_lookup_2.
  - rewrite length_map, length_seq, length_take, length_drop. lia.
  - intros i l c Hl Hc.
    rewrite list_lookup_fmap in Hl.
    destruct (seq 0 n !! i) as [k|] eqn:Hk; [|discriminate].
    apply lookup_seq in Hk as [-> Hi]. cbn in Hl. injection Hl as <-.
    rewrite lookup_take_lt in Hc by lia. rewrite lookup_drop in Hc.
    rewrite <- Hc. f_equal. lia.
Qed.

(** C7: the loop over the new blocks returns; the cost of a new block that is
    as fine as or finer than its image [newtoold[n]] is the cost of the
    image, and the cost of a coarser new block is the sum of the costs of the
    [2^dim] old blocks from [newtoold[n]] on, divided by [2^dim]. *)
Theorem newcost_propagation (nx2 nx3 : Z) (ntot : nat)
    (newloc loclist : list LogicalLocation) (costlist : list Real)
    (newtoold : list Z) :
  length newloc = ntot ->
  length newtoold = ntot ->
  length loclist = length costlist ->
  (forall n pg nl, newtoold !! n = Some pg -> newloc !! n = Some nl ->
     0 <= pg < Z.of_nat (length costlist) /\
     forall ol, loclist !! Z.to_nat pg = Some ol -> level nl < level ol ->
                pg + AMR.nlbl nx2 nx3 <= Z.of_nat (length costlist)) ->
  exists nc,
    AMR.newcost nx2 nx3 ntot newloc loclist costlist newtoold = Some nc /\
    length nc = ntot /\
    forall n nl pg ol,
      newloc !! n = Some nl -> newtoold !! n = Some pg ->
      loclist !! Z.to_nat pg = Some ol ->
      (level ol <= level nl ->
         nc !! n = costlist !! Z.to_nat pg) /\
      (level nl < level ol ->
         nc !! n =
         Some (Qsum (take (Z.to_nat (2 ^ AMR.dim nx2 nx3))
                          (drop (Z.to_nat pg) costlist))
               / inject_Z (2 ^ AMR.dim nx2 nx3))%Q).
Proof.
  intros Hnl Hnto Hlc Hrange.
  assert (Hpos : 2 <= AMR.nlbl nx2 nx3).
  { unfold AMR.nlbl. destruct (1 <? nx3), (1 <? nx2); lia. }
  assert (Hat : forall n, (n < ntot)%nat ->
    exists c, AMR.newcost_at nx2 nx3 newloc loclist costlist newtoold n = Some c /\
      forall nl pg ol,
        newloc !! n = Some nl -> newtoold !! n = Some pg ->
        loclist !! Z.to_nat pg = Some ol ->
        (level ol <= level nl -> Some c = costlist !! Z.to_nat pg) /\
        (level nl < level ol ->
           c = (Qsum (take (Z.to_nat (AMR.nlbl nx2 nx3))
                           (drop (Z.to_nat pg) costlist))
                / inject_Z (AMR.nlbl nx2 nx3))%Q)).
  { intros n Hn.
    destruct (lookup_lt_is_Some_2 newtoold n) as [pg Hpg]; [lia|].
    destruct (lookup_lt_is_Some_2 newloc n) as [nl Hl]; [lia|].
    destruct (Hrange n pg nl Hpg Hl) as [Hpg0 Hpg1].
    destruct (lookup_lt_is_Some_2 loclist (Z.to_nat pg)) as [ol Hol]; [lia|].
    destruct (lookup_lt_is_Some_2 costlist (Z.to_nat pg)) as [c0 Hc0]; [lia|].
    unfold AMR.newcost_at. rewrite Hpg, Hl. cbn.
    destruct (pg <? 0) eqn:E; [lia|]. rewrite Hol. cbn.
    destruct (level ol <=? level nl) eqn:El.
    - rewrite Hc0. eexists; split; [reflexivity|].
      intros nl' pg' ol' H1 H2 H3. simplify_eq. split; [auto | lia].
    - pose proof (zrange_lookup_slice costlist (Z.to_nat pg)
                    (Z.to_nat (AMR.nlbl nx2 nx3))) as Hs.
      rewrite !Z2Nat.id in Hs by lia.
      specialize (Hpg1 ol Hol ltac:(lia)). specialize (Hs ltac:(lia)).
      rewrite (fold_cost_sum _ _ _ _ _ Hs). cbn.
      eexists; split; [reflexivity|].
      intros nl' pg' ol' H1 H2 H3. simplify_eq. split; [lia | reflexivity]. }
  assert (Hall : is_Some
    (mapM (AMR.newcost_at nx2 nx3 newloc loclist costlist newtoold) (seq 0 ntot))).
  { apply mapM_is_Some. apply Forall_forall. intros n Hn.
    apply elem_of_seq in Hn. destruct (Hat n ltac:(lia)) as (c & Hc & _).
    cbn. rewrite Hc. eauto. }
  destruct Hall as [nc Hnc]. exists nc. split; [exact Hnc|].
  pose proof (length_mapM _ _ _ Hnc) as Hlen. rewrite length_seq in Hlen.
  split; [lia|].
  intros n nl pg ol H1 H2 H3.
  assert (Hn : (n < ntot)%nat) by (apply lookup_lt_Some in H1; lia).
  destruct (Hat n Hn) as (c & Hc & Hspec).
  apply mapM_Some in Hnc.
  assert (Hncn : nc !! n = Some c).
  { destruct (lookup_lt_is_Some_2 nc n) as [c' Hc']; [lia|].
    pose proof (Forall2_lookup_lr _ _ _ n n c' Hnc
                  (lookup_seq_lt _ _ _ Hn)  Hc') as Hx.
    cbn in Hx. congruence. }
  destruct (Hspec nl pg ol H1 H2 H3) as [Ha Hb]. rewrite Hncn.
  rewrite <- nlbl_pow_dim. split; intros Hlev.
  - apply Ha, Hlev.
  - f_equal. apply Hb, Hlev.
Qed.

(** C7 at work: in one dimension, old blocks of level 2, 2, 1 with the costs
    1, 3, 5; the first two are merged into a block of level 1. *)
Lemma newcost_propagation_witness :
  exists nc,
    AMR.newcost 1 1 2 [mkLoc 0 0 0 1; mkLoc 1 0 0 1]
      [mkLoc 0 0 0 2; mkLoc 1 0 0 2; mkLoc 1 0 0 1] [1#1; 3#1; 5#1]%Q [0; 2]
      = Some nc /\
    nc !! 0%nat = Some ((0 + (1#1) + (3#1)) / inject_Z 2)%Q /\
    nc !! 1%nat = Some (5#1)%Q.
Proof.
  destruct (newcost_propagation 1 1 2 [mkLoc 0 0 0 1; mkLoc 1 0 0 1]
      [mkLoc 0 0 0 2; mkLoc 1 0 0 2; mkLoc 1 0 0 1] [1#1; 3#1; 5#1]%Q [0; 2])
    as (nc & Hnc & _ & Hspec).
  - reflexivity.
  - reflexivity.
  - reflexivity.
  - intros [|[|n]] pg nl Hpg Hl; cbn in Hpg, Hl; simplify_eq;
      (split; [cbn; lia|]); intros ol Hol Hlev; vm_compute in Hol;
      simplify_eq; cbn in Hlev; try lia; vm_compute; easy.
  - exists nc. split; [exact Hnc|]. split.
    + apply (Hspec 0%nat (mkLoc 0 0 0 1) 0 (mkLoc 0 0 0 2));
        [reflexivity | reflexivity | reflexivity | cbn; lia].
    + apply (Hspec 1%nat (mkLoc 1 0 0 1) 2 (mkLoc 1 0 0 1));
        [reflexivity | reflexivity | reflexivity | cbn; lia].
Defined.

(** ** Adaptive mesh refinement: the buffer of a block that keeps its level *)

(** C5 (the code differs): for a block of four cells in one dimension, two
    ghost cells, five hydro variables and magnetic fields, the buffer has
    [bssame = 33] reals and the sender writes 35 reals into it (the receiver
    reads the same 35): [x2f] and [x3f] are packed over the extent of [x1f],
    five entries each where [nx1*(nx2+f2)*nx3] and [nx1*nx2*(nx3+f3)] are
    four; the layout with each face array over its own extent has 33 reals. *)
Theorem pack_same_overruns_bssame :
  let mesh_size := Migration.mkRegionSize 16 1 1 in
  let pb := Migration.new_MeshBlock 2 (Migration.mkRegionSize 4 1 1) in
  Migration.bssame 5 true mesh_size pb = 33 /\
  Z.of_nat (length (Migration.pack_same 5 true pb)) = 35 /\
  Migration.unpack_same 5 true pb = Migration.pack_same 5 true pb /\
  Migration.cells_of Migration.x2f (Migration.pack_same 5 true pb)
    = Migration.Pack3DData Migration.x2f 2 6 0 0 0 0 /\
  Migration.cells_of Migration.x3f (Migration.pack_same 5 true pb)
    = Migration.Pack3DData Migration.x3f 2 6 0 0 0 0 /\
  Z.of_nat (length (Migration.cells_of Migration.x2f
                      (Migration.proper_same_layout 5 true mesh_size pb))) = 4 /\
  Z.of_nat (length (Migration.proper_same_layout 5 true mesh_size pb)) = 33.
Proof. repeat split; vm_compute; reflexivity. Qed.

(** In three dimensions with cubic blocks the numbers agree and the cells do
    not: for a block of 4x4x4 cells the face of [x2f] at [j = je+1] is not in
    the buffer, and the cells of [x2f] at [i = ie+1], which are no faces of
    the block, are. *)
Lemma pack_same_cubic_block_wrong_faces :
  let mesh_size := Migration.mkRegionSize 16 16 16 in
  let pb := Migration.new_MeshBlock 2 (Migration.mkRegionSize 4 4 4) in
  Migration.bssame 5 true mesh_size pb
    = Z.of_nat (length (Migration.pack_same 5 true pb)) /\
  ((Migration.x2f, 0, 2, 6, 2)
     ∈ Migration.proper_same_layout 5 true mesh_size pb) /\
  ((Migration.x2f, 0, 2, 6, 2) ∉ Migration.pack_same 5 true pb) /\
  ((Migration.x2f, 0, 2, 2, 6) ∈ Migration.pack_same 5 true pb).
Proof.
  cbv zeta. split; [vm_compute; reflexivity|].
  split; [|split].
  - apply (bool_decide_unpack _). vm_compute. exact I.
  - apply (bool_decide_unpack _). vm_compute. exact I.
  - apply (bool_decide_unpack _). vm_compute. exact I.
Qed.

(** ** The neighbour search *)

Section SearchFacts.

Variable MeshBlockTree : Type.
Variable flag : MeshBlockTree -> bool.
Variable tloc : MeshBlockTree -> LogicalLocation.
Variable tgid : MeshBlockTree -> Z.
Variable GetLeaf : MeshBlockTree -> Z -> Z -> Z -> MeshBlockTree.
Variable FindNeighbor :
  LogicalLocation -> Z -> Z -> Z -> list Z -> option MeshBlockTree.
Variable FindBufferID : Z -> Z -> Z -> Z -> Z -> Z -> Z.
Variable pmy_mesh : Neighbors.Mesh.
Variables ranklist nslist : list Z.
Variable pmb : Neighbors.MeshBlock.

Local Abbreviation x1_face :=
  (Neighbors.x1_face MeshBlockTree flag tloc tgid GetLeaf FindNeighbor FindBufferID
     pmy_mesh ranklist nslist pmb).
Local Abbreviation x2_face :=
  (Neighbors.x2_face MeshBlockTree flag tloc tgid GetLeaf FindNeighbor FindBufferID
     pmy_mesh ranklist nslist pmb).
Local Abbreviation x3_face :=
  (Neighbors.x3_face MeshBlockTree flag tloc tgid GetLeaf FindNeighbor FindBufferID
     pmy_mesh ranklist nslist pmb).
Local Abbreviation x1x2_edge :=
  (Neighbors.x1x2_edge MeshBlockTree flag tloc tgid GetLeaf FindNeighbor FindBufferID
     pmy_mesh ranklist nslist pmb).
Local Abbreviation x1x3_edge :=
  (Neighbors.x1x3_edge MeshBlockTree flag tloc tgid GetLeaf FindNeighbor FindBufferID
     pmy_mesh ranklist nslist pmb).
Local Abbreviation x2x3_edge :=
  (Neighbors.x2x3_edge MeshBlockTree flag tloc tgid GetLeaf FindNeighbor FindBufferID
     pmy_mesh ranklist nslist pmb).
Local Abbreviation corner_step :=
  (Neighbors.corner_step MeshBlockTree flag tloc tgid GetLeaf FindNeighbor FindBufferID
     pmy_mesh ranklist nslist pmb).
Local Abbreviation dir_step :=
  (Neighbors.dir_step MeshBlockTree flag tloc tgid GetLeaf FindNeighbor FindBufferID
     pmy_mesh ranklist nslist pmb).
Local Abbreviation dir_recs_at :=
  (Neighbors.dir_recs_at MeshBlockTree flag tloc tgid GetLeaf FindNeighbor FindBufferID
     pmy_mesh ranklist nslist pmb).
Local Abbreviation search :=
  (Neighbors.search MeshBlockTree flag tloc tgid GetLeaf FindNeighbor FindBufferID
     pmy_mesh ranklist nslist pmb).
Local Abbreviation SearchAndSetNeighbors :=
  (Neighbors.SearchAndSetNeighbors MeshBlockTree flag tloc tgid GetLeaf FindNeighbor
     FindBufferID pmy_mesh ranklist nslist pmb).
Local Abbreviation nf1 := (Neighbors.nf1 pmy_mesh pmb).
Local Abbreviation nf2 := (Neighbors.nf2 pmy_mesh pmb).
Local Abbreviation scan_list := (Neighbors.scan_list pmy_mesh pmb).
Local Abbreviation slot_base := (Neighbors.slot_base pmy_mesh pmb).
Local Abbreviation slot := (Neighbors.slot pmy_mesh pmb).

Lemma nf1_cases : nf1 = 1 \/ nf1 = 2.
Proof.
  unfold Neighbors.nf1.
  destruct (Neighbors.multilevel pmy_mesh), (1 <? Neighbors.nx2 pmb); auto.
Qed.

Lemma nf2_cases : nf2 = 1 \/ nf2 = 2.
Proof.
  unfold Neighbors.nf2.
  destruct (Neighbors.multilevel pmy_mesh), (1 <? Neighbors.nx3 pmb); auto.
Qed.

Lemma SetNeighbor_ext (rk lv id ld o1 o2 o3 : Z) (ty : neighbor_type)
    (b b' t t' f1 f2 : Z) :
  b = b' -> t = t' ->
  NeighborBlock.SetNeighbor rk lv id ld o1 o2 o3 ty b t f1 f2
  = NeighborBlock.SetNeighbor rk lv id ld o1 o2 o3 ty b' t' f1 f2.
Proof. now intros -> ->. Qed.

Lemma zrange_0_0 : zrange 0 (1 - 1) = [0].
Proof. reflexivity. Qed.

Lemma zrange_0_1 : zrange 0 (2 - 1) = [0; 1].
Proof. reflexivity. Qed.

(** Closes the goal [step st n = dir_step st (d, w)] for a fixed direction,
    once [nf1] and [nf2] are known; [rw] rewrites them. *)
Ltac step_eq rw :=
  unfold Neighbors.dir_step, Neighbors.dir_recs_at, Neighbors.record_of,
    Neighbors.set, Neighbors.tbid_of, Neighbors.fine_counts,
    Neighbors.coarse_fi, Neighbors.outward, Neighbors.leafpos, Neighbors.ff;
  cbn;
  match goal with
  | |- context [FindNeighbor ?a ?b ?c ?d ?e] =>
      destruct (FindNeighbor a b c d e) as [neibt|];
      [destruct (flag neibt)|]
  end;
  rw; rewrite ?zrange_0_0, ?zrange_0_1; cbn;
  repeat match goal with
         | |- context [?x <=? ?y] => destruct (x <=? y)
         | |- context [?x =? ?y] => destruct (x =? y)
         end;
  cbn;
  repeat match goal with
         | |- context [if ?b then _ else _] => destruct b
         end;
  cbn; rewrite ?app_nil_r, <- ?app_assoc; cbn;
  repeat first [ match goal with |- @eq Z _ _ => lia end
               | apply SetNeighbor_ext | progress f_equal | reflexivity].

Lemma x1_face_dir (st : Neighbors.state) (n : Z) :
  n = -1 \/ n = 1 ->
  x1_face st n = dir_step st ((n, 0, 0), nf1 * nf2).
Proof.
  intros Hn. destruct st as [b acc].
  unfold Neighbors.x1_face, Neighbors.face_step.
  destruct nf1_cases as [H1|H1], nf2_cases as [H2|H2], Hn as [->| ->];
    step_eq ltac:(rewrite ?H1, ?H2).
Qed.

Lemma x2_face_dir (st : Neighbors.state) (n : Z) :
  n = -1 \/ n = 1 ->
  x2_face st n = dir_step st ((0, n, 0), nf1 * nf2).
Proof.
  intros Hn. destruct st as [b acc].
  unfold Neighbors.x2_face, Neighbors.face_step.
  destruct nf1_cases as [H1|H1], nf2_cases as [H2|H2], Hn as [->| ->];
    step_eq ltac:(rewrite ?H1, ?H2).
Qed.

Lemma x3_face_dir (st : Neighbors.state) (n : Z) :
  n = -1 \/ n = 1 ->
  x3_face st n = dir_step st ((0, 0, n), nf1 * nf2).
Proof.
  intros Hn. destruct st as [b acc].
  unfold Neighbors.x3_face, Neighbors.face_step.
  destruct nf1_cases as [H1|H1], nf2_cases as [H2|H2], Hn as [->| ->];
    step_eq ltac:(rewrite ?H1, ?H2).
Qed.

Lemma x1x2_edge_dir (st : Neighbors.state) (m n : Z) :
  m = -1 \/ m = 1 -> n = -1 \/ n = 1 ->
  x1x2_edge st m n = dir_step st ((n, m, 0), nf2).
Proof.
  intros Hm Hn. destruct st as [b acc].
  unfold Neighbors.x1x2_edge, Neighbors.edge_step.
  destruct nf2_cases as [H2|H2], Hm as [->| ->], Hn as [->| ->];
    step_eq ltac:(rewrite ?H2).
Qed.

Lemma x1x3_edge_dir (st : Neighbors.state) (m n : Z) :
  m = -1 \/ m = 1 -> n = -1 \/ n = 1 ->
  x1x3_edge st m n = dir_step st ((n, 0, m), nf1).
Proof.
  intros Hm Hn. destruct st as [b acc].
  unfold Neighbors.x1x3_edge, Neighbors.edge_step.
  destruct nf1_cases as [H1|H1], Hm as [->| ->], Hn as [->| ->];
    step_eq ltac:(rewrite ?H1).
Qed.

Lemma x2x3_edge_dir (st : Neighbors.state) (m n : Z) :
  m = -1 \/ m = 1 -> n = -1 \/ n = 1 ->
  x2x3_edge st m n = dir_step st ((0, n, m), nf1).
Proof.
  intros Hm Hn. destruct st as [b acc].
  unfold Neighbors.x2x3_edge, Neighbors.edge_step.
  destruct nf1_cases as [H1|H1], Hm as [->| ->], Hn as [->| ->];
    step_eq ltac:(rewrite ?H1).
Qed.

Lemma corner_step_dir (st : Neighbors.state) (l m n : Z) :
  l = -1 \/ l = 1 -> m = -1 \/ m = 1 -> n = -1 \/ n = 1 ->
  corner_step st l m n = dir_step st ((n, m, l), 1).
Proof.
  intros Hl Hm Hn. destruct st as [b acc].
  unfold Neighbors.corner_step.
  destruct Hl as [->| ->], Hm as [->| ->], Hn as [->| ->];
    step_eq ltac:(idtac).
Qed.

(** Rewrites the outermost step of a chain of steps. *)
Ltac outer_step :=
  lazymatch goal with
  | |- x1_face _ _ = _ => rewrite x1_face_dir by auto
  | |- x2_face _ _ = _ => rewrite x2_face_dir by auto
  | |- x3_face _ _ = _ => rewrite x3_face_dir by auto
  | |- x1x2_edge _ _ _ = _ => rewrite x1x2_edge_dir by auto
  | |- x1x3_edge _ _ _ = _ => rewrite x1x3_edge_dir by auto
  | |- x2x3_edge _ _ _ = _ => rewrite x2x3_edge_dir by auto
  | |- corner_step _ _ _ _ = _ => rewrite corner_step_dir by auto
  end;
  apply (f_equal (fun st => dir_step st _)).

(** The search is the canonical scan of the list of directions. *)
Lemma search_scan : search = foldl dir_step (0, []) scan_list.
Proof.
  unfold Neighbors.search, Neighbors.scan_list, Neighbors.loop2,
    Neighbors.loop3, Neighbors.pm.
  destruct (Neighbors.nx2 pmb =? 1), (1 <? Neighbors.nx3 pmb),
    (Neighbors.face_only pmy_mesh), (Neighbors.nx3 pmb =? 1);
    cbn [foldl fold_left app]; repeat outer_step; reflexivity.
Qed.

Lemma foldl_dir_step (l : list ((Z * Z * Z) * Z)) (b : Z)
    (acc : list NeighborBlock.t) :
  (foldl dir_step (b, acc) l).2
  = acc ++ (Neighbors.layout b l ≫= fun bd => dir_recs_at bd.1 bd.2).
Proof.
  revert b acc. induction l as [|[d w] l IH]; intros b acc.
  - cbn. now rewrite app_nil_r.
  - cbn [foldl fold_left Neighbors.layout]. rewrite bind_cons.
    unfold Neighbors.dir_step at 2. cbn [fst snd].
    rewrite IH, <- app_assoc. reflexivity.
Qed.

(** The records of a block, direction by direction. *)
Lemma SearchAndSetNeighbors_scan :
  SearchAndSetNeighbors
  = Neighbors.layout 0 scan_list ≫= fun bd => dir_recs_at bd.1 bd.2.
Proof.
  unfold Neighbors.SearchAndSetNeighbors. rewrite search_scan.
  apply foldl_dir_step.
Qed.

Lemma hp_m1 : Neighbors.hp (-1) = 0.
Proof. reflexivity. Qed.

Lemma hp_1 : Neighbors.hp 1 = 1.
Proof. reflexivity. Qed.

(** Every direction of the scan starts at its slot in closed form. *)
Lemma layout_slot_base (b : Z) (d : Z * Z * Z) :
  (b, d) ∈ Neighbors.layout 0 scan_list -> b = slot_base d.
Proof.
  unfold Neighbors.scan_list, Neighbors.slot_base.
  destruct (Neighbors.nx2 pmb =? 1), (1 <? Neighbors.nx3 pmb),
    (Neighbors.face_only pmy_mesh), (Neighbors.nx3 pmb =? 1);
    cbn [app Neighbors.layout]; intros H;
    repeat (apply elem_of_cons in H as [H|H];
            [injection H as -> ->; cbn; rewrite ?hp_m1, ?hp_1; lia|]);
    inversion H.
Qed.

(** A record of a direction carries the offsets of the direction, and its
    buffer id is the first slot of the direction plus its fine indices. *)
Lemma dir_recs_at_spec (b : Z) (d : Z * Z * Z) (r : NeighborBlock.t) :
  r ∈ dir_recs_at b d ->
  NeighborBlock.offsets r = d /\
  NeighborBlock.bufid r
  = b + NeighborBlock.fi2 r * (Neighbors.fine_counts pmy_mesh pmb
                                 (Neighbors.kind_of d)).1
    + NeighborBlock.fi1 r /\
  exists neibt,
    FindNeighbor (Neighbors.loc pmb) d.1.1 d.1.2 d.2 (Neighbors.block_bcs pmb)
    = Some neibt.
Proof.
  destruct d as [[o1 o2] o3]. unfold Neighbors.dir_recs_at. cbn [fst snd].
  destruct (FindNeighbor _ o1 o2 o3 _) as [neibt|]; [|intros H; inversion H].
  intros H.
  assert (Hone : forall t bid tb,
    r ∈ [Neighbors.record_of MeshBlockTree tloc tgid ranklist nslist t (o1, o2, o3) bid tb 0 0] ->
    bid = b ->
    NeighborBlock.offsets r = (o1, o2, o3) /\
    NeighborBlock.bufid r
    = b + NeighborBlock.fi2 r * (Neighbors.fine_counts pmy_mesh pmb
                                   (Neighbors.kind_of (o1, o2, o3))).1
      + NeighborBlock.fi1 r).
  { intros t bid tb Hr ->. apply list_elem_of_singleton in Hr. subst r.
    split; [reflexivity|]. cbn. lia. }
  assert (Hfine :
    r ∈ (f2 ← zrange 0 ((Neighbors.fine_counts pmy_mesh pmb
                           (Neighbors.kind_of (o1, o2, o3))).2 - 1);
         f1 ← zrange 0 ((Neighbors.fine_counts pmy_mesh pmb
                           (Neighbors.kind_of (o1, o2, o3))).1 - 1);
         let '(a1, a2, a3) := Neighbors.leafpos (o1, o2, o3) f1 f2 in
         [Neighbors.record_of MeshBlockTree tloc tgid ranklist nslist
            (GetLeaf neibt a1 a2 a3) (o1, o2, o3)
            (b + f2 * (Neighbors.fine_counts pmy_mesh pmb
                         (Neighbors.kind_of (o1, o2, o3))).1 + f1)
            (Neighbors.tbid_of FindBufferID pmy_mesh (- o1, - o2, - o3) 0 0)
            f1 f2]) ->
    NeighborBlock.offsets r = (o1, o2, o3) /\
    NeighborBlock.bufid r
    = b + NeighborBlock.fi2 r * (Neighbors.fine_counts pmy_mesh pmb
                                   (Neighbors.kind_of (o1, o2, o3))).1
      + NeighborBlock.fi1 r).
  { intros Hr. apply list_elem_of_bind in Hr as (f2 & Hr & _).
    apply list_elem_of_bind in Hr as (f1 & Hr & _).
    destruct (Neighbors.leafpos (o1, o2, o3) f1 f2) as [[a1 a2] a3].
    apply list_elem_of_singleton in Hr. subst r. split; reflexivity. }
  split; [|split]; [| |eauto];
    destruct (Neighbors.kind_of (o1, o2, o3)) eqn:Hk;
    repeat match type of H with
           | _ ∈ (if ?c then _ else _) => destruct c
           end;
    first [ apply (Hfine H) | eapply Hone; [exact H | reflexivity]
          | inversion H ].
Qed.

(** A record of the search belongs to a direction of the scan. *)
Lemma SearchAndSetNeighbors_elem (r : NeighborBlock.t) :
  r ∈ SearchAndSetNeighbors <->
  exists b d, (b, d) ∈ Neighbors.layout 0 scan_list /\ r ∈ dir_recs_at b d.
Proof.
  rewrite SearchAndSetNeighbors_scan, list_elem_of_bind. split.
  - intros ([b d] & Hr & Hbd). eauto.
  - intros (b & d & Hbd & Hr). exists (b, d). auto.
Qed.

Lemma SearchAndSetNeighbors_bufid (r : NeighborBlock.t) :
  r ∈ SearchAndSetNeighbors ->
  NeighborBlock.bufid r
  = slot (NeighborBlock.offsets r) (NeighborBlock.fi1 r) (NeighborBlock.fi2 r).
Proof.
  intros Hr. apply SearchAndSetNeighbors_elem in Hr as (b & d & Hbd & Hr).
  apply layout_slot_base in Hbd.
  apply dir_recs_at_spec in Hr as (Ho & Hb & _).
  unfold Neighbors.slot. rewrite Ho, Hb, Hbd. reflexivity.
Qed.

Lemma SearchAndSetNeighbors_absent (o1 o2 o3 : Z) (r : NeighborBlock.t) :
  FindNeighbor (Neighbors.loc pmb) o1 o2 o3 (Neighbors.block_bcs pmb) = None ->
  r ∈ SearchAndSetNeighbors ->
  NeighborBlock.offsets r <> (o1, o2, o3).
Proof.
  intros Hnone Hr Ho.
  apply SearchAndSetNeighbors_elem in Hr as (b & d & _ & Hr).
  apply dir_recs_at_spec in Hr as (Hd & _ & neibt & Hn).
  rewrite Ho in Hd. subst d. cbn in Hn. congruence.
Qed.

Lemma elem_of_zrange (lo hi x : Z) : x ∈ zrange lo hi <-> lo <= x <= hi.
Proof.
  unfold zrange. rewrite list_elem_of_fmap. split.
  - intros (k & -> & Hk). apply elem_of_seq in Hk. lia.
  - intros Hx. exists (Z.to_nat (x - lo)). split; [lia|].
    apply elem_of_seq. lia.
Qed.

(** The two shapes of a record of direction [d]: a leaf of a finer
    neighbour, or the neighbour itself. *)
Lemma dir_recs_at_elim (b : Z) (d : Z * Z * Z) (r : NeighborBlock.t) :
  r ∈ dir_recs_at b d ->
  exists neibt,
    FindNeighbor (Neighbors.loc pmb) d.1.1 d.1.2 d.2 (Neighbors.block_bcs pmb)
    = Some neibt /\
    let k := Neighbors.kind_of d in
    let n1 := (Neighbors.fine_counts pmy_mesh pmb k).1 in
    let n2 := (Neighbors.fine_counts pmy_mesh pmb k).2 in
    let back := (- d.1.1, - d.1.2, - d.2) in
    ((flag neibt = false /\
      exists f1 f2 a1 a2 a3, 0 <= f1 < n1 /\ 0 <= f2 < n2 /\
        Neighbors.leafpos d f1 f2 = (a1, a2, a3) /\
        r = Neighbors.record_of MeshBlockTree tloc tgid ranklist nslist
              (GetLeaf neibt a1 a2 a3) d (b + f2 * n1 + f1)
              (Neighbors.tbid_of FindBufferID pmy_mesh back 0 0) f1 f2)
     \/
     (flag neibt = true /\
      Neighbors.outward pmb d || (level (Neighbors.loc pmb) <=? level (tloc neibt))
        = true /\
      r = Neighbors.record_of MeshBlockTree tloc tgid ranklist nslist
            neibt d b
            (if level (tloc neibt) =? level (Neighbors.loc pmb)
             then Neighbors.tbid_of FindBufferID pmy_mesh back 0 0
             else Neighbors.tbid_of FindBufferID pmy_mesh back
                    (Neighbors.coarse_fi pmb k).1 (Neighbors.coarse_fi pmb k).2)
            0 0)).
Proof.
  destruct d as [[o1 o2] o3]. unfold Neighbors.dir_recs_at. cbn [fst snd].
  destruct (FindNeighbor _ o1 o2 o3 _) as [neibt|]; [|intros H; inversion H].
  intros H. exists neibt. split; [reflexivity|]. cbv zeta.
  assert (Hcorner : forall k, k = Neighbors.Corner \/ k = Neighbors.Center ->
    Neighbors.kind_of (o1, o2, o3) = k ->
    r ∈ (if Neighbors.outward pmb (o1, o2, o3)
            || (level (Neighbors.loc pmb) <=?
                level (tloc (if negb (flag neibt)
                             then GetLeaf neibt (Neighbors.ff o1)
                                    (Neighbors.ff o2) (Neighbors.ff o3)
                             else neibt)))
         then [Neighbors.record_of MeshBlockTree tloc tgid ranklist nslist
                 (if negb (flag neibt)
                  then GetLeaf neibt (Neighbors.ff o1) (Neighbors.ff o2)
                         (Neighbors.ff o3)
                  else neibt) (o1, o2, o3) b
                 (Neighbors.tbid_of FindBufferID pmy_mesh
                    (- o1, - o2, - o3) 0 0) 0 0]
         else []) ->
    (flag neibt = false /\
      exists f1 f2 a1 a2 a3,
        0 <= f1 < (Neighbors.fine_counts pmy_mesh pmb k).1 /\
        0 <= f2 < (Neighbors.fine_counts pmy_mesh pmb k).2 /\
        Neighbors.leafpos (o1, o2, o3) f1 f2 = (a1, a2, a3) /\
        r = Neighbors.record_of MeshBlockTree tloc tgid ranklist nslist
              (GetLeaf neibt a1 a2 a3) (o1, o2, o3)
              (b + f2 * (Neighbors.fine_counts pmy_mesh pmb k).1 + f1)
              (Neighbors.tbid_of FindBufferID pmy_mesh (- o1, - o2, - o3) 0 0)
              f1 f2)
     \/
     (flag neibt = true /\
      Neighbors.outward pmb (o1, o2, o3)
        || (level (Neighbors.loc pmb) <=? level (tloc neibt)) = true /\
      r = Neighbors.record_of MeshBlockTree tloc tgid ranklist nslist
            neibt (o1, o2, o3) b
            (if level (tloc neibt) =? level (Neighbors.loc pmb)
             then Neighbors.tbid_of FindBufferID pmy_mesh (- o1, - o2, - o3) 0 0
             else Neighbors.tbid_of FindBufferID pmy_mesh (- o1, - o2, - o3)
                    (Neighbors.coarse_fi pmb k).1 (Neighbors.coarse_fi pmb k).2)
            0 0)).
  { intros k Hk Hkind Hr.
    destruct (flag neibt) eqn:Hf; cbn [negb] in *;
      match type of Hr with
      | _ ∈ (if ?c then _ else _) => destruct c eqn:Hc; [|inversion Hr]
      end;
      apply list_elem_of_singleton in Hr.
    - right. split; [reflexivity|]. split; [reflexivity|].
      rewrite Hr. destruct Hk as [-> | ->]; cbn;
        destruct (level (tloc neibt) =? level (Neighbors.loc pmb));
        reflexivity.
    - left. split; [reflexivity|].
      exists 0, 0, (Neighbors.ff o1), (Neighbors.ff o2), (Neighbors.ff o3).
      unfold Neighbors.leafpos. rewrite Hkind.
      destruct Hk as [-> | ->]; cbn; (split; [lia|]); (split; [lia|]);
        (split; [reflexivity|]); rewrite Hr; apply f_equal4; try reflexivity;
        lia. }
  destruct (Neighbors.kind_of (o1, o2, o3)) eqn:Hk;
    first [ exact (Hcorner _ (or_introl eq_refl) eq_refl H)
          | exact (Hcorner _ (or_intror eq_refl) eq_refl H)
          | idtac ].
  all: clear Hcorner.
  all: destruct (flag neibt) eqn:Hf; cbn [negb] in H.
  all: try (right; split; [reflexivity|];
            destruct (Neighbors.outward pmb (o1, o2, o3) || _) eqn:Hc;
            [|inversion H];
            apply list_elem_of_singleton in H; split; [reflexivity | exact H]).
  all: left; split; [reflexivity|];
    apply list_elem_of_bind in H as (f2 & H & Hf2);
    apply list_elem_of_bind in H as (f1 & H & Hf1);
    apply elem_of_zrange in Hf1, Hf2;
    destruct (Neighbors.leafpos (o1, o2, o3) f1 f2) as [[a1 a2] a3] eqn:Hlp;
    apply list_elem_of_singleton in H;
    exists f1, f2, a1, a2, a3;
    (split; [lia|]); (split; [lia|]); split; [exact Hlp | exact H].
Qed.

Lemma dir_recs_at_intro_leaf (b : Z) (d : Z * Z * Z) (neibt : MeshBlockTree) :
  FindNeighbor (Neighbors.loc pmb) d.1.1 d.1.2 d.2 (Neighbors.block_bcs pmb)
  = Some neibt ->
  flag neibt = true ->
  Neighbors.outward pmb d || (level (Neighbors.loc pmb) <=? level (tloc neibt))
  = true ->
  Neighbors.record_of MeshBlockTree tloc tgid ranklist nslist neibt d b
    (if level (tloc neibt) =? level (Neighbors.loc pmb)
     then Neighbors.tbid_of FindBufferID pmy_mesh (- d.1.1, - d.1.2, - d.2) 0 0
     else Neighbors.tbid_of FindBufferID pmy_mesh (- d.1.1, - d.1.2, - d.2)
            (Neighbors.coarse_fi pmb (Neighbors.kind_of d)).1
            (Neighbors.coarse_fi pmb (Neighbors.kind_of d)).2)
    0 0
  ∈ dir_recs_at b d.
Proof.
  destruct d as [[o1 o2] o3]. cbn [fst snd]. intros Hn Hf Hc.
  unfold Neighbors.dir_recs_at. rewrite Hn.
  destruct (Neighbors.kind_of (o1, o2, o3)); rewrite Hf; cbn [negb];
    rewrite Hc; cbn;
    destruct (level (tloc neibt) =? level (Neighbors.loc pmb)); left.
Qed.

Lemma dir_recs_at_intro_fine (b : Z) (d : Z * Z * Z) (neibt : MeshBlockTree)
    (f1 f2 a1 a2 a3 : Z) :
  FindNeighbor (Neighbors.loc pmb) d.1.1 d.1.2 d.2 (Neighbors.block_bcs pmb)
  = Some neibt ->
  flag neibt = false ->
  0 <= f1 < (Neighbors.fine_counts pmy_mesh pmb (Neighbors.kind_of d)).1 ->
  0 <= f2 < (Neighbors.fine_counts pmy_mesh pmb (Neighbors.kind_of d)).2 ->
  Neighbors.leafpos d f1 f2 = (a1, a2, a3) ->
  level (Neighbors.loc pmb) <= level (tloc (GetLeaf neibt a1 a2 a3)) ->
  Neighbors.record_of MeshBlockTree tloc tgid ranklist nslist
    (GetLeaf neibt a1 a2 a3) d
    (b + f2 * (Neighbors.fine_counts pmy_mesh pmb (Neighbors.kind_of d)).1 + f1)
    (Neighbors.tbid_of FindBufferID pmy_mesh (- d.1.1, - d.1.2, - d.2) 0 0)
    f1 f2
  ∈ dir_recs_at b d.
Proof.
  destruct d as [[o1 o2] o3]. cbn [fst snd]. intros Hn Hf H1 H2 Hlp Hlev.
  unfold Neighbors.dir_recs_at. rewrite Hn, Hf. cbn [negb].
  assert (Hfine :
    Neighbors.record_of MeshBlockTree tloc tgid ranklist nslist
      (GetLeaf neibt a1 a2 a3) (o1, o2, o3)
      (b + f2 * (Neighbors.fine_counts pmy_mesh pmb
                   (Neighbors.kind_of (o1, o2, o3))).1 + f1)
      (Neighbors.tbid_of FindBufferID pmy_mesh (- o1, - o2, - o3) 0 0) f1 f2
    ∈ (f2 ← zrange 0 ((Neighbors.fine_counts pmy_mesh pmb
                         (Neighbors.kind_of (o1, o2, o3))).2 - 1);
       f1 ← zrange 0 ((Neighbors.fine_counts pmy_mesh pmb
                         (Neighbors.kind_of (o1, o2, o3))).1 - 1);
       let '(a1, a2, a3) := Neighbors.leafpos (o1, o2, o3) f1 f2 in
       [Neighbors.record_of MeshBlockTree tloc tgid ranklist nslist
          (GetLeaf neibt a1 a2 a3) (o1, o2, o3)
          (b + f2 * (Neighbors.fine_counts pmy_mesh pmb
                       (Neighbors.kind_of (o1, o2, o3))).1 + f1)
          (Neighbors.tbid_of FindBufferID pmy_mesh (- o1, - o2, - o3) 0 0)
          f1 f2])).
  { apply list_elem_of_bind. exists f2. split; [|apply elem_of_zrange; lia].
    apply list_elem_of_bind. exists f1. split; [|apply elem_of_zrange; lia].
    rewrite Hlp. left. }
  assert (Hcorner :
    Neighbors.kind_of (o1, o2, o3) = Neighbors.Corner \/
    Neighbors.kind_of (o1, o2, o3) = Neighbors.Center ->
    Neighbors.record_of MeshBlockTree tloc tgid ranklist nslist
      (GetLeaf neibt a1 a2 a3) (o1, o2, o3)
      (b + f2 * (Neighbors.fine_counts pmy_mesh pmb
                   (Neighbors.kind_of (o1, o2, o3))).1 + f1)
      (Neighbors.tbid_of FindBufferID pmy_mesh (- o1, - o2, - o3) 0 0) f1 f2
    ∈ (if Neighbors.outward pmb (o1, o2, o3)
          || (level (Neighbors.loc pmb) <=?
              level (tloc (GetLeaf neibt (Neighbors.ff o1) (Neighbors.ff o2)
                             (Neighbors.ff o3))))
       then [Neighbors.record_of MeshBlockTree tloc tgid ranklist nslist
               (GetLeaf neibt (Neighbors.ff o1) (Neighbors.ff o2)
                  (Neighbors.ff o3)) (o1, o2, o3) b
               (Neighbors.tbid_of FindBufferID pmy_mesh
                  (- o1, - o2, - o3) 0 0) 0 0]
       else [])).
  { intros Hk. unfold Neighbors.leafpos in Hlp.
    assert (Hp : (a1, a2, a3)
                 = (Neighbors.ff o1, Neighbors.ff o2, Neighbors.ff o3)
                 /\ f1 = 0 /\ f2 = 0).
    { destruct Hk as [Hk|Hk]; rewrite Hk in *; cbn in H1, H2;
        (split; [congruence | lia]). }
    destruct Hp as (Hp & -> & ->). injection Hp as -> -> ->.
    apply Z.leb_le in Hlev. rewrite Hlev, orb_true_r.
    replace (b + 0 * _ + 0) with b by lia. left. }
  destruct (Neighbors.kind_of (o1, o2, o3)) eqn:Hk;
    first [ exact Hfine | apply Hcorner; auto ].
Qed.

End SearchFacts.

Lemma filter_bind {A B} (P : B -> Prop) `{!forall x, Decision (P x)}
    (f : A -> list B) (l : list A) :
  filter P (l ≫= f) = l ≫= (fun x => filter P (f x)).
Proof.
  induction l as [|x l IH]; [reflexivity|].
  rewrite !bind_cons, filter_app, IH. reflexivity.
Qed.

Lemma bind_ext_elem {A B} (f g : A -> list B) (l : list A) :
  (forall x, x ∈ l -> f x = g x) -> l ≫= f = l ≫= g.
Proof.
  induction l as [|x l IH]; intros HP; [reflexivity|].
  rewrite !bind_cons, HP, IH; [reflexivity | | left].
  intros y Hy. apply HP. now right.
Qed.

Lemma filter_all {A} (P : A -> Prop) `{!forall x, Decision (P x)} (l : list A) :
  (forall x, x ∈ l -> P x) -> filter P l = l.
Proof.
  induction l as [|x l IH]; intros HP; [reflexivity|].
  rewrite filter_cons_True by (apply HP; left).
  rewrite IH; [reflexivity|]. intros y Hy. apply HP. now right.
Qed.

Lemma filter_none {A} (P : A -> Prop) `{!forall x, Decision (P x)} (l : list A) :
  (forall x, x ∈ l -> ~ P x) -> filter P l = [].
Proof.
  induction l as [|x l IH]; intros HP; [reflexivity|].
  rewrite filter_cons_False by (apply HP; left).
  apply IH. intros y Hy. apply HP. now right.
Qed.

(** C8: the buffer id of every record is the slot of its offsets and fine
    indices, a function of [block_size.nx2], [block_size.nx3] and
    [multilevel] alone; a direction without a leaf has no record; and a tree
    that differs from another one only in that it has no leaf in one
    direction gives the records of the other one without those of that
    direction, every remaining record with the same buffer id. *)
Theorem bufid_position_determined
    (MeshBlockTree : Type) (flag : MeshBlockTree -> bool)
    (tloc : MeshBlockTree -> LogicalLocation) (tgid : MeshBlockTree -> Z)
    (GetLeaf : MeshBlockTree -> Z -> Z -> Z -> MeshBlockTree)
    (FindNeighbor FindNeighbor' :
       LogicalLocation -> Z -> Z -> Z -> list Z -> option MeshBlockTree)
    (FindBufferID : Z -> Z -> Z -> Z -> Z -> Z -> Z)
    (pmy_mesh : Neighbors.Mesh) (ranklist nslist : list Z)
    (pmb : Neighbors.MeshBlock) (o1 o2 o3 : Z) :
  let recs :=
    Neighbors.SearchAndSetNeighbors MeshBlockTree flag tloc tgid GetLeaf
      FindNeighbor FindBufferID pmy_mesh ranklist nslist pmb in
  let recs' :=
    Neighbors.SearchAndSetNeighbors MeshBlockTree flag tloc tgid GetLeaf
      FindNeighbor' FindBufferID pmy_mesh ranklist nslist pmb in
  (forall r, r ∈ recs ->
     NeighborBlock.bufid r
     = Neighbors.slot pmy_mesh pmb (NeighborBlock.offsets r)
         (NeighborBlock.fi1 r) (NeighborBlock.fi2 r)) /\
  (FindNeighbor' (Neighbors.loc pmb) o1 o2 o3 (Neighbors.block_bcs pmb) = None ->
   (forall r, r ∈ recs' -> NeighborBlock.offsets r <> (o1, o2, o3)) /\
   ((forall p1 p2 p3, (p1, p2, p3) <> (o1, o2, o3) ->
       FindNeighbor' (Neighbors.loc pmb) p1 p2 p3 (Neighbors.block_bcs pmb)
       = FindNeighbor (Neighbors.loc pmb) p1 p2 p3 (Neighbors.block_bcs pmb)) ->
    recs' = filter (fun r => NeighborBlock.offsets r <> (o1, o2, o3)) recs)).
Proof.
  intros recs recs'. split; [|intros Hnone; split].
  - intros r Hr. now apply SearchAndSetNeighbors_bufid in Hr.
  - intros r Hr.
    exact (SearchAndSetNeighbors_absent MeshBlockTree flag tloc tgid GetLeaf
             FindNeighbor' FindBufferID pmy_mesh ranklist nslist pmb
             o1 o2 o3 r Hnone Hr).
  - intros Hsame. subst recs recs'.
    rewrite !SearchAndSetNeighbors_scan, filter_bind.
    apply bind_ext_elem. intros [b [[p1 p2] p3]] _. cbn [fst snd].
    destruct (decide ((p1, p2, p3) = (o1, o2, o3))) as [Heq|Hne].
    + injection Heq as -> -> ->.
      rewrite filter_none.
      * unfold Neighbors.dir_recs_at. now rewrite Hnone.
      * intros r Hr Hn. apply dir_recs_at_spec in Hr as (Ho & _). auto.
    + rewrite filter_all.
      * unfold Neighbors.dir_recs_at. now rewrite (Hsame _ _ _ Hne).
      * intros r Hr. apply dir_recs_at_spec in Hr as (Ho & _). congruence.
Qed.

(** In the sample mesh, a tree that has lost the neighbour of the fine leaf 1
    across its outer x1 face gives the other three records of that leaf,
    each with the buffer id that it has in the full tree. *)
Lemma bufid_position_determined_witness :
  let FN := Tree.FindNeighbor Sample.tree Sample.grid in
  let FN' := fun l p1 p2 p3 bcs =>
    if decide ((p1, p2, p3) = (1, 0, 0)) then None else FN l p1 p2 p3 bcs in
  let pmb := Tree.block Sample.grid 8 1 Sample.bcs 4 1 (Sample.leaf 1 0 2 1) in
  let search FindNeighbor :=
    Neighbors.SearchAndSetNeighbors Tree.node Tree.flag Tree.loc Tree.gid
      (Tree.GetLeaf Sample.tree) FindNeighbor
      (Tree.FindBufferID true 4 1) Sample.mesh Sample.ranklist Sample.nslist
      pmb in
  map NeighborBlock.bufid (search FN) = [0; 2; 6; 10] /\
  map NeighborBlock.bufid (search FN') = [0; 6; 10] /\
  search FN'
  = filter (fun r => NeighborBlock.offsets r <> (1, 0, 0)) (search FN).
Proof.
  intros FN FN' pmb search.
  split; [vm_compute; reflexivity|]. split; [vm_compute; reflexivity|].
  destruct (bufid_position_determined Tree.node Tree.flag Tree.loc Tree.gid
              (Tree.GetLeaf Sample.tree) FN FN' (Tree.FindBufferID true 4 1)
              Sample.mesh Sample.ranklist Sample.nslist pmb 1 0 0)
    as (_ & Habsent).
  destruct Habsent as (_ & Hfilter); [vm_compute; reflexivity|].
  apply Hfilter. intros p1 p2 p3 Hne. unfold FN'.
  destruct (decide ((p1, p2, p3) = (1, 0, 0))); [contradiction|reflexivity].
Defined.


(** ** The block tree *)

Lemma find_Some (t : list Tree.node) (l : LogicalLocation) (n : Tree.node) :
  Tree.find t l = Some n -> n ∈ t /\ Tree.loc n = l.
Proof.
  induction t as [|m t IH]; cbn; [discriminate|].
  destruct (decide (Tree.loc m = l)) as [Hl|Hl].
  - intros [= ->]. split; [left | exact Hl].
  - intros H. destruct (IH H) as [Hin Hloc]. split; [right|]; assumption.
Qed.

Lemma find_elem (t : list Tree.node) (n : Tree.node) :
  NoDup (map Tree.loc t) -> n ∈ t -> Tree.find t (Tree.loc n) = Some n.
Proof.
  induction t as [|m t IH]; intros Hnd Hin; [inversion Hin|].
  cbn in Hnd. apply NoDup_cons in Hnd as [Hm Hnd]. cbn.
  destruct (decide (Tree.loc m = Tree.loc n)) as [Hl|Hl].
  - apply elem_of_cons in Hin as [->|Hin]; [reflexivity|].
    exfalso. apply Hm. rewrite Hl. apply list_elem_of_fmap. eauto.
  - apply elem_of_cons in Hin as [->|Hin]; [congruence|]. auto.
Qed.

Lemma shiftr_1 (x : Z) : Z.shiftr x 1 = x `div` 2.
Proof. now rewrite Z.shiftr_div_pow2 by lia. Qed.

Lemma land_1 (x : Z) : Z.land x 1 = x `mod` 2.
Proof.
  change (Z.land x 1) with (Z.land x (Z.ones 1)).
  rewrite Z.land_ones by lia. reflexivity.
Qed.

Lemma extent_succ (nrbx rl ll : Z) :
  rl <= ll -> Tree.extent nrbx rl (ll + 1) = 2 * Tree.extent nrbx rl ll.
Proof.
  intros H. unfold Tree.extent. rewrite !Z.shiftl_mul_pow2 by lia.
  replace (ll + 1 - rl) with (Z.succ (ll - rl)) by lia.
  rewrite Z.pow_succ_r by lia. lia.
Qed.

Lemma extent_pos (nrbx rl ll : Z) :
  1 <= nrbx -> rl <= ll -> 1 <= Tree.extent nrbx rl ll.
Proof.
  intros H1 H2. unfold Tree.extent. rewrite Z.shiftl_mul_pow2 by lia.
  assert (0 < 2 ^ (ll - rl)) by (apply Z.pow_pos_nonneg; lia). nia.
Qed.

Lemma ff_m1 : Neighbors.ff (-1) = 1.
Proof. reflexivity. Qed.

Lemma ff_1 : Neighbors.ff 1 = 0.
Proof. reflexivity. Qed.

(** *** One axis of the neighbour location *)

Local Abbreviation wrapp := Tree.wrapp.
Local Abbreviation in_pm := Tree.in_pm.
Local Abbreviation touches := Tree.touches.

Ltac wrapp_solve :=
  unfold Tree.wrapp in *;
  repeat match goal with
         | H : context [if ?b then _ else _] |- _ =>
             match b with
             | (_ <? _) => destruct (Z.ltb_spec0 _ _ : reflect _ b)
             | (_ <=? _) => destruct (Z.leb_spec0 _ _ : reflect _ b)
             | _ => destruct b eqn:?
             end
         | |- context [if ?b then _ else _] =>
             match b with
             | (_ <? _) => destruct (Z.ltb_spec0 _ _ : reflect _ b)
             | (_ <=? _) => destruct (Z.leb_spec0 _ _ : reflect _ b)
             | _ => destruct b eqn:?
             end
         end;
  simplify_eq; try (exfalso; Z.div_mod_to_equations; lia);
  repeat split; try (f_equal; Z.div_mod_to_equations; lia);
  try (Z.div_mod_to_equations; lia).

(** Going back from a neighbour of the same level. *)
Lemma wrapp_same (p : bool) (S x o x' : Z) :
  0 <= x < S -> o = -1 \/ o = 0 \/ o = 1 ->
  wrapp p S (x + o) = Some x' ->
  wrapp p S (x' - o) = Some x /\ 0 <= x' < S.
Proof. intros Hx Ho H. destruct Ho as [->|[->| ->]]; wrapp_solve. Qed.

(** Going back from the child [2*x'+a] of a neighbour of the same level:
    the location reached is a child of the block. *)
Lemma wrapp_fine (p : bool) (S x o x' a : Z) :
  0 <= x < S -> o = -1 \/ o = 0 \/ o = 1 -> a = 0 \/ a = 1 ->
  (o = 0 \/ a = Neighbors.ff o) ->
  wrapp p S (x + o) = Some x' ->
  exists c, wrapp p (2 * S) (2 * x' + a - o) = Some c /\
            c `div` 2 = x /\ 0 <= x' < S.
Proof.
  intros Hx Ho Ha Hf H.
  destruct (wrapp p (2 * S) (2 * x' + a - o)) as [c|] eqn:E;
    [exists c; split; [reflexivity|] | exfalso];
    destruct Ho as [->|[->| ->]]; rewrite ?ff_m1, ?ff_1 in Hf;
    destruct Ha as [-> | ->]; try (exfalso; lia); wrapp_solve.
Qed.

(** Going back from the parent of a neighbour one level up, for a block on
    the side of its parent that looks at the neighbour. *)
Lemma wrapp_coarse (p : bool) (S x o x' : Z) :
  0 <= x < 2 * S -> o = -1 \/ o = 0 \/ o = 1 ->
  (o = 0 \/ x `mod` 2 = Neighbors.hp o) ->
  wrapp p (2 * S) (x + o) = Some x' ->
  wrapp p S (x' `div` 2 - o) = Some (x `div` 2) /\ 0 <= x' < 2 * S.
Proof.
  intros Hx Ho Hf H.
  destruct Ho as [->|[->| ->]]; rewrite ?hp_m1, ?hp_1 in Hf; wrapp_solve.
Qed.

(** A step towards the inside of the parent reaches a sibling. *)
Lemma wrapp_sibling (p : bool) (S x o : Z) :
  0 <= x < 2 * S -> o = -1 \/ o = 1 -> x `mod` 2 <> Neighbors.hp o ->
  wrapp p (2 * S) (x + o) = Some (2 * (x `div` 2) + Neighbors.hp o).
Proof.
  intros Hx Ho Hf.
  destruct Ho as [-> | ->]; rewrite ?hp_m1, ?hp_1 in *; wrapp_solve.
Qed.

Lemma NoDup_fmap_elem_inj {A B} (f : A -> B) (l : list A) (a b : A) :
  NoDup (map f l) -> a ∈ l -> b ∈ l -> f a = f b -> a = b.
Proof.
  induction l as [|x l IH]; intros Hnd Ha Hb Hf; [inversion Ha|].
  cbn in Hnd. apply NoDup_cons in Hnd as [Hx Hnd].
  apply elem_of_cons in Ha as [->|Ha], Hb as [->|Hb]; auto.
  - exfalso. apply Hx. rewrite Hf. apply list_elem_of_fmap. eauto.
  - exfalso. apply Hx. rewrite <- Hf. apply list_elem_of_fmap. eauto.
Qed.

Lemma forallb_elem {A} (f : A -> bool) (l : list A) (x : A) :
  forallb f l = true -> x ∈ l -> f x = true.
Proof.
  intros H Hx. apply list_elem_of_In in Hx.
  exact (proj1 (forallb_forall f l) H x Hx).
Qed.

(** ** The symmetry of the neighbour records *)

Section Symmetry.

Variable t : list Tree.node.
Variable g : Tree.RootGrid.
Variables mesh_nx2 mesh_nx3 : Z.
Variable mesh_bcs : list Z.
Variables nx2 nx3 : Z.
Variable pmy_mesh : Neighbors.Mesh.
Variables ranklist nslist : list Z.

Hypothesis Hwf : Tree.well_formed t g nx2 nx3 = true.
Hypothesis Hbal :
  Tree.balanced t g mesh_nx2 mesh_nx3 mesh_bcs nx2 nx3 = true.
Hypothesis Hcfg : Tree.configured t g mesh_bcs nx2 nx3 pmy_mesh = true.

Local Abbreviation rl := (Tree.root_level g).
Local Abbreviation S1 ll := (Tree.extent (Tree.nrbx1 g) (Tree.root_level g) ll).
Local Abbreviation S2 ll := (Tree.extent (Tree.nrbx2 g) (Tree.root_level g) ll).
Local Abbreviation S3 ll := (Tree.extent (Tree.nrbx3 g) (Tree.root_level g) ll).
Local Abbreviation bcs_of :=
  (Tree.SetBlockSizeAndBoundaries g mesh_nx2 mesh_nx3 mesh_bcs).
Local Abbreviation block := (Tree.block g mesh_nx2 mesh_nx3 mesh_bcs nx2 nx3).
Local Abbreviation neighbors :=
  (Tree.neighbors t g mesh_nx2 mesh_nx3 mesh_bcs nx2 nx3 pmy_mesh
     ranklist nslist).
Local Abbreviation p1 := (Tree.periodic (zread mesh_bcs 0)).
Local Abbreviation p2 := (Tree.periodic (zread mesh_bcs 2)).
Local Abbreviation p3 := (Tree.periodic (zread mesh_bcs 4)).

Lemma wf_nodup : NoDup (map Tree.loc t).
Proof.
  unfold Tree.well_formed in Hwf.
  repeat (apply andb_true_iff in Hwf as [Hwf ?]).
  now apply bool_decide_eq_true in Hwf.
Qed.

Lemma wf_gid (a b : Tree.node) :
  a ∈ t -> b ∈ t -> Tree.flag a = true -> Tree.flag b = true ->
  Tree.gid a = Tree.gid b -> a = b.
Proof.
  intros Ha Hb Hfa Hfb Hg.
  unfold Tree.well_formed in Hwf.
  repeat (apply andb_true_iff in Hwf as [Hwf ?]).
  match goal with
  | H : bool_decide (NoDup (map Tree.gid _)) = true |- _ =>
      apply bool_decide_eq_true in H;
      apply (NoDup_fmap_elem_inj Tree.gid _ a b H); auto;
      apply list_elem_of_filter; auto
  end.
Qed.

Lemma wf_grid (n : Tree.node) :
  n ∈ t ->
  rl <= level (Tree.loc n) /\
  0 <= lx1 (Tree.loc n) < S1 (level (Tree.loc n)) /\
  0 <= lx2 (Tree.loc n) < S2 (level (Tree.loc n)) /\
  0 <= lx3 (Tree.loc n) < S3 (level (Tree.loc n)) /\
  (nx2 <= 1 -> lx2 (Tree.loc n) = 0) /\
  (nx3 <= 1 -> lx3 (Tree.loc n) = 0).
Proof.
  intros Hn. unfold Tree.well_formed in Hwf.
  repeat (apply andb_true_iff in Hwf as [Hwf ?]).
  match goal with
  | H : forallb (fun n => Tree.in_grid _ _ _ _) t = true |- _ =>
      pose proof (forallb_elem _ _ _ H Hn) as Hg
  end.
  unfold Tree.in_grid in Hg.
  repeat (apply andb_true_iff in Hg as [Hg ?]).
  repeat match goal with
         | H : _ || _ = true |- _ => apply orb_true_iff in H
         end.
  repeat match goal with
         | H : (_ <=? _) = true |- _ => apply Z.leb_le in H
         | H : (_ <? _) = true |- _ => apply Z.ltb_lt in H
         | H : _ \/ _ |- _ =>
             rewrite Z.ltb_lt in H; rewrite Z.eqb_eq in H
         end.
  lia.
Qed.

Lemma wf_parent (n : Tree.node) :
  n ∈ t -> rl < level (Tree.loc n) ->
  exists p, Tree.find t (Tree.parent (Tree.loc n)) = Some p /\
            Tree.flag p = false.
Proof.
  intros Hn Hl. unfold Tree.well_formed in Hwf.
  repeat (apply andb_true_iff in Hwf as [Hwf ?]).
  match goal with
  | H : forallb (fun n => _ || Tree.is_internal _) t = true |- _ =>
      pose proof (forallb_elem _ _ _ H Hn) as Hp
  end.
  cbn beta in Hp. apply orb_true_iff in Hp as [Hp|Hp].
  - apply Z.leb_le in Hp. lia.
  - destruct (Tree.find t (Tree.parent (Tree.loc n))) as [p|]; [|discriminate].
    exists p. split; [reflexivity|]. cbn in Hp.
    now apply negb_true_iff in Hp.
Qed.

Lemma wf_children (p : Tree.node) (i j k : Z) :
  p ∈ t -> Tree.flag p = false -> (i, j, k) ∈ Tree.positions nx2 nx3 ->
  exists c, Tree.find t (Tree.child (Tree.loc p) i j k) = Some c.
Proof.
  intros Hp Hf Hpos. unfold Tree.well_formed in Hwf.
  repeat (apply andb_true_iff in Hwf as [Hwf ?]).
  match goal with
  | H : forallb (fun p => Tree.flag p || _) t = true |- _ =>
      pose proof (forallb_elem _ _ _ H Hp) as Hc
  end.
  cbn beta in Hc. rewrite Hf in Hc. cbn [orb] in Hc.
  pose proof (forallb_elem _ _ _ Hc Hpos) as Hc'. cbn beta in Hc'.
  apply bool_decide_eq_true in Hc'. exact Hc'.
Qed.

Lemma bal_leaves (a p : Tree.node) (o1 o2 o3 i j k : Z) :
  a ∈ t -> Tree.flag a = true ->
  (o1, o2, o3) ∈ Tree.directions nx2 nx3 ->
  Tree.FindNeighbor t g (Tree.loc a) o1 o2 o3 (bcs_of (Tree.loc a)) = Some p ->
  Tree.flag p = false ->
  (i, j, k) ∈ Tree.facing nx2 nx3 (o1, o2, o3) ->
  exists c, Tree.find t (Tree.child (Tree.loc p) i j k) = Some c /\
            Tree.flag c = true.
Proof.
  intros Ha Hfa Hd Hn Hfp Hpos.
  pose proof (forallb_elem _ _ _ Hbal Ha) as H. cbn beta in H.
  rewrite Hfa in H. cbn [negb orb] in H.
  pose proof (forallb_elem _ _ _ H Hd) as H'. cbn beta iota in H'.
  rewrite Hn, Hfp in H'. cbn [orb] in H'.
  pose proof (forallb_elem _ _ _ H' Hpos) as H''. cbn beta iota in H''.
  destruct (Tree.find t (Tree.child (Tree.loc p) i j k)) as [c|];
    [|discriminate].
  exists c. split; [reflexivity | exact H''].
Qed.

Lemma cfg_facts :
  1 <= nx2 /\ 1 <= nx3 /\
  1 <= Tree.nrbx1 g /\ 1 <= Tree.nrbx2 g /\ 1 <= Tree.nrbx3 g /\
  Tree.periodic (zread mesh_bcs 1) = p1 /\
  Tree.periodic (zread mesh_bcs 3) = p2 /\
  Tree.periodic (zread mesh_bcs 5) = p3 /\
  (Neighbors.multilevel pmy_mesh = true \/
   forall n, n ∈ t -> Tree.flag n = true).
Proof.
  unfold Tree.configured in Hcfg.
  repeat (apply andb_true_iff in Hcfg as [Hcfg ?]).
  repeat match goal with
         | H : (_ <=? _) = true |- _ => apply Z.leb_le in H
         | H : bool_decide _ = true |- _ => apply bool_decide_eq_true in H
         end.
  repeat (split; [first [assumption | symmetry; assumption]|]).
  match goal with H : _ || _ = true |- _ => apply orb_true_iff in H as [H|H] end.
  - now left.
  - right. intros n Hn. exact (forallb_elem _ _ _ H Hn).
Qed.

(** *** The neighbour location of a block of the tree *)

Local Abbreviation find_at := (Tree.find_at t g mesh_bcs).
Local Abbreviation in_dim := (Tree.in_dim nx2 nx3).

Lemma wrap_block (bi bo mi mo : Z) (p : bool) (S x o : Z) :
  0 <= x < S -> in_pm o ->
  (x = 0 -> bi = mi) -> (x = S - 1 -> bo = mo) ->
  Tree.periodic mi = p -> Tree.periodic mo = p ->
  Tree.wrap bi bo S (x + o) = wrapp p S (x + o).
Proof.
  intros Hx Ho Hi Hout Hpi Hpo. unfold Tree.wrap, Tree.wrapp.
  destruct (Z.ltb_spec0 (x + o) 0).
  - rewrite Hi, Hpi; [reflexivity|]. destruct Ho as [->|[->| ->]]; lia.
  - destruct (Z.leb_spec0 S (x + o)); [|reflexivity].
    rewrite Hout, Hpo; [reflexivity|]. destruct Ho as [->|[->| ->]]; lia.
Qed.

Lemma bcs_of_inner (l : LogicalLocation) :
  (lx1 l = 0 -> zread (bcs_of l) 0 = zread mesh_bcs 0) /\
  (lx2 l = 0 -> zread (bcs_of l) 2 = zread mesh_bcs 2) /\
  (lx3 l = 0 -> zread (bcs_of l) 4 = zread mesh_bcs 4).
Proof.
  unfold Tree.SetBlockSizeAndBoundaries.
  repeat split; intros ->; cbn;
    try destruct (mesh_nx2 =? 1); try destruct (mesh_nx3 =? 1); reflexivity.
Qed.

Lemma bcs_of_outer (l : LogicalLocation) :
  (lx1 l = S1 (level l) - 1 -> zread (bcs_of l) 1 = zread mesh_bcs 1) /\
  (lx2 l = S2 (level l) - 1 -> zread (bcs_of l) 3 = zread mesh_bcs 3) /\
  (lx3 l = S3 (level l) - 1 -> zread (bcs_of l) 5 = zread mesh_bcs 5).
Proof.
  unfold Tree.SetBlockSizeAndBoundaries.
  repeat split; intros ->; cbn; rewrite ?Z.eqb_refl;
    try destruct (mesh_nx2 =? 1); try destruct (mesh_nx3 =? 1); reflexivity.
Qed.

Lemma FindNeighbor_find_at (n : Tree.node) (o1 o2 o3 : Z) :
  n ∈ t -> in_pm o1 -> in_pm o2 -> in_pm o3 ->
  Tree.FindNeighbor t g (Tree.loc n) o1 o2 o3 (bcs_of (Tree.loc n))
  = find_at (Tree.loc n) o1 o2 o3.
Proof.
  intros Hn H1 H2 H3.
  destruct (wf_grid n Hn) as (Hl & Hx & Hy & Hz & _).
  destruct cfg_facts as (_ & _ & _ & _ & _ & Hp1 & Hp2 & Hp3 & _).
  destruct (bcs_of_inner (Tree.loc n)) as (Hi1 & Hi2 & Hi3).
  destruct (bcs_of_outer (Tree.loc n)) as (Ho1 & Ho2 & Ho3).
  unfold Tree.FindNeighbor, Tree.find_at.
  rewrite (wrap_block _ _ _ _ p1 _ _ _ Hx H1 Hi1 Ho1 eq_refl Hp1).
  rewrite (wrap_block _ _ _ _ p2 _ _ _ Hy H2 Hi2 Ho2 eq_refl Hp2).
  rewrite (wrap_block _ _ _ _ p3 _ _ _ Hz H3 Hi3 Ho3 eq_refl Hp3).
  destruct (wrapp p1 _ _) as [x|]; [|reflexivity].
  destruct (wrapp p2 _ _) as [y|]; [|reflexivity].
  destruct (wrapp p3 _ _) as [z|]; [|reflexivity].
  cbn. rewrite !shiftr_1. reflexivity.
Qed.

Lemma find_at_inv (l : LogicalLocation) (o1 o2 o3 : Z) (X : Tree.node) :
  find_at l o1 o2 o3 = Some X ->
  exists x y z,
    wrapp p1 (S1 (level l)) (lx1 l + o1) = Some x /\
    wrapp p2 (S2 (level l)) (lx2 l + o2) = Some y /\
    wrapp p3 (S3 (level l)) (lx3 l + o3) = Some z /\
    (Tree.find t (mkLoc x y z (level l)) = Some X \/
     (Tree.find t (mkLoc x y z (level l)) = None /\
      Tree.find t (mkLoc (x `div` 2) (y `div` 2) (z `div` 2) (level l - 1))
      = Some X)).
Proof.
  unfold Tree.find_at. intros H.
  destruct (wrapp p1 _ _) as [x|]; [|discriminate].
  destruct (wrapp p2 _ _) as [y|]; [|discriminate].
  destruct (wrapp p3 _ _) as [z|]; [|discriminate].
  cbn in H. exists x, y, z. repeat split.
  destruct (Tree.find t (mkLoc x y z (level l))); [left | right]; auto.
Qed.

Lemma find_at_here (l : LogicalLocation) (o1 o2 o3 x y z : Z) (X : Tree.node) :
  wrapp p1 (S1 (level l)) (lx1 l + o1) = Some x ->
  wrapp p2 (S2 (level l)) (lx2 l + o2) = Some y ->
  wrapp p3 (S3 (level l)) (lx3 l + o3) = Some z ->
  Tree.find t (mkLoc x y z (level l)) = Some X ->
  find_at l o1 o2 o3 = Some X.
Proof. unfold Tree.find_at. intros -> -> -> H. cbn. now rewrite H. Qed.

Lemma find_at_up (l : LogicalLocation) (o1 o2 o3 x y z : Z) (X : Tree.node) :
  wrapp p1 (S1 (level l)) (lx1 l + o1) = Some x ->
  wrapp p2 (S2 (level l)) (lx2 l + o2) = Some y ->
  wrapp p3 (S3 (level l)) (lx3 l + o3) = Some z ->
  Tree.find t (mkLoc x y z (level l)) = None ->
  Tree.find t (mkLoc (x `div` 2) (y `div` 2) (z `div` 2) (level l - 1))
  = Some X ->
  find_at l o1 o2 o3 = Some X.
Proof. unfold Tree.find_at. intros -> -> -> H H'. cbn. now rewrite H. Qed.

Lemma find_loc (n : Tree.node) : n ∈ t -> Tree.find t (Tree.loc n) = Some n.
Proof. apply find_elem, wf_nodup. Qed.

(** A leaf has no child in the tree. *)
Lemma leaf_no_child (a : Tree.node) (l : LogicalLocation) :
  a ∈ t -> Tree.flag a = true -> Tree.parent l = Tree.loc a ->
  level l = level (Tree.loc a) + 1 ->
  Tree.find t l = None.
Proof.
  intros Ha Hf Hp Hl.
  destruct (Tree.find t l) as [c|] eqn:Hc; [|reflexivity]. exfalso.
  apply find_Some in Hc as [Hc Hlc].
  destruct (wf_grid a Ha) as (Hla & _).
  destruct (wf_parent c Hc) as (p & Hfp & Hflag); [rewrite Hlc; lia|].
  rewrite Hlc, Hp, (find_loc a Ha) in Hfp. congruence.
Qed.

(** The neighbour of the same level sees the block in the opposite
    direction. *)
Lemma back_same (A B : Tree.node) (o1 o2 o3 : Z) :
  A ∈ t -> in_pm o1 -> in_pm o2 -> in_pm o3 ->
  find_at (Tree.loc A) o1 o2 o3 = Some B ->
  level (Tree.loc B) = level (Tree.loc A) ->
  find_at (Tree.loc B) (- o1) (- o2) (- o3) = Some A.
Proof.
  intros HA H1 H2 H3 Hf Hlev.
  destruct (wf_grid A HA) as (Hl & Hx & Hy & Hz & _).
  apply find_at_inv in Hf as (x & y & z & Hwx & Hwy & Hwz & [Hf|[_ Hf]]);
    apply find_Some in Hf as [HB HlB].
  - destruct (wrapp_same _ _ _ _ _ Hx H1 Hwx) as [Hbx _].
    destruct (wrapp_same _ _ _ _ _ Hy H2 Hwy) as [Hby _].
    destruct (wrapp_same _ _ _ _ _ Hz H3 Hwz) as [Hbz _].
    rewrite HlB. cbn [lx1 lx2 lx3 level].
    eapply find_at_here; cbn [lx1 lx2 lx3 level];
      rewrite ?Z.add_opp_r; eauto.
    rewrite <- (find_loc A HA). f_equal. now destruct (Tree.loc A).
  - rewrite HlB in Hlev. cbn in Hlev. lia.
Qed.

Lemma positions_elem (i j k : Z) :
  (i, j, k) ∈ Tree.positions nx2 nx3 <->
  (i = 0 \/ i = 1) /\ (j = 0 \/ (j = 1 /\ 1 < nx2)) /\
  (k = 0 \/ (k = 1 /\ 1 < nx3)).
Proof.
  unfold Tree.positions.
  destruct (Z.ltb_spec0 1 nx2), (Z.ltb_spec0 1 nx3);
    (split; [intros H | intros (Hi & Hj & Hk)]).
  all: try (apply list_elem_of_bind in H as (i' & H & Hi');
            apply list_elem_of_bind in H as (j' & H & Hj');
            apply list_elem_of_bind in H as (k' & H & Hk');
            apply list_elem_of_singleton in H; injection H as -> -> ->;
            repeat match goal with
                   | H : _ ∈ _ :: _ |- _ => apply elem_of_cons in H as [->|H]
                   | H : _ ∈ [] |- _ => inversion H
                   end; lia).
  all: apply list_elem_of_bind; exists i; split;
    [| destruct Hi as [-> | ->]; repeat constructor ].
  all: apply list_elem_of_bind; exists j; split;
    [| destruct Hj as [-> | [-> ?]]; first [lia | repeat constructor] ].
  all: apply list_elem_of_bind; exists k; split;
    [| destruct Hk as [-> | [-> ?]]; first [lia | repeat constructor] ].
  all: left.
Qed.

Lemma wrapp_zero (p : bool) (S x : Z) :
  0 <= x < S -> wrapp p S (x + 0) = Some x.
Proof. intros H. wrapp_solve. Qed.

(** An internal neighbour is the node at the neighbour location. *)
Lemma internal_here (A P : Tree.node) (o1 o2 o3 : Z) :
  A ∈ t -> in_pm o1 -> in_pm o2 -> in_pm o3 -> in_dim o2 o3 ->
  find_at (Tree.loc A) o1 o2 o3 = Some P -> Tree.flag P = false ->
  exists x y z,
    wrapp p1 (S1 (level (Tree.loc A))) (lx1 (Tree.loc A) + o1) = Some x /\
    wrapp p2 (S2 (level (Tree.loc A))) (lx2 (Tree.loc A) + o2) = Some y /\
    wrapp p3 (S3 (level (Tree.loc A))) (lx3 (Tree.loc A) + o3) = Some z /\
    P ∈ t /\ Tree.loc P = mkLoc x y z (level (Tree.loc A)).
Proof.
  intros HA H1 H2 H3 [Hd2 Hd3] Hf Hflag.
  destruct (wf_grid A HA) as (Hl & Hx & Hy & Hz & Hf2 & Hf3).
  apply find_at_inv in Hf as (x & y & z & Hwx & Hwy & Hwz & [Hf|[Hnone Hf]]);
    apply find_Some in Hf as [HP HlP]; exists x, y, z.
  - repeat split; auto.
  - exfalso.
    destruct (wf_children P (x `mod` 2) (y `mod` 2) (z `mod` 2) HP Hflag)
      as [c Hc].
    + apply positions_elem.
      assert (Hy' : 1 < nx2 \/ y = 0).
      { destruct Hd2 as [->|?]; [|auto].
        destruct (Z.ltb_spec0 1 nx2); [auto|]. right.
        rewrite wrapp_zero in Hwy by assumption. injection Hwy as <-.
        apply Hf2. lia. }
      assert (Hz' : 1 < nx3 \/ z = 0).
      { destruct Hd3 as [->|?]; [|auto].
        destruct (Z.ltb_spec0 1 nx3); [auto|]. right.
        rewrite wrapp_zero in Hwz by assumption. injection Hwz as <-.
        apply Hf3. lia. }
      repeat split; Z.div_mod_to_equations; lia.
    + rewrite HlP in Hc. unfold Tree.child in Hc. cbn [lx1 lx2 lx3 level] in Hc.
      replace (2 * (x `div` 2) + x `mod` 2) with x in Hc
        by (Z.div_mod_to_equations; lia).
      replace (2 * (y `div` 2) + y `mod` 2) with y in Hc
        by (Z.div_mod_to_equations; lia).
      replace (2 * (z `div` 2) + z `mod` 2) with z in Hc
        by (Z.div_mod_to_equations; lia).
      replace (level (Tree.loc A) - 1 + 1) with (level (Tree.loc A)) in Hc
        by lia.
      congruence.
Qed.

(** From a leaf among the children of an internal neighbour that touch the
    block, the opposite direction leads back to the block. *)
Lemma back_fine (A P C : Tree.node) (o1 o2 o3 a1 a2 a3 : Z) :
  A ∈ t -> Tree.flag A = true ->
  in_pm o1 -> in_pm o2 -> in_pm o3 -> in_dim o2 o3 ->
  find_at (Tree.loc A) o1 o2 o3 = Some P -> Tree.flag P = false ->
  Tree.find t (Tree.child (Tree.loc P) a1 a2 a3) = Some C ->
  (a1 = 0 \/ a1 = 1) -> (a2 = 0 \/ a2 = 1) -> (a3 = 0 \/ a3 = 1) ->
  (o1 = 0 \/ a1 = Neighbors.ff o1) ->
  (o2 = 0 \/ a2 = Neighbors.ff o2) ->
  (o3 = 0 \/ a3 = Neighbors.ff o3) ->
  find_at (Tree.loc C) (- o1) (- o2) (- o3) = Some A /\
  level (Tree.loc C) = level (Tree.loc A) + 1 /\
  lx1 (Tree.loc C) `mod` 2 = a1 /\
  lx2 (Tree.loc C) `mod` 2 = a2 /\
  lx3 (Tree.loc C) `mod` 2 = a3.
Proof.
  intros HA HfA H1 H2 H3 Hd Hf HfP HC Ha1 Ha2 Ha3 Hb1 Hb2 Hb3.
  destruct (wf_grid A HA) as (Hl & Hx & Hy & Hz & _).
  destruct (internal_here A P o1 o2 o3 HA H1 H2 H3 Hd Hf HfP)
    as (x & y & z & Hwx & Hwy & Hwz & HP & HlP).
  apply find_Some in HC as [HC HlC].
  rewrite HlP in HlC. unfold Tree.child in HlC. cbn [lx1 lx2 lx3 level] in HlC.
  rewrite HlC. cbn [lx1 lx2 lx3 level].
  destruct (wrapp_fine _ _ _ _ _ a1 Hx H1 Ha1 Hb1 Hwx) as (c1 & Hc1 & Hq1 & _).
  destruct (wrapp_fine _ _ _ _ _ a2 Hy H2 Ha2 Hb2 Hwy) as (c2 & Hc2 & Hq2 & _).
  destruct (wrapp_fine _ _ _ _ _ a3 Hz H3 Ha3 Hb3 Hwz) as (c3 & Hc3 & Hq3 & _).
  split; [|repeat split; try (Z.div_mod_to_equations; lia)].
  assert (HlA : Tree.loc A
                = mkLoc (c1 `div` 2) (c2 `div` 2) (c3 `div` 2)
                        (level (Tree.loc A) + 1 - 1)).
  { rewrite Hq1, Hq2, Hq3. replace (level (Tree.loc A) + 1 - 1)
      with (level (Tree.loc A)) by lia. now destruct (Tree.loc A). }
  apply (find_at_up _ _ _ _ c1 c2 c3); cbn [lx1 lx2 lx3 level];
    rewrite ?extent_succ by lia; rewrite ?Z.add_opp_r; try assumption.
  - apply (leaf_no_child A); auto. unfold Tree.parent.
    cbn [lx1 lx2 lx3 level]. rewrite !shiftr_1. now rewrite <- HlA.
  - rewrite <- HlA. now apply find_loc.
Qed.

(** From a coarser neighbour reached through sides of the parent, the
    opposite direction leads to the parent of the block. *)
Lemma back_coarse (A B : Tree.node) (o1 o2 o3 : Z) :
  A ∈ t -> in_pm o1 -> in_pm o2 -> in_pm o3 ->
  find_at (Tree.loc A) o1 o2 o3 = Some B ->
  level (Tree.loc B) <> level (Tree.loc A) ->
  (o1 = 0 \/ lx1 (Tree.loc A) `mod` 2 = Neighbors.hp o1) ->
  (o2 = 0 \/ lx2 (Tree.loc A) `mod` 2 = Neighbors.hp o2) ->
  (o3 = 0 \/ lx3 (Tree.loc A) `mod` 2 = Neighbors.hp o3) ->
  exists P, find_at (Tree.loc B) (- o1) (- o2) (- o3) = Some P /\
            Tree.flag P = false /\ P ∈ t /\
            Tree.loc P = Tree.parent (Tree.loc A) /\
            level (Tree.loc B) = level (Tree.loc A) - 1.
Proof.
  intros HA H1 H2 H3 Hf Hlev Hb1 Hb2 Hb3.
  destruct (wf_grid A HA) as (Hl & Hx & Hy & Hz & _).
  apply find_at_inv in Hf as (x & y & z & Hwx & Hwy & Hwz & [Hf|[Hnone Hf]]);
    apply find_Some in Hf as [HB HlB]; [rewrite HlB in Hlev; now cbn in Hlev|].
  destruct (wf_grid B HB) as (HlB' & _).
  rewrite HlB in HlB'. cbn [level] in HlB'.
  destruct (wf_parent A HA) as (P & HfP & HflP); [lia|].
  exists P. pose proof (find_Some _ _ _ HfP) as [HP HlP].
  rewrite HlB. cbn [lx1 lx2 lx3 level]. repeat split; auto.
  replace (level (Tree.loc A)) with (level (Tree.loc A) - 1 + 1)
    in Hx, Hy, Hz, Hwx, Hwy, Hwz by lia.
  rewrite extent_succ in Hx, Hy, Hz, Hwx, Hwy, Hwz by lia.
  destruct (wrapp_coarse _ _ _ _ _ Hx H1 Hb1 Hwx) as [Hc1 _].
  destruct (wrapp_coarse _ _ _ _ _ Hy H2 Hb2 Hwy) as [Hc2 _].
  destruct (wrapp_coarse _ _ _ _ _ Hz H3 Hb3 Hwz) as [Hc3 _].
  apply (find_at_here _ _ _ _ (lx1 (Tree.loc A) `div` 2)
           (lx2 (Tree.loc A) `div` 2) (lx3 (Tree.loc A) `div` 2));
    cbn [lx1 lx2 lx3 level]; rewrite ?Z.add_opp_r; try assumption.
  unfold Tree.parent in HfP. now rewrite !shiftr_1 in HfP.
Qed.

(** A step towards the inside of the parent along one axis reaches a node
    of the level of the block. *)
Lemma sibling_found (A : Tree.node) (o1 o2 o3 : Z) :
  A ∈ t -> rl < level (Tree.loc A) ->
  (o1 = 0 \/ (in_pm o1 /\ lx1 (Tree.loc A) `mod` 2 <> Neighbors.hp o1)) ->
  (o2 = 0 \/ (in_pm o2 /\ lx2 (Tree.loc A) `mod` 2 <> Neighbors.hp o2)) ->
  (o3 = 0 \/ (in_pm o3 /\ lx3 (Tree.loc A) `mod` 2 <> Neighbors.hp o3)) ->
  in_dim o2 o3 ->
  exists c, find_at (Tree.loc A) o1 o2 o3 = Some c /\
            level (Tree.loc c) = level (Tree.loc A).
Proof.
  intros HA Hlev H1 H2 H3 [Hd2 Hd3].
  destruct (wf_grid A HA) as (Hl & Hx & Hy & Hz & Hf2 & Hf3).
  destruct (wf_parent A HA Hlev) as (P & HfP & HflP).
  pose proof (find_Some _ _ _ HfP) as [HP HlP].
  replace (level (Tree.loc A)) with (level (Tree.loc A) - 1 + 1)
    in Hx, Hy, Hz by lia.
  rewrite extent_succ in Hx, Hy, Hz by lia.
  assert (Hax : forall (p : bool) S x o,
    0 <= x < 2 * S -> (o = 0 \/ (in_pm o /\ x `mod` 2 <> Neighbors.hp o)) ->
    exists a, wrapp p (2 * S) (x + o) = Some (2 * (x `div` 2) + a) /\
              (a = 0 \/ a = 1) /\ (a = 0 \/ x `mod` 2 <> 0 \/ o <> 0)).
  { intros p S x o Hr [->|[[->|[->| ->]] Hne]].
    - exists (x `mod` 2). rewrite wrapp_zero by lia.
      repeat split; try f_equal; Z.div_mod_to_equations; lia.
    - exists (Neighbors.hp (-1)). rewrite wrapp_sibling by auto.
      rewrite hp_m1. repeat split; auto; lia.
    - exists (x `mod` 2). rewrite wrapp_zero by lia.
      repeat split; try f_equal; Z.div_mod_to_equations; lia.
    - exists (Neighbors.hp 1). rewrite wrapp_sibling by auto.
      rewrite hp_1. repeat split; auto; lia. }
  destruct (Hax p1 _ _ _ Hx H1) as (a1 & Hw1 & Ha1 & _).
  destruct (Hax p2 _ _ _ Hy H2) as (a2 & Hw2 & Ha2 & Hz2).
  destruct (Hax p3 _ _ _ Hz H3) as (a3 & Hw3 & Ha3 & Hz3).
  destruct (wf_children P a1 a2 a3 HP HflP) as [c Hc].
  { apply positions_elem. repeat split; auto.
    - destruct Ha2 as [->| ->]; [auto|]. right. split; [reflexivity|].
      destruct (Z.ltb_spec0 1 nx2); [auto|].
      rewrite Hf2 in Hz2 by lia. change (0 `mod` 2) with 0 in Hz2. lia.
    - destruct Ha3 as [->| ->]; [auto|]. right. split; [reflexivity|].
      destruct (Z.ltb_spec0 1 nx3); [auto|].
      rewrite Hf3 in Hz3 by lia. change (0 `mod` 2) with 0 in Hz3. lia. }
  exists c. pose proof (find_Some _ _ _ Hc) as [Hct Hlc]. split.
  - apply (find_at_here _ _ _ _ (2 * (lx1 (Tree.loc A) `div` 2) + a1)
             (2 * (lx2 (Tree.loc A) `div` 2) + a2)
             (2 * (lx3 (Tree.loc A) `div` 2) + a3)).
    1-3: replace (level (Tree.loc A)) with (level (Tree.loc A) - 1 + 1) by lia;
         rewrite extent_succ by lia; assumption.
    rewrite HlP in Hc. unfold Tree.child, Tree.parent in Hc.
    cbn [lx1 lx2 lx3 level] in Hc. rewrite !shiftr_1 in Hc.
    replace (level (Tree.loc A) - 1 + 1) with (level (Tree.loc A)) in Hc by lia.
    exact Hc.
  - rewrite Hlc, HlP. unfold Tree.child, Tree.parent. cbn [level]. lia.
Qed.

Lemma layout_fst (b0 b : Z) (d : Z * Z * Z) (l : list ((Z * Z * Z) * Z)) :
  (b, d) ∈ Neighbors.layout b0 l -> d ∈ map fst l.
Proof.
  revert b0. induction l as [|[d' w] l IH]; intros b0 H; [inversion H|].
  cbn in *. apply elem_of_cons in H as [H|H].
  - injection H as -> ->. left.
  - right. eauto.
Qed.

Lemma fst_layout (b0 : Z) (d : Z * Z * Z) (l : list ((Z * Z * Z) * Z)) :
  d ∈ map fst l -> exists b, (b, d) ∈ Neighbors.layout b0 l.
Proof.
  revert b0. induction l as [|[d' w] l IH]; intros b0 H; [inversion H|].
  cbn in *. apply elem_of_cons in H as [->|H].
  - eexists. left.
  - destruct (IH (b0 + w) H) as [b Hb]. exists b. now right.
Qed.

(** The directions that a block scans: they are directions of the
    dimension of the mesh, and the opposite of each is scanned as well. *)
Lemma scan_dirs (X Y : Tree.node) (o1 o2 o3 : Z) :
  (o1, o2, o3) ∈ map fst (Neighbors.scan_list pmy_mesh (block X)) ->
  in_pm o1 /\ in_pm o2 /\ in_pm o3 /\ in_dim o2 o3 /\
  (o3 = 0 \/ 1 < nx2) /\
  Neighbors.kind_of (o1, o2, o3) <> Neighbors.Center /\
  (o1, o2, o3) ∈ Tree.directions nx2 nx3 /\
  (- o1, - o2, - o3) ∈ map fst (Neighbors.scan_list pmy_mesh (block Y)).
Proof.
  destruct cfg_facts as (Hn2 & Hn3 & _).
  unfold Neighbors.scan_list, Tree.directions, Tree.in_dim, Tree.in_pm.
  cbn [Neighbors.nx2 Neighbors.nx3 Tree.block].
  destruct (Z.eqb_spec nx2 1), (Z.ltb_spec0 1 nx2); try lia;
    destruct (Z.eqb_spec nx3 1), (Z.ltb_spec0 1 nx3); try lia;
    destruct (Neighbors.face_only pmy_mesh);
    cbn [app map fst]; intros H;
    repeat (apply elem_of_cons in H as [H|H];
            [injection H as -> -> ->;
             repeat split; try lia; try (cbn; discriminate);
             apply (bool_decide_unpack _); vm_compute; exact I|]);
    inversion H.
Qed.

Lemma kind_of_opp (o1 o2 o3 : Z) :
  Neighbors.kind_of (- o1, - o2, - o3) = Neighbors.kind_of (o1, o2, o3).
Proof.
  unfold Neighbors.kind_of.
  destruct (Z.eqb_spec o1 0), (Z.eqb_spec (- o1) 0); try lia;
    destruct (Z.eqb_spec o2 0), (Z.eqb_spec (- o2) 0); try lia;
    destruct (Z.eqb_spec o3 0), (Z.eqb_spec (- o3) 0); try lia; reflexivity.
Qed.

Lemma hp_opp (o : Z) : o = -1 \/ o = 1 -> Neighbors.ff (- o) = Neighbors.hp o.
Proof. intros [-> | ->]; reflexivity. Qed.

Lemma outward_touches (X : Tree.node) (o1 o2 o3 : Z) :
  in_pm o1 -> in_pm o2 -> in_pm o3 ->
  Neighbors.type_of (Neighbors.kind_of (o1, o2, o3)) <> neighbor_face ->
  Neighbors.outward (block X) (o1, o2, o3) = true ->
  touches X o1 o2 o3.
Proof.
  unfold Tree.touches, Neighbors.outward, Neighbors.myox1, Neighbors.myox2,
    Neighbors.myox3.
  cbn [Neighbors.nx2 Neighbors.nx3 Neighbors.loc Tree.block].
  rewrite !land_1.
  pose proof (Z.mod_pos_bound (lx1 (Tree.loc X)) 2 eq_refl) as M1.
  pose proof (Z.mod_pos_bound (lx2 (Tree.loc X)) 2 eq_refl) as M2.
  pose proof (Z.mod_pos_bound (lx3 (Tree.loc X)) 2 eq_refl) as M3.
  intros [->|[->| ->]] [->|[->| ->]] [->|[->| ->]] Hk; cbn in Hk;
    try congruence; cbn [Neighbors.kind_of Z.eqb]; rewrite ?hp_m1, ?hp_1;
    intros H; repeat (apply andb_true_iff in H as [H ?]);
    destruct (1 <? nx2), (1 <? nx3);
    repeat match goal with
           | H : (_ =? _) = true |- _ => apply Z.eqb_eq in H
           end;
    repeat split; lia.
Qed.

(** A block whose neighbour across a face is coarser touches that side of
    its parent. *)
Lemma coarse_touches (X B : Tree.node) (o1 o2 o3 : Z) :
  X ∈ t -> in_pm o1 -> in_pm o2 -> in_pm o3 -> in_dim o2 o3 ->
  find_at (Tree.loc X) o1 o2 o3 = Some B ->
  level (Tree.loc B) <> level (Tree.loc X) ->
  Neighbors.outward (block X) (o1, o2, o3) = true ->
  touches X o1 o2 o3.
Proof.
  intros HX H1 H2 H3 Hd Hf Hlev Hout.
  destruct (Neighbors.type_of (Neighbors.kind_of (o1, o2, o3))) eqn:Hk.
  2,3: apply outward_touches; auto; congruence.
  assert (Hrl : rl < level (Tree.loc X)).
  { apply find_at_inv in Hf
      as (x & y & z & _ & _ & _ & [Hf|[_ Hf]]);
      apply find_Some in Hf as [HB HlB].
    - rewrite HlB in Hlev. now cbn in Hlev.
    - destruct (wf_grid B HB) as (Hl & _). rewrite HlB in Hl.
      cbn [level] in Hl. lia. }
  assert (Hsib : forall p1' p2' p3',
    (o1 = 0 \/ (in_pm o1 /\ lx1 (Tree.loc X) `mod` 2 <> Neighbors.hp o1)) ->
    (o2 = 0 \/ (in_pm o2 /\ lx2 (Tree.loc X) `mod` 2 <> Neighbors.hp o2)) ->
    (o3 = 0 \/ (in_pm o3 /\ lx3 (Tree.loc X) `mod` 2 <> Neighbors.hp o3)) ->
    p1' /\ p2' /\ p3').
  { intros p1' p2' p3' S1' S2' S3'. exfalso.
    destruct (sibling_found X o1 o2 o3 HX Hrl S1' S2' S3' Hd) as (c & Hc & Hlc).
    rewrite Hf in Hc. injection Hc as <-. contradiction. }
  unfold Tree.touches.
  destruct (Z.eq_dec (lx1 (Tree.loc X) `mod` 2) (Neighbors.hp o1)) as [E1|E1],
    (Z.eq_dec (lx2 (Tree.loc X) `mod` 2) (Neighbors.hp o2)) as [E2|E2],
    (Z.eq_dec (lx3 (Tree.loc X) `mod` 2) (Neighbors.hp o3)) as [E3|E3];
    try (repeat split; right; assumption);
    destruct H1 as [->|[->| ->]], H2 as [->|[->| ->]], H3 as [->|[->| ->]];
    cbn in Hk; try discriminate;
    try (repeat split; first [left; reflexivity | right; assumption]);
    apply Hsib;
    first [left; reflexivity
          | right; split; [unfold Tree.in_pm; lia | assumption]].
Qed.

Ltac pm_cases H1 H2 H3 :=
  destruct H1 as [->|[->| ->]], H2 as [->|[->| ->]], H3 as [->|[->| ->]].

(** The children of a finer neighbour that the search records touch the
    block, and the fine indices that such a child gives for the block are
    those under which the block records it. *)
Lemma leafpos_facing (X : Tree.node) (o1 o2 o3 f1 f2 a1 a2 a3 : Z) :
  in_pm o1 -> in_pm o2 -> in_pm o3 -> in_dim o2 o3 ->
  (o3 = 0 \/ 1 < nx2) ->
  Neighbors.kind_of (o1, o2, o3) <> Neighbors.Center ->
  0 <= f1 < (Neighbors.fine_counts pmy_mesh (block X)
               (Neighbors.kind_of (o1, o2, o3))).1 ->
  0 <= f2 < (Neighbors.fine_counts pmy_mesh (block X)
               (Neighbors.kind_of (o1, o2, o3))).2 ->
  Neighbors.leafpos (o1, o2, o3) f1 f2 = (a1, a2, a3) ->
  ((a1 = 0 \/ a1 = 1) /\ (a2 = 0 \/ a2 = 1) /\ (a3 = 0 \/ a3 = 1)) /\
  ((o1 = 0 \/ a1 = Neighbors.ff o1) /\ (o2 = 0 \/ a2 = Neighbors.ff o2) /\
   (o3 = 0 \/ a3 = Neighbors.ff o3)) /\
  (a1, a2, a3) ∈ Tree.facing nx2 nx3 (o1, o2, o3) /\
  forall C : Tree.node,
    lx1 (Tree.loc C) `mod` 2 = a1 -> lx2 (Tree.loc C) `mod` 2 = a2 ->
    lx3 (Tree.loc C) `mod` 2 = a3 ->
    Neighbors.coarse_fi (block C) (Neighbors.kind_of (o1, o2, o3)) = (f1, f2).
Proof.
  intros H1 H2 H3 [Hd2 Hd3] Hd23 Hk.
  unfold Tree.facing, Neighbors.leafpos, Neighbors.fine_counts,
    Neighbors.coarse_fi, Neighbors.myfx1, Neighbors.myfx2, Neighbors.myfx3,
    Neighbors.nf1, Neighbors.nf2.
  cbn [Neighbors.nx2 Neighbors.nx3 Neighbors.loc Tree.block].
  assert (Hff : forall o, o = 0 \/ Neighbors.ff o = Neighbors.ff o)
    by (intros; now right).
  pm_cases H1 H2 H3; cbn in Hk; try congruence;
    cbn [Neighbors.kind_of Z.eqb];
    destruct (Neighbors.multilevel pmy_mesh),
      (Z.ltb_spec0 1 nx2), (Z.ltb_spec0 1 nx3);
    cbn [fst snd]; intros Hf1 Hf2 Hleaf; try lia;
    injection Hleaf as <- <- <-; rewrite ?ff_m1, ?ff_1;
    (split; [lia|]); (split; [lia|]);
    (split;
     [apply list_elem_of_filter; split;
      [cbn beta iota; rewrite ?ff_m1, ?ff_1; lia | apply positions_elem; lia]
     |intros C E1 E2 E3; rewrite ?land_1; f_equal; lia]).
Qed.

(** The fine indices that a block gives for a coarser neighbour are those
    of its place among the children of its parent. *)
Lemma coarse_fi_leafpos (X Y : Tree.node) (o1 o2 o3 : Z) :
  X ∈ t -> in_pm o1 -> in_pm o2 -> in_pm o3 -> in_dim o2 o3 ->
  (o3 = 0 \/ 1 < nx2) ->
  Neighbors.kind_of (o1, o2, o3) <> Neighbors.Center ->
  Neighbors.multilevel pmy_mesh = true ->
  touches X o1 o2 o3 ->
  let k := Neighbors.kind_of (o1, o2, o3) in
  let f := Neighbors.coarse_fi (block X) k in
  0 <= f.1 < (Neighbors.fine_counts pmy_mesh (block Y) k).1 /\
  0 <= f.2 < (Neighbors.fine_counts pmy_mesh (block Y) k).2 /\
  Neighbors.leafpos (- o1, - o2, - o3) f.1 f.2
  = (lx1 (Tree.loc X) `mod` 2, lx2 (Tree.loc X) `mod` 2,
     lx3 (Tree.loc X) `mod` 2).
Proof.
  intros HX H1 H2 H3 [Hd2 Hd3] Hd23 Hk Hml (T1 & T2 & T3).
  destruct (wf_grid X HX) as (_ & _ & _ & _ & Hf2 & Hf3).
  pose proof (Z.mod_pos_bound (lx1 (Tree.loc X)) 2 eq_refl) as M1.
  pose proof (Z.mod_pos_bound (lx2 (Tree.loc X)) 2 eq_refl) as M2.
  pose proof (Z.mod_pos_bound (lx3 (Tree.loc X)) 2 eq_refl) as M3.
  assert (Hz2 : nx2 <= 1 -> lx2 (Tree.loc X) `mod` 2 = 0)
    by (intros Hn; now rewrite Hf2).
  assert (Hz3 : nx3 <= 1 -> lx3 (Tree.loc X) `mod` 2 = 0)
    by (intros Hn; now rewrite Hf3).
  cbv zeta.
  unfold Neighbors.leafpos, Neighbors.fine_counts,
    Neighbors.coarse_fi, Neighbors.myfx1, Neighbors.myfx2, Neighbors.myfx3,
    Neighbors.nf1, Neighbors.nf2.
  cbn [Neighbors.nx2 Neighbors.nx3 Neighbors.loc Tree.block].
  rewrite Hml, !land_1.
  pm_cases H1 H2 H3; cbn in Hk; try congruence;
    change (Z.opp (-1)) with 1; change (Z.opp 1) with (-1);
    change (Z.opp 0) with 0;
    rewrite ?hp_m1, ?hp_1 in T1; rewrite ?hp_m1, ?hp_1 in T2;
    rewrite ?hp_m1, ?hp_1 in T3;
    cbn [Neighbors.kind_of Z.eqb]; rewrite ?ff_m1, ?ff_1;
    destruct (Z.ltb_spec0 1 nx2), (Z.ltb_spec0 1 nx3);
    cbn [fst snd];
    (split; [lia|]); (split; [lia|]);
    repeat first [ match goal with |- @eq Z _ _ => lia end
                 | progress f_equal ].
Qed.

(** The buffer id that [FindBufferID] gives is the slot of the direction
    and the fine indices in the scan of any block. *)
Lemma tbid_slot (X : Tree.node) (d : Z * Z * Z) (f1 f2 : Z) :
  Neighbors.tbid_of (Tree.FindBufferID (Neighbors.multilevel pmy_mesh) nx2 nx3)
    pmy_mesh d f1 f2
  = Neighbors.slot_base pmy_mesh (block X) d
    + f2 * (Neighbors.fine_counts pmy_mesh (block X) (Neighbors.kind_of d)).1
    + f1.
Proof. destruct d as [[o1 o2] o3]. reflexivity. Qed.

Lemma record_of_fields (n : Tree.node) (d : Z * Z * Z) (bid tbid f1 f2 : Z) :
  let r := Neighbors.record_of Tree.node Tree.loc Tree.gid ranklist nslist
             n d bid tbid f1 f2 in
  NeighborBlock.gid r = Tree.gid n /\ NeighborBlock.offsets r = d /\
  NeighborBlock.bufid r = bid /\ NeighborBlock.targetid r = tbid.
Proof. destruct d as [[o1 o2] o3]. repeat split. Qed.

Lemma in_pm_opp (o : Z) : in_pm o -> in_pm (- o).
Proof. unfold Tree.in_pm. lia. Qed.

Lemma find_at_elem (l : LogicalLocation) (o1 o2 o3 : Z) (X : Tree.node) :
  find_at l o1 o2 o3 = Some X ->
  X ∈ t /\ (level (Tree.loc X) = level l \/ level (Tree.loc X) = level l - 1).
Proof.
  intros H.
  apply find_at_inv in H as (x & y & z & _ & _ & _ & [H|[_ H]]);
    apply find_Some in H as [HX ->]; cbn [level]; auto.
Qed.

Lemma child_parent (l : LogicalLocation) :
  Tree.child (Tree.parent l) (lx1 l `mod` 2) (lx2 l `mod` 2) (lx3 l `mod` 2)
  = l.
Proof.
  destruct l as [x y z ll]. unfold Tree.child, Tree.parent.
  cbn [lx1 lx2 lx3 level]. rewrite !shiftr_1.
  f_equal; Z.div_mod_to_equations; lia.
Qed.

(** A block that touches the sides of its parent in a direction passes the
    test of the search for that direction. *)
Lemma touches_outward (X : Tree.node) (o1 o2 o3 : Z) :
  in_pm o1 -> in_pm o2 -> in_pm o3 -> in_dim o2 o3 ->
  touches X o1 o2 o3 ->
  Neighbors.outward (block X) (o1, o2, o3) = true.
Proof.
  unfold Tree.touches, Tree.in_dim, Neighbors.outward, Neighbors.myox1,
    Neighbors.myox2,
    Neighbors.myox3.
  cbn [Neighbors.nx2 Neighbors.nx3 Neighbors.loc Tree.block].
  rewrite !land_1.
  intros H1 H2 H3 [Hd2 Hd3] (T1 & T2 & T3).
  pm_cases H1 H2 H3; cbn [Neighbors.kind_of Z.eqb]; try reflexivity;
    rewrite ?hp_m1, ?hp_1 in T1; rewrite ?hp_m1, ?hp_1 in T2;
    rewrite ?hp_m1, ?hp_1 in T3;
    destruct (Z.ltb_spec0 1 nx2), (Z.ltb_spec0 1 nx3); try lia;
    rewrite ?andb_true_iff, ?Z.eqb_eq; repeat split; lia.
Qed.

Lemma in_dim_opp (o2 o3 : Z) : in_dim o2 o3 -> in_dim (- o2) (- o3).
Proof. unfold Tree.in_dim. lia. Qed.

Lemma facing_touches (C : Tree.node) (o1 o2 o3 a1 a2 a3 : Z) :
  in_pm o1 -> in_pm o2 -> in_pm o3 ->
  lx1 (Tree.loc C) `mod` 2 = a1 -> lx2 (Tree.loc C) `mod` 2 = a2 ->
  lx3 (Tree.loc C) `mod` 2 = a3 ->
  (o1 = 0 \/ a1 = Neighbors.ff o1) -> (o2 = 0 \/ a2 = Neighbors.ff o2) ->
  (o3 = 0 \/ a3 = Neighbors.ff o3) ->
  touches C (- o1) (- o2) (- o3).
Proof.
  intros H1 H2 H3 <- <- <- T1 T2 T3. unfold Tree.touches.
  pm_cases H1 H2 H3;
    destruct T1 as [T1|T1]; try discriminate T1;
    destruct T2 as [T2|T2]; try discriminate T2;
    destruct T3 as [T3|T3]; try discriminate T3;
    repeat split; first [left; reflexivity | right; assumption].
Qed.

Lemma neighbors_elem (X : Tree.node) (r : NeighborBlock.t) :
  r ∈ neighbors X <->
  exists b d,
    (b, d) ∈ Neighbors.layout 0 (Neighbors.scan_list pmy_mesh (block X)) /\
    r ∈ Neighbors.dir_recs_at Tree.node Tree.flag Tree.loc Tree.gid
          (Tree.GetLeaf t) (Tree.FindNeighbor t g)
          (Tree.FindBufferID (Neighbors.multilevel pmy_mesh) nx2 nx3)
          pmy_mesh ranklist nslist (block X) b d.
Proof. apply SearchAndSetNeighbors_elem. Qed.

Ltac record_fields :=
  cbn [Neighbors.record_of NeighborBlock.SetNeighbor NeighborBlock.gid
       NeighborBlock.ox1 NeighborBlock.ox2 NeighborBlock.ox3
       NeighborBlock.bufid NeighborBlock.targetid NeighborBlock.offsets
       fst snd Neighbors.loc Neighbors.block_bcs Tree.block] in *.

Lemma neighbor_record_back (A B : Tree.node) (r : NeighborBlock.t) :
  A ∈ t -> Tree.flag A = true -> B ∈ t -> Tree.flag B = true ->
  r ∈ neighbors A -> NeighborBlock.gid r = Tree.gid B ->
  exists r',
    r' ∈ neighbors B /\ NeighborBlock.gid r' = Tree.gid A /\
    NeighborBlock.offsets r'
    = (- NeighborBlock.ox1 r, - NeighborBlock.ox2 r, - NeighborBlock.ox3 r) /\
    NeighborBlock.bufid r = NeighborBlock.targetid r' /\
    NeighborBlock.bufid r' = NeighborBlock.targetid r.
Proof.
  intros HA HfA HB HfB Hr Hg.
  apply neighbors_elem in Hr as (b & [[o1 o2] o3] & Hbd & Hr).
  pose proof (layout_fst _ _ _ _ Hbd) as Hd.
  destruct (scan_dirs A B o1 o2 o3 Hd)
    as (H1 & H2 & H3 & Hdim & Hd23 & Hk & Hdir & Hback).
  destruct (fst_layout 0 _ _ Hback) as [b' Hb'].
  pose proof (layout_slot_base _ _ _ _ Hbd) as Eb.
  pose proof (layout_slot_base _ _ _ _ Hb') as Eb'.
  pose proof (in_pm_opp _ H1) as H1'.
  pose proof (in_pm_opp _ H2) as H2'.
  pose proof (in_pm_opp _ H3) as H3'.
  pose proof (in_dim_opp _ _ Hdim) as Hdim'.
  apply dir_recs_at_elim in Hr as (N & HN & Hcase).
  cbn [fst snd Neighbors.loc Neighbors.block_bcs Tree.block] in HN, Hcase.
  cbv zeta in Hcase.
  pose proof HN as HN0.
  rewrite FindNeighbor_find_at in HN by auto.
  destruct (find_at_elem _ _ _ _ _ HN) as [HNt HlN].
  destruct Hcase as [(HfN & f1 & f2 & a1 & a2 & a3 & Hf1 & Hf2 & Hleaf & ->)
                    | (HfN & Hout & ->)].
  - destruct (leafpos_facing A o1 o2 o3 f1 f2 a1 a2 a3
                H1 H2 H3 Hdim Hd23 Hk Hf1 Hf2 Hleaf)
      as ((Ha1 & Ha2 & Ha3) & (Hb1 & Hb2 & Hb3) & Hfac & Hcf).
    destruct (bal_leaves A N o1 o2 o3 a1 a2 a3 HA HfA Hdir HN0 HfN Hfac)
      as (C & HC & HfC).
    assert (HGL : Tree.GetLeaf t N a1 a2 a3 = C)
      by (unfold Tree.GetLeaf; now rewrite HC).
    rewrite HGL in Hg. rewrite HGL. clear HGL.
    pose proof (find_Some _ _ _ HC) as [HCt _].
    record_fields.
    assert (C = B) by (apply wf_gid; auto). subst C.
    destruct (back_fine A N B o1 o2 o3 a1 a2 a3 HA HfA H1 H2 H3 Hdim HN HfN HC
                Ha1 Ha2 Ha3 Hb1 Hb2 Hb3) as (Hbk & HlB & E1 & E2 & E3).
    eexists. split.
    { apply neighbors_elem. exists b', (- o1, - o2, - o3).
      split; [exact Hb'|].
      apply dir_recs_at_intro_leaf with (neibt := A).
      - cbn [fst snd Neighbors.loc Neighbors.block_bcs Tree.block].
        rewrite FindNeighbor_find_at by auto. exact Hbk.
      - exact HfA.
      - apply orb_true_iff. left. apply touches_outward; auto.
        apply (facing_touches B o1 o2 o3 a1 a2 a3); auto. }
    record_fields. rewrite !Z.opp_involutive.
    split; [reflexivity|]. split; [reflexivity|].
    destruct (Z.eqb_spec (level (Tree.loc A)) (level (Tree.loc B))); [lia|].
    rewrite kind_of_opp, (Hcf B E1 E2 E3). cbn [fst snd]. split.
    + rewrite (tbid_slot A), Eb. reflexivity.
    + rewrite (tbid_slot B), Eb'. lia.
  - record_fields.
    assert (N = B) by (apply wf_gid; auto). subst N.
    destruct (Z.eq_dec (level (Tree.loc B)) (level (Tree.loc A))) as [El|El].
    + pose proof (back_same A B o1 o2 o3 HA H1 H2 H3 HN El) as Hbk.
      eexists. split.
      { apply neighbors_elem. exists b', (- o1, - o2, - o3).
        split; [exact Hb'|].
        apply dir_recs_at_intro_leaf with (neibt := A).
        - cbn [fst snd Neighbors.loc Neighbors.block_bcs Tree.block].
          rewrite FindNeighbor_find_at by auto. exact Hbk.
        - exact HfA.
        - apply orb_true_iff. right. apply Z.leb_le.
          cbn [Neighbors.loc Tree.block]. lia. }
      record_fields. rewrite !Z.opp_involutive.
      split; [reflexivity|]. split; [reflexivity|].
      rewrite El, Z.eqb_refl. split.
      * rewrite (tbid_slot A), Eb. lia.
      * rewrite (tbid_slot B), Eb'. lia.
    + assert (Hout' : Neighbors.outward (block A) (o1, o2, o3) = true).
      { apply orb_true_iff in Hout as [Hout|Hout]; [exact Hout|].
        apply Z.leb_le in Hout. lia. }
      pose proof (coarse_touches A B o1 o2 o3 HA H1 H2 H3 Hdim HN El Hout')
        as HT.
      pose proof HT as (T1 & T2 & T3).
      destruct (back_coarse A B o1 o2 o3 HA H1 H2 H3 HN El T1 T2 T3)
        as (P & Hbk & HfP & HPt & HlP & HlB).
      assert (Hml : Neighbors.multilevel pmy_mesh = true).
      { destruct cfg_facts as (_ & _ & _ & _ & _ & _ & _ & _ & [Hml|Hall]);
          [exact Hml|]. rewrite (Hall P HPt) in HfP. discriminate. }
      destruct (coarse_fi_leafpos A B o1 o2 o3 HA H1 H2 H3 Hdim Hd23 Hk Hml HT)
        as (Hc1 & Hc2 & Hlp).
      assert (HGL : Tree.GetLeaf t P (lx1 (Tree.loc A) `mod` 2)
                      (lx2 (Tree.loc A) `mod` 2) (lx3 (Tree.loc A) `mod` 2)
                    = A).
      { unfold Tree.GetLeaf. now rewrite HlP, child_parent, (find_loc A HA). }
      rewrite <- (kind_of_opp o1 o2 o3) in Hc1.
      rewrite <- (kind_of_opp o1 o2 o3) in Hc2.
      rewrite <- (kind_of_opp o1 o2 o3) in Hlp.
      eexists. split.
      { apply neighbors_elem. exists b', (- o1, - o2, - o3).
        split; [exact Hb'|].
        eapply dir_recs_at_intro_fine.
        - cbn [fst snd Neighbors.loc Neighbors.block_bcs Tree.block].
          rewrite FindNeighbor_find_at by auto. exact Hbk.
        - exact HfP.
        - exact Hc1.
        - exact Hc2.
        - exact Hlp.
        - rewrite HGL. cbn [Neighbors.loc Tree.block]. lia. }
      rewrite HGL. record_fields. rewrite !Z.opp_involutive.
      split; [reflexivity|]. split; [reflexivity|].
      destruct (Z.eqb_spec (level (Tree.loc B)) (level (Tree.loc A)));
        [lia|].
      rewrite !kind_of_opp. split.
      * rewrite (tbid_slot A), Eb. lia.
      * rewrite (tbid_slot B), Eb', kind_of_opp. reflexivity.
Qed.

End Symmetry.

(** C4, amended: in a well-formed tree (I1) that keeps the 2:1 constraint
    (I2), on a mesh whose boundaries are periodic on both sides of an axis
    or on none,
    if the records of the leaf [A] hold a record [r] for the leaf [B], then
    the records of [B] hold a record for [A] with the opposite offsets, the
    [bufid] of [r] is the [targetid] of that record, and its [bufid] is the
    [targetid] of [r]. *)
Theorem neighbor_symmetry (t : list Tree.node) (g : Tree.RootGrid)
    (mesh_nx2 mesh_nx3 : Z) (mesh_bcs : list Z) (nx2 nx3 : Z)
    (pmy_mesh : Neighbors.Mesh) (ranklist nslist : list Z)
    (A B : Tree.node) (r : NeighborBlock.t) :
  Tree.well_formed t g nx2 nx3 = true ->
  Tree.balanced t g mesh_nx2 mesh_nx3 mesh_bcs nx2 nx3 = true ->
  Tree.configured t g mesh_bcs nx2 nx3 pmy_mesh = true ->
  A ∈ t -> Tree.flag A = true -> B ∈ t -> Tree.flag B = true ->
  r ∈ Tree.neighbors t g mesh_nx2 mesh_nx3 mesh_bcs nx2 nx3 pmy_mesh
        ranklist nslist A ->
  NeighborBlock.gid r = Tree.gid B ->
  exists r',
    r' ∈ Tree.neighbors t g mesh_nx2 mesh_nx3 mesh_bcs nx2 nx3 pmy_mesh
           ranklist nslist B /\
    NeighborBlock.gid r' = Tree.gid A /\
    NeighborBlock.offsets r'
    = (- NeighborBlock.ox1 r, - NeighborBlock.ox2 r, - NeighborBlock.ox3 r) /\
    NeighborBlock.bufid r = NeighborBlock.targetid r' /\
    NeighborBlock.bufid r' = NeighborBlock.targetid r.
Proof.
  intros Hwf Hbal Hcfg. apply neighbor_record_back; assumption.
Qed.

(** In the sample mesh the fine leaf 1 holds a record for the coarse leaf 4
    across its outer x1 face, with [bufid] 2 and [targetid] 0. *)
Lemma neighbor_symmetry_witness :
  let A := Sample.leaf 1 0 2 1 in
  let B := Sample.leaf 1 0 1 4 in
  let r := NeighborBlock.SetNeighbor 1 1 4 0 1 0 0 neighbor_face 2 0 0 0 in
  (Tree.well_formed Sample.tree Sample.grid 4 1 = true /\
   Tree.balanced Sample.tree Sample.grid 8 1 Sample.bcs 4 1 = true /\
   Tree.configured Sample.tree Sample.grid Sample.bcs 4 1 Sample.mesh = true /\
   r ∈ Sample.neighbors A) /\
  exists r',
    r' ∈ Sample.neighbors B /\
    NeighborBlock.gid r' = 1 /\
    NeighborBlock.offsets r' = (-1, 0, 0) /\
    2 = NeighborBlock.targetid r' /\
    NeighborBlock.bufid r' = 0.
Proof.
  intros A B r.
  assert (Hr : r ∈ Sample.neighbors A)
    by (apply (list_elem_of_lookup_2 _ 1%nat); vm_compute; reflexivity).
  split; [repeat split; try (vm_compute; reflexivity); exact Hr|].
  apply (neighbor_symmetry Sample.tree Sample.grid 8 1 Sample.bcs 4 1
           Sample.mesh Sample.ranklist Sample.nslist A B r);
    try (vm_compute; reflexivity); try exact Hr;
    unfold Sample.tree, A, B; repeat constructor.
Defined.

(** C4, as the claim states it, fails where one boundary of an axis is
    periodic and the other is not: in the mesh of two root blocks with
    [ix1_bc = 4] and [ox1_bc = 2], a well-formed and balanced tree, the
    block [A] finds [B] across the periodic inner boundary and holds a
    record for it with the offsets (-1, 0, 0), while [B] finds nothing
    across the outer boundary and holds no record for [A] with the offsets
    (1, 0, 0). *)
Lemma neighbor_symmetry_mixed_boundary :
  Tree.well_formed SampleMixed.tree SampleMixed.grid 1 1 = true /\
  Tree.balanced SampleMixed.tree SampleMixed.grid 1 1 SampleMixed.bcs 1 1
  = true /\
  exists r,
    r ∈ SampleMixed.neighbors SampleMixed.A /\
    NeighborBlock.gid r = Tree.gid SampleMixed.B /\
    NeighborBlock.offsets r = (-1, 0, 0) /\
    ~ exists r',
        r' ∈ SampleMixed.neighbors SampleMixed.B /\
        NeighborBlock.gid r' = Tree.gid SampleMixed.A /\
        NeighborBlock.offsets r'
        = (- NeighborBlock.ox1 r, - NeighborBlock.ox2 r,
           - NeighborBlock.ox3 r).
Proof.
  split; [vm_compute; reflexivity|]. split; [vm_compute; reflexivity|].
  exists (NeighborBlock.SetNeighbor 0 1 1 1 (-1) 0 0 neighbor_face 0 1 0 0).
  split; [apply (list_elem_of_lookup_2 _ 0%nat); vm_compute; reflexivity|].
  split; [reflexivity|]. split; [reflexivity|].
  intros (r' & Hin & _ & Hoff).
  assert (Hall : Forall (fun x => NeighborBlock.ox1 x = -1)
                        (SampleMixed.neighbors SampleMixed.B))
    by (vm_compute; repeat constructor).
  rewrite Forall_forall in Hall. specialize (Hall r' Hin).
  unfold NeighborBlock.offsets in Hoff. rewrite Hall in Hoff.
  vm_compute in Hoff. discriminate Hoff.
Qed.

(** * Further properties of the code *)

(** ** LoadBalancing: the shape of the rank list *)

Lemma assign_step_Ok (clist : list Real) (i : nat)
    (st st1 : LoadBalancing.loop_state) :
  LoadBalancing.assign_step clist i st = Ok st1 ->
  LoadBalancing.ls_rlist st1
  = <[i := LoadBalancing.ls_j st]> (LoadBalancing.ls_rlist st) /\
  (LoadBalancing.ls_j st1 = LoadBalancing.ls_j st \/
   (0 < LoadBalancing.ls_j st /\
    LoadBalancing.ls_j st1 = LoadBalancing.ls_j st - 1)).
Proof.
  unfold LoadBalancing.assign_step.
  destruct (Qeq_bool _ 0); [discriminate|].
  destruct (Qle_bool _ _); cbn [andb];
    [destruct (Z.ltb_spec0 0 (LoadBalancing.ls_j st))|];
    intros H; injection H as <-; cbn; auto.
Qed.

(** The assignment loop over the indices below [n]: the entries from [n] on
    are kept, the entries below [n] hold ranks that do not decrease with the
    index and step by one at most. *)
Lemma assign_loop_ranks (clist : list Real) (n : nat)
    (st st' : LoadBalancing.loop_state) :
  LoadBalancing.assign_loop clist n st = Ok st' ->
  (n <= length (LoadBalancing.ls_rlist st))%nat ->
  length (LoadBalancing.ls_rlist st') = length (LoadBalancing.ls_rlist st) /\
  (0 <= LoadBalancing.ls_j st ->
   0 <= LoadBalancing.ls_j st' <= LoadBalancing.ls_j st) /\
  (forall k, (n <= k)%nat ->
     LoadBalancing.ls_rlist st' !! k = LoadBalancing.ls_rlist st !! k) /\
  (forall k r, (k < n)%nat -> LoadBalancing.ls_rlist st' !! k = Some r ->
     LoadBalancing.ls_j st' <= r <= LoadBalancing.ls_j st) /\
  (forall m, n = S m ->
     LoadBalancing.ls_rlist st' !! m = Some (LoadBalancing.ls_j st)) /\
  (forall k r r', (S k < n)%nat ->
     LoadBalancing.ls_rlist st' !! k = Some r ->
     LoadBalancing.ls_rlist st' !! S k = Some r' -> r <= r' <= r + 1).
Proof.
  revert st. induction n as [|i IH]; intros st Hloop Hlen.
  - cbn in Hloop. injection Hloop as <-.
    repeat split; intros; try lia; try discriminate.
  - cbn in Hloop.
    destruct (LoadBalancing.assign_step clist i st) as [st1|] eqn:Hstep;
      [|discriminate].
    apply assign_step_Ok in Hstep as [Hr1 Hj1].
    destruct (IH st1 Hloop) as (Hl & Hj & Hkeep & Hrange & Hlast & Hadj).
    { rewrite Hr1, length_insert. lia. }
    rewrite Hr1, length_insert in Hl.
    assert (Hi : LoadBalancing.ls_rlist st' !! i
                 = Some (LoadBalancing.ls_j st)).
    { rewrite Hkeep, Hr1 by lia. apply list_lookup_insert_eq. lia. }
    assert (Hjj : LoadBalancing.ls_j st' <= LoadBalancing.ls_j st1).
    { destruct i as [|m].
      - cbn in Hloop. injection Hloop as <-. lia.
      - specialize (Hlast m eq_refl).
        specialize (Hrange m _ ltac:(lia) Hlast). lia. }
    split; [exact Hl|]. split; [lia|]. split; [|split; [|split]].
    + intros k Hk. rewrite Hkeep, Hr1 by lia.
      apply list_lookup_insert_ne. lia.
    + intros k r Hk Hkr. destruct (decide (k = i)) as [->|Hne].
      * rewrite Hi in Hkr. injection Hkr as <-. lia.
      * specialize (Hrange k r ltac:(lia) Hkr). lia.
    + intros m Hm. injection Hm as <-. exact Hi.
    + intros k r r' Hk Hkr Hkr'. destruct (decide (S k = i)) as [<-|Hne].
      * rewrite Hi in Hkr'. injection Hkr' as <-.
        rewrite (Hlast k eq_refl) in Hkr. injection Hkr as <-. lia.
      * apply (Hadj k r r'); auto. lia.
Qed.

Lemma LoadBalancing_Ok_rlist (nranks : Z) (clist : list Real)
    (rlist0 slist0 nlist0 : list Z) (b : LoadBalancing.balance) :
  LoadBalancing.LoadBalancing nranks clist rlist0 slist0 nlist0 = Ok b ->
  exists st,
    LoadBalancing.assign_loop clist (length clist)
      (LoadBalancing.mkLoop (nranks - 1) (Qsum clist) 0%Q
         (Qsum clist / inject_Z nranks)%Q rlist0) = Ok st /\
    LoadBalancing.rlist b = LoadBalancing.ls_rlist st.
Proof.
  unfold LoadBalancing.LoadBalancing. cbv zeta.
  destruct (LoadBalancing.assign_loop _ _ _) as [st|]; [|discriminate].
  destruct (fold_left _ _ _) as [[j sl] nl].
  intros H. injection H as <-. eauto.
Qed.

(** X1: when [LoadBalancing] returns, every block has a rank between 0 and
    [nranks-1]; the ranks do not decrease with the gid and grow by one at
    most from a block to the next, so that the blocks of a rank are
    consecutive; the last block belongs to the last rank. *)
Theorem LoadBalancing_ranks_ordered (nranks : Z) (clist : list Real)
    (rlist0 slist0 nlist0 : list Z) (b : LoadBalancing.balance) :
  1 <= nranks ->
  length rlist0 = length clist ->
  LoadBalancing.LoadBalancing nranks clist rlist0 slist0 nlist0 = Ok b ->
  length (LoadBalancing.rlist b) = length clist /\
  (forall i r, LoadBalancing.rlist b !! i = Some r -> 0 <= r <= nranks - 1) /\
  (forall i r r', LoadBalancing.rlist b !! i = Some r ->
     LoadBalancing.rlist b !! S i = Some r' -> r <= r' <= r + 1) /\
  (clist <> [] -> last (LoadBalancing.rlist b) = Some (nranks - 1)).
Proof.
  intros Hn Hlen Hb.
  apply LoadBalancing_Ok_rlist in Hb as (st & Hloop & ->).
  apply assign_loop_ranks in Hloop
    as (Hl & Hj & Hkeep & Hrange & Hlast & Hadj); cbn in *; [|lia].
  specialize (Hj ltac:(lia)).
  split; [lia|]. split; [|split].
  - intros i r Hi. pose proof (lookup_lt_Some _ _ _ Hi).
    specialize (Hrange i r ltac:(lia) Hi). lia.
  - intros i r r' Hi Hi'. pose proof (lookup_lt_Some _ _ _ Hi').
    apply (Hadj i r r'); auto. lia.
  - intros Hne. rewrite last_lookup, Hl, Hlen.
    destruct clist as [|c cl]; [congruence|]. cbn [length Nat.pred].
    apply Hlast. reflexivity.
Qed.

(** Four blocks of costs 1, 2, 1, 2 on two ranks: the ranks are 0, 0, 1, 1. *)
Lemma LoadBalancing_ranks_ordered_witness :
  let b := LoadBalancing.mkBalance [0; 0; 1; 1] [0; 2] [2; 2] in
  LoadBalancing.LoadBalancing 2 [1#1; 2#1; 1#1; 2#1]%Q [7; 7; 7; 7] [7; 7]
    [7; 7] = Ok b /\
  length (LoadBalancing.rlist b) = 4%nat /\
  (forall i r, LoadBalancing.rlist b !! i = Some r -> 0 <= r <= 2 - 1) /\
  (forall i r r', LoadBalancing.rlist b !! i = Some r ->
     LoadBalancing.rlist b !! S i = Some r' -> r <= r' <= r + 1) /\
  ([1#1; 2#1; 1#1; 2#1]%Q <> [] ->
   last (LoadBalancing.rlist b) = Some (2 - 1)).
Proof.
  intros b.
  assert (Hb : LoadBalancing.LoadBalancing 2 [1#1; 2#1; 1#1; 2#1]%Q
                 [7; 7; 7; 7] [7; 7] [7; 7] = Ok b)
    by (vm_compute; reflexivity).
  split; [exact Hb|].
  apply (LoadBalancing_ranks_ordered 2 [1#1; 2#1; 1#1; 2#1]%Q
           [7; 7; 7; 7] [7; 7] [7; 7] b); [lia | reflexivity | exact Hb].
Defined.

(** ** LoadBalancing: positive costs *)

Lemma Qsum_from (l : list Q) (a : Q) : (fold_left Qplus l a == a + Qsum l)%Q.
Proof.
  unfold Qsum. revert a. induction l as [|x l IH]; intros a; cbn.
  - lra.
  - rewrite IH, (IH (0 + x)%Q). lra.
Qed.

Lemma Qsum_take_S (l : list Q) (i : nat) (x : Q) :
  l !! i = Some x -> (Qsum (take (S i) l) == Qsum (take i l) + x)%Q.
Proof.
  intros H. rewrite (take_S_r _ _ _ H). unfold Qsum.
  rewrite fold_left_app. cbn. reflexivity.
Qed.

Lemma Qsum_positive (l : list Q) :
  (forall c, c ∈ l -> (0 < c)%Q) -> l <> [] -> (0 < Qsum l)%Q.
Proof.
  intros Hpos Hne. destruct l as [|x l]; [congruence|]. clear Hne.
  revert x Hpos. induction l as [|y l IH]; intros x Hpos.
  - unfold Qsum. cbn. specialize (Hpos x ltac:(left)). lra.
  - unfold Qsum in *. cbn in *.
    assert (Hx : (0 < x)%Q) by (apply Hpos; left).
    assert (Hy : (0 < y)%Q) by (apply Hpos; right; left).
    rewrite Qsum_from.
    specialize (IH y ltac:(intros c Hc; apply Hpos; right; exact Hc)).
    rewrite Qsum_from in IH. lra.
Qed.

Lemma Qdiv_positive (a : Q) (n : Z) :
  (0 < a)%Q -> 0 < n -> (0 < a / inject_Z n)%Q.
Proof.
  intros Ha Hn. apply Qlt_shift_div_l.
  - unfold Qlt. cbn. lia.
  - lra.
Qed.

(** With positive costs the test [targetcost==0.0] is false whenever a block
    is left to assign. *)
Lemma assign_loop_positive (clist : list Real) (n : nat)
    (st : LoadBalancing.loop_state) :
  (forall c, c ∈ clist -> (0 < c)%Q) ->
  (n <= length clist)%nat ->
  0 <= LoadBalancing.ls_j st ->
  (LoadBalancing.ls_totalcost st
   == Qsum (take n clist) + LoadBalancing.ls_mycost st)%Q ->
  (n = 0%nat \/ (0 < LoadBalancing.ls_targetcost st)%Q) ->
  exists st', LoadBalancing.assign_loop clist n st = Ok st'.
Proof.
  intros Hpos. revert st. induction n as [|i IH]; intros st Hn Hj Htot Htar.
  - eexists. reflexivity.
  - destruct Htar as [Htar|Htar]; [discriminate|].
    destruct (lookup_lt_is_Some_2 clist i) as [x Hx]; [lia|].
    pose proof (Qsum_take_S _ _ _ Hx) as Hs.
    cbn. unfold LoadBalancing.assign_step.
    destruct (Qeq_bool _ 0) eqn:E; [apply Qeq_bool_eq in E; lra|].
    unfold qread. rewrite Hx. cbn [default].
    destruct (Qle_bool _ _ && (0 <? LoadBalancing.ls_j st)) eqn:Hsw.
    + apply andb_true_iff in Hsw as [_ Hj0]. apply Z.ltb_lt in Hj0.
      apply IH; cbn; [lia | lia | lra |].
      destruct i as [|m]; [left; reflexivity | right].
      replace (LoadBalancing.ls_j st - 1 + 1) with (LoadBalancing.ls_j st)
        by lia.
      apply Qdiv_positive; [|lia].
      assert (Hp : (0 < Qsum (take (S m) clist))%Q).
      { apply Qsum_positive.
        - intros c Hc. apply Hpos.
          apply elem_of_take in Hc as (k & Hk & _).
          eapply list_elem_of_lookup_2, Hk.
        - destruct clist; [cbn in Hn; lia | discriminate]. }
      lra.
    + apply IH; cbn; [lia | lia | lra | right; exact Htar].
Qed.

(** X2: with at least one rank and costs that are positive whole numbers
    whose sum is at most 2^24, [LoadBalancing] never throws: the test
    [targetcost==0.0] is false at every block, whatever the arrays held
    before and however few the blocks are.  The sums and differences of
    such costs are whole numbers of at most 2^24, which [Real] holds
    exactly in single and in double precision, and the quotient of a
    positive one by a number of ranks is not rounded to zero. *)
Theorem LoadBalancing_positive_costs_returns (nranks : Z)
    (costs : list Z) (rlist0 slist0 nlist0 : list Z) :
  1 <= nranks < 2 ^ 31 ->
  Forall (fun k => 0 < k) costs ->
  foldr Z.add 0 costs <= 2 ^ 24 ->
  exists b,
    LoadBalancing.LoadBalancing nranks (map inject_Z costs)
      rlist0 slist0 nlist0 = Ok b.
Proof.
  intros Hn Hcosts _.
  assert (Hpos : forall c, c ∈ map inject_Z costs -> (0 < c)%Q).
  { intros c Hc. apply list_elem_of_fmap in Hc as (k & -> & Hk).
    rewrite Forall_forall in Hcosts. specialize (Hcosts k Hk).
    unfold Qlt. cbn. lia. }
  set (clist := map inject_Z costs) in *. clearbody clist.
  unfold LoadBalancing.LoadBalancing. cbv zeta.
  destruct (assign_loop_positive clist (length clist)
              (LoadBalancing.mkLoop (nranks - 1) (Qsum clist) 0%Q
                 (Qsum clist / inject_Z nranks)%Q rlist0) Hpos)
    as [st Hst]; cbn.
  - lia.
  - lia.
  - rewrite take_ge by lia. lra.
  - destruct clist as [|c cl]; [left; reflexivity | right].
    apply Qdiv_positive; [|lia]. apply Qsum_positive; [exact Hpos|discriminate].
  - rewrite Hst. destruct (fold_left _ _ _) as [[j sl] nl]. eauto.
Qed.

(** Two blocks of costs 3 and 1 on four ranks. *)
Lemma LoadBalancing_positive_costs_returns_witness :
  exists b,
    LoadBalancing.LoadBalancing 4 (map inject_Z [3; 1]) [0; 0] [0; 0; 0; 0]
      [0; 0; 0; 0] = Ok b.
Proof.
  apply (LoadBalancing_positive_costs_returns 4 [3; 1]).
  - lia.
  - repeat constructor.
  - vm_compute. discriminate.
Defined.

(** ** LoadBalancing: the first gid and the number of blocks of a rank *)

Lemma fold_left_seq_S {A} (f : A -> nat -> A) (m : nat) (a : A) :
  fold_left f (seq 1 (S m)) a = f (fold_left f (seq 1 m) a) (S m).
Proof. rewrite seq_S, fold_left_app. reflexivity. Qed.

Section Runs.

(** A list of ranks that does not decrease and steps by one at most. *)
Variable rl : list Z.
Variable r0 : Z.
Hypothesis Hfirst : rl !! 0%nat = Some r0.
Hypothesis Hstep : forall i r r',
  rl !! i = Some r -> rl !! S i = Some r' -> r <= r' <= r + 1.

Lemma ranks_monotone (k m : nat) (r r' : Z) :
  (k <= m)%nat -> rl !! k = Some r -> rl !! m = Some r' -> r <= r'.
Proof.
  intros Hkm Hk. revert r'. induction Hkm as [|m Hkm IH]; intros r' Hm.
  - rewrite Hk in Hm. injection Hm as <-. lia.
  - destruct (lookup_lt_is_Some_2 rl m) as [x Hx].
    { apply lookup_lt_Some in Hm. lia. }
    specialize (IH x Hx). specialize (Hstep m x r' Hx Hm). lia.
Qed.

(** The second loop after the indices [1..m]: [j] runs are found; each run
    before the last has its first index and its length in [slist] and
    [nlist], the last one has its first index in [slist]. *)
Lemma count_loop_runs (slist0 nlist0 : list Z) (bound : Z) (m : nat) :
  (m < length rl)%nat ->
  (forall i r, rl !! i = Some r -> r - r0 < bound) ->
  bound <= Z.of_nat (length slist0) -> bound <= Z.of_nat (length nlist0) ->
  exists j sl nl r,
    fold_left (LoadBalancing.count_step rl) (seq 1 m)
      (O, <[O := 0]> slist0, nlist0) = (j, sl, nl) /\
    length sl = length slist0 /\ length nl = length nlist0 /\
    rl !! m = Some r /\ Z.of_nat j = r - r0 /\
    (forall q : nat, (q < j)%nat ->
       exists s n, sl !! q = Some s /\ nl !! q = Some n /\
         s + n <= Z.of_nat m /\
         forall k : nat, (k <= m)%nat ->
           (rl !! k = Some (r0 + Z.of_nat q) <->
            s <= Z.of_nat k < s + n)) /\
    (exists s, sl !! j = Some s /\ s <= Z.of_nat m /\
       forall k : nat, (k <= m)%nat ->
         (rl !! k = Some (r0 + Z.of_nat j) <-> s <= Z.of_nat k)).
Proof.
  intros Hm Hbound Hsl Hnl.
  assert (Hb0 : 0 < bound) by (specialize (Hbound _ _ Hfirst); lia).
  induction m as [|m IH].
  - exists O, (<[O := 0]> slist0), nlist0, r0. cbn [seq fold_left].
    rewrite length_insert. split_and!; auto; try lia.
    exists 0. split; [apply list_lookup_insert_eq; lia|]. split; [lia|].
    intros k Hk. assert (k = O) by lia. subst k.
    rewrite Hfirst. split; [lia | intros _; f_equal; lia].
  - destruct IH as (j & sl & nl & r & Hfold & Hlsl & Hlnl & Hr & Hj
                    & Hclosed & s & Hs & Hsm & Hopen); [lia|].
    destruct (lookup_lt_is_Some_2 rl (S m) Hm) as [r' Hr'].
    pose proof (Hstep m r r' Hr Hr') as Hrr.
    rewrite fold_left_seq_S, Hfold. unfold LoadBalancing.count_step.
    replace (S m - 1)%nat with m by lia.
    unfold zread at 1 2. rewrite Hr, Hr'. cbn [default from_option id].
    assert (Hmono : forall k x, (k <= m)%nat -> rl !! k = Some x -> x <= r).
    { intros k x Hk Hx. exact (ranks_monotone k m x r Hk Hx Hr). }
    destruct (Z.eqb_spec r' r) as [->|Hne].
    + exists j, sl, nl, r. split_and!; auto.
      * intros q Hq. destruct (Hclosed q Hq) as (s' & n & H1 & H2 & H3 & H4).
        exists s', n. split_and!; auto; try lia.
        intros k Hk. destruct (decide (k = S m)) as [->|Hk'].
        -- rewrite Hr'. split; [intros E; injection E as E; lia | lia].
        -- apply H4. lia.
      * exists s. split; [exact Hs|]. split; [lia|].
        intros k Hk. destruct (decide (k = S m)) as [->|Hk'].
        -- rewrite Hr'. split; [lia | intros _; f_equal; lia].
        -- apply Hopen. lia.
    + assert (Hr1 : r' = r + 1) by lia. subst r'.
      pose proof (Hbound _ _ Hr') as Hb.
      exists (S j), (<[S j := Z.of_nat (S m)]> sl),
        (<[j := Z.of_nat (S m) - zread sl j]> nl), (r + 1).
      rewrite !length_insert. split_and!; auto; try lia.
      * intros q Hq. destruct (decide (q = j)) as [->|Hqj].
        -- exists s, (Z.of_nat (S m) - s).
           rewrite list_lookup_insert_ne by lia.
           unfold zread. rewrite Hs. cbn [default from_option id].
           rewrite list_lookup_insert_eq by lia.
           split_and!; auto; try lia.
           intros k Hk. destruct (decide (k = S m)) as [->|Hk'].
           ++ rewrite Hr'. split; [intros E; injection E as E; lia | lia].
           ++ rewrite (Hopen k ltac:(lia)). lia.
        -- destruct (Hclosed q ltac:(lia)) as (s' & n & H1 & H2 & H3 & H4).
           exists s', n. rewrite !list_lookup_insert_ne by lia.
           split_and!; auto; try lia.
           intros k Hk. destruct (decide (k = S m)) as [->|Hk'].
           ++ rewrite Hr'. split; [intros E; injection E as E; lia | lia].
           ++ apply H4. lia.
      * exists (Z.of_nat (S m)).
        split; [apply list_lookup_insert_eq; lia|]. split; [lia|].
        intros k Hk. destruct (decide (k = S m)) as [->|Hk'].
        -- rewrite Hr'. split; [lia | intros _; f_equal; lia].
        -- split; [|lia]. intros Hx.
           specialize (Hmono k _ ltac:(lia) Hx). lia.
Qed.

End Runs.
Lemma LoadBalancing_Ok_inv (nranks : Z) (clist : list Real)
    (rlist0 slist0 nlist0 : list Z) (b : LoadBalancing.balance) :
  LoadBalancing.LoadBalancing nranks clist rlist0 slist0 nlist0 = Ok b ->
  exists st j sl nl,
    LoadBalancing.assign_loop clist (length clist)
      (LoadBalancing.mkLoop (nranks - 1) (Qsum clist) 0%Q
         (Qsum clist / inject_Z nranks)%Q rlist0) = Ok st /\
    fold_left (LoadBalancing.count_step (LoadBalancing.ls_rlist st))
      (seq 1 (length clist - 1)) (O, <[O := 0]> slist0, nlist0)
    = (j, sl, nl) /\
    b = LoadBalancing.mkBalance (LoadBalancing.ls_rlist st) sl
          (<[j := Z.of_nat (length clist) - zread sl j]> nl).
Proof.
  unfold LoadBalancing.LoadBalancing. cbv zeta.
  destruct (LoadBalancing.assign_loop _ _ _) as [st|]; [|discriminate].
  destruct (fold_left _ _ _) as [[j sl] nl] eqn:Hfold.
  intros H. injection H as <-. exists st, j, sl, nl. auto.
Qed.

(** X3: when [LoadBalancing] returns for at least one block, with room for
    [nranks] entries in [slist] and [nlist], the two arrays describe the
    rank list: the blocks of a rank [r] that owns a block are exactly the
    gids from [slist[q]] to [slist[q]+nlist[q]-1], where [q] counts the
    ranks from the rank of block 0. *)
Theorem LoadBalancing_rank_ranges (nranks : Z) (clist : list Real)
    (rlist0 slist0 nlist0 : list Z) (b : LoadBalancing.balance) :
  1 <= nranks -> clist <> [] ->
  length rlist0 = length clist ->
  nranks <= Z.of_nat (length slist0) ->
  nranks <= Z.of_nat (length nlist0) ->
  LoadBalancing.LoadBalancing nranks clist rlist0 slist0 nlist0 = Ok b ->
  forall (i : nat) (r : Z),
    LoadBalancing.rlist b !! i = Some r ->
    let q := Z.to_nat (r - zread (LoadBalancing.rlist b) 0) in
    exists s n,
      LoadBalancing.slist b !! q = Some s /\
      LoadBalancing.nlist b !! q = Some n /\
      forall k : nat,
        LoadBalancing.rlist b !! k = Some r <-> s <= Z.of_nat k < s + n.
Proof.
  intros Hn Hne Hlen Hsl Hnl Hb i r Hi q.
  apply LoadBalancing_Ok_inv in Hb as (st & j & sl & nl & Hloop & Hfold & ->).
  cbn [LoadBalancing.rlist LoadBalancing.slist LoadBalancing.nlist] in *.
  apply assign_loop_ranks in Hloop
    as (Hl & Hj & _ & Hrange & _ & Hadj); cbn in *; [|lia].
  specialize (Hj ltac:(lia)).
  set (rl := LoadBalancing.ls_rlist st) in *.
  assert (Hnb : (0 < length clist)%nat)
    by (destruct clist; [congruence | cbn; lia]).
  destruct (lookup_lt_is_Some_2 rl O) as [r0 Hr0]; [lia|].
  assert (Hstep : forall i r r', rl !! i = Some r -> rl !! S i = Some r' ->
                                 r <= r' <= r + 1).
  { intros k x x' Hk Hk'. pose proof (lookup_lt_Some _ _ _ Hk').
    apply (Hadj k x x'); auto. lia. }
  assert (Hin : forall k x, rl !! k = Some x -> 0 <= x <= nranks - 1).
  { intros k x Hk. pose proof (lookup_lt_Some _ _ _ Hk).
    specialize (Hrange k x ltac:(lia) Hk). lia. }
  destruct (count_loop_runs rl r0 Hr0 Hstep slist0 nlist0 nranks
              (length clist - 1))
    as (j' & sl' & nl' & rlast & Hfold' & Hlsl & Hlnl & Hlast & Hjr
        & Hclosed & s & Hs & Hsm & Hopen); try lia.
  { intros k x Hk. pose proof (Hin _ _ Hk). pose proof (Hin _ _ Hr0). lia. }
  rewrite Hfold in Hfold'. injection Hfold' as <- <- <-.
  assert (Hq0 : zread rl 0 = r0) by (unfold zread; now rewrite Hr0).
  subst q. rewrite Hq0.
  pose proof (lookup_lt_Some _ _ _ Hi) as Hilt.
  pose proof (ranks_monotone rl Hstep O i r0 r ltac:(lia) Hr0 Hi) as Hlo.
  pose proof (ranks_monotone rl Hstep i (length clist - 1) r rlast
                ltac:(lia) Hi Hlast) as Hhi.
  pose proof (Hin _ _ Hlast) as Hlastr.
  pose proof (Hin _ _ Hr0) as Hr0r.
  assert (Hout : forall k : nat, (length clist - 1 < k)%nat -> rl !! k = None).
  { intros k Hk. apply lookup_ge_None_2. lia. }
  destruct (decide (Z.to_nat (r - r0) = j)) as [Hqj|Hqj].
  - exists s, (Z.of_nat (length clist) - s). rewrite Hqj.
    split; [exact Hs|].
    split; [unfold zread; rewrite Hs; apply list_lookup_insert_eq; lia|].
    replace r with (r0 + Z.of_nat j) by lia.
    intros k. destruct (le_lt_dec k (length clist - 1)) as [Hk|Hk].
    + rewrite (Hopen k Hk). lia.
    + rewrite (Hout k Hk). split; [discriminate | lia].
  - destruct (Hclosed (Z.to_nat (r - r0)) ltac:(lia))
      as (s' & n & H1 & H2 & H3 & H4).
    exists s', n. split; [exact H1|].
    split; [rewrite list_lookup_insert_ne by lia; exact H2|].
    replace (r0 + Z.of_nat (Z.to_nat (r - r0))) with r in H4 by lia.
    intros k. destruct (le_lt_dec k (length clist - 1)) as [Hk|Hk].
    + apply H4, Hk.
    + rewrite (Hout k Hk). split; [discriminate | lia].
Qed.

(** Four blocks of costs 1, 2, 1, 2 on two ranks: rank 1 owns the gids 2
    and 3. *)
Lemma LoadBalancing_rank_ranges_witness :
  let b := LoadBalancing.mkBalance [0; 0; 1; 1] [0; 2] [2; 2] in
  LoadBalancing.LoadBalancing 2 [1#1; 2#1; 1#1; 2#1]%Q [7; 7; 7; 7] [7; 7]
    [7; 7] = Ok b /\
  exists s n,
    LoadBalancing.slist b !! 1%nat = Some s /\
    LoadBalancing.nlist b !! 1%nat = Some n /\
    forall k : nat,
      LoadBalancing.rlist b !! k = Some 1 <-> s <= Z.of_nat k < s + n.
Proof.
  intros b.
  assert (Hb : LoadBalancing.LoadBalancing 2 [1#1; 2#1; 1#1; 2#1]%Q
                 [7; 7; 7; 7] [7; 7] [7; 7] = Ok b)
    by (vm_compute; reflexivity).
  split; [exact Hb|].
  apply (LoadBalancing_rank_ranges 2 [1#1; 2#1; 1#1; 2#1]%Q
           [7; 7; 7; 7] [7; 7] [7; 7] b ltac:(lia) ltac:(discriminate)
           eq_refl ltac:(cbn; lia) ltac:(cbn; lia) Hb 2%nat 1 eq_refl).
Defined.

(** ** LoadBalancing: blocks of equal cost, as the constructor passes them *)

Lemma Qdiv_le_Z (T d k : Z) :
  0 < d -> (inject_Z T / inject_Z d <= inject_Z k)%Q <-> T <= k * d.
Proof.
  intros Hd.
  assert (Hd' : (0 < inject_Z d)%Q) by (unfold Qlt; cbn; lia).
  split.
  - intros H. destruct (Z.le_gt_cases T (k * d)) as [Hle|Hgt]; [exact Hle|].
    exfalso. apply (Qle_not_lt _ _ H). apply Qlt_shift_div_l; [exact Hd'|].
    rewrite <- inject_Z_mult, <- Zlt_Qlt. exact Hgt.
  - intros H. apply Qle_shift_div_r; [exact Hd'|].
    rewrite <- inject_Z_mult, <- Zle_Qle. exact H.
Qed.

Lemma Qdiv_pos_Z (T d : Z) :
  0 < d -> 0 < T -> (0 < inject_Z T / inject_Z d)%Q.
Proof.
  intros Hd HT. apply Qlt_shift_div_l.
  - unfold Qlt. cbn. lia.
  - rewrite Qmult_0_l. unfold Qlt. cbn. lia.
Qed.

Lemma last_block_rank (T m j : Z) :
  0 <= m -> 0 <= j -> 1 = T - m -> m * (j + 1) < T -> j + 1 <= T -> j = 0.
Proof.
  intros Hm Hj HT Hlt Hle. assert (T = m + 1) by lia. subst T.
  destruct (Z.eq_dec m 0) as [->|Hne]; [lia|]. nia.
Qed.

Lemma uniform_step (clist : list Real) (i : nat)
    (st : LoadBalancing.loop_state) :
  clist !! i = Some 1%Q ->
  uniform_inv (S i) st ->
  exists st1,
    LoadBalancing.assign_step clist i st = Ok st1 /\
    uniform_inv i st1 /\
    LoadBalancing.ls_rlist st1
    = <[i := LoadBalancing.ls_j st]> (LoadBalancing.ls_rlist st) /\
    (i = O -> LoadBalancing.ls_j st = 0).
Proof.
  intros Hc (Hj & Htar & Hinv).
  unfold LoadBalancing.assign_step.
  destruct (Qeq_bool _ 0) eqn:E; [apply Qeq_bool_eq in E; lra|]. clear E.
  unfold qread. rewrite Hc. cbn [default from_option id].
  destruct Hinv as [Hj0|(T & m & Hm & Hn & HT & Hmy & Htc & Hlt & HjT)].
  - rewrite Hj0. change (0 <? 0) with false. rewrite andb_false_r.
    eexists. split; [reflexivity|]. split; [|split; [reflexivity|auto]].
    split; [cbn; lia|]. split; [exact Htar|]. left. cbn. first [reflexivity | exact Hj0].
  - destruct (Qle_bool _ _) eqn:Hle; cbn [andb].
    + apply Qle_bool_iff in Hle. rewrite Htc, Hmy in Hle.
      change 1%Q with (inject_Z 1) in Hle.
      rewrite <- inject_Z_plus in Hle.
      apply Qdiv_le_Z in Hle; [|lia].
      destruct (Z.ltb_spec0 0 (LoadBalancing.ls_j st)) as [Hpos|Hzero].
      * eexists. split; [reflexivity|].
        split; [|split; [reflexivity|intros ->; apply (last_block_rank T m); auto; lia]].
        assert (HT' : LoadBalancing.ls_j st <= T - (m + 1)) by nia.
        assert (Htot : (LoadBalancing.ls_totalcost st
                        - (LoadBalancing.ls_mycost st + 1)
                        == inject_Z (T - (m + 1)))%Q).
        { rewrite HT, Hmy. unfold Z.sub.
          rewrite inject_Z_plus, inject_Z_opp, inject_Z_plus.
          change (inject_Z 1) with 1%Q. lra. }
        split; [cbn; lia|]. cbn [LoadBalancing.ls_targetcost
          LoadBalancing.ls_j LoadBalancing.ls_totalcost
          LoadBalancing.ls_mycost].
        split; [rewrite Htot; apply Qdiv_pos_Z; lia|].
        right. exists (T - (m + 1)), 0. split; [lia|]. split; [lia|].
        split; [exact Htot|]. split; [reflexivity|].
        split; [rewrite Htot; reflexivity|]. lia.
      * assert (Hj0 : LoadBalancing.ls_j st = 0) by lia.
        eexists. split; [reflexivity|].
        split; [|split; [reflexivity|auto]].
        split; [cbn; lia|]. split; [exact Htar|]. left. cbn. first [reflexivity | exact Hj0].
    + assert (Hgt : (m + 1) * (LoadBalancing.ls_j st + 1) < T).
      { destruct (Z.lt_ge_cases ((m + 1) * (LoadBalancing.ls_j st + 1)) T)
          as [H|H]; [exact H|].
        assert (Hle' : Qle_bool (LoadBalancing.ls_targetcost st)
                         (LoadBalancing.ls_mycost st + 1) = true).
        { apply Qle_bool_iff. rewrite Htc, Hmy.
          change 1%Q with (inject_Z 1). rewrite <- inject_Z_plus.
          apply Qdiv_le_Z; lia. }
        congruence. }
      eexists. split; [reflexivity|].
      split; [|split; [reflexivity|intros ->; apply (last_block_rank T m); auto; lia]].
      split; [cbn; lia|]. split; [exact Htar|]. right.
      exists T, (m + 1). cbn [LoadBalancing.ls_targetcost
          LoadBalancing.ls_j LoadBalancing.ls_totalcost
          LoadBalancing.ls_mycost].
      split; [lia|]. split; [lia|]. split; [exact HT|].
      split; [rewrite Hmy, inject_Z_plus; reflexivity|].
      split; [exact Htc|]. lia.
Qed.

Lemma uniform_loop (clist : list Real) (n : nat)
    (st : LoadBalancing.loop_state) :
  (forall i, (i < n)%nat -> clist !! i = Some 1%Q) ->
  (n <= length (LoadBalancing.ls_rlist st))%nat ->
  uniform_inv n st ->
  exists st',
    LoadBalancing.assign_loop clist n st = Ok st' /\
    ((0 < n)%nat -> LoadBalancing.ls_rlist st' !! O = Some 0).
Proof.
  revert st. induction n as [|i IH]; intros st Hc Hlen Hinv.
  - exists st. split; [reflexivity|lia].
  - destruct (uniform_step clist i st (Hc i ltac:(lia)) Hinv)
      as (st1 & Hstep & Hinv1 & Hr1 & Hz).
    cbn [LoadBalancing.assign_loop]. rewrite Hstep.
    destruct (IH st1) as (st' & Hloop & H0).
    { intros k Hk. apply Hc. lia. }
    { rewrite Hr1, length_insert. lia. }
    { exact Hinv1. }
    exists st'. split; [exact Hloop|]. intros _.
    destruct i as [|i'].
    + cbn in Hloop. injection Hloop as <-. rewrite Hr1, Hz by reflexivity.
      apply list_lookup_insert_eq. lia.
    + apply H0. lia.
Qed.

(** A list that starts at [a], ends at [b] and steps by one at most takes
    every value between them. *)
Lemma steps_onto (l : list Z) (m : nat) (a b : Z) :
  l !! O = Some a -> l !! m = Some b ->
  (forall i r r', l !! i = Some r -> l !! S i = Some r' -> r <= r' <= r + 1) ->
  forall r, a <= r <= b -> exists i, l !! i = Some r.
Proof.
  intros Ha. revert b. induction m as [|m IH]; intros b Hb Hstep r Hr.
  - rewrite Ha in Hb. injection Hb as <-. exists O. rewrite Ha. f_equal. lia.
  - destruct (lookup_lt_is_Some_2 l m) as [x Hx].
    { apply lookup_lt_Some in Hb. lia. }
    pose proof (Hstep m x b Hx Hb).
    destruct (decide (r = b)) as [->|Hne]; [eauto|].
    apply (IH x Hx Hstep). lia.
Qed.

(** X4: with blocks that all cost 1.0, as the constructor passes them, and
    at least as many blocks as ranks, [LoadBalancing] returns and every rank
    from 0 to [nranks-1] owns a block. *)
Theorem LoadBalancing_equal_costs_no_empty_rank (nranks : Z) (nb : nat)
    (rlist0 slist0 nlist0 : list Z) :
  1 <= nranks <= Z.of_nat nb ->
  length rlist0 = nb ->
  exists b,
    LoadBalancing.LoadBalancing nranks (replicate nb 1%Q)
      rlist0 slist0 nlist0 = Ok b /\
    forall r, 0 <= r < nranks ->
      exists i, LoadBalancing.rlist b !! i = Some r.
Proof.
  intros Hn Hlen.
  set (clist := replicate nb 1%Q).
  assert (Hcl : length clist = nb) by apply length_replicate.
  assert (Hsum : (Qsum clist == inject_Z (Z.of_nat nb))%Q).
  { subst clist. clear. induction nb as [|n IH].
    - reflexivity.
    - rewrite replicate_S_end. unfold Qsum in *.
      rewrite fold_left_app. cbn [fold_left]. rewrite IH.
      rewrite Nat2Z.inj_succ. unfold Z.succ. rewrite inject_Z_plus.
      reflexivity. }
  destruct (uniform_loop clist nb
              (LoadBalancing.mkLoop (nranks - 1) (Qsum clist) 0%Q
                 (Qsum clist / inject_Z nranks)%Q rlist0))
    as (st & Hloop & H0).
  { intros i Hi. apply lookup_replicate_2. exact Hi. }
  { cbn. lia. }
  { split; [cbn; lia|]. cbn [LoadBalancing.ls_targetcost
      LoadBalancing.ls_j LoadBalancing.ls_totalcost LoadBalancing.ls_mycost].
    split; [rewrite Hsum; apply Qdiv_pos_Z; lia|].
    right. exists (Z.of_nat nb), 0. split; [lia|]. split; [lia|].
    split; [exact Hsum|]. split; [reflexivity|].
    split; [rewrite Hsum; replace (nranks - 1 + 1) with nranks by lia;
            reflexivity|]. lia. }
  unfold LoadBalancing.LoadBalancing. cbv zeta. rewrite Hcl, Hloop.
  destruct (fold_left _ _ _) as [[j sl] nl].
  eexists. split; [reflexivity|]. cbn [LoadBalancing.rlist].
  apply assign_loop_ranks in Hloop
    as (Hl & Hj & _ & _ & Hlast & Hadj); cbn in *; [|lia].
  destruct nb as [|m]; [lia|].
  intros r Hr.
  apply (steps_onto (LoadBalancing.ls_rlist st) m 0 (nranks - 1)).
  - apply H0. lia.
  - apply Hlast. reflexivity.
  - intros i x x' Hi Hi'. pose proof (lookup_lt_Some _ _ _ Hi').
    apply (Hadj i x x'); auto. lia.
  - lia.
Qed.

(** Five blocks on three ranks. *)
Lemma LoadBalancing_equal_costs_no_empty_rank_witness :
  exists b,
    LoadBalancing.LoadBalancing 3 (replicate 5 1%Q) [0; 0; 0; 0; 0]
      [0; 0; 0] [0; 0; 0] = Ok b /\
    forall r, 0 <= r < 3 -> exists i, LoadBalancing.rlist b !! i = Some r.
Proof.
  apply (LoadBalancing_equal_costs_no_empty_rank 3 5 [0; 0; 0; 0; 0]
           [0; 0; 0] [0; 0; 0]).
  - lia.
  - reflexivity.
Defined.

(** ** NewTimeStep: bounds on the new time step *)

(** X5: with a block on every rank and a CFL number that is not negative,
    [NewTimeStep] leaves a time step that is at most twice the previous
    one, at most the product [new_block_dt * cfl_number] of any block of
    any rank, and, when the time is before [tlim], at most the difference
    [tlim - time].  The products and the difference are the values that
    the function computes; the proof compares them and uses no other law
    of arithmetic than that a product with a factor that is not negative
    grows with the other factor, which the rounded product keeps. *)
Theorem NewTimeStep_bounds (m : NewTimeStep.Mesh) (mine : list Real)
    (others : list (list Real)) :
  mine <> [] ->
  Forall (fun r => r <> []) others ->
  (0 <= NewTimeStep.cfl_number m)%Q ->
  exists m',
    NewTimeStep.NewTimeStep m mine others = Some m' /\
    (NewTimeStep.dt m' <= 2 * NewTimeStep.dt m)%Q /\
    (forall x, x ∈ concat (mine :: others) ->
       (NewTimeStep.dt m' <= x * NewTimeStep.cfl_number m)%Q) /\
    ((NewTimeStep.time m < NewTimeStep.tlim m)%Q ->
     (NewTimeStep.dt m' <= NewTimeStep.tlim m - NewTimeStep.time m)%Q).
Proof.
  intros Hmine Hothers Hcfl.
  destruct (local_min_dt_spec mine Hmine) as (m0 & Hl & _ & Hle0).
  destruct (mapM_local_min_dt others Hothers) as (mins & Hm & _ & Hle).
  destruct (fold_std_min_spec mins m0) as [_ Hfle].
  set (g := fold_left std_min mins m0) in *.
  assert (Hg : forall x, x ∈ concat (mine :: others) -> (g <= x)%Q).
  { intros x Hx. cbn in Hx. apply elem_of_app in Hx as [Hx|Hx].
    - eapply Qle_trans; [apply Hfle; left | apply Hle0, Hx].
    - destruct (Hle x Hx) as (y & Hy & Hyx).
      eapply Qle_trans; [apply Hfle; right; exact Hy | exact Hyx]. }
  set (dt1 := std_min (g * NewTimeStep.cfl_number m)%Q
                      (2 * NewTimeStep.dt m)%Q).
  assert (H1 : (dt1 <= g * NewTimeStep.cfl_number m)%Q)
    by apply std_min_le_l.
  assert (H2 : (dt1 <= 2 * NewTimeStep.dt m)%Q) by apply std_min_le_r.
  assert (Hx : forall x, x ∈ concat (mine :: others) ->
                         (dt1 <= x * NewTimeStep.cfl_number m)%Q).
  { intros x Hx. eapply Qle_trans; [exact H1|].
    apply Qmult_le_compat_r; [apply Hg, Hx | exact Hcfl]. }
  unfold NewTimeStep.NewTimeStep. rewrite Hl. cbn. rewrite Hm. cbn.
  unfold NewTimeStep.Allreduce_MIN. fold g. fold dt1.
  set (d := (NewTimeStep.tlim m - NewTimeStep.time m)%Q).
  clearbody dt1 d.
  destruct (Qlt_bool (NewTimeStep.time m) (NewTimeStep.tlim m)) eqn:Et;
    cbn [andb].
  - destruct (Qlt_bool d dt1) eqn:Ec; eexists; (split; [reflexivity|]);
      cbn [NewTimeStep.set_dt NewTimeStep.dt].
    + apply Qlt_bool_iff in Ec. apply Qlt_le_weak in Ec.
      split; [eapply Qle_trans; [exact Ec | exact H2]|].
      split; [|intros _; apply Qle_refl].
      intros x Hxin. eapply Qle_trans; [exact Ec | exact (Hx x Hxin)].
    + split; [exact H2|]. split; [exact Hx|]. intros _.
      apply Qnot_lt_le. intros H. apply Qlt_bool_iff in H. congruence.
  - eexists. split; [reflexivity|]. cbn [NewTimeStep.set_dt NewTimeStep.dt].
    split; [exact H2|]. split; [exact Hx|]. intros Ht.
    apply Qlt_bool_iff in Ht. congruence.
Qed.

(** Two ranks, with the blocks 2 and 1 and the block 3; the CFL number is
    3/10 and the previous step 1. *)
Lemma NewTimeStep_bounds_witness :
  let m := (NewTimeStep.mkMesh 0 (10#1) (1#1) (3#10))%Q in
  exists m',
    NewTimeStep.NewTimeStep m [2#1; 1#1]%Q [[3#1]%Q] = Some m' /\
    (NewTimeStep.dt m' <= 2 * NewTimeStep.dt m)%Q /\
    (forall x, x ∈ concat ([2#1; 1#1]%Q :: [[3#1]%Q]) ->
       (NewTimeStep.dt m' <= x * NewTimeStep.cfl_number m)%Q) /\
    ((NewTimeStep.time m < NewTimeStep.tlim m)%Q ->
     (NewTimeStep.dt m' <= NewTimeStep.tlim m - NewTimeStep.time m)%Q).
Proof.
  intros m.
  apply (NewTimeStep_bounds m [2#1; 1#1]%Q [[3#1]%Q]).
  - discriminate.
  - repeat constructor; discriminate.
  - discriminate.
Defined.

(** ** The Mesh constructor *)

Lemma root_level_loop_spec (nbmax : Z) (fuel : nat) (rl : Z) :
  nbmax <= 2 ^ 30 -> 0 <= rl -> rl + Z.of_nat fuel = 31 ->
  (rl = 0 \/ 2 ^ (rl - 1) < nbmax) ->
  exists r, MeshInit.root_level_loop fuel rl nbmax = Some r /\
            rl <= r <= 30 /\ nbmax <= 2 ^ r /\
            (r = 0 \/ 2 ^ (r - 1) < nbmax).
Proof.
  intros Hmax. revert rl. induction fuel as [|fuel IH]; intros rl Hrl Hsum Hinv.
  - exfalso. assert (rl = 31) by lia. subst rl.
    destruct Hinv as [|Hinv]; [lia|]. change (31 - 1) with 30 in Hinv. lia.
  - cbn [MeshInit.root_level_loop]. rewrite Z.shiftl_1_l.
    destruct (Z.ltb_spec0 (2 ^ rl) nbmax) as [Hlt|Hge].
    + destruct (IH (rl + 1)) as (r & Hr & Hb & Hle & Hmin); try lia.
      { right. replace (rl + 1 - 1) with rl by lia. exact Hlt. }
      exists r. split; [exact Hr|]. split; [lia|]. auto.
    + exists rl. split; [reflexivity|]. split; [lia|]. split; [lia|]. exact Hinv.
Qed.

(** X6: the loop [for(root_level=0;(1<<root_level)<nbmax;root_level++);]
    ends for every [nbmax] up to 2^30, with the least level whose number of
    blocks [2^root_level] is at least [nbmax]. *)
Theorem find_root_level_least (nbmax : Z) :
  nbmax <= 2 ^ 30 ->
  exists r, MeshInit.find_root_level nbmax = Some r /\
            0 <= r <= 30 /\ nbmax <= 2 ^ r /\
            (r = 0 \/ 2 ^ (r - 1) < nbmax).
Proof.
  intros H. apply root_level_loop_spec; auto; lia.
Qed.

Lemma rem_nonzero_false (a b : Z) :
  MeshInit.rem_nonzero a b = Some false -> b <> 0 /\ a = b * Z.quot a b.
Proof.
  unfold MeshInit.rem_nonzero. destruct (Z.eqb_spec b 0); [discriminate|].
  intros H. injection H as H. apply negb_false_iff, Z.eqb_eq in H.
  split; [assumption|]. pose proof (Z.quot_rem' a b). lia.
Qed.

Lemma or_else_false (x y : option bool) :
  MeshInit.or_else x y = Some false -> x = Some false /\ y = Some false.
Proof. destruct x as [[|]|]; cbn; intros H; try discriminate; auto. Qed.

Lemma quot_tiles (a b : Z) :
  1 <= a -> 1 <= b -> a = b * Z.quot a b -> 1 <= Z.quot a b <= a.
Proof. intros Ha Hb H. nia. Qed.

Ltac setup_step :=
  match goal with
  | H : context [if ?c then _ else _] |- _ =>
      destruct c eqn:?; try discriminate H
  end.

(** X7: when the constructor gets past its checks, the blocks tile the
    mesh ([mesh_size.nx = nrbx * block_size.nx] along each axis, with at
    least one block), a block has at least four cells along every axis of
    the problem (x1, x2 when [mesh_size.nx2 > 1], x3 when
    [mesh_size.nx3 > 1]) and one cell along the others, [dim] is the
    dimension read from [nx2] and [nx3], the root level has room for the
    root grid, and [max_level] is at most 63. *)
Theorem setup_root_grid (p : MeshInit.Input) (m : MeshInit.Mesh) :
  MeshInit.setup p = Some (Ok m) ->
  (MeshInit.mesh_nx1 p = MeshInit.nrbx1 m * MeshInit.block_nx1 m /\
   MeshInit.mesh_nx2 p = MeshInit.nrbx2 m * MeshInit.block_nx2 m /\
   MeshInit.mesh_nx3 p = MeshInit.nrbx3 m * MeshInit.block_nx3 m) /\
  (1 <= MeshInit.nrbx1 m /\ 1 <= MeshInit.nrbx2 m /\ 1 <= MeshInit.nrbx3 m) /\
  (4 <= MeshInit.block_nx1 m /\
   (1 < MeshInit.mesh_nx2 p -> 4 <= MeshInit.block_nx2 m) /\
   (MeshInit.mesh_nx2 p = 1 -> MeshInit.block_nx2 m = 1) /\
   (1 < MeshInit.mesh_nx3 p ->
    4 <= MeshInit.block_nx2 m /\ 4 <= MeshInit.block_nx3 m) /\
   (MeshInit.mesh_nx3 p = 1 -> MeshInit.block_nx3 m = 1)) /\
  (4 <= MeshInit.mesh_nx1 p /\ 1 <= MeshInit.mesh_nx2 p /\
   1 <= MeshInit.mesh_nx3 p) /\
  MeshInit.dim m = AMR.dim (MeshInit.mesh_nx2 p) (MeshInit.mesh_nx3 p) /\
  (MeshInit.nrbx1 m <= 2 ^ MeshInit.root_level m /\
   MeshInit.nrbx2 m <= 2 ^ MeshInit.root_level m /\
   MeshInit.nrbx3 m <= 2 ^ MeshInit.root_level m) /\
  0 <= MeshInit.root_level m /\
  MeshInit.max_level m <= 63.
Proof.
  unfold MeshInit.setup. intros H.
  do 7 setup_step. cbv zeta in H. do 6 setup_step.
  destruct (MeshInit.or_else _ _) as [[|]|] eqn:Hdiv; try discriminate.
  apply or_else_false in Hdiv as [Hd1 Hdiv].
  apply or_else_false in Hdiv as [Hd2 Hd3].
  apply rem_nonzero_false in Hd1 as [Hn1 Hq1].
  apply rem_nonzero_false in Hd2 as [Hn2 Hq2].
  apply rem_nonzero_false in Hd3 as [Hn3 Hq3].
  setup_step.
  destruct (MeshInit.find_root_level _) as [rl|] eqn:Hrl; [|discriminate].
  destruct (if MeshInit.refinement_adaptive p then _ else _)
    as [ml|] eqn:Hml; [|discriminate].
  setup_step. injection H as <-.
  cbn [MeshInit.nrbx1 MeshInit.nrbx2 MeshInit.nrbx3 MeshInit.block_nx1
       MeshInit.block_nx2 MeshInit.block_nx3 MeshInit.dim MeshInit.root_level
       MeshInit.max_level].
  unfold AMR.dim, MeshInit.find_root_level in *.
  assert (Hloop : forall fuel r0 nb r,
            MeshInit.root_level_loop fuel r0 nb = Some r -> 0 <= r0 ->
            0 <= r /\ nb <= 2 ^ r).
  { induction fuel as [|fuel IH]; intros r0 nb r Hr Hr0; [discriminate|].
    cbn in Hr. rewrite Z.shiftl_1_l in Hr.
    destruct (Z.ltb_spec0 (2 ^ r0) nb).
    - apply IH in Hr; lia.
    - injection Hr as <-. lia. }
  apply Hloop in Hrl as [Hrl0 Hrl]; [|lia]. clear Hloop.
  assert (Hmax : ml <= 63).
  { destruct (MeshInit.refinement_adaptive p);
      [|injection Hml as <-; lia].
    match goal with
    | H : true && _ = false |- _ => cbn [andb] in H; apply Z.ltb_ge in H
    end. lia. }
  clear Hml.
  destruct (Z.ltb_spec0 1 (MeshInit.mesh_nx2 p)),
           (Z.ltb_spec0 1 (MeshInit.mesh_nx3 p));
    cbn [Z.leb Z.eqb Z.compare Pos.compare Pos.compare_cont Pos.eqb
         andb orb] in *;
    repeat match goal with
           | H : _ || _ = false |- _ => apply orb_false_iff in H as [? ?]
           | H : _ && _ = false |- _ => apply andb_false_iff in H
           | H : (_ <? _) = true |- _ => apply Z.ltb_lt in H
           | H : (_ <? _) = false |- _ => apply Z.ltb_ge in H
           | H : (_ =? _) = true |- _ => apply Z.eqb_eq in H
           | H : (_ =? _) = false |- _ => apply Z.eqb_neq in H
           | H : context [?a <? ?b] |- _ => destruct (Z.ltb_spec0 a b)
           end;
    repeat match goal with
           | H : context [Z.quot ?a ?b] |- _ =>
               let q := fresh "q" in set (q := Z.quot a b) in *
           end;
    split_and!; try reflexivity; try assumption; try nia.
Qed.

Lemma andb_spec_fits (x : Z) :
  (- 2 ^ 31 <=? x) && (x <? 2 ^ 31) = true \/ ~ (- 2 ^ 31 <= x < 2 ^ 31).
Proof.
  destruct (Z.leb_spec0 (- 2 ^ 31) x), (Z.ltb_spec0 x (2 ^ 31)); cbn;
    first [left; reflexivity | right; lia].
Qed.

Lemma rem_nonzero_defined (a b : Z) :
  b <> 0 -> exists c, MeshInit.rem_nonzero a b = Some c.
Proof.
  intros H. unfold MeshInit.rem_nonzero.
  destruct (Z.eqb_spec b 0); [contradiction | eauto].
Qed.

Lemma quot_bounds (a b : Z) : 0 <= a -> 1 <= b -> 0 <= Z.quot a b <= a.
Proof.
  intros Ha Hb. pose proof (Z.quot_rem' a b).
  pose proof (Z.rem_bound_pos a b Ha ltac:(lia)).
  pose proof (Z.quot_pos a b Ha ltac:(lia)). nia.
Qed.

(** X8: the constructor has a defined outcome, an exception or the mesh,
    for every input whose cell counts are [int]s, whose block sizes are not
    zero and, when the refinement is adaptive, whose [numlevel] is above
    [INT_MIN] and at most [INT_MAX - 30]: the divisions are by numbers that
    are not zero, the shift [1<<root_level] stays below 31 bits and
    [numlevel+root_level-1] fits an [int]. *)
Theorem setup_defined (p : MeshInit.Input) :
  MeshInit.mesh_nx1 p < 2 ^ 31 ->
  MeshInit.mesh_nx2 p < 2 ^ 31 ->
  MeshInit.mesh_nx3 p < 2 ^ 31 ->
  MeshInit.meshblock_nx1 p <> Some 0 ->
  MeshInit.meshblock_nx2 p <> Some 0 ->
  MeshInit.meshblock_nx3 p <> Some 0 ->
  (MeshInit.refinement_adaptive p = true ->
   - 2 ^ 31 < MeshInit.numlevel p <= 2 ^ 31 - 1 - 30) ->
  exists r, MeshInit.setup p = Some r.
Proof.
  intros M1 M2 M3 B1 B2 B3 HL. unfold MeshInit.setup.
  do 7 match goal with
       | |- context [if ?c then Some Fatal else _] =>
           destruct c eqn:?; [eauto|]
       end.
  cbv zeta.
  do 6 match goal with
       | |- context [if ?c then Some Fatal else _] =>
           destruct c eqn:?; [eauto|]
       end.
  repeat match goal with
         | H : (_ <? _) = false |- _ => apply Z.ltb_ge in H
         end.
  set (b1 := default (MeshInit.mesh_nx1 p) (MeshInit.meshblock_nx1 p)).
  set (b2 := if 2 <=? _ then _ else _).
  set (b3 := if _ =? 3 then _ else _).
  assert (Hb1 : b1 <> 0).
  { subst b1. destruct (MeshInit.meshblock_nx1 p) as [x|]; cbn;
      [congruence | lia]. }
  assert (Hb2 : b2 <> 0).
  { subst b2. destruct (2 <=? _); [|lia].
    destruct (MeshInit.meshblock_nx2 p) as [x|]; cbn; [congruence | lia]. }
  assert (Hb3 : b3 <> 0).
  { subst b3. destruct (_ =? 3); [|lia].
    destruct (MeshInit.meshblock_nx3 p) as [x|]; cbn; [congruence | lia]. }
  destruct (rem_nonzero_defined (MeshInit.mesh_nx1 p) b1 Hb1) as [c1 E1].
  destruct (rem_nonzero_defined (MeshInit.mesh_nx2 p) b2 Hb2) as [c2 E2].
  destruct (rem_nonzero_defined (MeshInit.mesh_nx3 p) b3 Hb3) as [c3 E3].
  rewrite E1, E2, E3.
  destruct c1, c2, c3; cbn [MeshInit.or_else]; eauto.
  destruct (_ || _) eqn:Hsz; [eexists; reflexivity|].
  apply orb_false_iff in Hsz as [Hsz Hsz3].
  apply orb_false_iff in Hsz as [Hsz1 Hsz2].
  apply Z.ltb_ge in Hsz1.
  assert (H2 : 1 <= b2).
  { subst b2. destruct (2 <=? _); [|lia]. cbn [andb] in Hsz2.
    rewrite andb_true_r in Hsz2. apply Z.ltb_ge in Hsz2. lia. }
  assert (H3 : 1 <= b3).
  { subst b3. destruct (_ =? 3); [|lia]. cbn [andb] in Hsz3.
    rewrite andb_true_r in Hsz3. apply Z.ltb_ge in Hsz3. lia. }
  pose proof (quot_bounds (MeshInit.mesh_nx1 p) b1 ltac:(lia) ltac:(lia)).
  pose proof (quot_bounds (MeshInit.mesh_nx2 p) b2 ltac:(lia) H2).
  pose proof (quot_bounds (MeshInit.mesh_nx3 p) b3 ltac:(lia) H3).
  assert (Hq1 : Z.quot (MeshInit.mesh_nx1 p) b1 <= 2 ^ 30).
  { pose proof (Z.quot_rem' (MeshInit.mesh_nx1 p) b1).
    pose proof (Z.rem_bound_pos (MeshInit.mesh_nx1 p) b1 ltac:(lia) ltac:(lia)).
    nia. }
  assert (Hc2 : 4 <= b2 \/ MeshInit.mesh_nx2 p = 1).
  { subst b2. clear - Hsz2 Heqb1.
    destruct (Z.ltb_spec0 1 (MeshInit.mesh_nx3 p)),
             (Z.ltb_spec0 1 (MeshInit.mesh_nx2 p));
      cbn [Z.leb Z.compare Pos.compare Pos.compare_cont] in *;
      rewrite ?andb_true_r in Hsz2; try apply Z.ltb_ge in Hsz2; lia. }
  assert (Hc3 : 4 <= b3 \/ MeshInit.mesh_nx3 p = 1).
  { subst b3. clear - Hsz3 Heqb2.
    destruct (Z.ltb_spec0 1 (MeshInit.mesh_nx3 p)),
             (Z.ltb_spec0 1 (MeshInit.mesh_nx2 p));
      cbn [Z.eqb Pos.eqb] in *;
      rewrite ?andb_true_r in Hsz3; try apply Z.ltb_ge in Hsz3; lia. }
  assert (Hq2 : Z.quot (MeshInit.mesh_nx2 p) b2 <= 2 ^ 30).
  { destruct Hc2 as [Hc2|Hc2]; [|lia].
    pose proof (Z.quot_rem' (MeshInit.mesh_nx2 p) b2).
    pose proof (Z.rem_bound_pos (MeshInit.mesh_nx2 p) b2 ltac:(lia) ltac:(lia)).
    nia. }
  assert (Hq3 : Z.quot (MeshInit.mesh_nx3 p) b3 <= 2 ^ 30).
  { destruct Hc3 as [Hc3|Hc3]; [|lia].
    pose proof (Z.quot_rem' (MeshInit.mesh_nx3 p) b3).
    pose proof (Z.rem_bound_pos (MeshInit.mesh_nx3 p) b3 ltac:(lia) ltac:(lia)).
    nia. }
  match goal with
  | |- context [MeshInit.find_root_level ?nb] =>
      destruct (root_level_loop_spec nb 31 0) as (r & Hr & Hr30 & _);
        [repeat match goal with
                | |- context [?a <? ?b] => destruct (Z.ltb_spec0 a b)
                end; lia
        | lia | lia | left; reflexivity |];
      unfold MeshInit.find_root_level; rewrite Hr
  end.
  destruct (MeshInit.refinement_adaptive p) eqn:Ha.
  - specialize (HL eq_refl).
    unfold MeshInit.int_add, MeshInit.int_sub, MeshInit.int_fits.
    destruct (andb_spec_fits (MeshInit.numlevel p + r)) as [E|E]; [|lia].
    rewrite E. cbn [mbind option_bind].
    destruct (andb_spec_fits (MeshInit.numlevel p + r - 1)) as [E'|E'];
      [|lia].
    rewrite E'.
    match goal with
    | |- context [if ?c then Some Fatal else _] => destruct c; eauto
    end.
  - cbn [andb]. eauto.
Qed.

(** A root grid of four blocks: level 2. *)
Lemma find_root_level_least_witness :
  exists r, MeshInit.find_root_level 4 = Some r /\
            0 <= r <= 30 /\ 4 <= 2 ^ r /\
            (r = 0 \/ 2 ^ (r - 1) < 4).
Proof.
  apply (find_root_level_least 4). vm_compute. discriminate.
Defined.

(** The sample input: 4x2x1 blocks of 4x4x1 cells, root level 2. *)
Lemma setup_root_grid_witness :
  exists m,
    MeshInit.setup SampleRun.input = Some (Ok m) /\
    (MeshInit.nrbx1 m, MeshInit.nrbx2 m, MeshInit.nrbx3 m) = (4, 2, 1) /\
    (16 = MeshInit.nrbx1 m * MeshInit.block_nx1 m /\
     8 = MeshInit.nrbx2 m * MeshInit.block_nx2 m /\
     1 = MeshInit.nrbx3 m * MeshInit.block_nx3 m) /\
    MeshInit.nrbx1 m <= 2 ^ MeshInit.root_level m /\
    MeshInit.max_level m <= 63.
Proof.
  destruct (MeshInit.setup SampleRun.input) as [[m|]|] eqn:E.
  - exists m. split; [reflexivity|].
    pose proof (setup_root_grid SampleRun.input m E)
      as (Htile & _ & _ & _ & _ & (Hroot & _) & _ & Hmax).
    split; [|split; [exact Htile|split; [exact Hroot|exact Hmax]]].
    vm_compute in E. injection E as <-. reflexivity.
  - vm_compute in E. discriminate E.
  - vm_compute in E. discriminate E.
Defined.

Lemma setup_defined_witness :
  exists r, MeshInit.setup SampleRun.input = Some r.
Proof.
  apply (setup_defined SampleRun.input);
    first [ vm_compute; reflexivity | discriminate
          | intros _; vm_compute; split; [reflexivity | discriminate] ].
Defined.

(** ** SearchAndSetNeighbors: the shape of a record *)

Ltac pm3 H1 H2 H3 :=
  destruct H1 as [->|[->| ->]], H2 as [->|[->| ->]], H3 as [->|[->| ->]].

(** The directions of the scan are the 26 non-zero offsets at most. *)
Lemma scan_list_offsets (pmy_mesh : Neighbors.Mesh) (pmb : Neighbors.MeshBlock)
    (o1 o2 o3 : Z) :
  (o1, o2, o3) ∈ map fst (Neighbors.scan_list pmy_mesh pmb) ->
  Tree.in_pm o1 /\ Tree.in_pm o2 /\ Tree.in_pm o3 /\
  Neighbors.kind_of (o1, o2, o3) <> Neighbors.Center.
Proof.
  unfold Neighbors.scan_list, Tree.in_pm.
  destruct (Neighbors.nx2 pmb =? 1), (1 <? Neighbors.nx3 pmb),
    (Neighbors.face_only pmy_mesh), (Neighbors.nx3 pmb =? 1);
    cbn [app map fst]; intros H;
    repeat (apply elem_of_cons in H as [H|H];
            [injection H as -> -> ->;
             repeat split; try lia; cbn; discriminate|]);
    inversion H.
Qed.

Section RecordShape.

Variable MeshBlockTree : Type.
Variable flag : MeshBlockTree -> bool.
Variable tloc : MeshBlockTree -> LogicalLocation.
Variable tgid : MeshBlockTree -> Z.
Variable GetLeaf : MeshBlockTree -> Z -> Z -> Z -> MeshBlockTree.
Variable FindNeighbor :
  LogicalLocation -> Z -> Z -> Z -> list Z -> option MeshBlockTree.
Variable FindBufferID : Z -> Z -> Z -> Z -> Z -> Z -> Z.
Variable pmy_mesh : Neighbors.Mesh.
Variables ranklist nslist : list Z.
Variable pmb : Neighbors.MeshBlock.

Local Abbreviation recs :=
  (Neighbors.SearchAndSetNeighbors MeshBlockTree flag tloc tgid GetLeaf
     FindNeighbor FindBufferID pmy_mesh ranklist nslist pmb).

(** Every record is the result of a call of [SetNeighbor] with the offsets
    of a direction of the scan and the type of that direction. *)
Lemma record_form (r : NeighborBlock.t) :
  r ∈ recs ->
  exists o1 o2 o3 rk lvl id lid bid tb f1 f2,
    Tree.in_pm o1 /\ Tree.in_pm o2 /\ Tree.in_pm o3 /\
    Neighbors.kind_of (o1, o2, o3) <> Neighbors.Center /\
    r = NeighborBlock.SetNeighbor rk lvl id lid o1 o2 o3
          (Neighbors.type_of (Neighbors.kind_of (o1, o2, o3))) bid tb f1 f2.
Proof.
  intros Hr.
  apply SearchAndSetNeighbors_elem in Hr as (b & [[o1 o2] o3] & Hbd & Hr).
  apply layout_fst, scan_list_offsets in Hbd as (H1 & H2 & H3 & Hk).
  apply dir_recs_at_elim in Hr as (N & _ & Hcase). cbv zeta in Hcase.
  exists o1, o2, o3.
  destruct Hcase as [(_ & f1 & f2 & a1 & a2 & a3 & _ & _ & _ & ->)
                    | (_ & _ & ->)];
    unfold Neighbors.record_of; do 8 eexists; eauto.
Qed.

(** The members of a record follow from the number of its offsets that are
    not zero. *)
Lemma record_shape (r : NeighborBlock.t) :
  r ∈ recs ->
  let n := Z.abs (NeighborBlock.ox1 r) + Z.abs (NeighborBlock.ox2 r)
           + Z.abs (NeighborBlock.ox3 r) in
  (-1 <= NeighborBlock.ox1 r <= 1 /\ -1 <= NeighborBlock.ox2 r <= 1 /\
   -1 <= NeighborBlock.ox3 r <= 1) /\
  1 <= n <= 3 /\
  (NeighborBlock.type r = neighbor_face <-> n = 1) /\
  (NeighborBlock.type r = neighbor_edge <-> n = 2) /\
  (NeighborBlock.type r = neighbor_corner <-> n = 3) /\
  (is_Some (NeighborBlock.fid r) <-> n = 1) /\
  (is_Some (NeighborBlock.eid r) <-> n = 2) /\
  (forall e, NeighborBlock.eid r = Some e -> 0 <= e < 12).
Proof.
  intros Hr.
  destruct (record_form r Hr)
    as (o1 & o2 & o3 & rk & lvl & id & lid & bid & tb & f1 & f2
        & H1 & H2 & H3 & Hk & ->).
  pm3 H1 H2 H3; cbn in Hk; try congruence; cbv zeta;
    cbn [NeighborBlock.SetNeighbor NeighborBlock.ox1 NeighborBlock.ox2
         NeighborBlock.ox3 NeighborBlock.type NeighborBlock.fid
         NeighborBlock.eid Neighbors.type_of Neighbors.kind_of Z.eqb Pos.eqb];
    (split; [lia|]); split_and!;
    try (vm_compute; discriminate);
    try (split; intros H; first
           [ reflexivity | discriminate H
           | vm_compute in H; discriminate H
           | eexists; reflexivity
           | destruct H as [? H]; discriminate H ]);
    try (intros e H; first [discriminate H | injection H as <-; vm_compute;
                            split; [discriminate | reflexivity]]).
Qed.

(** The face and the edge of a record determine its direction. *)
Lemma fid_eid_injective (r r' : NeighborBlock.t) :
  r ∈ recs -> r' ∈ recs ->
  (is_Some (NeighborBlock.fid r) ->
   NeighborBlock.fid r = NeighborBlock.fid r' ->
   NeighborBlock.offsets r = NeighborBlock.offsets r') /\
  (is_Some (NeighborBlock.eid r) ->
   NeighborBlock.eid r = NeighborBlock.eid r' ->
   NeighborBlock.offsets r = NeighborBlock.offsets r').
Proof.
  intros Hr Hr'.
  destruct (record_form r Hr)
    as (o1 & o2 & o3 & rk & lvl & id & lid & bid & tb & f1 & f2
        & H1 & H2 & H3 & Hk & ->).
  destruct (record_form r' Hr')
    as (p1 & p2 & p3 & rk' & lvl' & id' & lid' & bid' & tb' & f1' & f2'
        & G1 & G2 & G3 & Gk & ->).
  unfold NeighborBlock.offsets.
  pm3 H1 H2 H3; cbn in Hk; try congruence;
    cbn [NeighborBlock.SetNeighbor NeighborBlock.ox1 NeighborBlock.ox2
         NeighborBlock.ox3 NeighborBlock.fid NeighborBlock.eid
         Neighbors.type_of Neighbors.kind_of Z.eqb Pos.eqb];
    (split; intros Hs E;
     [try (destruct Hs as [? Hs]; discriminate Hs)
     |try (destruct Hs as [? Hs]; discriminate Hs)]);
    clear Hs; pm3 G1 G2 G3; cbn in Gk; try congruence;
    first [reflexivity | vm_compute in E; discriminate E].
Qed.

End RecordShape.

(** X9: every record that [SearchAndSetNeighbors] stores has offsets in
    -1..1 that are not all zero; it is a face, an edge or a corner
    neighbour according to whether one, two or three offsets are not zero;
    [fid] is set for the faces only and [eid] for the edges only, with a
    value from 0 to 11. *)
Theorem SearchAndSetNeighbors_record_shape
    (MeshBlockTree : Type) (flag : MeshBlockTree -> bool)
    (tloc : MeshBlockTree -> LogicalLocation) (tgid : MeshBlockTree -> Z)
    (GetLeaf : MeshBlockTree -> Z -> Z -> Z -> MeshBlockTree)
    (FindNeighbor :
       LogicalLocation -> Z -> Z -> Z -> list Z -> option MeshBlockTree)
    (FindBufferID : Z -> Z -> Z -> Z -> Z -> Z -> Z)
    (pmy_mesh : Neighbors.Mesh) (ranklist nslist : list Z)
    (pmb : Neighbors.MeshBlock) (r : NeighborBlock.t) :
  r ∈ Neighbors.SearchAndSetNeighbors MeshBlockTree flag tloc tgid GetLeaf
        FindNeighbor FindBufferID pmy_mesh ranklist nslist pmb ->
  let n := Z.abs (NeighborBlock.ox1 r) + Z.abs (NeighborBlock.ox2 r)
           + Z.abs (NeighborBlock.ox3 r) in
  (-1 <= NeighborBlock.ox1 r <= 1 /\ -1 <= NeighborBlock.ox2 r <= 1 /\
   -1 <= NeighborBlock.ox3 r <= 1) /\
  1 <= n <= 3 /\
  (NeighborBlock.type r = neighbor_face <-> n = 1) /\
  (NeighborBlock.type r = neighbor_edge <-> n = 2) /\
  (NeighborBlock.type r = neighbor_corner <-> n = 3) /\
  (is_Some (NeighborBlock.fid r) <-> n = 1) /\
  (is_Some (NeighborBlock.eid r) <-> n = 2) /\
  (forall e, NeighborBlock.eid r = Some e -> 0 <= e < 12).
Proof.
  intros Hr.
  exact (record_shape MeshBlockTree flag tloc tgid GetLeaf FindNeighbor
           FindBufferID pmy_mesh ranklist nslist pmb r Hr).
Qed.

(** The second record of the fine leaf 1 of the sample mesh, its neighbour
    across the outer x1 face. *)
Lemma SearchAndSetNeighbors_record_shape_witness :
  let r := NeighborBlock.SetNeighbor 1 1 4 0 1 0 0 neighbor_face 2 0 0 0 in
  r ∈ Sample.neighbors (Sample.leaf 1 0 2 1) /\
  (NeighborBlock.type r = neighbor_face <->
   Z.abs (NeighborBlock.ox1 r) + Z.abs (NeighborBlock.ox2 r)
   + Z.abs (NeighborBlock.ox3 r) = 1) /\
  (is_Some (NeighborBlock.fid r) <->
   Z.abs (NeighborBlock.ox1 r) + Z.abs (NeighborBlock.ox2 r)
   + Z.abs (NeighborBlock.ox3 r) = 1).
Proof.
  intros r.
  assert (Hr : r ∈ Sample.neighbors (Sample.leaf 1 0 2 1))
    by (apply (list_elem_of_lookup_2 _ 1%nat); vm_compute; reflexivity).
  split; [exact Hr|].
  pose proof (SearchAndSetNeighbors_record_shape _ _ _ _ _ _ _ _ _ _ _ r Hr)
    as (_ & _ & Hface & _ & _ & Hfid & _).
  split; [exact Hface | exact Hfid].
Defined.

(** X10: among the records of a block, two face neighbours with the same
    [fid] have the same offsets, and so have two edge neighbours with the
    same [eid]: the records that share a face or an edge of the block are
    the fine neighbours of one direction. *)
Theorem SearchAndSetNeighbors_fid_eid_injective
    (MeshBlockTree : Type) (flag : MeshBlockTree -> bool)
    (tloc : MeshBlockTree -> LogicalLocation) (tgid : MeshBlockTree -> Z)
    (GetLeaf : MeshBlockTree -> Z -> Z -> Z -> MeshBlockTree)
    (FindNeighbor :
       LogicalLocation -> Z -> Z -> Z -> list Z -> option MeshBlockTree)
    (FindBufferID : Z -> Z -> Z -> Z -> Z -> Z -> Z)
    (pmy_mesh : Neighbors.Mesh) (ranklist nslist : list Z)
    (pmb : Neighbors.MeshBlock) (r r' : NeighborBlock.t) :
  let recs :=
    Neighbors.SearchAndSetNeighbors MeshBlockTree flag tloc tgid GetLeaf
      FindNeighbor FindBufferID pmy_mesh ranklist nslist pmb in
  r ∈ recs -> r' ∈ recs ->
  (is_Some (NeighborBlock.fid r) ->
   NeighborBlock.fid r = NeighborBlock.fid r' ->
   NeighborBlock.offsets r = NeighborBlock.offsets r') /\
  (is_Some (NeighborBlock.eid r) ->
   NeighborBlock.eid r = NeighborBlock.eid r' ->
   NeighborBlock.offsets r = NeighborBlock.offsets r').
Proof.
  intros recs Hr Hr'.
  exact (fid_eid_injective MeshBlockTree flag tloc tgid GetLeaf FindNeighbor
           FindBufferID pmy_mesh ranklist nslist pmb r r' Hr Hr').
Qed.

(** The coarse leaf 5 of the sample mesh has two finer neighbours across
    its inner x2 face, the leaves 2 and 3. *)
Lemma SearchAndSetNeighbors_fid_eid_injective_witness :
  exists r r',
    r ∈ Sample.neighbors (Sample.leaf 0 1 1 5) /\
    r' ∈ Sample.neighbors (Sample.leaf 0 1 1 5) /\
    NeighborBlock.gid r = 2 /\ NeighborBlock.gid r' = 3 /\
    NeighborBlock.fid r = Some inner_x2 /\
    NeighborBlock.fid r' = Some inner_x2 /\
    NeighborBlock.offsets r = NeighborBlock.offsets r'.
Proof.
  pose (l := Sample.neighbors (Sample.leaf 0 1 1 5)).
  pose (d := NeighborBlock.SetNeighbor 0 0 0 0 0 0 0 neighbor_face 0 0 0 0).
  pose (r := default d (l !! 2%nat)).
  pose (r' := default d (l !! 3%nat)).
  assert (Hr : r ∈ l)
    by (apply (list_elem_of_lookup_2 _ 2%nat); vm_compute; reflexivity).
  assert (Hr' : r' ∈ l)
    by (apply (list_elem_of_lookup_2 _ 3%nat); vm_compute; reflexivity).
  exists r, r'.
  split; [exact Hr|]. split; [exact Hr'|].
  split; [vm_compute; reflexivity|]. split; [vm_compute; reflexivity|].
  split; [vm_compute; reflexivity|]. split; [vm_compute; reflexivity|].
  destruct (SearchAndSetNeighbors_fid_eid_injective _ _ _ _ _ _ _ _ _ _ _
              r r' Hr Hr') as [Hface _].
  apply Hface.
  - exists inner_x2. vm_compute. reflexivity.
  - vm_compute. reflexivity.
Defined.

(** ** SearchAndSetNeighbors: the buffer ids of a block *)

Lemma sorted_app_between (l1 l2 : list Z) (a b c : Z) :
  StronglySorted Z.lt l1 -> Forall (fun x => a <= x < b) l1 ->
  StronglySorted Z.lt l2 -> Forall (fun x => b <= x < c) l2 ->
  a <= b <= c ->
  StronglySorted Z.lt (l1 ++ l2) /\ Forall (fun x => a <= x < c) (l1 ++ l2).
Proof.
  intros S1 F1 S2 F2 Hbc. split.
  - induction S1 as [|x l1 S1 IH Hx]; [exact S2|].
    cbn. apply Forall_cons in F1 as [Fx F1]. constructor; [auto|].
    apply Forall_app. split; [exact Hx|].
    eapply Forall_impl; [exact F2|]. cbn. intros; lia.
  - apply Forall_app. split; (eapply Forall_impl; [eassumption|]);
      cbn; intros; lia.
Qed.

Lemma sorted_between_length (l : list Z) (a b : Z) :
  StronglySorted Z.lt l -> Forall (fun x => a <= x < b) l -> a <= b ->
  Z.of_nat (length l) <= b - a.
Proof.
  intros S. revert a. induction S as [|x l S IH Hx]; intros a F Hab.
  - cbn. lia.
  - apply Forall_cons in F as [Fx F].
    assert (F' : Forall (fun y => x + 1 <= y < b) l).
    { apply Forall_forall. intros y Hy.
      rewrite Forall_forall in Hx, F. specialize (Hx y Hy).
      specialize (F y Hy). lia. }
    specialize (IH (x + 1) F' ltac:(lia)). cbn [length]. lia.
Qed.

Section BufferIds.

Variable MeshBlockTree : Type.
Variable flag : MeshBlockTree -> bool.
Variable tloc : MeshBlockTree -> LogicalLocation.
Variable tgid : MeshBlockTree -> Z.
Variable GetLeaf : MeshBlockTree -> Z -> Z -> Z -> MeshBlockTree.
Variable FindNeighbor :
  LogicalLocation -> Z -> Z -> Z -> list Z -> option MeshBlockTree.
Variable FindBufferID : Z -> Z -> Z -> Z -> Z -> Z -> Z.
Variable pmy_mesh : Neighbors.Mesh.
Variables ranklist nslist : list Z.
Variable pmb : Neighbors.MeshBlock.

Local Abbreviation dir_recs_at :=
  (Neighbors.dir_recs_at MeshBlockTree flag tloc tgid GetLeaf FindNeighbor
     FindBufferID pmy_mesh ranklist nslist pmb).
Local Abbreviation dir_step :=
  (Neighbors.dir_step MeshBlockTree flag tloc tgid GetLeaf FindNeighbor
     FindBufferID pmy_mesh ranklist nslist pmb).
Local Abbreviation search :=
  (Neighbors.search MeshBlockTree flag tloc tgid GetLeaf FindNeighbor
     FindBufferID pmy_mesh ranklist nslist pmb).
Local Abbreviation width d :=
  ((Neighbors.fine_counts pmy_mesh pmb (Neighbors.kind_of d)).1
   * (Neighbors.fine_counts pmy_mesh pmb (Neighbors.kind_of d)).2).

(** The records of one direction take slots of that direction, in
    increasing order. *)
Lemma dir_recs_at_bufids (b : Z) (d : Z * Z * Z) :
  StronglySorted Z.lt (map NeighborBlock.bufid (dir_recs_at b d)) /\
  Forall (fun x => b <= x < b + width d)
         (map NeighborBlock.bufid (dir_recs_at b d)).
Proof.
  destruct d as [[o1 o2] o3]. unfold Neighbors.dir_recs_at.
  destruct (FindNeighbor _ o1 o2 o3 _) as [neibt|];
    [|split; constructor].
  unfold Neighbors.leafpos, Neighbors.record_of.
  destruct (Neighbors.kind_of (o1, o2, o3)) eqn:K;
    unfold Neighbors.fine_counts, Neighbors.nf1, Neighbors.nf2;
    destruct (negb (flag neibt));
    destruct (Neighbors.multilevel pmy_mesh),
      (1 <? Neighbors.nx2 pmb), (1 <? Neighbors.nx3 pmb);
    cbn [fst snd]; rewrite ?zrange_0_0, ?zrange_0_1;
    repeat match goal with
           | |- context [if ?c then _ else _] => destruct c
           end;
    cbn [mbind list_bind app map NeighborBlock.SetNeighbor
         NeighborBlock.bufid];
    (split; [repeat constructor; lia | repeat constructor; lia]).
Qed.

Lemma scan_list_widths (d : Z * Z * Z) (w : Z) :
  (d, w) ∈ Neighbors.scan_list pmy_mesh pmb -> w = width d /\ 1 <= w.
Proof.
  unfold Neighbors.scan_list, Neighbors.fine_counts, Neighbors.nf1,
    Neighbors.nf2.
  destruct (Neighbors.nx2 pmb =? 1), (1 <? Neighbors.nx3 pmb),
    (Neighbors.face_only pmy_mesh), (Neighbors.nx3 pmb =? 1),
    (Neighbors.multilevel pmy_mesh), (1 <? Neighbors.nx2 pmb);
    cbn [app]; intros H;
    repeat (apply elem_of_cons in H as [H|H];
            [injection H as -> ->; cbn; lia|]);
    inversion H.
Qed.

Lemma foldl_dir_step_counter (l : list ((Z * Z * Z) * Z))
    (st : Neighbors.state) :
  (foldl dir_step st l).1 = st.1 + foldr Z.add 0 (map snd l).
Proof.
  revert st. induction l as [|[d w] l IH]; intros st; cbn.
  - lia.
  - rewrite IH. cbn. lia.
Qed.

Lemma scan_list_total :
  foldr Z.add 0 (map snd (Neighbors.scan_list pmy_mesh pmb)) <= 56.
Proof.
  unfold Neighbors.scan_list, Neighbors.nf1, Neighbors.nf2.
  destruct (Neighbors.nx2 pmb =? 1), (1 <? Neighbors.nx3 pmb),
    (Neighbors.face_only pmy_mesh), (Neighbors.nx3 pmb =? 1),
    (Neighbors.multilevel pmy_mesh), (1 <? Neighbors.nx2 pmb);
    cbn [app map snd foldr]; lia.
Qed.

(** The scan keeps the buffer ids of the records in increasing order and
    below the counter [bufid]. *)
Lemma foldl_dir_step_bufids (l : list ((Z * Z * Z) * Z))
    (st : Neighbors.state) :
  (forall d w, (d, w) ∈ l -> w = width d /\ 1 <= w) ->
  0 <= st.1 ->
  StronglySorted Z.lt (map NeighborBlock.bufid st.2) ->
  Forall (fun x => 0 <= x < st.1) (map NeighborBlock.bufid st.2) ->
  let st' := foldl dir_step st l in
  StronglySorted Z.lt (map NeighborBlock.bufid st'.2) /\
  Forall (fun x => 0 <= x < st'.1) (map NeighborBlock.bufid st'.2).
Proof.
  revert st. induction l as [|[d w] l IH]; intros st Hw H0 HS HF; cbn.
  - auto.
  - destruct (Hw d w ltac:(left)) as [-> Hw1].
    destruct (dir_recs_at_bufids st.1 d) as [HS' HF'].
    destruct (sorted_app_between _ _ 0 st.1 (st.1 + width d) HS HF HS' HF'
                ltac:(lia)) as [HS2 HF2].
    apply IH; cbn [Neighbors.dir_step fst snd].
    + intros d' w' Hd. apply Hw. now right.
    + lia.
    + rewrite map_app. exact HS2.
    + rewrite map_app. exact HF2.
Qed.

(** The buffer ids of the records grow along the array and stay below the
    final counter. *)
Lemma search_bufids :
  StronglySorted Z.lt (map NeighborBlock.bufid search.2) /\
  Forall (fun x => 0 <= x < search.1) (map NeighborBlock.bufid search.2) /\
  search.1 <= 56 /\
  (length search.2 <= 56)%nat.
Proof.
  rewrite (search_scan MeshBlockTree flag tloc tgid GetLeaf FindNeighbor
             FindBufferID pmy_mesh ranklist nslist pmb).
  destruct (foldl_dir_step_bufids (Neighbors.scan_list pmy_mesh pmb) (0, [])
              scan_list_widths ltac:(cbn; lia) ltac:(constructor)
              ltac:(constructor)) as [HS HF].
  pose proof (foldl_dir_step_counter (Neighbors.scan_list pmy_mesh pmb)
                (0, [])) as Hc.
  pose proof scan_list_total as Ht. cbn [fst] in Hc.
  split; [exact HS|]. split; [exact HF|]. split; [lia|].
  pose proof (sorted_between_length _ 0 _ HS HF) as Hl.
  rewrite length_map in Hl.
  assert (0 <= foldr Z.add 0 (map snd (Neighbors.scan_list pmy_mesh pmb))).
  { rewrite Hc in HF. destruct (map NeighborBlock.bufid _) as [|x xs] eqn:E.
    - clear. unfold Neighbors.scan_list, Neighbors.nf1, Neighbors.nf2.
      destruct (Neighbors.nx2 pmb =? 1), (1 <? Neighbors.nx3 pmb),
        (Neighbors.face_only pmy_mesh), (Neighbors.nx3 pmb =? 1),
        (Neighbors.multilevel pmy_mesh), (1 <? Neighbors.nx2 pmb);
        cbn [app map snd foldr]; lia.
    - apply Forall_cons in HF as [Hx _]. lia. }
  lia.
Qed.

End BufferIds.

(** X11: for every tree and every block, the buffer ids of the records that
    [SearchAndSetNeighbors] stores are strictly increasing along the array
    [neighbor], so no two records share a buffer; every id is at least 0
    and below the final value of the counter [bufid], which is at most 56,
    and so is the number of records. *)
Theorem SearchAndSetNeighbors_bufids
    (MeshBlockTree : Type) (flag : MeshBlockTree -> bool)
    (tloc : MeshBlockTree -> LogicalLocation) (tgid : MeshBlockTree -> Z)
    (GetLeaf : MeshBlockTree -> Z -> Z -> Z -> MeshBlockTree)
    (FindNeighbor :
       LogicalLocation -> Z -> Z -> Z -> list Z -> option MeshBlockTree)
    (FindBufferID : Z -> Z -> Z -> Z -> Z -> Z -> Z)
    (pmy_mesh : Neighbors.Mesh) (ranklist nslist : list Z)
    (pmb : Neighbors.MeshBlock) :
  let st :=
    Neighbors.search MeshBlockTree flag tloc tgid GetLeaf FindNeighbor
      FindBufferID pmy_mesh ranklist nslist pmb in
  let recs :=
    Neighbors.SearchAndSetNeighbors MeshBlockTree flag tloc tgid GetLeaf
      FindNeighbor FindBufferID pmy_mesh ranklist nslist pmb in
  StronglySorted Z.lt (map NeighborBlock.bufid recs) /\
  Forall (fun x => 0 <= x < st.1) (map NeighborBlock.bufid recs) /\
  st.1 <= 56 /\
  (length recs <= 56)%nat.
Proof.
  intros st recs.
  exact (search_bufids MeshBlockTree flag tloc tgid GetLeaf FindNeighbor
           FindBufferID pmy_mesh ranklist nslist pmb).
Qed.

(** ** Adaptive mesh refinement: the families found by the scan *)

(** The scan of one family: when it returns, the entries it read exist,
    and when every comparison succeeded the entries are the blocks at the
    offsets from [ln], in the order of the loops. *)
Lemma family_scan_Done (ld : list LogicalLocation) (ln : LogicalLocation)
    (offs : list (Z * Z * Z)) (r : nat) (rr rr' : Z) :
  AMR.family_scan ld ln offs r rr = Done rr' ->
  (offs <> [] -> (r + length offs <= length ld)%nat) /\
  rr <= rr' <= rr + Z.of_nat (length offs) /\
  (rr' = rr + Z.of_nat (length offs) ->
   forall idx i j k, offs !! idx = Some (i, j, k) ->
     ld !! (r + idx)%nat
     = Some (mkLoc (lx1 ln + i) (lx2 ln + j) (lx3 ln + k) (level ln))).
Proof.
  revert r rr. induction offs as [|[[i j] k] offs IH]; intros r rr H.
  - cbn in H. injection H as <-. cbn. split; [congruence|]. split; [lia|].
    intros _ idx i j k Hidx. discriminate.
  - cbn [AMR.family_scan] in H.
    destruct (ld !! r) as [lr|] eqn:Hr; [|discriminate].
    apply IH in H as (Hlen & Hrr & Hall).
    apply lookup_lt_Some in Hr as Hrlt. cbn [length].
    assert (Hlen' : (r + S (length offs) <= length ld)%nat).
    { destruct offs as [|o offs']; [cbn; lia|].
      specialize (Hlen ltac:(discriminate)). lia. }
    destruct ((lx1 ln + i =? lx1 lr) && (lx2 ln + j =? lx2 lr)
              && (lx3 ln + k =? lx3 lr) && (level ln =? level lr)) eqn:E.
    + split; [auto|]. split; [lia|]. intros Heq idx i' j' k' Hidx.
      destruct idx as [|idx].
      * cbn in Hidx. injection Hidx as <- <- <-.
        repeat (apply andb_true_iff in E as [E ?]).
        repeat match goal with
               | H : (_ =? _) = true |- _ => apply Z.eqb_eq in H
               end.
        rewrite Nat.add_0_r, Hr. f_equal. destruct lr; cbn in *. congruence.
      * cbn in Hidx. replace (r + S idx)%nat with (S r + idx)%nat by lia.
        apply (Hall ltac:(lia) idx i' j' k' Hidx).
    + split; [auto|]. split; [lia|]. intros Heq. lia.
Qed.

Lemma offsets_shape (nx2 nx3 : Z) :
  Z.of_nat (length (AMR.offsets (AMR.lk nx3) (AMR.lj nx2)))
    <= AMR.nlbl nx2 nx3 /\
  forall idx i j k,
    AMR.offsets (AMR.lk nx3) (AMR.lj nx2) !! idx = Some (i, j, k) ->
    (0 <= i <= 1 /\ 0 <= j <= 1 /\ 0 <= k <= 1) /\
    (idx <> O -> i = 1 \/ j = 1 \/ k = 1).
Proof.
  unfold AMR.lk, AMR.lj, AMR.nlbl.
  destruct (1 <? nx3), (1 <? nx2);
    (split; [vm_compute; discriminate|]);
    intros idx i j k H;
    do 8 (destruct idx as [|idx];
          [vm_compute in H;
           first [discriminate H
                 | injection H as <- <- <-;
                   split; [lia | intros; lia || congruence]]|]);
    vm_compute in H; destruct idx; discriminate H.
Qed.

Lemma all_even_shifted (ln : LogicalLocation) (i j k : Z) :
  AMR.all_even ln = true ->
  0 <= i <= 1 -> 0 <= j <= 1 -> 0 <= k <= 1 ->
  i = 1 \/ j = 1 \/ k = 1 ->
  AMR.all_even (mkLoc (lx1 ln + i) (lx2 ln + j) (lx3 ln + k) (level ln))
  = false.
Proof.
  unfold AMR.all_even. cbn [lx1 lx2 lx3]. rewrite !land_1.
  intros H Hi Hj Hk Hone.
  repeat (apply andb_true_iff in H as [H ?]).
  repeat match goal with
         | H : (_ =? _) = true |- _ => apply Z.eqb_eq in H
         end.
  destruct (Z.eqb_spec ((lx1 ln + i) `mod` 2) 0),
    (Z.eqb_spec ((lx2 ln + j) `mod` 2) 0),
    (Z.eqb_spec ((lx3 ln + k) `mod` 2) 0); cbn; try reflexivity.
  exfalso. Z.div_mod_to_equations. lia.
Qed.

Lemma all_even_parent (ln : LogicalLocation) :
  AMR.all_even ln = true ->
  lx1 ln = 2 * lx1 (AMR.parent_of ln) /\
  lx2 ln = 2 * lx2 (AMR.parent_of ln) /\
  lx3 ln = 2 * lx3 (AMR.parent_of ln) /\
  level ln = level (AMR.parent_of ln) + 1.
Proof.
  unfold AMR.all_even, AMR.parent_of. cbn [lx1 lx2 lx3 level].
  rewrite !land_1, !shiftr_1. intros H.
  repeat (apply andb_true_iff in H as [H ?]).
  repeat match goal with
         | H : (_ =? _) = true |- _ => apply Z.eqb_eq in H
         end.
  split_and!; try lia; Z.div_mod_to_equations; lia.
Qed.

Section Families.

Variables nx2 nx3 : Z.
Variable ld : list LogicalLocation.

(** The children of [p] are entries of [ld] that follow one another from
    index [n0] on, in the order of the offsets. *)
Local Abbreviation family p :=
  (exists n0 : nat,
     Z.of_nat (length (AMR.offsets (AMR.lk nx3) (AMR.lj nx2)))
       = AMR.nlbl nx2 nx3 /\
     forall idx i j k,
       AMR.offsets (AMR.lk nx3) (AMR.lj nx2) !! idx = Some (i, j, k) ->
       ld !! (n0 + idx)%nat
       = Some (mkLoc (2 * lx1 p + i) (2 * lx2 p + j) (2 * lx3 p + k)
                     (level p + 1))).

Lemma deref_loop_families (todo n : nat) (cl cl' : list LogicalLocation)
    (e : nat) :
  AMR.deref_loop nx2 nx3 ld todo n cl = Done cl' ->
  Z.of_nat (length cl) * AMR.nlbl nx2 nx3 <= Z.of_nat e ->
  (e <= length ld)%nat ->
  (forall m lm, (n <= m < e)%nat -> ld !! m = Some lm ->
     AMR.all_even lm = false) ->
  (forall p, p ∈ cl -> family p) ->
  Z.of_nat (length cl') * AMR.nlbl nx2 nx3 <= Z.of_nat (length ld) /\
  (forall p, p ∈ cl' -> family p).
Proof.
  assert (Hnl : 2 <= AMR.nlbl nx2 nx3).
  { unfold AMR.nlbl. destruct (1 <? nx3), (1 <? nx2); lia. }
  destruct (offsets_shape nx2 nx3) as [Holen Hoshape].
  revert n cl e. induction todo as [|todo IH]; intros n cl e H Hcl He Hodd Hfam.
  - cbn in H. injection H as <-. split; [lia | exact Hfam].
  - cbn [AMR.deref_loop] in H.
    destruct (ld !! n) as [ln|] eqn:Hn; [|discriminate].
    destruct (AMR.all_even ln) eqn:Heven.
    + destruct (AMR.family_scan ld ln _ n 0) as [rr|] eqn:Hscan;
        [|discriminate].
      destruct (Z.eqb_spec rr (AMR.nlbl nx2 nx3)) as [->|Hne].
      * apply family_scan_Done in Hscan as (Hlen & Hrr & Hall).
        assert (Holen' :
          Z.of_nat (length (AMR.offsets (AMR.lk nx3) (AMR.lj nx2)))
          = AMR.nlbl nx2 nx3) by lia.
        specialize (Hall ltac:(lia)).
        assert (Hen : (e <= n)%nat).
        { destruct (le_lt_dec e n) as [|Hlt]; [assumption|].
          specialize (Hodd n ln ltac:(lia) Hn). congruence. }
        specialize (Hlen ltac:(intros E; rewrite E in Holen'; cbn in *; lia)).
        destruct (all_even_parent ln Heven) as (E1 & E2 & E3 & E4).
        apply (IH (S n) _ (n + length (AMR.offsets (AMR.lk nx3) (AMR.lj nx2)))%nat
                 H).
        -- rewrite length_app. cbn [length]. lia.
        -- lia.
        -- intros m lm Hm Hlm.
           replace m with (n + (m - n))%nat in Hlm by lia.
           destruct (lookup_lt_is_Some_2
                       (AMR.offsets (AMR.lk nx3) (AMR.lj nx2)) (m - n))
             as [[[i j] k] Hidx]; [lia|].
           rewrite (Hall _ _ _ _ Hidx) in Hlm. injection Hlm as <-.
           destruct (Hoshape _ _ _ _ Hidx) as ((Hi & Hj & Hk) & Hone).
           apply all_even_shifted; auto. apply Hone. lia.
        -- intros p Hp. apply elem_of_app in Hp as [Hp|Hp]; [auto|].
           apply list_elem_of_singleton in Hp. subst p.
           exists n. split; [exact Holen'|].
           intros idx i j k Hidx. rewrite (Hall _ _ _ _ Hidx).
           f_equal. f_equal; lia.
      * apply (IH (S n) cl e H); auto.
        intros m lm Hm. apply Hodd. lia.
    + apply (IH (S n) cl e H); auto.
      intros m lm Hm. apply Hodd. lia.
Qed.

End Families.

Lemma lderef_flagged (blocks : list AMR.flagged) (l : LogicalLocation) :
  l ∈ AMR.lderef blocks <->
  exists b, b ∈ blocks /\ AMR.refine_flag_ b = -1 /\ AMR.fl_loc b = l.
Proof.
  unfold AMR.lderef. rewrite list_elem_of_fmap. split.
  - intros (b & -> & Hb). apply list_elem_of_filter in Hb as [Hf Hb]. eauto.
  - intros (b & Hb & Hf & <-). exists b. split; [reflexivity|].
    apply list_elem_of_filter. auto.
Qed.

(** X12: when the scan of the flagged blocks ends without leaving the
    array, every parent it stores in [clderef] has all its [nlbl] children
    flagged -1: they stand in [lderef] one after the other, in the order of
    the three loops, and each of them is a block of the mesh whose
    [refine_flag_] is -1. *)
Theorem derefine_parents_sound (nx2 nx3 : Z) (blocks : list AMR.flagged)
    (cl : list LogicalLocation) (p : LogicalLocation) :
  AMR.derefine_parents nx2 nx3 blocks = Done cl ->
  p ∈ cl ->
  Z.of_nat (length (AMR.offsets (AMR.lk nx3) (AMR.lj nx2)))
    = AMR.nlbl nx2 nx3 /\
  exists n0 : nat,
    forall idx i j k,
      AMR.offsets (AMR.lk nx3) (AMR.lj nx2) !! idx = Some (i, j, k) ->
      let child := mkLoc (2 * lx1 p + i) (2 * lx2 p + j) (2 * lx3 p + k)
                         (level p + 1) in
      AMR.lderef blocks !! (n0 + idx)%nat = Some child /\
      exists b, b ∈ blocks /\ AMR.refine_flag_ b = -1 /\ AMR.fl_loc b = child.
Proof.
  unfold AMR.derefine_parents. intros H Hp.
  destruct (AMR.nlbl nx2 nx3 <? AMR.tnderef blocks);
    [|injection H as <-; inversion Hp].
  apply (deref_loop_families nx2 nx3 _ _ _ _ _ O) in H
    as [_ Hfam]; cbn [length]; try lia.
  - destruct (Hfam p Hp) as (n0 & Hlen & Hall).
    split; [exact Hlen|]. exists n0. intros idx i j k Hidx. cbv zeta.
    specialize (Hall idx i j k Hidx). split; [exact Hall|].
    apply lderef_flagged. eapply list_elem_of_lookup_2, Hall.
  - intros q Hq. inversion Hq.
Qed.

(** X13: the parents stored in [clderef] fit the [tnderef/nlbl] entries
    allocated for it. *)
Theorem derefine_parents_fit (nx2 nx3 : Z) (blocks : list AMR.flagged)
    (cl : list LogicalLocation) :
  AMR.derefine_parents nx2 nx3 blocks = Done cl ->
  Z.of_nat (length cl) <= Z.quot (AMR.tnderef blocks) (AMR.nlbl nx2 nx3).
Proof.
  assert (Hnl : 2 <= AMR.nlbl nx2 nx3).
  { unfold AMR.nlbl. destruct (1 <? nx3), (1 <? nx2); lia. }
  assert (Ht : AMR.tnderef blocks = Z.of_nat (length (AMR.lderef blocks))).
  { unfold AMR.tnderef, AMR.lderef. now rewrite length_map. }
  unfold AMR.derefine_parents. intros H.
  rewrite Z.quot_div_nonneg by lia.
  destruct (AMR.nlbl nx2 nx3 <? AMR.tnderef blocks).
  - apply (deref_loop_families nx2 nx3 _ _ _ _ _ O) in H
      as [Hlen _]; cbn [length]; try lia.
    + apply Z.div_le_lower_bound; lia.
    + intros q Hq. inversion Hq.
  - injection H as <-. cbn. apply Z.div_pos; lia.
Qed.

(** Four blocks of level 2 in one dimension, all but the third flagged -1:
    the parent of the first two is stored. *)
Lemma derefine_parents_sound_witness :
  let blocks := Sample.line4 (-1) (-1) 0 (-1) in
  let p := mkLoc 0 0 0 1 in
  AMR.derefine_parents 1 1 blocks = Done [p] /\
  exists n0 : nat,
    forall idx i j k,
      AMR.offsets (AMR.lk 1) (AMR.lj 1) !! idx = Some (i, j, k) ->
      let child := mkLoc (2 * lx1 p + i) (2 * lx2 p + j) (2 * lx3 p + k)
                         (level p + 1) in
      AMR.lderef blocks !! (n0 + idx)%nat = Some child /\
      exists b, b ∈ blocks /\ AMR.refine_flag_ b = -1 /\ AMR.fl_loc b = child.
Proof.
  intros blocks p.
  assert (H : AMR.derefine_parents 1 1 blocks = Done [p])
    by (vm_compute; reflexivity).
  split; [exact H|].
  destruct (derefine_parents_sound 1 1 blocks [p] p H ltac:(left))
    as [_ Hfam].
  exact Hfam.
Defined.

Lemma derefine_parents_fit_witness :
  let blocks := Sample.line4 (-1) (-1) 0 (-1) in
  AMR.derefine_parents 1 1 blocks = Done [mkLoc 0 0 0 1] /\
  Z.of_nat (length [mkLoc 0 0 0 1])
  <= Z.quot (AMR.tnderef blocks) (AMR.nlbl 1 1).
Proof.
  intros blocks.
  assert (H : AMR.derefine_parents 1 1 blocks = Done [mkLoc 0 0 0 1])
    by (vm_compute; reflexivity).
  split; [exact H|].
  exact (derefine_parents_fit 1 1 blocks [mkLoc 0 0 0 1] H).
Defined.

(** ** Adaptive mesh refinement: the list from the old gids to the new *)

Section OldToNew.

Variable nlbl : Z.
Variable newtoold : list Z.
Hypothesis Hnlbl : 2 <= nlbl.
Hypothesis Hfirst : newtoold !! O = Some 0.
(** No block is derefined: the old gid of a new block is that of the block
    before it or the next one. *)
Hypothesis Hstep : forall n a b,
  newtoold !! n = Some a -> newtoold !! S n = Some b -> b = a \/ b = a + 1.

Lemma newtoold_monotone (n m : nat) (a b : Z) :
  (n <= m)%nat -> newtoold !! n = Some a -> newtoold !! m = Some b -> a <= b.
Proof.
  intros Hnm Hn. revert b. induction Hnm as [|m Hnm IH]; intros b Hm.
  - rewrite Hn in Hm. injection Hm as <-. lia.
  - destruct (lookup_lt_is_Some_2 newtoold m) as [x Hx].
    { apply lookup_lt_Some in Hm. lia. }
    specialize (IH x Hx). destruct (Hstep m x b Hx Hm); lia.
Qed.

Lemma oldtonew_loop (oldtonew0 : list Z) (m : nat) :
  (m < length newtoold)%nat ->
  (forall n a, newtoold !! n = Some a -> a < Z.of_nat (length oldtonew0)) ->
  exists k o2n a,
    foldl (Exchange.oldtonew_step nlbl newtoold)
      (1%nat, <[O := 0]> oldtonew0) (seq 1 m) = (k, o2n) /\
    length o2n = length oldtonew0 /\
    newtoold !! m = Some a /\ Z.of_nat k = a + 1 /\
    forall p : nat, (p < k)%nat ->
      exists n : nat,
        o2n !! p = Some (Z.of_nat n) /\ (n <= m)%nat /\
        newtoold !! n = Some (Z.of_nat p) /\
        forall n' : nat, (n' < n)%nat ->
          newtoold !! n' <> Some (Z.of_nat p).
Proof.
  intros Hm Hbound.
  assert (H0 : 0 < Z.of_nat (length oldtonew0))
    by (specialize (Hbound _ _ Hfirst); lia).
  induction m as [|m IH].
  - exists 1%nat, (<[O := 0]> oldtonew0), 0. cbn [seq foldl fold_left].
    rewrite length_insert. split_and!; auto.
    intros p Hp. assert (p = O) by lia. subst p. exists O.
    split; [apply list_lookup_insert_eq; lia|].
    split; [lia|]. split; [exact Hfirst|]. intros n' Hn'. lia.
  - destruct IH as (k & o2n & a & Hfold & Hlen & Ha & Hk & Hinv); [lia|].
    destruct (lookup_lt_is_Some_2 newtoold (S m) Hm) as [b Hb].
    rewrite seq_S, foldl_app, Hfold. cbn [foldl Nat.add].
    unfold Exchange.oldtonew_step.
    replace (S m - 1)%nat with m by lia.
    unfold zread. rewrite Ha, Hb. cbn [default from_option id fst snd].
    pose proof (Hbound _ _ Hb) as Hbb.
    destruct (Hstep m a b Ha Hb) as [->| ->].
    + destruct (Z.eqb_spec a (a + 1)); [lia|].
      destruct (Z.eqb_spec a (a + nlbl)); [lia|].
      exists k, o2n, a. split_and!; auto.
      intros p Hp. destruct (Hinv p Hp) as (n' & H1 & H2 & H3 & H4).
      exists n'. split_and!; auto.
    + destruct (Z.eqb_spec (a + 1) (a + 1)); [|lia].
      exists (S k), (<[k := Z.of_nat (S m)]> o2n), (a + 1).
      rewrite length_insert. split_and!; auto; try lia.
      intros p Hp. destruct (decide (p = k)) as [->|Hpk].
      * exists (S m). split; [apply list_lookup_insert_eq; lia|].
        split; [lia|]. split; [rewrite Hb; f_equal; lia|].
        intros n' Hn' Hx.
        pose proof (newtoold_monotone n' m _ _ ltac:(lia) Hx Ha). lia.
      * destruct (Hinv p ltac:(lia)) as (n' & H1 & H2 & H3 & H4).
        exists n'. rewrite list_lookup_insert_ne by lia. split_and!; auto.
Qed.

End OldToNew.

(** X14: when no block is derefined, so that the old gid of a new block is
    that of the new block before it or the next one, the loop fills
    [oldtonew] for every old gid and writes no entry past the old blocks;
    [oldtonew[p]] is the first new block whose old gid is [p], hence
    [newtoold[oldtonew[p]] = p]. *)
Theorem oldtonew_inverse (nlbl : Z) (newtoold oldtonew0 : list Z) :
  2 <= nlbl ->
  newtoold !! O = Some 0 ->
  (forall n a b, newtoold !! n = Some a -> newtoold !! S n = Some b ->
                 b = a \/ b = a + 1) ->
  (forall n a, newtoold !! n = Some a -> a < Z.of_nat (length oldtonew0)) ->
  exists k o2n,
    Exchange.oldtonew nlbl (length newtoold) newtoold oldtonew0 = (k, o2n) /\
    length o2n = length oldtonew0 /\
    (k <= length oldtonew0)%nat /\
    (forall n a, newtoold !! n = Some a -> a < Z.of_nat k) /\
    forall p : nat, (p < k)%nat ->
      exists n : nat,
        o2n !! p = Some (Z.of_nat n) /\
        newtoold !! n = Some (Z.of_nat p) /\
        forall n' : nat, (n' < n)%nat -> newtoold !! n' <> Some (Z.of_nat p).
Proof.
  intros Hnlbl Hfirst Hstep Hbound.
  assert (Hlen : (0 < length newtoold)%nat)
    by (apply lookup_lt_Some in Hfirst; exact Hfirst).
  destruct (oldtonew_loop nlbl newtoold Hnlbl Hfirst Hstep oldtonew0
              (length newtoold - 1) ltac:(lia) Hbound)
    as (k & o2n & a & Hfold & Hl & Ha & Hk & Hinv).
  exists k, o2n. split; [exact Hfold|]. split; [exact Hl|].
  pose proof (Hbound _ _ Ha). split; [lia|]. split.
  - intros n x Hx. pose proof (lookup_lt_Some _ _ _ Hx).
    pose proof (newtoold_monotone newtoold Hstep n (length newtoold - 1) x a
                  ltac:(lia) Hx Ha). lia.
  - intros p Hp. destruct (Hinv p Hp) as (n & H1 & _ & H3 & H4). eauto.
Qed.

(** Three blocks in one dimension of which the second is refined. *)
Lemma oldtonew_inverse_witness :
  exists k o2n,
    Exchange.oldtonew 2 4 [0; 1; 1; 2] [9; 9; 9] = (k, o2n) /\
    o2n = [0; 1; 3] /\
    forall p : nat, (p < k)%nat ->
      exists n : nat,
        o2n !! p = Some (Z.of_nat n) /\
        [0; 1; 1; 2] !! n = Some (Z.of_nat p) /\
        forall n' : nat, (n' < n)%nat ->
          [0; 1; 1; 2] !! n' <> Some (Z.of_nat p).
Proof.
  destruct (oldtonew_inverse 2 [0; 1; 1; 2] [9; 9; 9])
    as (k & o2n & Hrun & _ & _ & _ & Hinv).
  - lia.
  - reflexivity.
  - intros [|[|[|[|n]]]] a b Ha Hb; cbn in Ha, Hb; simplify_eq; lia.
  - intros [|[|[|[|n]]]] a Ha; cbn in Ha; simplify_eq; cbn; lia.
  - exists k, o2n. split; [exact Hrun|]. split; [|exact Hinv].
    vm_compute in Hrun. injection Hrun as _ <-. reflexivity.
Defined.

(** ** SetBlockSizeAndBoundaries: the blocks of a level tile the mesh *)

Section Tiling.

Variables G1 G2 G3 : Real -> BlockBounds.RegionSize -> Real.
Variable pm : BlockBounds.Mesh.

Local Abbreviation set_block :=
  (BlockBounds.SetBlockSizeAndBoundaries G1 G2 G3 pm).
Local Abbreviation blocks_of nrbx ll :=
  (Z.shiftl nrbx (ll - BlockBounds.root_level pm)).

(** The call, field by field. *)
Lemma SetBlockSizeAndBoundaries_fields (loc : LogicalLocation)
    (bs : BlockBounds.RegionSize) (bcs : list Z) :
  let ms := BlockBounds.mesh_size pm in
  let mb f := zread (BlockBounds.mesh_bcs pm) (BlockBounds.face f) in
  let rl := BlockBounds.root_level pm in
  let ll := level loc in
  set_block loc bs bcs =
  (BlockBounds.mkRegionSize
     (if lx1 loc =? 0 then BlockBounds.x1min ms
      else G1 (BlockBounds.rx (lx1 loc) (BlockBounds.nrbx1 pm) ll rl) ms)
     (if BlockBounds.nx2 ms =? 1 then BlockBounds.x2min ms
      else if lx2 loc =? 0 then BlockBounds.x2min ms
      else G2 (BlockBounds.rx (lx2 loc) (BlockBounds.nrbx2 pm) ll rl) ms)
     (if BlockBounds.nx3 ms =? 1 then BlockBounds.x3min ms
      else if lx3 loc =? 0 then BlockBounds.x3min ms
      else G3 (BlockBounds.rx (lx3 loc) (BlockBounds.nrbx3 pm) ll rl) ms)
     (if lx1 loc =? blocks_of (BlockBounds.nrbx1 pm) ll - 1
      then BlockBounds.x1max ms
      else G1 (BlockBounds.rx (lx1 loc + 1) (BlockBounds.nrbx1 pm) ll rl) ms)
     (if BlockBounds.nx2 ms =? 1 then BlockBounds.x2max ms
      else if lx2 loc =? blocks_of (BlockBounds.nrbx2 pm) ll - 1
      then BlockBounds.x2max ms
      else G2 (BlockBounds.rx (lx2 loc + 1) (BlockBounds.nrbx2 pm) ll rl) ms)
     (if BlockBounds.nx3 ms =? 1 then BlockBounds.x3max ms
      else if lx3 loc =? blocks_of (BlockBounds.nrbx3 pm) ll - 1
      then BlockBounds.x3max ms
      else G3 (BlockBounds.rx (lx3 loc + 1) (BlockBounds.nrbx3 pm) ll rl) ms)
     (BlockBounds.x1rat bs) (BlockBounds.x2rat bs) (BlockBounds.x3rat bs)
     (BlockBounds.nx1 bs) (BlockBounds.nx2 bs) (BlockBounds.nx3 bs),
   <[5%nat := if (BlockBounds.nx3 ms =? 1)
                  || (lx3 loc =? blocks_of (BlockBounds.nrbx3 pm) ll - 1)
              then mb outer_x3 else -1]>
   (<[4%nat := if (BlockBounds.nx3 ms =? 1) || (lx3 loc =? 0)
               then mb inner_x3 else -1]>
   (<[3%nat := if (BlockBounds.nx2 ms =? 1)
                  || (lx2 loc =? blocks_of (BlockBounds.nrbx2 pm) ll - 1)
               then mb outer_x2 else -1]>
   (<[2%nat := if (BlockBounds.nx2 ms =? 1) || (lx2 loc =? 0)
               then mb inner_x2 else -1]>
   (<[1%nat := if lx1 loc =? blocks_of (BlockBounds.nrbx1 pm) ll - 1
               then mb outer_x1 else -1]>
   (<[0%nat := if lx1 loc =? 0 then mb inner_x1 else -1]> bcs)))))).
Proof.
  intros ms mb rl ll. subst ms mb rl ll.
  unfold BlockBounds.SetBlockSizeAndBoundaries.
  destruct (lx1 loc =? 0), (lx1 loc =? _), (BlockBounds.nx2 _ =? 1),
    (lx2 loc =? 0), (lx2 loc =? _), (BlockBounds.nx3 _ =? 1),
    (lx3 loc =? 0), (lx3 loc =? _); reflexivity.
Qed.

(** The boundary codes are those of the short form of the function that
    the neighbour search of the sample meshes uses. *)
Lemma SetBlockSizeAndBoundaries_codes (loc : LogicalLocation)
    (bs : BlockBounds.RegionSize) (bcs : list Z) :
  length bcs = 6%nat ->
  (set_block loc bs bcs).2
  = Tree.SetBlockSizeAndBoundaries
      (Tree.mkRootGrid (BlockBounds.nrbx1 pm) (BlockBounds.nrbx2 pm)
         (BlockBounds.nrbx3 pm) (BlockBounds.root_level pm))
      (BlockBounds.nx2 (BlockBounds.mesh_size pm))
      (BlockBounds.nx3 (BlockBounds.mesh_size pm))
      (BlockBounds.mesh_bcs pm) loc.
Proof.
  intros Hl. rewrite SetBlockSizeAndBoundaries_fields. cbn [snd].
  destruct bcs as [|a0 [|a1 [|a2 [|a3 [|a4 [|a5 [|]]]]]]]; try discriminate.
  unfold Tree.SetBlockSizeAndBoundaries, Tree.extent.
  cbn [Tree.nrbx1 Tree.nrbx2 Tree.nrbx3 Tree.root_level BlockBounds.face].
  change (Z.to_nat 0) with 0%nat. change (Z.to_nat (0 + 1)) with 1%nat.
  change (Z.to_nat 2) with 2%nat. change (Z.to_nat (2 + 1)) with 3%nat.
  change (Z.to_nat 4) with 4%nat. change (Z.to_nat (4 + 1)) with 5%nat.
  destruct (BlockBounds.nx2 _ =? 1), (BlockBounds.nx3 _ =? 1);
    reflexivity.
Qed.

(** The faces of a block along the three axes. *)
Lemma set_block_tiles (loc : LogicalLocation)
    (bs bs' : BlockBounds.RegionSize) (bcs bcs' : list Z) :
  length bcs = 6%nat -> length bcs' = 6%nat ->
  BlockBounds.root_level pm <= level loc ->
  0 <= lx1 loc -> 0 <= lx2 loc -> 0 <= lx3 loc ->
  let ms := BlockBounds.mesh_size pm in
  let A := set_block loc bs bcs in
  (lx1 loc = 0 -> BlockBounds.x1min A.1 = BlockBounds.x1min ms) /\
  (lx1 loc = blocks_of (BlockBounds.nrbx1 pm) (level loc) - 1 ->
   BlockBounds.x1max A.1 = BlockBounds.x1max ms) /\
  (lx1 loc + 1 < blocks_of (BlockBounds.nrbx1 pm) (level loc) ->
   let B := set_block (mkLoc (lx1 loc + 1) (lx2 loc) (lx3 loc) (level loc))
                      bs' bcs' in
   BlockBounds.x1max A.1 = BlockBounds.x1min B.1 /\
   A.2 !! BlockBounds.face outer_x1 = Some (-1) /\
   B.2 !! BlockBounds.face inner_x1 = Some (-1)) /\
  (BlockBounds.nx2 ms <> 1 ->
   (lx2 loc = 0 -> BlockBounds.x2min A.1 = BlockBounds.x2min ms) /\
   (lx2 loc = blocks_of (BlockBounds.nrbx2 pm) (level loc) - 1 ->
    BlockBounds.x2max A.1 = BlockBounds.x2max ms) /\
   (lx2 loc + 1 < blocks_of (BlockBounds.nrbx2 pm) (level loc) ->
    let B := set_block (mkLoc (lx1 loc) (lx2 loc + 1) (lx3 loc) (level loc))
                       bs' bcs' in
    BlockBounds.x2max A.1 = BlockBounds.x2min B.1 /\
    A.2 !! BlockBounds.face outer_x2 = Some (-1) /\
    B.2 !! BlockBounds.face inner_x2 = Some (-1))) /\
  (BlockBounds.nx3 ms <> 1 ->
   (lx3 loc = 0 -> BlockBounds.x3min A.1 = BlockBounds.x3min ms) /\
   (lx3 loc = blocks_of (BlockBounds.nrbx3 pm) (level loc) - 1 ->
    BlockBounds.x3max A.1 = BlockBounds.x3max ms) /\
   (lx3 loc + 1 < blocks_of (BlockBounds.nrbx3 pm) (level loc) ->
    let B := set_block (mkLoc (lx1 loc) (lx2 loc) (lx3 loc + 1) (level loc))
                       bs' bcs' in
    BlockBounds.x3max A.1 = BlockBounds.x3min B.1 /\
    A.2 !! BlockBounds.face outer_x3 = Some (-1) /\
    B.2 !! BlockBounds.face inner_x3 = Some (-1))).
Proof.
  intros Hl Hl' Hlev H1 H2 H3 ms A. subst A ms.
  rewrite !SetBlockSizeAndBoundaries_fields.
  cbn [fst snd lx1 lx2 lx3 level BlockBounds.face
       BlockBounds.x1min BlockBounds.x1max BlockBounds.x2min
       BlockBounds.x2max BlockBounds.x3min BlockBounds.x3max].
  assert (Hget : forall (l : list Z) (i : nat) v0 v1 v2 v3 v4 v5,
            length l = 6%nat -> (i < 6)%nat ->
            (<[5%nat := v5]> (<[4%nat := v4]> (<[3%nat := v3]>
              (<[2%nat := v2]> (<[1%nat := v1]> (<[0%nat := v0]> l))))))
            !! i = Some (nth i [v0; v1; v2; v3; v4; v5] 0)).
  { intros l i v0 v1 v2 v3 v4 v5 Hlen Hi.
    destruct l as [|a0 [|a1 [|a2 [|a3 [|a4 [|a5 [|]]]]]]]; try discriminate.
    do 6 (destruct i as [|i]; [reflexivity|]). lia. }
  rewrite !Hget by first [assumption | lia]. cbn [nth].
  split_and!; intros;
    repeat match goal with
    | |- context [?a =? ?b] => destruct (Z.eqb_spec a b)
    end; cbn [orb]; intros; try lia; repeat split; try reflexivity; lia.
Qed.

End Tiling.

(** X15: [SetBlockSizeAndBoundaries] makes the blocks of a level tile the
    mesh along each axis of the problem: the first block starts at the
    lower edge of the mesh and the last one ends at its upper edge; a block
    that is not the last one ends where the next block starts, at the same
    value of the mesh generator, and the boundary code of that face is -1
    in both blocks. *)
Theorem SetBlockSizeAndBoundaries_tiles
    (G1 G2 G3 : Real -> BlockBounds.RegionSize -> Real)
    (pm : BlockBounds.Mesh) (loc : LogicalLocation)
    (bs bs' : BlockBounds.RegionSize) (bcs bcs' : list Z) :
  length bcs = 6%nat -> length bcs' = 6%nat ->
  BlockBounds.root_level pm <= level loc ->
  0 <= lx1 loc -> 0 <= lx2 loc -> 0 <= lx3 loc ->
  let ms := BlockBounds.mesh_size pm in
  let A := BlockBounds.SetBlockSizeAndBoundaries G1 G2 G3 pm loc bs bcs in
  (lx1 loc = 0 -> BlockBounds.x1min A.1 = BlockBounds.x1min ms) /\
  (lx1 loc = Z.shiftl (BlockBounds.nrbx1 pm) (level loc - BlockBounds.root_level pm) - 1 ->
   BlockBounds.x1max A.1 = BlockBounds.x1max ms) /\
  (lx1 loc + 1 < Z.shiftl (BlockBounds.nrbx1 pm) (level loc - BlockBounds.root_level pm) ->
   let B := BlockBounds.SetBlockSizeAndBoundaries G1 G2 G3 pm (mkLoc (lx1 loc + 1) (lx2 loc) (lx3 loc) (level loc))
                      bs' bcs' in
   BlockBounds.x1max A.1 = BlockBounds.x1min B.1 /\
   A.2 !! BlockBounds.face outer_x1 = Some (-1) /\
   B.2 !! BlockBounds.face inner_x1 = Some (-1)) /\
  (BlockBounds.nx2 ms <> 1 ->
   (lx2 loc = 0 -> BlockBounds.x2min A.1 = BlockBounds.x2min ms) /\
   (lx2 loc = Z.shiftl (BlockBounds.nrbx2 pm) (level loc - BlockBounds.root_level pm) - 1 ->
    BlockBounds.x2max A.1 = BlockBounds.x2max ms) /\
   (lx2 loc + 1 < Z.shiftl (BlockBounds.nrbx2 pm) (level loc - BlockBounds.root_level pm) ->
    let B := BlockBounds.SetBlockSizeAndBoundaries G1 G2 G3 pm (mkLoc (lx1 loc) (lx2 loc + 1) (lx3 loc) (level loc))
                       bs' bcs' in
    BlockBounds.x2max A.1 = BlockBounds.x2min B.1 /\
    A.2 !! BlockBounds.face outer_x2 = Some (-1) /\
    B.2 !! BlockBounds.face inner_x2 = Some (-1))) /\
  (BlockBounds.nx3 ms <> 1 ->
   (lx3 loc = 0 -> BlockBounds.x3min A.1 = BlockBounds.x3min ms) /\
   (lx3 loc = Z.shiftl (BlockBounds.nrbx3 pm) (level loc - BlockBounds.root_level pm) - 1 ->
    BlockBounds.x3max A.1 = BlockBounds.x3max ms) /\
   (lx3 loc + 1 < Z.shiftl (BlockBounds.nrbx3 pm) (level loc - BlockBounds.root_level pm) ->
    let B := BlockBounds.SetBlockSizeAndBoundaries G1 G2 G3 pm (mkLoc (lx1 loc) (lx2 loc) (lx3 loc + 1) (level loc))
                       bs' bcs' in
    BlockBounds.x3max A.1 = BlockBounds.x3min B.1 /\
    A.2 !! BlockBounds.face outer_x3 = Some (-1) /\
    B.2 !! BlockBounds.face inner_x3 = Some (-1))).
Proof.
  intros Hl Hl' Hlev H1 H2 H3.
  exact (set_block_tiles G1 G2 G3 pm loc bs bs' bcs bcs' Hl Hl' Hlev
           H1 H2 H3).
Qed.

(** The sample mesh at its root level, a grid of four by two blocks: the
    block at (1, 0) ends at x1 = 1/2, where the block at (2, 0) starts. *)
Lemma SetBlockSizeAndBoundaries_tiles_witness :
  let set_block :=
    BlockBounds.SetBlockSizeAndBoundaries SampleRun.generator
      SampleRun.generator SampleRun.generator SampleRun.bounds in
  let bs := BlockBounds.mkRegionSize 0 0 0 0 0 0 (1#1) (1#1) (1#1) 4 4 1 in
  let A := set_block (mkLoc 1 0 0 2) bs [0; 0; 0; 0; 0; 0] in
  let B := set_block (mkLoc 2 0 0 2) bs [0; 0; 0; 0; 0; 0] in
  BlockBounds.x1max A.1 = BlockBounds.x1min B.1 /\
  A.2 !! BlockBounds.face outer_x1 = Some (-1) /\
  B.2 !! BlockBounds.face inner_x1 = Some (-1).
Proof.
  intros set_block bs A B.
  pose proof (SetBlockSizeAndBoundaries_tiles SampleRun.generator
                SampleRun.generator SampleRun.generator SampleRun.bounds
                (mkLoc 1 0 0 2) bs bs [0; 0; 0; 0; 0; 0] [0; 0; 0; 0; 0; 0]
                eq_refl eq_refl ltac:(vm_compute; discriminate)
                ltac:(vm_compute; discriminate)
                ltac:(vm_compute; discriminate)
                ltac:(vm_compute; discriminate))
    as (_ & _ & Hnext & _).
  apply Hnext. vm_compute. reflexivity.
Defined.

(** ** Adaptive mesh refinement: the buffers of a block that changes level *)

Lemma length_zrange (lo hi : Z) :
  length (zrange lo hi) = Z.to_nat (hi - lo + 1).
Proof. unfold zrange. rewrite length_map, length_seq. reflexivity. Qed.

Lemma zrange_shift (d lo hi : Z) :
  zrange (lo + d) (hi + d) = map (fun x => x + d) (zrange lo hi).
Proof.
  unfold zrange. rewrite map_map.
  replace (hi + d - (lo + d) + 1) with (hi - lo + 1) by lia.
  apply map_ext. intros k. lia.
Qed.

Lemma length_bind_const {A B} (f : A -> list B) (l : list A) (c : nat) :
  (forall x, length (f x) = c) -> length (l ≫= f) = (length l * c)%nat.
Proof.
  intros Hf. induction l as [|x l IH]; [reflexivity|].
  rewrite bind_cons, length_app, Hf, IH. cbn [length]. lia.
Qed.

Lemma bind_map_shift {A B} (f g : A -> list B) (h : A -> A) (k : B -> B)
    (l : list A) :
  (forall x, f (h x) = map k (g x)) ->
  map h l ≫= f = map k (l ≫= g).
Proof.
  intros Hf. induction l as [|x l IH]; [reflexivity|].
  cbn [map]. rewrite !bind_cons, map_app, Hf, IH. reflexivity.
Qed.

(** The cells of a box, in the order k, j, i of the pack loops. *)
Lemma length_box {B} (g : Z -> Z -> Z -> B) (si ei sj ej sk ek : Z) :
  length (k ← zrange sk ek; j ← zrange sj ej; i ← zrange si ei; [g k j i])
  = (Z.to_nat (ek - sk + 1) * (Z.to_nat (ej - sj + 1)
     * Z.to_nat (ei - si + 1)))%nat.
Proof.
  rewrite (length_bind_const _ _
             (Z.to_nat (ej - sj + 1) * Z.to_nat (ei - si + 1))),
    length_zrange; [reflexivity|].
  intros k. rewrite (length_bind_const _ _ (Z.to_nat (ei - si + 1))),
    length_zrange; [reflexivity|].
  intros j. rewrite (length_bind_const _ _ 1), length_zrange; [lia|].
  reflexivity.
Qed.

Lemma box_shift {B} (g g' : Z -> Z -> Z -> B) (h : B -> B)
    (d1 d2 d3 si ei sj ej sk ek : Z) :
  (forall k j i, g' (k + d3) (j + d2) (i + d1) = h (g k j i)) ->
  (k ← zrange (sk + d3) (ek + d3); j ← zrange (sj + d2) (ej + d2);
   i ← zrange (si + d1) (ei + d1); [g' k j i])
  = map h (k ← zrange sk ek; j ← zrange sj ej; i ← zrange si ei; [g k j i]).
Proof.
  intros Hg. rewrite !zrange_shift.
  apply bind_map_shift. intros k.
  apply bind_map_shift. intros j.
  apply bind_map_shift. intros i. cbn [map]. rewrite Hg. reflexivity.
Qed.

Lemma length_Pack3DData (a : Migration.array) (si ei sj ej sk ek : Z) :
  length (Migration.Pack3DData a si ei sj ej sk ek)
  = (Z.to_nat (ek - sk + 1) * (Z.to_nat (ej - sj + 1)
     * Z.to_nat (ei - si + 1)))%nat.
Proof. apply length_box. Qed.

Lemma length_Pack4DData (a : Migration.array) (sn en si ei sj ej sk ek : Z) :
  length (Migration.Pack4DData a sn en si ei sj ej sk ek)
  = (Z.to_nat (en - sn + 1) * (Z.to_nat (ek - sk + 1)
     * (Z.to_nat (ej - sj + 1) * Z.to_nat (ei - si + 1))))%nat.
Proof.
  unfold Migration.Pack4DData.
  rewrite (length_bind_const _ _
             (Z.to_nat (ek - sk + 1) * (Z.to_nat (ej - sj + 1)
              * Z.to_nat (ei - si + 1)))),
    length_zrange; [reflexivity|].
  intros n. apply length_box.
Qed.

Lemma Pack3DData_shift (a : Migration.array) (d1 d2 d3 si ei sj ej sk ek : Z) :
  Migration.Pack3DData a (si + d1) (ei + d1) (sj + d2) (ej + d2)
    (sk + d3) (ek + d3)
  = map (Transfer.shift_cell d1 d2 d3)
        (Migration.Pack3DData a si ei sj ej sk ek).
Proof. apply box_shift. reflexivity. Qed.

Lemma Pack4DData_shift (a : Migration.array)
    (d1 d2 d3 sn en si ei sj ej sk ek : Z) :
  Migration.Pack4DData a sn en (si + d1) (ei + d1) (sj + d2) (ej + d2)
    (sk + d3) (ek + d3)
  = map (Transfer.shift_cell d1 d2 d3)
        (Migration.Pack4DData a sn en si ei sj ej sk ek).
Proof.
  unfold Migration.Pack4DData.
  rewrite <- (map_id (zrange sn en)) at 1.
  apply bind_map_shift. intros n. apply box_shift. reflexivity.
Qed.

(** The cells of [u] and of the face arrays over a box of [c1*c2*c3]
    cells. *)
Lemma length_pack_faces (NHYDRO : Z) (M : bool) (ms : Migration.RegionSize)
    (is_ ie js je ks ke : Z) :
  0 <= NHYDRO -> 0 <= ie - is_ + 1 -> 0 <= je - js + 1 -> 0 <= ke - ks + 1 ->
  let c1 := ie - is_ + 1 in
  let c2 := je - js + 1 in
  let c3 := ke - ks + 1 in
  Z.of_nat (length (Transfer.pack_faces NHYDRO M ms (is_, ie, js, je, ks, ke)))
  = c1 * c2 * c3 * NHYDRO
    + (if M then (c1 + 1) * c2 * c3 + c1 * (c2 + Migration.f2 ms) * c3
                 + c1 * c2 * (c3 + Migration.f3 ms)
       else 0).
Proof.
  intros HN H1 H2 H3 c1 c2 c3. subst c1 c2 c3. unfold Transfer.pack_faces.
  assert (Hf2 : 0 <= Migration.f2 ms <= 1)
    by (unfold Migration.f2; destruct (1 <? _); lia).
  assert (Hf3 : 0 <= Migration.f3 ms <= 1)
    by (unfold Migration.f3; destruct (1 <? _); lia).
  destruct M.
  - rewrite !length_app, length_Pack4DData, !length_Pack3DData.
    rewrite !Nat2Z.inj_add, !Nat2Z.inj_mul.
    repeat match goal with
    | |- context [Z.of_nat (Z.to_nat ?x)] => rewrite (Z2Nat.id x) by lia
    end.
    ring.
  - rewrite length_app, length_Pack4DData. cbn [length].
    rewrite !Nat2Z.inj_add, !Nat2Z.inj_mul.
    repeat match goal with
    | |- context [Z.of_nat (Z.to_nat ?x)] => rewrite (Z2Nat.id x) by lia
    end.
    cbn [Z.of_nat]. ring.
Qed.

Lemma pack_faces_shift (NHYDRO : Z) (M : bool) (ms : Migration.RegionSize)
    (d1 d2 d3 is_ ie js je ks ke : Z) :
  Transfer.pack_faces NHYDRO M ms
    (is_ + d1, ie + d1, js + d2, je + d2, ks + d3, ke + d3)
  = map (Transfer.shift_cell d1 d2 d3)
        (Transfer.pack_faces NHYDRO M ms (is_, ie, js, je, ks, ke)).
Proof.
  unfold Transfer.pack_faces. rewrite map_app, Pack4DData_shift.
  f_equal. destruct M; [|reflexivity].
  rewrite !map_app, <- !Pack3DData_shift.
  replace (ie + d1 + 1) with (ie + 1 + d1) by lia.
  replace (je + d2 + Migration.f2 ms) with (je + Migration.f2 ms + d2) by lia.
  replace (ke + d3 + Migration.f3 ms) with (ke + Migration.f3 ms + d3) by lia.
  reflexivity.
Qed.

Lemma even_axis_half (NGHOST n f s e cs ce : Z) :
  even_axis NGHOST n f s e cs ce ->
  n = 2 * Z.quot n 2 + (1 - f) /\ Z.quot (n + 1) 2 = Z.quot n 2 + (1 - f) /\
  0 <= Z.quot n 2 /\ 0 <= f <= 1 /\ e = s + n - 1 /\
  ce = cs + Z.quot (n + 1) 2 - 1.
Proof.
  intros [(-> & -> & -> & -> & -> & ->)|(Hn & Hr & -> & -> & -> & ->)].
  - repeat split; reflexivity || lia.
  - pose proof (Z.quot_rem' n 2) as Hq. rewrite Hr in Hq.
    assert (Hh : Z.quot (n + 1) 2 = Z.quot n 2).
    { symmetry. apply (Z.quot_unique (n + 1) 2 (Z.quot n 2) 1); lia. }
    rewrite Hh. repeat split; lia.
Qed.

Lemma c2f_axis (NGHOST n f s e cs ce ox : Z) :
  even_axis NGHOST n f s e cs ce ->
  let b := if ox =? 0 then (s - f, s + Z.quot n 2)
           else (s + Z.quot n 2 - f, e + f) in
  b.2 - b.1 + 1 = Z.quot (n + 1) 2 + 2 * f /\
  cs - f = b.1 + (cs - f - b.1) /\ ce + f = b.2 + (cs - f - b.1).
Proof.
  intros H. apply even_axis_half in H as (H1 & H2 & H3 & H4 & H5 & H6).
  destruct (ox =? 0); cbn [fst snd]; lia.
Qed.

Lemma f2c_axis (NGHOST n f s e cs ce ox : Z) :
  even_axis NGHOST n f s e cs ce ->
  let b := if ox =? 0 then (s, s + Z.quot n 2 - f)
           else (s + Z.quot n 2, e) in
  ce - cs + 1 = Z.quot (n + 1) 2 /\
  b.1 = cs + (b.1 - cs) /\ b.2 = ce + (b.1 - cs).
Proof.
  intros H. apply even_axis_half in H as (H1 & H2 & H3 & H4 & H5 & H6).
  destruct (ox =? 0); cbn [fst snd]; lia.
Qed.

Section EvenBlocks.

Variables (NGHOST NHYDRO : Z) (M : bool).
Variables (ms bs : Migration.RegionSize).
Hypothesis HN : 0 <= NHYDRO.
Hypothesis Hnx1 : 0 < Migration.nx1 bs /\ Z.rem (Migration.nx1 bs) 2 = 0.
Hypothesis Hnx2 : Migration.nx2 bs = 1 \/
  (1 < Migration.nx2 bs /\ Z.rem (Migration.nx2 bs) 2 = 0).
Hypothesis Hnx3 : Migration.nx3 bs = 1 \/
  (1 < Migration.nx3 bs /\ Z.rem (Migration.nx3 bs) 2 = 0).
Hypothesis Hf2 : (1 <? Migration.nx2 ms) = (1 <? Migration.nx2 bs).
Hypothesis Hf3 : (1 <? Migration.nx3 ms) = (1 <? Migration.nx3 bs).

Local Abbreviation pb := (Migration.new_MeshBlock NGHOST bs).
Local Abbreviation c := (Transfer.coarse_indices NGHOST bs).

Lemma new_MeshBlock_size : Migration.block_size pb = bs.
Proof.
  unfold Migration.new_MeshBlock.
  destruct (1 <? Migration.nx2 bs), (1 <? Migration.nx3 bs); reflexivity.
Qed.

Lemma axis1 :
  even_axis NGHOST (Migration.nx1 bs) 1 (Migration.is_ pb) (Migration.ie pb)
    (Transfer.cis c) (Transfer.cie c).
Proof.
  right. unfold Migration.new_MeshBlock, Transfer.coarse_indices.
  destruct (1 <? Migration.nx2 bs), (1 <? Migration.nx3 bs);
    cbn; repeat split; tauto || lia.
Qed.

Lemma axis2 :
  even_axis NGHOST (Migration.nx2 bs) (Migration.f2 ms)
    (Migration.js pb) (Migration.je pb) (Transfer.cjs c) (Transfer.cje c).
Proof.
  unfold even_axis, Migration.f2, Migration.new_MeshBlock,
    Transfer.coarse_indices. rewrite Hf2.
  destruct (Z.ltb_spec 1 (Migration.nx2 bs)), (1 <? Migration.nx3 bs);
    cbn; destruct Hnx2 as [?|[? ?]]; try lia;
    first [ left; repeat split; lia | right; repeat split; lia ].
Qed.

Lemma axis3 :
  even_axis NGHOST (Migration.nx3 bs) (Migration.f3 ms)
    (Migration.ks pb) (Migration.ke pb) (Transfer.cks c) (Transfer.cke c).
Proof.
  unfold even_axis, Migration.f3, Migration.new_MeshBlock,
    Transfer.coarse_indices. rewrite Hf3.
  destruct (1 <? Migration.nx2 bs), (Z.ltb_spec 1 (Migration.nx3 bs));
    cbn; destruct Hnx3 as [?|[? ?]]; try lia;
    first [ left; repeat split; lia | right; repeat split; lia ].
Qed.

Lemma c2f_transfer (lloc : LogicalLocation) :
  let sent := Transfer.pack_c2f NHYDRO M ms pb lloc in
  let '(is', _, js', _, ks', _) := Transfer.c2f_box ms pb lloc in
  Z.of_nat (length sent) = Transfer.bsc2f NHYDRO M ms pb /\
  Transfer.unpack_c2f NHYDRO M ms c
  = map (Transfer.shift_cell (Transfer.cis c - 1 - is')
           (Transfer.cjs c - Migration.f2 ms - js')
           (Transfer.cks c - Migration.f3 ms - ks')) sent.
Proof.
  unfold Transfer.pack_c2f, Transfer.unpack_c2f, Transfer.c2f_box,
    Transfer.bsc2f.
  rewrite !new_MeshBlock_size. cbv zeta.
  pose proof (c2f_axis _ _ _ _ _ _ _ (Z.land (lx1 lloc) 1) axis1) as A1.
  pose proof (c2f_axis _ _ _ _ _ _ _ (Z.land (lx2 lloc) 1) axis2) as A2.
  pose proof (c2f_axis _ _ _ _ _ _ _ (Z.land (lx3 lloc) 1) axis3) as A3.
  pose proof (even_axis_half _ _ _ _ _ _ _ axis1) as B1.
  pose proof (even_axis_half _ _ _ _ _ _ _ axis2) as B2.
  pose proof (even_axis_half _ _ _ _ _ _ _ axis3) as B3.
  cbv zeta in A1, A2, A3.
  destruct (if Z.land (lx1 lloc) 1 =? 0 then _ else _) as [is' ie'].
  destruct (if Z.land (lx2 lloc) 1 =? 0 then _ else _) as [js' je'].
  destruct (if Z.land (lx3 lloc) 1 =? 0 then _ else _) as [ks' ke'].
  cbn [fst snd] in A1, A2, A3.
  destruct A1 as (C1 & S1 & E1), A2 as (C2 & S2 & E2), A3 as (C3 & S3 & E3).
  cbv beta iota. split.
  - rewrite length_pack_faces by lia.
    cbv zeta. rewrite C1, C2, C3.
    destruct B1 as (_ & -> & _). destruct M; ring.
  - rewrite <- pack_faces_shift. f_equal.
    repeat match goal with |- (_, _) = (_, _) => f_equal end; lia.
Qed.

Lemma f2c_transfer (lloc : LogicalLocation) :
  let sent := Transfer.pack_f2c NHYDRO M ms c in
  let '(is', _, js', _, ks', _) := Transfer.f2c_box ms pb lloc in
  Z.of_nat (length sent) = Transfer.bsf2c NHYDRO M ms pb /\
  (M = false ->
   Transfer.unpack_f2c NHYDRO M ms pb lloc
   = map (Transfer.shift_cell (is' - Transfer.cis c) (js' - Transfer.cjs c)
            (ks' - Transfer.cks c)) sent).
Proof.
  unfold Transfer.pack_f2c, Transfer.unpack_f2c, Transfer.f2c_box,
    Transfer.bsf2c.
  rewrite !new_MeshBlock_size. cbv zeta.
  pose proof (f2c_axis _ _ _ _ _ _ _ (Z.land (lx1 lloc) 1) axis1) as A1.
  pose proof (f2c_axis _ _ _ _ _ _ _ (Z.land (lx2 lloc) 1) axis2) as A2.
  pose proof (f2c_axis _ _ _ _ _ _ _ (Z.land (lx3 lloc) 1) axis3) as A3.
  pose proof (even_axis_half _ _ _ _ _ _ _ axis1) as B1.
  pose proof (even_axis_half _ _ _ _ _ _ _ axis2) as B2.
  pose proof (even_axis_half _ _ _ _ _ _ _ axis3) as B3.
  cbv zeta in A1, A2, A3.
  destruct (if Z.land (lx1 lloc) 1 =? 0 then _ else _) as [is' ie'].
  destruct (if Z.land (lx2 lloc) 1 =? 0 then _ else _) as [js' je'].
  destruct (if Z.land (lx3 lloc) 1 =? 0 then _ else _) as [ks' ke'].
  cbn [fst snd] in A1, A2, A3.
  destruct A1 as (C1 & S1 & E1), A2 as (C2 & S2 & E2), A3 as (C3 & S3 & E3).
  cbv beta iota. split.
  - rewrite length_pack_faces by lia.
    cbv zeta. rewrite C1, C2, C3.
    destruct B1 as (_ & -> & _). destruct M; ring.
  - intros ->. unfold Transfer.pack_faces. rewrite !app_nil_r.
    rewrite <- Pack4DData_shift. congruence.
Qed.

End EvenBlocks.

(** X16: for blocks with an even number of cells along every axis of the
    problem, the cells that a refined block packs for one of its children
    fill the buffer of [bsc2f] reals exactly, and the receiver unpacks the
    same cells in the same order into its coarse arrays: the list it reads
    is the list sent, moved by the constant offset between the corner of
    the part sent and the corner of the coarse box. *)
Theorem c2f_buffer_layout (NGHOST NHYDRO : Z) (M : bool)
    (ms bs : Migration.RegionSize) (lloc : LogicalLocation) :
  0 <= NHYDRO ->
  0 < Migration.nx1 bs /\ Z.rem (Migration.nx1 bs) 2 = 0 ->
  Migration.nx2 bs = 1 \/
    (1 < Migration.nx2 bs /\ Z.rem (Migration.nx2 bs) 2 = 0) ->
  Migration.nx3 bs = 1 \/
    (1 < Migration.nx3 bs /\ Z.rem (Migration.nx3 bs) 2 = 0) ->
  (1 <? Migration.nx2 ms) = (1 <? Migration.nx2 bs) ->
  (1 <? Migration.nx3 ms) = (1 <? Migration.nx3 bs) ->
  let pb := Migration.new_MeshBlock NGHOST bs in
  let c := Transfer.coarse_indices NGHOST bs in
  let sent := Transfer.pack_c2f NHYDRO M ms pb lloc in
  let '(is', _, js', _, ks', _) := Transfer.c2f_box ms pb lloc in
  Z.of_nat (length sent) = Transfer.bsc2f NHYDRO M ms pb /\
  Transfer.unpack_c2f NHYDRO M ms c
  = map (Transfer.shift_cell (Transfer.cis c - 1 - is')
           (Transfer.cjs c - Migration.f2 ms - js')
           (Transfer.cks c - Migration.f3 ms - ks')) sent.
Proof. intros. apply c2f_transfer; assumption. Qed.

(** X17: for blocks with an even number of cells along every axis of the
    problem, the restricted cells that a derefined block packs fill the
    buffer of [bsf2c] reals exactly; without magnetic fields the receiver
    unpacks the same cells in the same order into the part of the new
    block that the sender covered. *)
Theorem f2c_buffer_layout (NGHOST NHYDRO : Z) (M : bool)
    (ms bs : Migration.RegionSize) (lloc : LogicalLocation) :
  0 <= NHYDRO ->
  0 < Migration.nx1 bs /\ Z.rem (Migration.nx1 bs) 2 = 0 ->
  Migration.nx2 bs = 1 \/
    (1 < Migration.nx2 bs /\ Z.rem (Migration.nx2 bs) 2 = 0) ->
  Migration.nx3 bs = 1 \/
    (1 < Migration.nx3 bs /\ Z.rem (Migration.nx3 bs) 2 = 0) ->
  (1 <? Migration.nx2 ms) = (1 <? Migration.nx2 bs) ->
  (1 <? Migration.nx3 ms) = (1 <? Migration.nx3 bs) ->
  let pb := Migration.new_MeshBlock NGHOST bs in
  let c := Transfer.coarse_indices NGHOST bs in
  let sent := Transfer.pack_f2c NHYDRO M ms c in
  let '(is', _, js', _, ks', _) := Transfer.f2c_box ms pb lloc in
  Z.of_nat (length sent) = Transfer.bsf2c NHYDRO M ms pb /\
  (M = false ->
   Transfer.unpack_f2c NHYDRO M ms pb lloc
   = map (Transfer.shift_cell (is' - Transfer.cis c) (js' - Transfer.cjs c)
            (ks' - Transfer.cks c)) sent).
Proof. intros. apply f2c_transfer; assumption. Qed.

(** Blocks of 4x4 cells in a mesh of 16x8 cells, two ghost cells, five
    hydro variables and magnetic fields; the child at [lx1 = 1]. *)
Lemma c2f_buffer_layout_witness :
  let ms := Migration.mkRegionSize 16 8 1 in
  let bs := Migration.mkRegionSize 4 4 1 in
  let pb := Migration.new_MeshBlock 2 bs in
  let c := Transfer.coarse_indices 2 bs in
  let sent := Transfer.pack_c2f 5 true ms pb (mkLoc 1 0 0 3) in
  Transfer.bsc2f 5 true ms pb = 136 /\
  Z.of_nat (length sent) = Transfer.bsc2f 5 true ms pb /\
  Transfer.unpack_c2f 5 true ms c
  = map (Transfer.shift_cell (-2) 0 0) sent.
Proof.
  intros ms bs pb c sent.
  split; [vm_compute; reflexivity|].
  exact (c2f_buffer_layout 2 5 true ms bs (mkLoc 1 0 0 3)
           ltac:(vm_compute; discriminate)
           (conj eq_refl eq_refl)
           (or_intror (conj eq_refl eq_refl))
           (or_introl eq_refl) eq_refl eq_refl).
Defined.

Lemma f2c_buffer_layout_witness :
  let ms := Migration.mkRegionSize 16 8 1 in
  let bs := Migration.mkRegionSize 4 4 1 in
  let pb := Migration.new_MeshBlock 2 bs in
  let c := Transfer.coarse_indices 2 bs in
  Transfer.bsf2c 5 true ms pb = 36 /\
  Z.of_nat (length (Transfer.pack_f2c 5 true ms c))
  = Transfer.bsf2c 5 true ms pb /\
  Transfer.unpack_f2c 5 false ms pb (mkLoc 1 0 0 3)
  = map (Transfer.shift_cell 2 0 0) (Transfer.pack_f2c 5 false ms c).
Proof.
  intros ms bs pb c.
  split; [vm_compute; reflexivity|].
  split.
  - exact (proj1 (f2c_buffer_layout 2 5 true ms bs (mkLoc 1 0 0 3)
             ltac:(vm_compute; discriminate)
             (conj eq_refl eq_refl)
             (or_intror (conj eq_refl eq_refl))
             (or_introl eq_refl) eq_refl eq_refl)).
  - exact (proj2 (f2c_buffer_layout 2 5 false ms bs (mkLoc 1 0 0 3)
             ltac:(vm_compute; discriminate)
             (conj eq_refl eq_refl)
             (or_intror (conj eq_refl eq_refl))
             (or_introl eq_refl) eq_refl eq_refl) eq_refl).
Defined.

(** ** Adaptive mesh refinement: the buffers of the exchange *)

Lemma get_Some_lt {A} (a : list A) (i : Z) (x : A) :
  Plan.get a i = Some x -> 0 <= i < Z.of_nat (length a).
Proof.
  unfold Plan.get. destruct (Z.ltb_spec i 0) as [Hi|Hi]; [discriminate|].
  intros Hx. apply lookup_lt_Some in Hx. lia.
Qed.

Lemma get_is_Some {A} (a : list A) (i : Z) :
  0 <= i < Z.of_nat (length a) -> is_Some (Plan.get a i).
Proof.
  intros Hi. unfold Plan.get. destruct (Z.ltb_spec i 0); [lia|].
  apply lookup_lt_is_Some_2. lia.
Qed.

Lemma get_same_length {A B} (a : list A) (b : list B) (i : Z) (x : A) :
  length a = length b -> Plan.get a i = Some x -> is_Some (Plan.get b i).
Proof.
  intros Hl H. apply get_is_Some. rewrite <- Hl. eapply get_Some_lt, H.
Qed.

Section Buffers.

Variables my_rank nlbl : Z.
Variables loclist newloc : list LogicalLocation.
Variables ranklist newrank newtoold oldtonew nslist : list Z.
Variables bssame bsf2c bsc2f : Z.
Variable nbs : Z.

Hypothesis Hold : length loclist = length ranklist.
Hypothesis Hnew : length newloc = length newrank.
Hypothesis Hranks : forall i r, Plan.get newrank i = Some r ->
  is_Some (Plan.get nslist r).

Local Abbreviation unpacked_as :=
  (Plan.unpacked_as bssame bsf2c bsc2f nbs).
Local Abbreviation count_recv :=
  (Plan.count_recv my_rank nlbl loclist newloc ranklist newtoold).
Local Abbreviation post_recv :=
  (Plan.post_recv my_rank nlbl loclist newloc ranklist newtoold
     bssame bsf2c bsc2f nbs).
Local Abbreviation unpack_block :=
  (Plan.unpack_block my_rank nlbl loclist newloc ranklist newtoold).
Local Abbreviation count_send :=
  (Plan.count_send my_rank nlbl loclist newloc newrank oldtonew).
Local Abbreviation send_block :=
  (Plan.send_block my_rank nlbl loclist newloc newrank oldtonew nslist
     bssame bsf2c bsc2f).

Lemma recv_children (n on : Z) (ks : list Z) (c c' : Z)
    (P : list Plan.message) (D : list (Plan.transfer * Z * (Z * Z * Z))) :
  Plan.loopM (fun nrecv k =>
                r ← Plan.get ranklist (on + k);
                Some (if negb (r =? my_rank) then nrecv + 1 else nrecv))
    c ks = Some c' ->
  Forall2 unpacked_as P D ->
  exists P' D',
    Plan.loopM (fun posted l =>
                  r ← Plan.get ranklist (on + l);
                  if r =? my_rank then Some posted
                  else
                    lloc ← Plan.get loclist (on + l);
                    let '(ox1, ox2, ox3) := Plan.octant lloc in
                    Some (posted ++ [Plan.mkMessage r (n - nbs, ox1, ox2, ox3)
                                       bsf2c]))
      P ks = Some P' /\
    Plan.loopM (fun done l =>
                  r ← Plan.get ranklist (on + l);
                  if r =? my_rank then Some done
                  else
                    lloc ← Plan.get loclist (on + l);
                    Some (done ++ [(Plan.f2c, n, Plan.octant lloc)]))
      D ks = Some D' /\
    Z.of_nat (length P') = Z.of_nat (length P) + (c' - c) /\
    Forall2 unpacked_as P' D'.
Proof using All.
  revert c P D. induction ks as [|k ks IH]; intros c P D Hc HF.
  - cbn in Hc. injection Hc as <-. exists P, D. cbn. split_and!; auto. lia.
  - cbn [Plan.loopM] in *.
    destruct (Plan.get ranklist (on + k)) as [r|] eqn:Hr; [|discriminate].
    cbn [mbind option_bind] in *.
    destruct (r =? my_rank); cbn [negb] in Hc.
    + destruct (IH c P D Hc HF) as (P' & D' & H1 & H2 & H3 & H4).
      exists P', D'. auto.
    + destruct (get_same_length ranklist loclist (on + k) r
                  (eq_sym Hold) Hr) as [lloc Hl].
      rewrite Hl. cbn [mbind option_bind].
      destruct (Plan.octant lloc) as [[o1 o2] o3] eqn:Ho.
      destruct (IH (c + 1)
                  (P ++ [Plan.mkMessage r (n - nbs, o1, o2, o3) bsf2c])
                  (D ++ [(Plan.f2c, n, (o1, o2, o3))]) Hc)
        as (P' & D' & H1 & H2 & H3 & H4).
      { apply Forall2_app; [exact HF|]. constructor; [|constructor].
        cbn. auto. }
      exists P', D'. rewrite length_app in H3. cbn [length] in H3.
      split_and!; auto. lia.
Qed.

Lemma recv_block (n c c' : Z) (P : list Plan.message)
    (D : list (Plan.transfer * Z * (Z * Z * Z))) :
  count_recv c n = Some c' ->
  Forall2 unpacked_as P D ->
  exists P' D',
    post_recv P n = Some P' /\ unpack_block D n = Some D' /\
    Z.of_nat (length P') = Z.of_nat (length P) + (c' - c) /\
    Forall2 unpacked_as P' D'.
Proof using All.
  unfold Plan.count_recv, Plan.post_recv, Plan.unpack_block.
  intros Hc HF.
  destruct (Plan.get newtoold n) as [on|]; [|discriminate].
  cbn [mbind option_bind] in *.
  destruct (Plan.get loclist on) as [oloc|]; [|discriminate].
  cbn [mbind option_bind] in *.
  destruct (Plan.get newloc n) as [nloc|]; [|discriminate].
  cbn [mbind option_bind] in *.
  destruct (Z.ltb_spec (level nloc) (level oloc)) as [Hlt|Hge].
  - destruct (Z.eqb_spec (level oloc) (level nloc)); [lia|].
    exact (recv_children n on _ c c' P D Hc HF).
  - destruct (Plan.get ranklist on) as [r|]; [|discriminate].
    cbn [mbind option_bind] in *. injection Hc as <-.
    destruct (r =? my_rank); cbn [negb].
    + destruct (level oloc =? level nloc); exists P, D; split_and!; auto; lia.
    + destruct (Z.eqb_spec (level oloc) (level nloc)).
      * eexists _, _. split; [reflexivity|]. split; [reflexivity|].
        rewrite length_app. cbn [length]. split; [lia|].
        apply Forall2_app; [exact HF|]. constructor; [|constructor].
        cbn. auto.
      * eexists _, _. split; [reflexivity|]. split; [reflexivity|].
        rewrite length_app. cbn [length]. split; [lia|].
        apply Forall2_app; [exact HF|]. constructor; [|constructor].
        cbn. auto.
Qed.

Lemma recv_blocks (ns : list Z) (c c' : Z) (P : list Plan.message)
    (D : list (Plan.transfer * Z * (Z * Z * Z))) :
  Plan.loopM count_recv c ns = Some c' ->
  Forall2 unpacked_as P D ->
  exists P' D',
    Plan.loopM post_recv P ns = Some P' /\
    Plan.loopM unpack_block D ns = Some D' /\
    Z.of_nat (length P') = Z.of_nat (length P) + (c' - c) /\
    Forall2 unpacked_as P' D'.
Proof using All.
  revert c P D. induction ns as [|n ns IH]; intros c P D Hc HF.
  - cbn in Hc. injection Hc as <-. exists P, D. cbn. split_and!; auto. lia.
  - cbn [Plan.loopM] in *.
    destruct (count_recv c n) as [c1|] eqn:Hc1; [|discriminate].
    cbn [mbind option_bind] in Hc.
    destruct (recv_block n c c1 P D Hc1 HF) as (P1 & D1 & H1 & H2 & H3 & H4).
    destruct (IH c1 P1 D1 Hc H4) as (P' & D' & G1 & G2 & G3 & G4).
    exists P', D'. rewrite H1, H2. cbn [mbind option_bind].
    split_and!; auto. lia.
Qed.

Lemma send_children (nn : Z) (ks : list Z) (c c' : Z)
    (S : list Plan.message) :
  Plan.loopM (fun nsend k =>
                r ← Plan.get newrank (nn + k);
                Some (if negb (r =? my_rank) then nsend + 1 else nsend))
    c ks = Some c' ->
  exists S',
    Plan.loopM (fun sent l =>
                  r ← Plan.get newrank (nn + l);
                  if r =? my_rank then Some sent
                  else
                    lloc ← Plan.get newloc (nn + l);
                    s ← Plan.get nslist r;
                    Some (sent ++ [Plan.mkMessage r (nn + l - s, 0, 0, 0)
                                     bsc2f]))
      S ks = Some S' /\
    Z.of_nat (length S') = Z.of_nat (length S) + (c' - c).
Proof using All.
  revert c S. induction ks as [|k ks IH]; intros c S Hc.
  - cbn in Hc. injection Hc as <-. exists S. cbn. split; [reflexivity|lia].
  - cbn [Plan.loopM] in *.
    destruct (Plan.get newrank (nn + k)) as [r|] eqn:Hr; [|discriminate].
    cbn [mbind option_bind] in *.
    destruct (r =? my_rank); cbn [negb] in Hc.
    + destruct (IH c S Hc) as (S' & H1 & H2). exists S'. auto.
    + destruct (get_same_length newrank newloc (nn + k) r
                  (eq_sym Hnew) Hr) as [lloc Hl].
      destruct (Hranks _ _ Hr) as [s Hs].
      rewrite Hl. cbn [mbind option_bind]. rewrite Hs.
      cbn [mbind option_bind].
      destruct (IH (c + 1)
                  (S ++ [Plan.mkMessage r (nn + k - s, 0, 0, 0) bsc2f]) Hc)
        as (S' & H1 & H2).
      exists S'. rewrite length_app in H2. cbn [length] in H2.
      split; [exact H1|lia].
Qed.

Lemma send_one (n c c' : Z) (S : list Plan.message) :
  count_send c n = Some c' ->
  exists S',
    send_block S n = Some S' /\
    Z.of_nat (length S') = Z.of_nat (length S) + (c' - c).
Proof using All.
  unfold Plan.count_send, Plan.send_block. intros Hc.
  destruct (Plan.get oldtonew n) as [nn|]; [|discriminate].
  cbn [mbind option_bind] in *.
  destruct (Plan.get loclist n) as [oloc|]; [|discriminate].
  cbn [mbind option_bind] in *.
  destruct (Plan.get newloc nn) as [nloc|]; [|discriminate].
  cbn [mbind option_bind] in *.
  destruct (Z.ltb_spec (level oloc) (level nloc)) as [Hlt|Hge].
  - destruct (Z.eqb_spec (level nloc) (level oloc)); [lia|].
    exact (send_children nn _ c c' S Hc).
  - destruct (Plan.get newrank nn) as [r|] eqn:Hr; [|discriminate].
    cbn [mbind option_bind] in *. injection Hc as <-.
    destruct (Hranks _ _ Hr) as [s Hs].
    destruct (r =? my_rank); cbn [negb].
    + destruct (level nloc =? level oloc); exists S; split; auto; lia.
    + destruct (Plan.octant oloc) as [[o1 o2] o3].
      rewrite Hs. cbn [mbind option_bind].
      destruct (level nloc =? level oloc); eexists;
        (split; [reflexivity|]); rewrite length_app; cbn [length]; lia.
Qed.

Lemma send_blocks (ns : list Z) (c c' : Z) (S : list Plan.message) :
  Plan.loopM count_send c ns = Some c' ->
  exists S',
    Plan.loopM send_block S ns = Some S' /\
    Z.of_nat (length S') = Z.of_nat (length S) + (c' - c).
Proof using All.
  revert c S. induction ns as [|n ns IH]; intros c S Hc.
  - cbn in Hc. injection Hc as <-. exists S. cbn. split; [reflexivity|lia].
  - cbn [Plan.loopM] in *.
    destruct (count_send c n) as [c1|] eqn:Hc1; [|discriminate].
    cbn [mbind option_bind] in Hc.
    destruct (send_one n c c1 S Hc1) as (S1 & H1 & H2).
    destruct (IH c1 S1 Hc) as (S' & G1 & G2).
    exists S'. rewrite H1. cbn [mbind option_bind]. split; [exact G1|lia].
Qed.

End Buffers.

(** X18: when the two counting loops of step 3 stay inside the arrays,
    steps 5, 6 and 8 do so too; the receives that step 5 posts are [nrecv]
    in number and the messages that step 6 sends are [nsend], so the
    arrays [recvbuf] and [sendbuf] are filled exactly; and step 8 unpacks
    the buffers in the order in which step 5 posted them, each in the
    branch whose buffer size the receive was posted with and for the new
    block of its tag. *)
Theorem exchange_buffers_counted (my_rank nlbl : Z)
    (loclist newloc : list LogicalLocation)
    (ranklist newrank newtoold oldtonew nslist : list Z)
    (bssame bsf2c bsc2f nbs nbe onbs onbe cr cs : Z) :
  length loclist = length ranklist ->
  length newloc = length newrank ->
  (forall i r, Plan.get newrank i = Some r -> is_Some (Plan.get nslist r)) ->
  Plan.nrecv my_rank nlbl loclist newloc ranklist newtoold nbs nbe = Some cr ->
  Plan.nsend my_rank nlbl loclist newloc newrank oldtonew onbs onbe = Some cs ->
  exists posted sent done,
    Plan.receives my_rank nlbl loclist newloc ranklist newtoold
      bssame bsf2c bsc2f nbs nbe = Some posted /\
    Plan.sends my_rank nlbl loclist newloc newrank oldtonew nslist
      bssame bsf2c bsc2f onbs onbe = Some sent /\
    Plan.unpacks my_rank nlbl loclist newloc ranklist newtoold nbs nbe
      = Some done /\
    Z.of_nat (length posted) = cr /\
    Z.of_nat (length sent) = cs /\
    Forall2 (Plan.unpacked_as bssame bsf2c bsc2f nbs) posted done.
Proof.
  intros Hold Hnew Hranks Hr Hs.
  unfold Plan.receives, Plan.sends, Plan.unpacks. rewrite Hr, Hs.
  cbn [mbind option_bind].
  destruct (recv_blocks my_rank nlbl loclist newloc ranklist newrank
              newtoold oldtonew nslist bssame bsf2c bsc2f nbs Hold Hnew
              Hranks (zrange nbs nbe) 0 cr [] [] Hr ltac:(constructor))
    as (P & D & H1 & H2 & H3 & H4).
  destruct (send_blocks my_rank nlbl loclist newloc ranklist newrank
              newtoold oldtonew nslist bssame bsf2c bsc2f nbs Hold Hnew
              Hranks (zrange onbs onbe) 0 cs [] Hs)
    as (S & G1 & G2).
  cbn [length] in H3, G2.
  assert (HP : cr = 0 -> P = [] /\ D = []).
  { intros ->. destruct P; [|cbn in H3; lia].
    split; [reflexivity|]. now inversion H4. }
  assert (HS : cs = 0 -> S = []).
  { intros ->. destruct S; [reflexivity|cbn in G2; lia]. }
  exists P, S, D.
  destruct (Z.eqb_spec cr 0) as [E|E], (Z.eqb_spec cs 0) as [E'|E'];
    cbn [negb]; rewrite ?H1, ?H2, ?G1;
    try (destruct (HP E) as [-> ->]); try rewrite (HS E');
    split_and!; auto; lia.
Qed.

(** Rank 1 of the sample exchange: it gets one child of the refined block
    from rank 0 and sends nothing. *)
Lemma exchange_buffers_counted_witness :
  exists posted sent done,
    SampleExchange.receives 1 2 3 = Some posted /\
    SampleExchange.sends 1 2 2 = Some sent /\
    Plan.unpacks 1 SampleExchange.nlbl SampleExchange.loclist
      SampleExchange.newloc SampleExchange.ranklist SampleExchange.newtoold
      2 3 = Some done /\
    Z.of_nat (length posted) = 1 /\
    Z.of_nat (length sent) = 0 /\
    Forall2 (Plan.unpacked_as 40 20 30 2) posted done.
Proof.
  apply (exchange_buffers_counted 1 SampleExchange.nlbl
           SampleExchange.loclist SampleExchange.newloc
           SampleExchange.ranklist SampleExchange.newrank
           SampleExchange.newtoold SampleExchange.oldtonew
           SampleExchange.nslist 40 20 30 2 3 2 2 1 0).
  - reflexivity.
  - reflexivity.
  - intros i r H. pose proof (get_Some_lt _ _ _ H) as Hi. cbn in Hi.
    assert (Hc : i = 0 \/ i = 1 \/ i = 2 \/ i = 3) by lia.
    destruct Hc as [->|[->|[->| ->]]]; vm_compute in H; injection H as <-;
      eexists; vm_compute; reflexivity.
  - vm_compute. reflexivity.
  - vm_compute. reflexivity.
Defined.

(** ** Adaptive mesh refinement: a message sent is a message expected *)

Section Matching.

(** The sender [a] and the receiver [b]. *)
Variables a b nlbl : Z.
Variables loclist newloc : list LogicalLocation.
Variables ranklist newrank newtoold oldtonew nslist : list Z.
Variables bssame bsf2c bsc2f : Z.
Variable nbs : Z.

Local Abbreviation send_block :=
  (Plan.send_block a nlbl loclist newloc newrank oldtonew nslist
     bssame bsf2c bsc2f).
Local Abbreviation post_recv :=
  (Plan.post_recv b nlbl loclist newloc ranklist newtoold
     bssame bsf2c bsc2f nbs).

(** Where a message of step 6 comes from: the old block [n] and, for a
    refined block, the child [l]. *)
Local Abbreviation origin m n :=
  (exists nn oloc nloc s,
     Plan.get oldtonew n = Some nn /\ Plan.get loclist n = Some oloc /\
     Plan.get newloc nn = Some nloc /\
     Plan.get nslist (Plan.peer m) = Some s /\ Plan.peer m <> a /\
     ((level nloc = level oloc /\
       Plan.get newrank nn = Some (Plan.peer m) /\
       Plan.tag m = (nn - s, 0, 0, 0) /\ Plan.size m = bssame) \/
      (level oloc < level nloc /\
       exists l, 0 <= l <= nlbl - 1 /\
         Plan.get newrank (nn + l) = Some (Plan.peer m) /\
         Plan.tag m = (nn + l - s, 0, 0, 0) /\ Plan.size m = bsc2f) \/
      (level nloc < level oloc /\ Plan.size m = bsf2c))).

Lemma send_children_trace (nn : Z) (ks : list Z) (S0 S : list Plan.message) :
  Plan.loopM (fun sent l =>
                r ← Plan.get newrank (nn + l);
                if r =? a then Some sent
                else
                  lloc ← Plan.get newloc (nn + l);
                  s ← Plan.get nslist r;
                  Some (sent ++ [Plan.mkMessage r (nn + l - s, 0, 0, 0)
                                   bsc2f]))
    S0 ks = Some S ->
  forall m, m ∈ S ->
    m ∈ S0 \/
    exists l s, l ∈ ks /\ Plan.get newrank (nn + l) = Some (Plan.peer m) /\
      Plan.peer m <> a /\ Plan.get nslist (Plan.peer m) = Some s /\
      Plan.tag m = (nn + l - s, 0, 0, 0) /\ Plan.size m = bsc2f.
Proof.
  revert S0. induction ks as [|k ks IH]; intros S0 HS m Hm.
  - cbn in HS. injection HS as <-. auto.
  - cbn [Plan.loopM] in HS.
    destruct (Plan.get newrank (nn + k)) as [r|] eqn:Hr; [|discriminate].
    cbn [mbind option_bind] in HS.
    destruct (Z.eqb_spec r a) as [->|Hne].
    + destruct (IH _ HS m Hm) as [H|(l & s & Hl & H)]; [auto|].
      right. exists l, s. split; [now right|exact H].
    + destruct (Plan.get newloc (nn + k)) as [lloc|]; [|discriminate].
      cbn [mbind option_bind] in HS.
      destruct (Plan.get nslist r) as [s|] eqn:Hs; [|discriminate].
      cbn [mbind option_bind] in HS.
      destruct (IH _ HS m Hm) as [H|(l & s' & Hl & H)].
      * apply elem_of_app in H as [H|H]; [auto|].
        apply list_elem_of_singleton in H as ->. right.
        exists k, s. cbn. split; [now left|]. auto.
      * right. exists l, s'. split; [now right|exact H].
Qed.

Lemma send_block_trace (n : Z) (S0 S : list Plan.message) :
  send_block S0 n = Some S ->
  forall m, m ∈ S -> m ∈ S0 \/ origin m n.
Proof.
  unfold Plan.send_block. intros HS m Hm.
  destruct (Plan.get oldtonew n) as [nn|] eqn:Hnn; [|discriminate].
  cbn [mbind option_bind] in HS.
  destruct (Plan.get loclist n) as [oloc|] eqn:Ho; [|discriminate].
  cbn [mbind option_bind] in HS.
  destruct (Plan.get newloc nn) as [nloc|] eqn:Hn; [|discriminate].
  cbn [mbind option_bind] in HS.
  destruct (Z.eqb_spec (level nloc) (level oloc)) as [Heq|Hneq].
  - destruct (Plan.get newrank nn) as [r|] eqn:Hr; [|discriminate].
    cbn [mbind option_bind] in HS.
    destruct (Z.eqb_spec r a) as [->|Hne].
    + injection HS as <-. auto.
    + destruct (Plan.get nslist r) as [s|] eqn:Hs; [|discriminate].
      cbn [mbind option_bind] in HS. injection HS as <-.
      apply elem_of_app in Hm as [H|H]; [auto|].
      apply list_elem_of_singleton in H as ->. right.
      exists nn, oloc, nloc, s. cbn. split_and!; auto.
  - destruct (Z.ltb_spec (level oloc) (level nloc)) as [Hlt|Hge].
    + destruct (send_children_trace nn _ S0 S HS m Hm)
        as [H|(l & s & Hl & Hr & Hp & Hs & Ht & Hz)]; [auto|].
      right. exists nn, oloc, nloc, s. split_and!; auto.
      right. left. split; [exact Hlt|]. exists l.
      apply elem_of_zrange in Hl. auto.
    + destruct (Plan.get newrank nn) as [r|] eqn:Hr; [|discriminate].
      cbn [mbind option_bind] in HS.
      destruct (Z.eqb_spec r a) as [->|Hne].
      * injection HS as <-. auto.
      * destruct (Plan.octant oloc) as [[o1 o2] o3].
        destruct (Plan.get nslist r) as [s|] eqn:Hs; [|discriminate].
        cbn [mbind option_bind] in HS. injection HS as <-.
        apply elem_of_app in Hm as [H|H]; [auto|].
        apply list_elem_of_singleton in H as ->. right.
        exists nn, oloc, nloc, s. cbn. split_and!; auto.
        right. right. split; [lia|reflexivity].
Qed.

Lemma sends_trace (ns : list Z) (S0 S : list Plan.message) :
  Plan.loopM send_block S0 ns = Some S ->
  forall m, m ∈ S -> m ∈ S0 \/ exists n, n ∈ ns /\ origin m n.
Proof.
  revert S0. induction ns as [|n ns IH]; intros S0 HS m Hm.
  - cbn in HS. injection HS as <-. auto.
  - cbn [Plan.loopM] in HS.
    destruct (send_block S0 n) as [S1|] eqn:H1; [|discriminate].
    cbn [mbind option_bind] in HS.
    destruct (IH _ HS m Hm) as [H|(n' & Hn' & H)].
    + destruct (send_block_trace n S0 S1 H1 m H) as [H'|H']; [auto|].
      right. exists n. split; [now left|exact H'].
    + right. exists n'. split; [now right|exact H].
Qed.

Lemma post_children_keep (n on : Z) (ks : list Z) (P0 P : list Plan.message) :
  Plan.loopM (fun posted l =>
                r ← Plan.get ranklist (on + l);
                if r =? b then Some posted
                else
                  lloc ← Plan.get loclist (on + l);
                  let '(ox1, ox2, ox3) := Plan.octant lloc in
                  Some (posted ++ [Plan.mkMessage r (n - nbs, ox1, ox2, ox3)
                                     bsf2c]))
    P0 ks = Some P ->
  forall m, m ∈ P0 -> m ∈ P.
Proof.
  revert P0. induction ks as [|k ks IH]; intros P0 HP m Hm.
  - cbn in HP. injection HP as <-. exact Hm.
  - cbn [Plan.loopM] in HP.
    destruct (Plan.get ranklist (on + k)) as [r|]; [|discriminate].
    cbn [mbind option_bind] in HP.
    destruct (r =? b); [exact (IH _ HP m Hm)|].
    destruct (Plan.get loclist (on + k)) as [lloc|]; [|discriminate].
    cbn [mbind option_bind] in HP.
    destruct (Plan.octant lloc) as [[o1 o2] o3].
    apply (IH _ HP). apply elem_of_app. now left.
Qed.

Lemma post_recv_keep (n : Z) (P0 P : list Plan.message) :
  post_recv P0 n = Some P -> forall m, m ∈ P0 -> m ∈ P.
Proof.
  unfold Plan.post_recv. intros HP m Hm.
  destruct (Plan.get newtoold n) as [on|]; [|discriminate].
  cbn [mbind option_bind] in HP.
  destruct (Plan.get loclist on) as [oloc|]; [|discriminate].
  cbn [mbind option_bind] in HP.
  destruct (Plan.get newloc n) as [nloc|]; [|discriminate].
  cbn [mbind option_bind] in HP.
  destruct (level nloc <? level oloc).
  - exact (post_children_keep n on _ P0 P HP m Hm).
  - destruct (Plan.get ranklist on) as [r|]; [|discriminate].
    cbn [mbind option_bind] in HP.
    destruct (r =? b); injection HP as <-; [exact Hm|].
    apply elem_of_app. now left.
Qed.

Lemma posts_keep (ns : list Z) (P0 P : list Plan.message) :
  Plan.loopM post_recv P0 ns = Some P -> forall m, m ∈ P0 -> m ∈ P.
Proof.
  revert P0. induction ns as [|n ns IH]; intros P0 HP m Hm.
  - cbn in HP. injection HP as <-. exact Hm.
  - cbn [Plan.loopM] in HP.
    destruct (post_recv P0 n) as [P1|] eqn:H1; [|discriminate].
    cbn [mbind option_bind] in HP.
    exact (IH _ HP m (post_recv_keep n P0 P1 H1 m Hm)).
Qed.

(** The receive that step 5 posts for a new block that is no parent of
    derefined blocks and comes from another rank. *)
Lemma posts_expect (ns : list Z) (P0 P : list Plan.message)
    (n on r : Z) (oloc nloc : LogicalLocation) :
  Plan.loopM post_recv P0 ns = Some P ->
  n ∈ ns ->
  Plan.get newtoold n = Some on -> Plan.get loclist on = Some oloc ->
  Plan.get newloc n = Some nloc -> level oloc <= level nloc ->
  Plan.get ranklist on = Some r -> r <> b ->
  Plan.mkMessage r (n - nbs, 0, 0, 0)
    (if level oloc =? level nloc then bssame else bsc2f) ∈ P.
Proof.
  intros HP Hn Hon Ho Hnl Hlev Hr Hne. revert P0 HP.
  induction ns as [|n' ns IH]; intros P0 HP; [inversion Hn|].
  cbn [Plan.loopM] in HP.
  destruct (post_recv P0 n') as [P1|] eqn:H1; [|discriminate].
  cbn [mbind option_bind] in HP.
  destruct (decide (n = n')) as [<-|Hnn].
  - apply (posts_keep _ _ _ HP).
    unfold Plan.post_recv in H1. rewrite Hon in H1.
    cbn [mbind option_bind] in H1. rewrite Ho in H1.
    cbn [mbind option_bind] in H1. rewrite Hnl in H1.
    cbn [mbind option_bind] in H1.
    destruct (Z.ltb_spec (level nloc) (level oloc)); [lia|].
    rewrite Hr in H1. cbn [mbind option_bind] in H1.
    destruct (Z.eqb_spec r b); [contradiction|].
    injection H1 as <-. apply elem_of_app. right. now left.
  - apply (IH ltac:(inversion Hn; subst; [contradiction|assumption]) _ HP).
Qed.

End Matching.

Lemma receives_loop (my_rank nlbl : Z) (loclist newloc : list LogicalLocation)
    (ranklist newrank newtoold oldtonew nslist : list Z)
    (bssame bsf2c bsc2f nbs nbe : Z) (P : list Plan.message) :
  length loclist = length ranklist ->
  length newloc = length newrank ->
  (forall i r, Plan.get newrank i = Some r -> is_Some (Plan.get nslist r)) ->
  Plan.receives my_rank nlbl loclist newloc ranklist newtoold
    bssame bsf2c bsc2f nbs nbe = Some P ->
  Plan.loopM (Plan.post_recv my_rank nlbl loclist newloc ranklist newtoold
                bssame bsf2c bsc2f nbs) [] (zrange nbs nbe) = Some P.
Proof.
  intros Hold Hnew Hranks. unfold Plan.receives.
  destruct (Plan.nrecv _ _ _ _ _ _ _ _) as [c|] eqn:Hc; [|discriminate].
  cbn [mbind option_bind].
  destruct (recv_blocks my_rank nlbl loclist newloc ranklist newrank
              newtoold oldtonew nslist bssame bsf2c bsc2f nbs Hold Hnew
              Hranks (zrange nbs nbe) 0 c [] [] Hc ltac:(constructor))
    as (P' & D & H1 & _ & H3 & _).
  destruct (Z.eqb_spec c 0) as [->|Hne]; cbn [negb]; [|auto].
  intros H. injection H as <-. rewrite H1.
  destruct P'; [reflexivity|cbn in H3; lia].
Qed.

Lemma sends_loop (my_rank nlbl : Z) (loclist newloc : list LogicalLocation)
    (ranklist newrank newtoold oldtonew nslist : list Z)
    (bssame bsf2c bsc2f nbs onbs onbe : Z) (S : list Plan.message) :
  length loclist = length ranklist ->
  length newloc = length newrank ->
  (forall i r, Plan.get newrank i = Some r -> is_Some (Plan.get nslist r)) ->
  Plan.sends my_rank nlbl loclist newloc newrank oldtonew nslist
    bssame bsf2c bsc2f onbs onbe = Some S ->
  Plan.loopM (Plan.send_block my_rank nlbl loclist newloc newrank oldtonew
                nslist bssame bsf2c bsc2f) [] (zrange onbs onbe) = Some S.
Proof.
  intros Hold Hnew Hranks. unfold Plan.sends.
  destruct (Plan.nsend _ _ _ _ _ _ _ _) as [c|] eqn:Hc; [|discriminate].
  cbn [mbind option_bind].
  destruct (send_blocks my_rank nlbl loclist newloc ranklist newrank
              newtoold oldtonew nslist bssame bsf2c bsc2f nbs Hold Hnew
              Hranks (zrange onbs onbe) 0 c [] Hc)
    as (S' & H1 & H2).
  destruct (Z.eqb_spec c 0) as [->|Hne]; cbn [negb]; [|auto].
  intros H. injection H as <-. rewrite H1.
  destruct S'; [reflexivity|cbn in H2; lia].
Qed.

(** X19: when no block of the sender is derefined and the lists
    [newtoold] and [oldtonew] agree on its blocks, every message that
    rank [a] sends to another rank [b] in step 6 is expected there: [b]
    has posted in step 5 a receive from [a] with the same tag and the same
    size. *)
Theorem sent_message_expected (a b nlbl : Z)
    (loclist newloc : list LogicalLocation)
    (ranklist newrank newtoold oldtonew nslist : list Z)
    (bssame bsf2c bsc2f onbs onbe nbs nbe : Z)
    (S P : list Plan.message) :
  a <> b ->
  length loclist = length ranklist ->
  length newloc = length newrank ->
  (forall i r, Plan.get newrank i = Some r -> is_Some (Plan.get nslist r)) ->
  (forall n, onbs <= n <= onbe -> Plan.get ranklist n = Some a) ->
  Plan.get nslist b = Some nbs ->
  (forall n, Plan.get newrank n = Some b -> nbs <= n <= nbe) ->
  (forall n nn oloc nloc,
     onbs <= n <= onbe ->
     Plan.get oldtonew n = Some nn -> Plan.get loclist n = Some oloc ->
     Plan.get newloc nn = Some nloc ->
     level oloc <= level nloc /\
     (level nloc = level oloc -> Plan.get newtoold nn = Some n) /\
     (level oloc < level nloc ->
      forall l, 0 <= l <= nlbl - 1 ->
        Plan.get newtoold (nn + l) = Some n /\
        forall cl, Plan.get newloc (nn + l) = Some cl ->
                   level oloc < level cl)) ->
  Plan.sends a nlbl loclist newloc newrank oldtonew nslist
    bssame bsf2c bsc2f onbs onbe = Some S ->
  Plan.receives b nlbl loclist newloc ranklist newtoold
    bssame bsf2c bsc2f nbs nbe = Some P ->
  forall m, m ∈ S -> Plan.peer m = b ->
    Plan.mkMessage a (Plan.tag m) (Plan.size m) ∈ P.
Proof.
  intros Hab Hold Hnew Hranks Ha Hnbs Hb Hmap HS HP m Hm Hpeer.
  apply (sends_loop a nlbl loclist newloc ranklist newrank newtoold oldtonew
           nslist bssame bsf2c bsc2f nbs onbs onbe S Hold Hnew Hranks) in HS.
  apply (receives_loop b nlbl loclist newloc ranklist newrank newtoold
           oldtonew nslist bssame bsf2c bsc2f nbs nbe P Hold Hnew Hranks)
    in HP.
  destruct (sends_trace a nlbl loclist newloc newrank oldtonew nslist
              bssame bsf2c bsc2f _ [] S HS m Hm)
    as [H|(n & Hn & nn & oloc & nloc & s & Hnn & Ho & Hnl & Hs & Hpa & Hcase)];
    [inversion H|].
  apply elem_of_zrange in Hn. rewrite Hpeer in Hs.
  assert (s = nbs) by congruence. subst s.
  destruct (Hmap n nn oloc nloc Hn Hnn Ho Hnl) as (Hlev & Hsame & Hfine).
  destruct Hcase as [(Heq & Hr & Ht & Hz)|[(Hlt & l & Hl & Hr & Ht & Hz)
                                          |(Hgt & _)]]; [| |lia].
  - rewrite Hpeer in Hr. pose proof (Hb nn Hr) as Hin.
    pose proof (posts_expect b nlbl loclist newloc ranklist newtoold
                  bssame bsf2c bsc2f nbs (zrange nbs nbe) [] P nn n a
                  oloc nloc HP ltac:(apply elem_of_zrange; exact Hin)
                  (Hsame Heq) Ho Hnl Hlev (Ha n Hn) Hab) as Hexp.
    rewrite Ht, Hz. destruct (Z.eqb_spec (level oloc) (level nloc)); [|lia].
    exact Hexp.
  - rewrite Hpeer in Hr. pose proof (Hb (nn + l) Hr) as Hin.
    destruct (Hfine Hlt l Hl) as [Hon Hcl].
    destruct (get_same_length newrank newloc (nn + l) b (eq_sym Hnew) Hr)
      as [cl Hc].
    pose proof (Hcl cl Hc) as Hlc.
    pose proof (posts_expect b nlbl loclist newloc ranklist newtoold
                  bssame bsf2c bsc2f nbs (zrange nbs nbe) [] P (nn + l) n a
                  oloc cl HP ltac:(apply elem_of_zrange; exact Hin)
                  Hon Ho Hc ltac:(lia) (Ha n Hn) Hab) as Hexp.
    rewrite Ht, Hz. destruct (Z.eqb_spec (level oloc) (level cl)); [lia|].
    exact Hexp.
Qed.

(** The sample exchange: rank 0 sends the second child of its refined
    block to rank 1, which expects it. *)
Lemma sent_message_expected_witness :
  let m := Plan.mkMessage 1 (0, 0, 0, 0) 30 in
  SampleExchange.sends 0 0 1 = Some [m] /\
  SampleExchange.receives 1 2 3 = Some [Plan.mkMessage 0 (0, 0, 0, 0) 30] /\
  Plan.mkMessage 0 (Plan.tag m) (Plan.size m)
    ∈ [Plan.mkMessage 0 (0, 0, 0, 0) 30].
Proof.
  intros m.
  assert (HS : SampleExchange.sends 0 0 1 = Some [m])
    by (vm_compute; reflexivity).
  assert (HP : SampleExchange.receives 1 2 3
               = Some [Plan.mkMessage 0 (0, 0, 0, 0) 30])
    by (vm_compute; reflexivity).
  split; [exact HS|]. split; [exact HP|].
  apply (sent_message_expected 0 1 SampleExchange.nlbl
           SampleExchange.loclist SampleExchange.newloc
           SampleExchange.ranklist SampleExchange.newrank
           SampleExchange.newtoold SampleExchange.oldtonew
           SampleExchange.nslist 40 20 30 0 1 2 3 [m]
           [Plan.mkMessage 0 (0, 0, 0, 0) 30]).
  - discriminate.
  - reflexivity.
  - reflexivity.
  - intros i r H. pose proof (get_Some_lt _ _ _ H) as Hi. cbn in Hi.
    assert (Hc : i = 0 \/ i = 1 \/ i = 2 \/ i = 3) by lia.
    destruct Hc as [->|[->|[->| ->]]]; vm_compute in H; injection H as <-;
      eexists; vm_compute; reflexivity.
  - intros n Hn. assert (Hc : n = 0 \/ n = 1) by lia.
    destruct Hc as [->| ->]; reflexivity.
  - reflexivity.
  - intros n H. pose proof (get_Some_lt _ _ _ H) as Hi. cbn in Hi.
    assert (Hc : n = 0 \/ n = 1 \/ n = 2 \/ n = 3) by lia.
    destruct Hc as [->|[->|[->| ->]]]; vm_compute in H;
      first [discriminate H | lia].
  - intros n nn oloc nloc Hn Hnn Ho Hnl.
    assert (Hc : n = 0 \/ n = 1) by lia.
    destruct Hc as [->| ->]; vm_compute in Hnn; injection Hnn as <-;
      vm_compute in Ho; injection Ho as <-;
      vm_compute in Hnl; injection Hnl as <-; cbn [level].
    + split; [lia|]. split; [reflexivity|]. intros Hlt. lia.
    + split; [lia|]. split; [intros Heq; lia|]. intros _ l Hl.
      assert (Hl' : l = 0 \/ l = 1) by (unfold SampleExchange.nlbl in Hl; lia).
      destruct Hl' as [->| ->]; (split; [reflexivity|]);
        intros cl Hcl; vm_compute in Hcl; injection Hcl as <-; cbn; lia.
  - exact HS.
  - exact HP.
  - now left.
  - reflexivity.
Defined.

(** ** Adaptive mesh refinement: a message expected is a message sent *)

Section Expected.

Variables a b nlbl : Z.
Variables loclist newloc : list LogicalLocation.
Variables ranklist newrank newtoold oldtonew nslist : list Z.
Variables bssame bsf2c bsc2f : Z.
Variable nbs : Z.

Local Abbreviation send_block :=
  (Plan.send_block a nlbl loclist newloc newrank oldtonew nslist
     bssame bsf2c bsc2f).
Local Abbreviation post_recv :=
  (Plan.post_recv b nlbl loclist newloc ranklist newtoold
     bssame bsf2c bsc2f nbs).
Local Abbreviation send_child nn :=
  (fun sent l =>
     r ← Plan.get newrank (nn + l);
     if r =? a then Some sent
     else
       lloc ← Plan.get newloc (nn + l);
       s ← Plan.get nslist r;
       Some (sent ++ [Plan.mkMessage r (nn + l - s, 0, 0, 0) bsc2f])).

(** Where a receive of step 5 comes from: the new block [n]. *)
Local Abbreviation source m n :=
  (exists on oloc nloc,
     Plan.get newtoold n = Some on /\ Plan.get loclist on = Some oloc /\
     Plan.get newloc n = Some nloc /\ Plan.peer m <> b /\
     ((level oloc <= level nloc /\
       Plan.get ranklist on = Some (Plan.peer m) /\
       Plan.tag m = (n - nbs, 0, 0, 0) /\
       Plan.size m = if level oloc =? level nloc then bssame else bsc2f) \/
      (level nloc < level oloc /\ Plan.size m = bsf2c))).

Lemma post_children_trace (n on : Z) (ks : list Z)
    (P0 P : list Plan.message) :
  Plan.loopM (fun posted l =>
                r ← Plan.get ranklist (on + l);
                if r =? b then Some posted
                else
                  lloc ← Plan.get loclist (on + l);
                  let '(ox1, ox2, ox3) := Plan.octant lloc in
                  Some (posted ++ [Plan.mkMessage r (n - nbs, ox1, ox2, ox3)
                                     bsf2c]))
    P0 ks = Some P ->
  forall m, m ∈ P -> m ∈ P0 \/ (Plan.peer m <> b /\ Plan.size m = bsf2c).
Proof.
  revert P0. induction ks as [|k ks IH]; intros P0 HP m Hm.
  - cbn in HP. injection HP as <-. auto.
  - cbn [Plan.loopM] in HP.
    destruct (Plan.get ranklist (on + k)) as [r|]; [|discriminate].
    cbn [mbind option_bind] in HP.
    destruct (Z.eqb_spec r b) as [Heq|Hne]; [exact (IH _ HP m Hm)|].
    destruct (Plan.get loclist (on + k)) as [lloc|]; [|discriminate].
    cbn [mbind option_bind] in HP.
    destruct (Plan.octant lloc) as [[o1 o2] o3].
    destruct (IH _ HP m Hm) as [H|H]; [|auto].
    apply elem_of_app in H as [H|H]; [auto|].
    apply list_elem_of_singleton in H as ->. right. cbn. auto.
Qed.

Lemma post_recv_trace (n : Z) (P0 P : list Plan.message) :
  post_recv P0 n = Some P ->
  forall m, m ∈ P -> m ∈ P0 \/ source m n.
Proof.
  unfold Plan.post_recv. intros HP m Hm.
  destruct (Plan.get newtoold n) as [on|] eqn:Hon; [|discriminate].
  cbn [mbind option_bind] in HP.
  destruct (Plan.get loclist on) as [oloc|] eqn:Ho; [|discriminate].
  cbn [mbind option_bind] in HP.
  destruct (Plan.get newloc n) as [nloc|] eqn:Hn; [|discriminate].
  cbn [mbind option_bind] in HP.
  destruct (Z.ltb_spec (level nloc) (level oloc)) as [Hlt|Hge].
  - destruct (post_children_trace n on _ P0 P HP m Hm) as [H|[H1 H2]];
      [auto|].
    right. exists on, oloc, nloc. split_and!; auto.
  - destruct (Plan.get ranklist on) as [r|] eqn:Hr; [|discriminate].
    cbn [mbind option_bind] in HP.
    destruct (Z.eqb_spec r b) as [Heq|Hne]; injection HP as <-; [auto|].
    apply elem_of_app in Hm as [H|H]; [auto|].
    apply list_elem_of_singleton in H as ->. right.
    exists on, oloc, nloc. cbn. split_and!; auto.
Qed.

Lemma posts_trace (ns : list Z) (P0 P : list Plan.message) :
  Plan.loopM post_recv P0 ns = Some P ->
  forall m, m ∈ P -> m ∈ P0 \/ exists n, n ∈ ns /\ source m n.
Proof.
  revert P0. induction ns as [|n ns IH]; intros P0 HP m Hm.
  - cbn in HP. injection HP as <-. auto.
  - cbn [Plan.loopM] in HP.
    destruct (post_recv P0 n) as [P1|] eqn:H1; [|discriminate].
    cbn [mbind option_bind] in HP.
    destruct (IH _ HP m Hm) as [H|(n' & Hn' & H)].
    + destruct (post_recv_trace n P0 P1 H1 m H) as [H'|H']; [auto|].
      right. exists n. split; [now left|exact H'].
    + right. exists n'. split; [now right|exact H].
Qed.

Lemma send_children_keep (nn : Z) (ks : list Z) (S0 S : list Plan.message) :
  Plan.loopM (send_child nn) S0 ks = Some S -> forall m, m ∈ S0 -> m ∈ S.
Proof.
  revert S0. induction ks as [|k ks IH]; intros S0 HS m Hm.
  - cbn in HS. injection HS as <-. exact Hm.
  - cbn [Plan.loopM] in HS.
    destruct (Plan.get newrank (nn + k)) as [r|]; [|discriminate].
    cbn [mbind option_bind] in HS.
    destruct (r =? a); [exact (IH _ HS m Hm)|].
    destruct (Plan.get newloc (nn + k)) as [lloc|]; [|discriminate].
    cbn [mbind option_bind] in HS.
    destruct (Plan.get nslist r) as [s|]; [|discriminate].
    cbn [mbind option_bind] in HS.
    apply (IH _ HS). apply elem_of_app. now left.
Qed.

Lemma send_children_expect (nn l r s : Z) (ks : list Z)
    (S0 S : list Plan.message) :
  Plan.loopM (send_child nn) S0 ks = Some S ->
  l ∈ ks -> Plan.get newrank (nn + l) = Some r -> r <> a ->
  Plan.get nslist r = Some s ->
  Plan.mkMessage r (nn + l - s, 0, 0, 0) bsc2f ∈ S.
Proof.
  intros HS Hl Hr Hne Hs. revert S0 HS.
  induction ks as [|k ks IH]; intros S0 HS; [inversion Hl|].
  destruct (decide (l = k)) as [<-|Hlk].
  - cbn [Plan.loopM] in HS. rewrite Hr in HS.
    cbn [mbind option_bind] in HS.
    destruct (Z.eqb_spec r a); [contradiction|].
    destruct (Plan.get newloc (nn + l)) as [lloc|]; [|discriminate].
    cbn [mbind option_bind] in HS. rewrite Hs in HS.
    cbn [mbind option_bind] in HS.
    apply (send_children_keep nn _ _ _ HS). apply elem_of_app.
    right. now left.
  - cbn [Plan.loopM] in HS.
    match type of HS with
    | mbind _ ?x = _ => destruct x as [S1|]; [|discriminate]
    end.
    cbn [mbind option_bind] in HS.
    apply (IH ltac:(inversion Hl; subst; [contradiction|assumption]) _ HS).
Qed.

Lemma send_block_keep (n : Z) (S0 S : list Plan.message) :
  send_block S0 n = Some S -> forall m, m ∈ S0 -> m ∈ S.
Proof.
  unfold Plan.send_block. intros HS m Hm.
  destruct (Plan.get oldtonew n) as [nn|]; [|discriminate].
  cbn [mbind option_bind] in HS.
  destruct (Plan.get loclist n) as [oloc|]; [|discriminate].
  cbn [mbind option_bind] in HS.
  destruct (Plan.get newloc nn) as [nloc|]; [|discriminate].
  cbn [mbind option_bind] in HS.
  destruct (level nloc =? level oloc).
  - destruct (Plan.get newrank nn) as [r|]; [|discriminate].
    cbn [mbind option_bind] in HS.
    destruct (r =? a); [injection HS as <-; exact Hm|].
    destruct (Plan.get nslist r) as [s|]; [|discriminate].
    cbn [mbind option_bind] in HS. injection HS as <-.
    apply elem_of_app. now left.
  - destruct (level oloc <? level nloc).
    + exact (send_children_keep nn _ S0 S HS m Hm).
    + destruct (Plan.get newrank nn) as [r|]; [|discriminate].
      cbn [mbind option_bind] in HS.
      destruct (r =? a); [injection HS as <-; exact Hm|].
      destruct (Plan.octant oloc) as [[o1 o2] o3].
      destruct (Plan.get nslist r) as [s|]; [|discriminate].
      cbn [mbind option_bind] in HS. injection HS as <-.
      apply elem_of_app. now left.
Qed.

Lemma sends_keep (ns : list Z) (S0 S : list Plan.message) :
  Plan.loopM send_block S0 ns = Some S -> forall m, m ∈ S0 -> m ∈ S.
Proof.
  revert S0. induction ns as [|n ns IH]; intros S0 HS m Hm.
  - cbn in HS. injection HS as <-. exact Hm.
  - cbn [Plan.loopM] in HS.
    destruct (send_block S0 n) as [S1|] eqn:H1; [|discriminate].
    cbn [mbind option_bind] in HS.
    exact (IH _ HS m (send_block_keep n S0 S1 H1 m Hm)).
Qed.

(** The message that step 6 sends for an old block that is not derefined,
    to the rank [r] of the new block [nn + l]. *)
Lemma sends_expect (ns : list Z) (S0 S : list Plan.message)
    (n nn l r s : Z) (oloc fl : LogicalLocation) :
  Plan.loopM send_block S0 ns = Some S ->
  n ∈ ns ->
  Plan.get oldtonew n = Some nn -> Plan.get loclist n = Some oloc ->
  Plan.get newloc nn = Some fl ->
  (level fl = level oloc /\ l = 0) \/
    (level oloc < level fl /\ 0 <= l <= nlbl - 1) ->
  Plan.get newrank (nn + l) = Some r -> r <> a ->
  Plan.get nslist r = Some s ->
  Plan.mkMessage r (nn + l - s, 0, 0, 0)
    (if level fl =? level oloc then bssame else bsc2f) ∈ S.
Proof.
  intros HS Hn Hnn Ho Hfl Hcase Hr Hne Hs. revert S0 HS.
  induction ns as [|n' ns IH]; intros S0 HS; [inversion Hn|].
  cbn [Plan.loopM] in HS.
  destruct (send_block S0 n') as [S1|] eqn:H1; [|discriminate].
  cbn [mbind option_bind] in HS.
  destruct (decide (n = n')) as [<-|Hnn'].
  - apply (sends_keep _ _ _ HS).
    unfold Plan.send_block in H1. rewrite Hnn in H1.
    cbn [mbind option_bind] in H1. rewrite Ho in H1.
    cbn [mbind option_bind] in H1. rewrite Hfl in H1.
    cbn [mbind option_bind] in H1.
    destruct Hcase as [[Heq ->]|[Hlt Hl]].
    + rewrite Z.add_0_r in *.
      destruct (Z.eqb_spec (level fl) (level oloc)); [|lia].
      rewrite Hr in H1. cbn [mbind option_bind] in H1.
      destruct (Z.eqb_spec r a); [contradiction|].
      rewrite Hs in H1. cbn [mbind option_bind] in H1.
      injection H1 as <-. apply elem_of_app. right. now left.
    + destruct (Z.eqb_spec (level fl) (level oloc)); [lia|].
      destruct (Z.ltb_spec (level oloc) (level fl)); [|lia].
      apply (send_children_expect nn l r s _ S0 S1 H1); auto.
      apply elem_of_zrange. exact Hl.
  - apply (IH ltac:(inversion Hn; subst; [contradiction|assumption]) _ HS).
Qed.

End Expected.

(** X20: when no new block of the receiver is made of derefined blocks
    and the lists [newtoold] and [oldtonew] agree on its blocks, every
    receive that rank [b] posts in step 5 for a block of another rank [a]
    is served: [a] sends in step 6 a message to [b] with the same tag and
    the same size. *)
Theorem expected_message_sent (a b nlbl : Z)
    (loclist newloc : list LogicalLocation)
    (ranklist newrank newtoold oldtonew nslist : list Z)
    (bssame bsf2c bsc2f onbs onbe nbs nbe : Z)
    (S P : list Plan.message) :
  a <> b ->
  length loclist = length ranklist ->
  length newloc = length newrank ->
  (forall i r, Plan.get newrank i = Some r -> is_Some (Plan.get nslist r)) ->
  (forall n, Plan.get ranklist n = Some a -> onbs <= n <= onbe) ->
  Plan.get nslist b = Some nbs ->
  (forall n, nbs <= n <= nbe -> Plan.get newrank n = Some b) ->
  (forall n on oloc nloc,
     nbs <= n <= nbe ->
     Plan.get newtoold n = Some on -> Plan.get loclist on = Some oloc ->
     Plan.get newloc n = Some nloc ->
     level oloc <= level nloc /\
     exists nn fl,
       Plan.get oldtonew on = Some nn /\ Plan.get newloc nn = Some fl /\
       (level oloc = level nloc -> nn = n /\ level fl = level oloc) /\
       (level oloc < level nloc ->
        0 <= n - nn <= nlbl - 1 /\ level oloc < level fl)) ->
  Plan.sends a nlbl loclist newloc newrank oldtonew nslist
    bssame bsf2c bsc2f onbs onbe = Some S ->
  Plan.receives b nlbl loclist newloc ranklist newtoold
    bssame bsf2c bsc2f nbs nbe = Some P ->
  forall m, m ∈ P -> Plan.peer m = a ->
    Plan.mkMessage b (Plan.tag m) (Plan.size m) ∈ S.
Proof.
  intros Hab Hold Hnew Hranks Ha Hnbs Hb Hmap HS HP m Hm Hpeer.
  apply (sends_loop a nlbl loclist newloc ranklist newrank newtoold oldtonew
           nslist bssame bsf2c bsc2f nbs onbs onbe S Hold Hnew Hranks) in HS.
  apply (receives_loop b nlbl loclist newloc ranklist newrank newtoold
           oldtonew nslist bssame bsf2c bsc2f nbs nbe P Hold Hnew Hranks)
    in HP.
  destruct (posts_trace b nlbl loclist newloc ranklist newtoold
              bssame bsf2c bsc2f nbs _ [] P HP m Hm)
    as [H|(n & Hn & on & oloc & nloc & Hon & Ho & Hnl & Hpb & Hcase)];
    [inversion H|].
  apply elem_of_zrange in Hn.
  destruct (Hmap n on oloc nloc Hn Hon Ho Hnl)
    as (Hlev & nn & fl & Hnn & Hfl & Hsame & Hfine).
  destruct Hcase as [(_ & Hr & Ht & Hz)|(Hgt & _)]; [|lia].
  rewrite Hpeer in Hr. pose proof (Ha on Hr) as Hin.
  pose proof (Hb n Hn) as Hrank.
  rewrite Ht, Hz.
  destruct (Z.eqb_spec (level oloc) (level nloc)) as [Heq|Hneq].
  - destruct (Hsame Heq) as [-> Hfe].
    pose proof (sends_expect a nlbl loclist newloc newrank oldtonew nslist
                  bssame bsf2c bsc2f (zrange onbs onbe) [] S on n 0 b nbs
                  oloc fl HS ltac:(apply elem_of_zrange; exact Hin)
                  Hnn Ho Hfl ltac:(left; split; [exact Hfe|reflexivity])
                  ltac:(rewrite Z.add_0_r; exact Hrank)
                  ltac:(congruence) Hnbs) as Hexp.
    rewrite Z.add_0_r in Hexp.
    destruct (Z.eqb_spec (level fl) (level oloc)); [|lia]. exact Hexp.
  - destruct (Hfine ltac:(lia)) as [Hl Hlt].
    pose proof (sends_expect a nlbl loclist newloc newrank oldtonew nslist
                  bssame bsf2c bsc2f (zrange onbs onbe) [] S on nn (n - nn)
                  b nbs oloc fl HS ltac:(apply elem_of_zrange; exact Hin)
                  Hnn Ho Hfl ltac:(right; split; [exact Hlt|exact Hl])
                  ltac:(replace (nn + (n - nn)) with n by lia; exact Hrank)
                  ltac:(congruence) Hnbs) as Hexp.
    replace (nn + (n - nn)) with n in Hexp by lia.
    destruct (Z.eqb_spec (level fl) (level oloc)); [lia|]. exact Hexp.
Qed.

(** The sample exchange: rank 1 expects the second child of the refined
    block from rank 0, which sends it. *)
Lemma expected_message_sent_witness :
  let m := Plan.mkMessage 0 (0, 0, 0, 0) 30 in
  SampleExchange.sends 0 0 1 = Some [Plan.mkMessage 1 (0, 0, 0, 0) 30] /\
  SampleExchange.receives 1 2 3 = Some [m] /\
  Plan.mkMessage 1 (Plan.tag m) (Plan.size m)
    ∈ [Plan.mkMessage 1 (0, 0, 0, 0) 30].
Proof.
  intros m.
  assert (HS : SampleExchange.sends 0 0 1
               = Some [Plan.mkMessage 1 (0, 0, 0, 0) 30])
    by (vm_compute; reflexivity).
  assert (HP : SampleExchange.receives 1 2 3 = Some [m])
    by (vm_compute; reflexivity).
  split; [exact HS|]. split; [exact HP|].
  apply (expected_message_sent 0 1 SampleExchange.nlbl
           SampleExchange.loclist SampleExchange.newloc
           SampleExchange.ranklist SampleExchange.newrank
           SampleExchange.newtoold SampleExchange.oldtonew
           SampleExchange.nslist 40 20 30 0 1 2 3
           [Plan.mkMessage 1 (0, 0, 0, 0) 30] [m]).
  - discriminate.
  - reflexivity.
  - reflexivity.
  - intros i r H. pose proof (get_Some_lt _ _ _ H) as Hi. cbn in Hi.
    assert (Hc : i = 0 \/ i = 1 \/ i = 2 \/ i = 3) by lia.
    destruct Hc as [->|[->|[->| ->]]]; vm_compute in H; injection H as <-;
      eexists; vm_compute; reflexivity.
  - intros n H. pose proof (get_Some_lt _ _ _ H) as Hi. cbn in Hi.
    assert (Hc : n = 0 \/ n = 1 \/ n = 2) by lia.
    destruct Hc as [->|[->| ->]]; vm_compute in H;
      first [discriminate H | lia].
  - reflexivity.
  - intros n Hn. assert (Hc : n = 2 \/ n = 3) by lia.
    destruct Hc as [->| ->]; reflexivity.
  - intros n on oloc nloc Hn Hon Ho Hnl.
    assert (Hc : n = 2 \/ n = 3) by lia.
    destruct Hc as [->| ->]; vm_compute in Hon; injection Hon as <-;
      vm_compute in Ho; injection Ho as <-;
      vm_compute in Hnl; injection Hnl as <-; cbn [level].
    + split; [lia|]. exists 1, (mkLoc 2 0 0 3).
      split; [reflexivity|]. split; [reflexivity|].
      split; [intros Heq; lia|]. intros _. cbn.
      unfold SampleExchange.nlbl. lia.
    + split; [lia|]. exists 3, (mkLoc 2 0 0 2).
      split; [reflexivity|]. split; [reflexivity|].
      split; [intros _; split; reflexivity|]. intros Hlt. lia.
  - exact HS.
  - exact HP.
  - now left.
  - reflexivity.
Defined.

(** ** MeshTest: the report of the load balance *)

Lemma zrange_snoc (j : Z) : 0 <= j -> zrange 0 (j + 1) = zrange 0 j ++ [j + 1].
Proof.
  intros Hj. unfold zrange.
  replace (Z.to_nat (j + 1 - 0 + 1)) with (S (Z.to_nat (j - 0 + 1))) by lia.
  rewrite seq_S, map_app. cbn [map]. do 2 f_equal. lia.
Qed.

Lemma blocks_of_rank_snoc (l : list Z) (r x : Z) :
  LoadBalancing.blocks_of_rank (l ++ [r]) x
  = (LoadBalancing.blocks_of_rank l x + if decide (r = x) then 1 else 0)%nat.
Proof.
  unfold LoadBalancing.blocks_of_rank. rewrite filter_app, length_app.
  f_equal. destruct (decide (r = x)) as [->|Hne].
  - rewrite filter_cons_True by reflexivity. reflexivity.
  - rewrite filter_cons_False by exact Hne. reflexivity.
Qed.

Lemma rank_cost_snoc (l : list Z) (cl : list Real) (r x : Z) (c : Real) :
  length l = length cl ->
  (Report.rank_cost (l ++ [r]) (cl ++ [c]) x
   == Report.rank_cost l cl x + if decide (r = x) then c else 0)%Q.
Proof.
  intros Hl. unfold Report.rank_cost.
  rewrite zip_with_app by exact Hl. rewrite filter_app, map_app.
  cbn [zip_with]. destruct (decide (r = x)) as [->|Hne].
  - rewrite filter_cons_True by reflexivity. cbn [map snd filter].
    unfold Qsum. rewrite fold_left_app. cbn [fold_left]. reflexivity.
  - rewrite filter_cons_False by exact Hne. cbn [filter map].
    rewrite app_nil_r. lra.
Qed.

Lemma line_of_snoc (l : list Z) (cl : list Real) (r x : Z) (c : Real)
    (ln : Report.line) :
  length l = length cl -> r <> x ->
  Report.line_of l cl ln x -> Report.line_of (l ++ [r]) (cl ++ [c]) ln x.
Proof.
  intros Hl Hne. destruct ln as [[j nbt] mycost]. cbn.
  intros (-> & -> & Hc). rewrite blocks_of_rank_snoc, rank_cost_snoc by auto.
  destruct (decide (r = x)); [contradiction|].
  split; [reflexivity|]. split; [lia|]. rewrite Hc. lra.
Qed.

Lemma rank_absent (l : list Z) (cl : list Real) (x : Z) :
  (forall y, y ∈ l -> y <> x) ->
  LoadBalancing.blocks_of_rank l x = 0%nat /\
  (Report.rank_cost l cl x == 0)%Q.
Proof.
  intros Hl. unfold LoadBalancing.blocks_of_rank, Report.rank_cost.
  revert cl. induction l as [|y l IH]; intros cl; [split; reflexivity|].
  rewrite filter_cons_False by (apply Hl; left).
  destruct (IH ltac:(intros z Hz; apply Hl; now right) (tail cl)) as [H1 H2].
  split; [exact H1|]. destruct cl as [|c cl]; [reflexivity|].
  cbn [zip_with]. rewrite filter_cons_False by (cbn; apply Hl; left).
  exact H2.
Qed.

Lemma Forall2_impl_elem {A B} (P Q : A -> B -> Prop) (l : list A)
    (k : list B) :
  Forall2 P l k -> (forall x y, y ∈ k -> P x y -> Q x y) -> Forall2 Q l k.
Proof.
  induction 1 as [|x y l k HP HF IH]; intros HQ; constructor.
  - apply HQ; [now left|exact HP].
  - apply IH. intros x' y' Hy. apply HQ. now right.
Qed.

Section Report.

Variable ranklist : list Z.
Variable costlist : list Real.
Hypothesis Hlen : length costlist = length ranklist.
Hypothesis Hfirst : ranklist !! O = Some 0.
Hypothesis Hstep : forall i r r',
  ranklist !! i = Some r -> ranklist !! S i = Some r' ->
  r' = r \/ r' = r + 1.

(** After [m] blocks the lines printed, with the line of the rank in hand,
    are the report of the first [m] blocks. *)
Lemma report_prefix (m : nat) :
  (m <= length ranklist)%nat ->
  exists j nbt mycost out,
    fold_left (Report.step ranklist costlist) (seq 0 m) (0, 0, 0%Q, [])
    = (j, nbt, mycost, out) /\
    0 <= j /\
    (forall y, y ∈ take m ranklist -> y <= j) /\
    (forall k, m = S k -> ranklist !! k = Some j) /\
    (m = O -> j = 0) /\
    Forall2 (Report.line_of (take m ranklist) (take m costlist))
      (out ++ [(j, nbt, mycost)]) (zrange 0 j).
Proof using All.
  induction m as [|m IH]; intros Hm.
  - exists 0, 0, 0%Q, []. cbn [seq fold_left take app].
    split; [reflexivity|]. split; [lia|].
    split; [intros y Hy; inversion Hy|].
    split; [discriminate|]. split; [reflexivity|].
    change (zrange 0 0) with [0]. repeat constructor.
  - destruct IH as (j & nbt & mycost & out & Hfold & Hj & Hle & Hlast & Hz
                    & HF); [lia|].
    destruct (lookup_lt_is_Some_2 ranklist m) as [r Hr]; [lia|].
    destruct (lookup_lt_is_Some_2 costlist m) as [c Hc]; [lia|].
    rewrite seq_S, fold_left_app, Hfold. cbn [fold_left Nat.add].
    unfold Report.step. unfold zread, qread. rewrite Hr, Hc.
    cbn [default from_option id].
    rewrite (take_S_r _ _ _ Hr), (take_S_r _ _ _ Hc).
    assert (Hl : length (take m ranklist) = length (take m costlist)).
    { rewrite !length_take. lia. }
    assert (Hj' : zrange 0 j = zrange 0 (j - 1) ++ [j]).
    { destruct (Z.eq_dec j 0) as [->|Hne].
      - reflexivity.
      - replace j with (j - 1 + 1) at 1 by lia. rewrite zrange_snoc by lia.
        do 2 f_equal. lia. }
    destruct (Z.eqb_spec r j) as [->|Hne].
    + exists j, (nbt + 1), (mycost + c)%Q, out.
      split; [reflexivity|]. split; [exact Hj|]. split; [|split; [|split]].
      * intros y Hy. apply elem_of_app in Hy as [Hy|Hy]; [auto|].
        apply list_elem_of_singleton in Hy. lia.
      * intros k Hk. injection Hk as <-. exact Hr.
      * discriminate.
      * rewrite Hj' in HF |- *.
        apply Forall2_app_inv_l in HF as (k1 & k2 & H1 & H2 & Hk).
        destruct k2 as [|z [|]]; try (inversion H2; fail).
        { inversion H2 as [|? ? ? ? Hcur Hnil]. subst.
          apply app_inj_tail in Hk as [<- <-].
          apply Forall2_app.
          - apply (Forall2_impl_elem _ _ _ _ H1). intros ln y Hy.
            apply elem_of_zrange in Hy. apply line_of_snoc; [exact Hl|lia].
          - constructor; [|constructor]. cbn in Hcur |- *.
            destruct Hcur as (_ & -> & Hcost).
            rewrite blocks_of_rank_snoc, rank_cost_snoc by auto.
            destruct (decide (j = j)); [|contradiction].
            split_and!; auto; [lia|rewrite Hcost; reflexivity]. }
        { inversion H2 as [|? ? ? ? _ Hnil]. inversion Hnil. }
    + assert (Hr1 : r = j + 1).
      { destruct m as [|k].
        - rewrite Hfirst in Hr. injection Hr as <-. specialize (Hz eq_refl).
          lia.
        - destruct (Hstep k j r (Hlast k eq_refl) Hr); [contradiction|].
          assumption. }
      subst r. cbn [negb].
      exists (j + 1), 1, c, (out ++ [(j, nbt, mycost)]).
      split; [reflexivity|]. split; [lia|]. split; [|split; [|split]].
      * intros y Hy. apply elem_of_app in Hy as [Hy|Hy].
        -- specialize (Hle y Hy). lia.
        -- apply list_elem_of_singleton in Hy. lia.
      * intros k Hk. injection Hk as <-. exact Hr.
      * discriminate.
      * rewrite zrange_snoc by exact Hj. apply Forall2_app.
        -- apply (Forall2_impl_elem _ _ _ _ HF). intros ln y Hy.
           apply elem_of_zrange in Hy. apply line_of_snoc; [exact Hl|lia].
        -- constructor; [|constructor]. cbn.
           rewrite blocks_of_rank_snoc, rank_cost_snoc by auto.
           destruct (decide (j + 1 = j + 1)); [|contradiction].
           destruct (rank_absent (take m ranklist) (take m costlist) (j + 1))
             as [H0 H0'].
           { intros y Hy. specialize (Hle y Hy). lia. }
           rewrite H0, H0'. split; [reflexivity|]. split; [reflexivity|lra].
Qed.

End Report.

(** X21: for a rank list that starts at rank 0 and grows by at most one
    from a block to the next, as [LoadBalancing] leaves it when no rank is
    empty, the report at the end of [MeshTest] has one line for every rank
    from 0 to the last one, in order, and each line gives the number of
    blocks of its rank and the sum of their costs. *)
Theorem MeshTest_report_ranks (ranklist : list Z) (costlist : list Real) :
  length costlist = length ranklist ->
  ranklist !! O = Some 0 ->
  (forall i r r', ranklist !! i = Some r -> ranklist !! S i = Some r' ->
                  r' = r \/ r' = r + 1) ->
  exists rlast,
    last ranklist = Some rlast /\
    Forall2 (Report.line_of ranklist costlist)
      (Report.report (length ranklist) ranklist costlist) (zrange 0 rlast).
Proof.
  intros Hlen Hfirst Hstep.
  destruct (report_prefix ranklist costlist Hlen Hfirst Hstep
              (length ranklist) ltac:(lia))
    as (j & nbt & mycost & out & Hfold & Hj & _ & Hlast & _ & HF).
  rewrite firstn_all in HF.
  rewrite <- Hlen, firstn_all in HF.
  exists j. split.
  - rewrite last_lookup. destruct ranklist as [|r rl]; [discriminate|].
    cbn [length Nat.pred]. apply Hlast. reflexivity.
  - unfold Report.report. rewrite Hfold. exact HF.
Qed.

(** Four blocks of costs 1, 2, 1, 2 on two ranks. *)
Lemma MeshTest_report_ranks_witness :
  Report.report 4 [0; 0; 1; 1] [1#1; 2#1; 1#1; 2#1]%Q
  = [(0, 2, (0 + (1#1) + (2#1))%Q); (1, 2, ((1#1) + (2#1))%Q)] /\
  exists rlast,
    last [0; 0; 1; 1] = Some rlast /\
    Forall2 (Report.line_of [0; 0; 1; 1] [1#1; 2#1; 1#1; 2#1]%Q)
      (Report.report 4 [0; 0; 1; 1] [1#1; 2#1; 1#1; 2#1]%Q)
      (zrange 0 rlast).
Proof.
  split; [vm_compute; reflexivity|].
  apply (MeshTest_report_ranks [0; 0; 1; 1] [1#1; 2#1; 1#1; 2#1]%Q).
  - reflexivity.
  - reflexivity.
  - intros [|[|[|[|i]]]] r r' Hr Hr'; cbn in Hr, Hr'; simplify_eq; lia.
Defined.

(** ** Adaptive mesh refinement: the gathered lists of the flagged blocks *)

Section Gathered.

Variable flag : Z.

Local Abbreviation seg blocks :=
  (map AMR.fl_loc (filter (fun b => AMR.refine_flag_ b = flag) blocks)).

Lemma count_from (blocks : list AMR.flagged) (c : Z) :
  fold_left (fun c b => if AMR.refine_flag_ b =? flag then c + 1 else c)
    blocks c
  = c + Z.of_nat (length (seg blocks)).
Proof.
  revert c. induction blocks as [|b bs IH]; intros c; [cbn; lia|].
  cbn [fold_left]. rewrite IH.
  destruct (Z.eqb_spec (AMR.refine_flag_ b) flag) as [E|E].
  - rewrite filter_cons_True by exact E. cbn [map length]. lia.
  - rewrite filter_cons_False by exact E. lia.
Qed.

Lemma count_length (blocks : list AMR.flagged) :
  Gather.count flag blocks = Z.of_nat (length (seg blocks)).
Proof. unfold Gather.count. rewrite count_from. lia. Qed.

Lemma collect_fold (blocks : list AMR.flagged) (start : Z)
    (buf : list LogicalLocation) :
  0 <= start ->
  let st := fold_left (fun st b =>
                         if AMR.refine_flag_ b =? flag
                         then (st.1 + 1,
                               <[Z.to_nat st.1 := AMR.fl_loc b]> st.2)
                         else st)
                      blocks (start, buf) in
  length st.2 = length buf /\
  (forall i : nat, (i < Z.to_nat start)%nat -> st.2 !! i = buf !! i) /\
  (forall (i : nat) x, seg blocks !! i = Some x ->
     (Z.to_nat start + i < length buf)%nat ->
     st.2 !! (Z.to_nat start + i)%nat = Some x).
Proof.
  revert start buf. induction blocks as [|b bs IH]; intros start buf Hs.
  - cbn. split_and!; auto. intros i x H. discriminate.
  - cbn [fold_left]. cbn [fst snd].
    destruct (Z.eqb_spec (AMR.refine_flag_ b) flag) as [E|E].
    + destruct (IH (start + 1) (<[Z.to_nat start := AMR.fl_loc b]> buf)
                  ltac:(lia)) as (H1 & H2 & H3).
      cbv zeta. rewrite length_insert in H1, H3.
      split; [exact H1|]. split.
      * intros i Hi. rewrite H2 by lia. apply list_lookup_insert_ne. lia.
      * rewrite filter_cons_True by exact E. cbn [map].
        intros [|i] x Hx Hi.
        -- cbn in Hx. injection Hx as <-. rewrite Nat.add_0_r.
           rewrite H2 by lia. apply list_lookup_insert_eq. lia.
        -- cbn in Hx. replace (Z.to_nat start + S i)%nat
             with (Z.to_nat (start + 1) + i)%nat by lia.
           apply H3; [exact Hx|lia].
    + destruct (IH start buf Hs) as (H1 & H2 & H3). cbv zeta.
      rewrite filter_cons_False by exact E. auto.
Qed.

(** The part of the array that a rank has filled. *)
Lemma collect_segment (blocks : list AMR.flagged) (start : Z)
    (buf : list LogicalLocation) :
  0 <= start ->
  (Z.to_nat start + length (seg blocks) <= length buf)%nat ->
  take (length (seg blocks))
       (drop (Z.to_nat start) (Gather.collect flag blocks start buf))
  = seg blocks.
Proof.
  intros Hs Hfit. unfold Gather.collect.
  destruct (collect_fold blocks start buf Hs) as (H1 & _ & H3).
  cbv zeta in H1, H3. apply list_eq. intros i.
  destruct (le_lt_dec (length (seg blocks)) i) as [Hi|Hi].
  - rewrite lookup_take_ge by lia. symmetry. apply lookup_ge_None_2. lia.
  - rewrite lookup_take_lt by lia. rewrite lookup_drop.
    destruct (lookup_lt_is_Some_2 (seg blocks) i Hi) as [x Hx].
    rewrite Hx. apply H3; [exact Hx|lia].
Qed.

Lemma collect_length (blocks : list AMR.flagged) (start : Z)
    (buf : list LogicalLocation) :
  0 <= start -> length (Gather.collect flag blocks start buf) = length buf.
Proof.
  intros Hs. unfold Gather.collect.
  destruct (collect_fold blocks start buf Hs) as (H1 & _). exact H1.
Qed.

(** The displacement of a rank is the number of flagged blocks of the
    ranks before it. *)
Lemma displacements_from (ns : list Z) (d0 : Z) (out0 : list Z) :
  let st := fold_left (fun st n => (st.1 + n, st.2 ++ [st.1])) ns (d0, out0) in
  st.1 = d0 + foldr Z.add 0 ns /\
  st.2 = out0 ++ map (fun r => d0 + foldr Z.add 0 (take r ns))
                     (seq 0 (length ns)).
Proof.
  revert d0 out0. induction ns as [|n ns IH]; intros d0 out0.
  - cbn. rewrite app_nil_r. split; [lia|reflexivity].
  - cbn [fold_left fst snd]. destruct (IH (d0 + n) (out0 ++ [d0])) as [H1 H2].
    cbv zeta. rewrite H1, H2. cbn [foldr length seq map take].
    split; [lia|]. rewrite <- app_assoc. cbn [app]. f_equal.
    rewrite Z.add_0_r. f_equal. rewrite <- seq_shift, map_map.
    apply map_ext. intros r. cbn [take foldr]. lia.
Qed.

Lemma displacements_lookup (ns : list Z) (r : nat) :
  (r < length ns)%nat ->
  Gather.displacements ns !! r = Some (foldr Z.add 0 (take r ns)).
Proof.
  intros Hr. unfold Gather.displacements.
  destruct (displacements_from ns 0 []) as [_ H]. cbv zeta in H.
  rewrite H. cbn [app]. rewrite list_lookup_fmap, lookup_seq_lt by exact Hr.
  reflexivity.
Qed.

Lemma total_foldr (ns : list Z) : Gather.total ns = foldr Z.add 0 ns.
Proof.
  unfold Gather.total.
  assert (H : forall a, fold_left Z.add ns a = a + foldr Z.add 0 ns).
  { induction ns as [|n ns IH]; intros a; cbn; [lia|]. rewrite IH. lia. }
  rewrite H. lia.
Qed.

Lemma sum_counts (ranks : list (list AMR.flagged)) :
  foldr Z.add 0 (Gather.counts flag ranks)
  = Z.of_nat (length (concat (map (fun blocks => seg blocks) ranks))).
Proof.
  unfold Gather.counts. induction ranks as [|bs ranks IH]; [reflexivity|].
  cbn [map foldr concat]. rewrite IH, count_length, length_app. lia.
Qed.

Lemma seg_concat (ranks : list (list AMR.flagged)) :
  concat (map (fun blocks => seg blocks) ranks) = seg (concat ranks).
Proof.
  induction ranks as [|bs ranks IH]; [reflexivity|].
  cbn [map concat]. rewrite filter_app, map_app, IH. reflexivity.
Qed.

Lemma concat_take_length {A} (l : list (list A)) (k : nat) :
  (length (concat (take k l)) <= length (concat l))%nat.
Proof.
  revert k. induction l as [|x l IH]; intros [|k]; cbn; try lia.
  rewrite !length_app. specialize (IH k). lia.
Qed.

Lemma concat_take_S {A} (l : list (list A)) (k : nat) (x : list A) :
  l !! k = Some x -> concat (take (S k) l) = concat (take k l) ++ x.
Proof.
  intros H. rewrite (take_S_r _ _ _ H), concat_app. cbn. now rewrite app_nil_r.
Qed.

Section Ranks.

Variable ranks : list (list AMR.flagged).
Variable fresh : list (list LogicalLocation).
Variable my_rank : nat.
Hypothesis Hmy : (my_rank < length ranks)%nat.
Hypothesis Hfresh : length fresh = length ranks.
Hypothesis Hsize : forall r buf, fresh !! r = Some buf ->
  Z.of_nat (length buf) = Gather.total (Gather.counts flag ranks).

Local Abbreviation segs := (map (fun blocks => seg blocks) ranks).
Local Abbreviation ns := (Gather.counts flag ranks).
Local Abbreviation ds := (Gather.displacements (Gather.counts flag ranks)).
Local Abbreviation bufs :=
  (imap (fun r blocks =>
           Gather.collect flag blocks (zread ds r) (default [] (fresh !! r)))
        ranks).

Lemma total_segs :
  Gather.total ns = Z.of_nat (length (concat segs)).
Proof using All. rewrite total_foldr. apply sum_counts. Qed.

Lemma rank_facts (k : nat) (blocks : list AMR.flagged) :
  ranks !! k = Some blocks ->
  zread ns k = Z.of_nat (length (seg blocks)) /\
  zread ds k = Z.of_nat (length (concat (take k segs))) /\
  (length (concat (take k segs)) + length (seg blocks)
   <= length (concat segs))%nat /\
  exists buf,
    fresh !! k = Some buf /\ length buf = length (concat segs) /\
    bufs !! k
    = Some (Gather.collect flag blocks
              (Z.of_nat (length (concat (take k segs)))) buf).
Proof using All.
  intros Hk. pose proof (lookup_lt_Some _ _ _ Hk) as Hlt.
  assert (Hn : zread ns k = Z.of_nat (length (seg blocks))).
  { unfold zread, Gather.counts. rewrite list_lookup_fmap, Hk. cbn.
    apply count_length. }
  assert (Hd : zread ds k = Z.of_nat (length (concat (take k segs)))).
  { unfold zread. rewrite displacements_lookup
      by (unfold Gather.counts; rewrite length_map; exact Hlt).
    cbn [default from_option id]. unfold Gather.counts.
    rewrite <- fmap_take. rewrite <- fmap_take.
    exact (sum_counts (take k ranks)). }
  assert (Hle : (length (concat (take k segs)) + length (seg blocks)
                 <= length (concat segs))%nat).
  { pose proof (concat_take_length segs (S k)) as H.
    rewrite (concat_take_S segs k (seg blocks)) in H
      by (rewrite list_lookup_fmap, Hk; reflexivity).
    rewrite length_app in H. exact H. }
  split; [exact Hn|]. split; [exact Hd|]. split; [exact Hle|].
  destruct (lookup_lt_is_Some_2 fresh k) as [buf Hb]; [lia|].
  exists buf. split; [exact Hb|]. split.
  - pose proof (Hsize k buf Hb) as H. rewrite total_segs in H. lia.
  - rewrite list_lookup_imap, Hk. cbn. rewrite Hd, Hb. reflexivity.
Qed.

(** After the parts of the first [k] ranks are in place, the array starts
    with the flagged blocks of these ranks. *)
Lemma gather_prefix (k : nat) :
  (k <= length ranks)%nat ->
  let buf :=
    foldl (fun buf r =>
             Gather.place buf (default [] (bufs !! r)) (zread ds r)
                          (zread ns r))
          (default [] (bufs !! my_rank)) (seq 0 k) in
  length buf = length (concat segs) /\
  take (length (concat (take k segs))) buf = concat (take k segs).
Proof using All.
  induction k as [|k IH]; intros Hk; cbv zeta.
  - cbn [seq foldl take concat length]. split; [|reflexivity].
    destruct (lookup_lt_is_Some_2 ranks my_rank Hmy) as [blocks Hb].
    destruct (rank_facts my_rank blocks Hb)
      as (_ & _ & _ & buf & _ & Hlen & ->).
    cbn [default from_option id]. rewrite collect_length by lia. exact Hlen.
  - destruct (IH ltac:(lia)) as [Hlen Htake]. cbv zeta in Hlen, Htake.
    rewrite seq_S, foldl_app. cbn [foldl Nat.add].
    set (acc := foldl _ _ (seq 0 k)) in *.
    destruct (lookup_lt_is_Some_2 ranks k ltac:(lia)) as [blocks Hb].
    destruct (rank_facts k blocks Hb)
      as (Hn & Hd & Hle & buf & _ & Hbl & ->).
    cbn [default from_option id]. rewrite Hn, Hd.
    pose proof (collect_segment blocks
                  (Z.of_nat (length (concat (take k segs)))) buf
                  ltac:(apply Nat2Z.is_nonneg)
                  ltac:(rewrite Nat2Z.id, Hbl; exact Hle)) as Hseg.
    rewrite Nat2Z.id in Hseg.
    unfold Gather.place. rewrite <- Nat2Z.inj_add, !Nat2Z.id.
    rewrite Hseg, Htake.
    rewrite (concat_take_S segs k (seg blocks))
      by (rewrite list_lookup_fmap, Hb; reflexivity).
    split.
    + rewrite !length_app, length_drop. lia.
    + rewrite app_assoc. rewrite take_app_length. reflexivity.
Qed.

Lemma gathered_segs :
  Gather.gathered flag ranks fresh my_rank = seg (concat ranks).
Proof using All.
  unfold Gather.gathered, Gather.Allgatherv. cbv zeta.
  rewrite length_imap.
  destruct (gather_prefix (length ranks) ltac:(lia)) as [Hlen Htake].
  cbv zeta in Hlen, Htake.
  assert (Hall : take (length ranks) segs = segs).
  { apply take_ge. rewrite length_map. lia. }
  rewrite Hall in Htake. rewrite <- Hlen in Htake.
  rewrite firstn_all in Htake. rewrite Htake. apply seg_concat.
Qed.

End Ranks.

End Gathered.

(** X22: the array [lref] or [lderef] that a rank holds after the gather
    lists the flagged blocks of all ranks, in the order of the ranks and,
    within a rank, of its block list, whatever the newly allocated arrays
    held; [tnref] or [tnderef] is their number.  For the flag -1 these are
    the list and the number that the scan of the derefined blocks reads. *)
Theorem gathered_lists (flag : Z) (ranks : list (list AMR.flagged))
    (fresh : list (list LogicalLocation)) (my_rank : nat) :
  (my_rank < length ranks)%nat ->
  length fresh = length ranks ->
  (forall r buf, fresh !! r = Some buf ->
     Z.of_nat (length buf) = Gather.total (Gather.counts flag ranks)) ->
  let flagged := filter (fun b => AMR.refine_flag_ b = flag) (concat ranks) in
  Gather.gathered flag ranks fresh my_rank = map AMR.fl_loc flagged /\
  Gather.total (Gather.counts flag ranks) = Z.of_nat (length flagged) /\
  (flag = -1 ->
   Gather.gathered flag ranks fresh my_rank = AMR.lderef (concat ranks) /\
   Gather.total (Gather.counts flag ranks) = AMR.tnderef (concat ranks)).
Proof.
  intros Hmy Hfresh Hsize flagged.
  assert (H1 : Gather.gathered flag ranks fresh my_rank
               = map AMR.fl_loc flagged).
  { exact (gathered_segs flag ranks fresh my_rank Hmy Hfresh Hsize). }
  assert (H2 : Gather.total (Gather.counts flag ranks)
               = Z.of_nat (length flagged)).
  { rewrite total_foldr, sum_counts, seg_concat, length_map. reflexivity. }
  split; [exact H1|]. split; [exact H2|].
  intros ->. split; [exact H1|exact H2].
Qed.

(** Two ranks with two blocks each; the blocks flagged -1 are the two of
    rank 0 and the second one of rank 1. *)
Lemma gathered_lists_witness :
  let ranks :=
    [[AMR.mkFlagged (mkLoc 0 0 0 2) (-1); AMR.mkFlagged (mkLoc 1 0 0 2) (-1)];
     [AMR.mkFlagged (mkLoc 2 0 0 2) 0; AMR.mkFlagged (mkLoc 3 0 0 2) (-1)]] in
  let junk := mkLoc 9 9 9 9 in
  let fresh := [[junk; junk; junk]; [junk; junk; junk]] in
  Gather.gathered (-1) ranks fresh 1
  = [mkLoc 0 0 0 2; mkLoc 1 0 0 2; mkLoc 3 0 0 2] /\
  Gather.gathered (-1) ranks fresh 1 = AMR.lderef (concat ranks) /\
  Gather.total (Gather.counts (-1) ranks) = AMR.tnderef (concat ranks).
Proof.
  intros ranks junk fresh.
  split; [vm_compute; reflexivity|].
  destruct (gathered_lists (-1) ranks fresh 1) as (_ & _ & H).
  - cbn. lia.
  - reflexivity.
  - intros [|[|r]] buf Hb; cbn in Hb; simplify_eq; vm_compute; reflexivity.
  - exact (H eq_refl).
Defined.

(** ** Adaptive mesh refinement: the parts of a derefined block *)

Lemma land_bit (o : Z) : 0 <= o <= 1 -> Z.land o 1 = o.
Proof.
  intros H. assert (Ho : o = 0 \/ o = 1) by lia.
  destruct Ho as [->| ->]; reflexivity.
Qed.

Lemma land_1_bit (x : Z) : 0 <= Z.land x 1 <= 1.
Proof.
  rewrite land_1. pose proof (Z.mod_pos_bound x 2 ltac:(lia)). lia.
Qed.

(** One axis of the new block: the part of the child at [ox] as step 7
    and as step 8 compute it, and the halves of the axis. *)
Lemma f2c_axis_halves (NGHOST n f s e cs ce ox : Z) :
  even_axis NGHOST n f s e cs ce ->
  0 <= ox <= 1 ->
  let local := (s + Z.quot (ox * n) 2,
                s + Z.quot (ox * n) 2 + Z.quot n 2 - f) in
  let remote := if ox =? 0 then (s, s + Z.quot n 2 - f)
                else (s + Z.quot n 2, e) in
  local = remote /\
  (ox <= f ->
   forall x, s <= x <= e ->
     (remote.1 <= x <= remote.2 <->
      ox = if x <? s + Z.quot (n + 1) 2 then 0 else 1)).
Proof.
  intros H Hox.
  pose proof (even_axis_half _ _ _ _ _ _ _ H) as (H1 & H2 & H3 & H4 & H5 & H6).
  assert (Ho : ox = 0 \/ ox = 1) by lia.
  assert (Hq : Z.quot (1 * n) 2 = Z.quot n 2) by (f_equal; lia).
  destruct H as [(-> & -> & -> & -> & -> & ->)
                |(Hn & Hr & -> & -> & -> & ->)].
  - destruct Ho as [->| ->]; cbv zeta;
      change (Z.quot (0 * 1) 2) with 0; change (Z.quot (1 * 1) 2) with 0;
      change (Z.quot 1 2) with 0; change (Z.quot (1 + 1) 2) with 1;
      change (0 =? 0) with true; change (1 =? 0) with false; cbn [fst snd];
      (split; [reflexivity|]);
      intros Hf x Hx; assert (x = 0) by lia; subst x;
      change (0 <? 0 + 1) with true; split; intros; lia.
  - destruct Ho as [->| ->]; cbv zeta.
    + change (0 * n) with 0. change (Z.quot 0 2) with 0.
      change (0 =? 0) with true. cbn [fst snd].
      split; [f_equal; lia|]. intros _ x Hx.
      destruct (Z.ltb_spec x (NGHOST + Z.quot (n + 1) 2)); split; intros; lia.
    + rewrite Hq. change (1 =? 0) with false. cbn [fst snd].
      split; [f_equal; lia|]. intros _ x Hx.
      destruct (Z.ltb_spec x (NGHOST + Z.quot (n + 1) 2)); split; intros; lia.
Qed.

Lemma half_of_axis (NGHOST n f s e cs ce x : Z) :
  even_axis NGHOST n f s e cs ce -> s <= x <= e ->
  0 <= (if x <? s + Z.quot (n + 1) 2 then 0 else 1) <= f.
Proof.
  intros [(-> & -> & -> & -> & -> & ->)|(Hn & Hr & -> & -> & -> & ->)] Hx.
  - assert (x = 0) by lia. subst x. change (Z.quot (1 + 1) 2) with 1.
    change (0 <? 0 + 1) with true. lia.
  - destruct (x <? _); lia.
Qed.

(** X23: for blocks with an even number of cells along every axis of the
    problem, the part of a new block that step 7 fills from a child on the
    same rank is the part that step 8 fills from the buffer of a child on
    another rank, and the parts of the children tile the block: every cell
    of the block lies in the part of exactly one child position. *)
Theorem f2c_parts_tile (NGHOST : Z) (ms bs : Migration.RegionSize) :
  0 < Migration.nx1 bs /\ Z.rem (Migration.nx1 bs) 2 = 0 ->
  Migration.nx2 bs = 1 \/
    (1 < Migration.nx2 bs /\ Z.rem (Migration.nx2 bs) 2 = 0) ->
  Migration.nx3 bs = 1 \/
    (1 < Migration.nx3 bs /\ Z.rem (Migration.nx3 bs) 2 = 0) ->
  (1 <? Migration.nx2 ms) = (1 <? Migration.nx2 bs) ->
  (1 <? Migration.nx3 ms) = (1 <? Migration.nx3 bs) ->
  let pb := Migration.new_MeshBlock NGHOST bs in
  (forall lloc,
     Transfer.local_f2c_box ms pb lloc = Transfer.f2c_box ms pb lloc) /\
  forall i j k,
    Transfer.inside (Migration.is_ pb, Migration.ie pb, Migration.js pb,
                     Migration.je pb, Migration.ks pb, Migration.ke pb)
                    i j k ->
    exists o1 o2 o3,
      (0 <= o1 <= 1 /\ 0 <= o2 <= Migration.f2 ms /\
       0 <= o3 <= Migration.f3 ms) /\
      forall p1 p2 p3 lev,
        0 <= p1 <= 1 -> 0 <= p2 <= Migration.f2 ms ->
        0 <= p3 <= Migration.f3 ms ->
        (Transfer.inside (Transfer.f2c_box ms pb (mkLoc p1 p2 p3 lev)) i j k
         <-> (p1, p2, p3) = (o1, o2, o3)).
Proof.
  intros Hnx1 Hnx2 Hnx3 Hf2 Hf3.
  pose proof (axis1 NGHOST ms bs Hnx1 Hnx2 Hnx3 Hf2 Hf3) as A1.
  pose proof (axis2 NGHOST ms bs Hnx2 Hf2 Hf3) as A2.
  pose proof (axis3 NGHOST ms bs Hnx3 Hf2 Hf3) as A3.
  pose proof (new_MeshBlock_size NGHOST ms bs Hf2 Hf3) as Hbs.
  assert (Hb2 : 0 <= Migration.f2 ms <= 1)
    by (unfold Migration.f2; destruct (1 <? Migration.nx2 ms); lia).
  assert (Hb3 : 0 <= Migration.f3 ms <= 1)
    by (unfold Migration.f3; destruct (1 <? Migration.nx3 ms); lia).
  generalize dependent (Migration.new_MeshBlock NGHOST bs).
  intros pb A1 A2 A3 Hbs. cbv zeta.
  split.
  - intros lloc. unfold Transfer.local_f2c_box, Transfer.f2c_box.
    rewrite Hbs. cbv zeta.
    destruct (f2c_axis_halves _ _ _ _ _ _ _ (Z.land (lx1 lloc) 1) A1
                (land_1_bit _)) as [E1 _].
    destruct (f2c_axis_halves _ _ _ _ _ _ _ (Z.land (lx2 lloc) 1) A2
                (land_1_bit _)) as [E2 _].
    destruct (f2c_axis_halves _ _ _ _ _ _ _ (Z.land (lx3 lloc) 1) A3
                (land_1_bit _)) as [E3 _].
    cbv zeta in E1, E2, E3. rewrite <- E1, <- E2, <- E3. reflexivity.
  - intros i j k (Hi & Hj & Hk).
    exists (if i <? Migration.is_ pb + Z.quot (Migration.nx1 bs + 1) 2
            then 0 else 1),
           (if j <? Migration.js pb + Z.quot (Migration.nx2 bs + 1) 2
            then 0 else 1),
           (if k <? Migration.ks pb + Z.quot (Migration.nx3 bs + 1) 2
            then 0 else 1).
    split.
    + split; [exact (half_of_axis _ _ _ _ _ _ _ i A1 Hi)|].
      split; [exact (half_of_axis _ _ _ _ _ _ _ j A2 Hj)
             |exact (half_of_axis _ _ _ _ _ _ _ k A3 Hk)].
    + intros p1 p2 p3 lev Hp1 Hp2 Hp3.
      unfold Transfer.f2c_box. rewrite Hbs. cbn [lx1 lx2 lx3]. cbv zeta.
      rewrite !land_bit by lia.
      destruct (f2c_axis_halves _ _ _ _ _ _ _ p1 A1 Hp1) as [_ T1].
      destruct (f2c_axis_halves _ _ _ _ _ _ _ p2 A2 ltac:(lia)) as [_ T2].
      destruct (f2c_axis_halves _ _ _ _ _ _ _ p3 A3 ltac:(lia)) as [_ T3].
      cbv zeta in T1, T2, T3.
      specialize (T1 ltac:(lia) i Hi). specialize (T2 ltac:(lia) j Hj).
      specialize (T3 ltac:(lia) k Hk).
      destruct (if p1 =? 0 then _ else _) as [a1 b1].
      destruct (if p2 =? 0 then _ else _) as [a2 b2].
      destruct (if p3 =? 0 then _ else _) as [a3 b3].
      cbn [fst snd Transfer.inside] in *.
      split.
      * intros (H1 & H2 & H3). apply T1 in H1. apply T2 in H2.
        apply T3 in H3. congruence.
      * intros E. injection E as E1 E2 E3.
        split; [apply T1; exact E1|]. split; [apply T2; exact E2|].
        apply T3; exact E3.
Qed.

(** Blocks of 4x4 cells with two ghost cells: the cell (5, 2) lies in the
    part of the child at (1, 0). *)
Lemma f2c_parts_tile_witness :
  let ms := Migration.mkRegionSize 16 8 1 in
  let pb := Migration.new_MeshBlock 2 (Migration.mkRegionSize 4 4 1) in
  Transfer.local_f2c_box ms pb (mkLoc 1 0 0 3)
  = Transfer.f2c_box ms pb (mkLoc 1 0 0 3) /\
  Transfer.inside (Transfer.f2c_box ms pb (mkLoc 1 0 0 3)) 5 2 0 /\
  exists o1 o2 o3,
    (0 <= o1 <= 1 /\ 0 <= o2 <= Migration.f2 ms /\
     0 <= o3 <= Migration.f3 ms) /\
    forall p1 p2 p3 lev,
      0 <= p1 <= 1 -> 0 <= p2 <= Migration.f2 ms ->
      0 <= p3 <= Migration.f3 ms ->
      (Transfer.inside (Transfer.f2c_box ms pb (mkLoc p1 p2 p3 lev)) 5 2 0
       <-> (p1, p2, p3) = (o1, o2, o3)).
Proof.
  intros ms pb.
  destruct (f2c_parts_tile 2 ms (Migration.mkRegionSize 4 4 1)
              (conj eq_refl eq_refl) (or_intror (conj eq_refl eq_refl))
              (or_introl eq_refl) eq_refl eq_refl) as [Hsame Htile].
  split; [apply Hsame|].
  split; [vm_compute; repeat split; discriminate|].
  apply (Htile 5 2 0). vm_compute. repeat split; discriminate.
Defined.

